(** * dict2json: the Python-literal lexer, parser and JSON emitter

    A shallow embedding of [src/pythonDictParser.ts].  JavaScript strings
    are sequences of UTF-16 code units, JavaScript numbers are IEEE-754
    binary64 values, and a plain JavaScript object is an ordered property
    list together with its prototype link.

    The classes [PythonDictLexer] and [PythonDictParser] become the modules
    [Lexer] and [Parser]: their mutable fields are passed as an explicit
    state, a [throw] is an [Err] result, and every [while] loop that is not
    structurally recursive takes a bound that the properties below show is
    never reached.  The built-ins the source calls ([parseInt], [Number],
    [String], [String.fromCharCode], [trim], property assignment and
    [JSON.stringify]) follow ECMAScript; the indent is an integer. *)

From Stdlib Require Import List Bool Arith NArith ZArith Lia Ascii String.
From Stdlib Require Import Sorting.Permutation Sorting.Sorted.
Import ListNotations.

Local Open Scope Z_scope.

(** ** JavaScript strings *)

(** One UTF-16 code unit. *)
Definition char := N.

(** A JavaScript string: its code units in order. *)
Definition jsstring := list char.

Definition ch (a : ascii) : char := N_of_ascii a.

Fixpoint str (s : string) : jsstring :=
  match s with
  | EmptyString => []
  | String a s' => ch a :: str s'
  end.

Definition inRange (lo hi c : char) : bool := (N.leb lo c && N.leb c hi)%bool.
Arguments inRange (lo hi c)%_N.

Fixpoint jsstring_eqb (a b : jsstring) : bool :=
  match a, b with
  | [], [] => true
  | x :: a', y :: b' => (N.eqb x y && jsstring_eqb a' b')%bool
  | _, _ => false
  end.

(** ** JavaScript numbers

    A Number is NaN, an infinity or a finite binary64 value
    [(-1)^neg * m * 2^e].  Finite values are kept canonical: [m] is odd,
    or [m = 0] and [e = 0]; the sign of zero is kept. *)

Inductive jsnum : Type :=
| JNaN
| JInf (neg : bool)
| JFin (neg : bool) (m : Z) (e : Z).

Definition jsnum_eqb (a b : jsnum) : bool :=
  match a, b with
  | JNaN, JNaN => true
  | JInf s, JInf t => Bool.eqb s t
  | JFin s m e, JFin t n f => (Bool.eqb s t && (m =? n) && (e =? f))%bool
  | _, _ => false
  end.

Fixpoint stripZeros (p : positive) (e : Z) : positive * Z :=
  match p with
  | xO p' => stripZeros p' (e + 1)
  | _ => (p, e)
  end.

Definition canon (neg : bool) (m e : Z) : jsnum :=
  match m with
  | Zpos p => let (q, e') := stripZeros p e in JFin neg (Zpos q) e'
  | _ => JFin neg 0 0
  end.

(** [roundRatio neg P Q] is the Number nearest to [P / Q] (for [0 <= P],
    [0 < Q]), ties to even, with gradual underflow below [2^-1022] and
    overflow to infinity from [2^1024 - 2^970] on. *)
Definition roundRatio (neg : bool) (P Q : Z) : jsnum :=
  if P <=? 0 then JFin neg 0 0 else
  let e0 := Z.log2 P - Z.log2 Q in
  let fl := if Q * 2 ^ Z.max 0 e0 <=? P * 2 ^ Z.max 0 (- e0) then e0 else e0 - 1 in
  let E := Z.max (fl - 52) (-1074) in
  let num := P * 2 ^ Z.max 0 (- E) in
  let den := Q * 2 ^ Z.max 0 E in
  let q := num / den in
  let r := num mod den in
  let M := if 2 * r <? den then q
           else if 2 * r =? den then (if Z.even q then q else q + 1)
           else q + 1 in
  if M =? 0 then JFin neg 0 0
  else if 1024 <=? Z.log2 M + E then JInf neg
  else canon neg M E.

(** The Number for a non-negative mathematical integer. *)
Definition numberOfInt (neg : bool) (n : Z) : jsnum := roundRatio neg n 1.

(** [M * 10^E] as a Number. *)
Definition numberOfDecimal (neg : bool) (M E : Z) : jsnum :=
  if 0 <=? E then roundRatio neg (M * 10 ^ E) 1
  else roundRatio neg M (10 ^ (- E)).

(** *** Decimal numerals *)

Fixpoint digitsAux (fuel : nat) (n : Z) (acc : jsstring) : jsstring :=
  match fuel with
  | O => acc
  | S f =>
      let acc' := Z.to_N (48 + n mod 10) :: acc in
      if n <? 10 then acc' else digitsAux f (n / 10) acc'
  end.

(** The base-10 numeral of a non-negative integer, no leading zeros. *)
Definition decimalDigits (n : Z) : jsstring :=
  digitsAux (S (Z.to_nat (Z.log2 n))) n [].

Definition numDigits (n : Z) : Z := Z.of_nat (List.length (decimalDigits n)).

(** *** Number::toString (radix 10)

    For a finite positive [x] the standard asks for integers [n], [k], [s]
    with [10^(k-1) <= s < 10^k], [s * 10^(n-k)] rounding to [x], and [k] as
    small as possible; of several such [s] the one nearest to [x], and
    of two equally near the even one.  [pointPos] finds [n]; [shortest]
    tries [k = 1, 2, ...] with the two [k]-digit neighbours of [x]. *)

Fixpoint belowOne (fuel : nat) (P Q : Z) (j : Z) : Z :=
  match fuel with
  | O => j
  | S f => if Q <=? P * 10 ^ j then j else belowOne f P Q (j + 1)
  end.

(** [n] with [10^(n-1) <= P/Q < 10^n]. *)
Definition pointPos (P Q : Z) : Z :=
  if Q <=? P then numDigits (P / Q)
  else 1 - belowOne 400 P Q 1.

Definition ratioOf (m e : Z) : Z * Z :=
  if 0 <=? e then (m * 2 ^ e, 1) else (m, 2 ^ (- e)).

Definition roundTrips (m e : Z) (s t : Z) : bool :=
  jsnum_eqb (numberOfDecimal false s t) (JFin false m e).

Fixpoint shortest (fuel : nat) (m e P Q n k : Z) : Z * Z * Z :=
  let t := n - k in
  let num := if 0 <=? t then P else P * 10 ^ (- t) in
  let den := if 0 <=? t then Q * 10 ^ t else Q in
  let lo := num / den in
  let hi := if num mod den =? 0 then lo else lo + 1 in
  let okLo := roundTrips m e lo t in
  let okHi := roundTrips m e hi t in
  let pick (s : Z) := if s =? 10 ^ k then (10 ^ (k - 1), k, n + 1) else (s, k, n) in
  let nearest :=
    if 2 * (num mod den) <? den then lo
    else if 2 * (num mod den) =? den then (if Z.even lo then lo else hi)
    else hi in
  match fuel with
  | O => pick nearest
  | S f =>
      if (okLo && okHi)%bool then pick nearest
      else if okLo then pick lo
      else if okHi then pick hi
      else shortest f m e P Q n (k + 1)
  end.

Definition zeros (n : Z) : jsstring := repeat (ch "0") (Z.to_nat n).

Definition formatNumber (s k n : Z) : jsstring :=
  let ds := decimalDigits s in
  if ((k <=? n) && (n <=? 21))%bool then ds ++ zeros (n - k)
  else if ((0 <? n) && (n <=? 21))%bool then
    firstn (Z.to_nat n) ds ++ [ch "."] ++ skipn (Z.to_nat n) ds
  else if ((-6 <? n) && (n <=? 0))%bool then
    str "0." ++ zeros (- n) ++ ds
  else
    let ex := n - 1 in
    let sign := if 0 <=? ex then ch "+" else ch "-" in
    let tail := [ch "e"; sign] ++ decimalDigits (Z.abs ex) in
    match ds with
    | [d] => d :: tail
    | d :: rest => d :: ch "." :: rest ++ tail
    | [] => tail
    end.

Definition Number_toString (x : jsnum) : jsstring :=
  match x with
  | JNaN => str "NaN"
  | JInf false => str "Infinity"
  | JInf true => str "-Infinity"
  | JFin neg m e =>
      if m =? 0 then str "0"
      else
        let (P, Q) := ratioOf m e in
        let n := pointPos P Q in
        let '(s, k, n') := shortest 16 m e P Q n 1 in
        (if neg then [ch "-"] else []) ++ formatNumber s k n'
  end.

(** *** White space, parseInt, Number(string), String.fromCharCode *)

(** The white space and line terminator code units that [trim],
    [parseInt] and [Number] strip. *)
Definition isStrWhiteSpace (c : char) : bool :=
  (inRange 9 13 c || N.eqb c 32 || N.eqb c 160 || N.eqb c 5760
   || inRange 8192 8202 c || N.eqb c 8232 || N.eqb c 8233 || N.eqb c 8239
   || N.eqb c 8287 || N.eqb c 12288 || N.eqb c 65279)%bool.

Fixpoint trimStart (s : jsstring) : jsstring :=
  match s with
  | c :: s' => if isStrWhiteSpace c then trimStart s' else s
  | [] => []
  end.

Definition trim (s : jsstring) : jsstring :=
  rev (trimStart (rev (trimStart s))).

(** The value of a digit in radix [R], if it is one. *)
Definition digitValue (R : Z) (c : char) : option Z :=
  let v := if inRange 48 57 c then Z.of_N c - 48
           else if inRange 97 122 c then Z.of_N c - 87
           else if inRange 65 90 c then Z.of_N c - 55
           else 36 in
  if v <? R then Some v else None.

Definition isRadixDigit (R : Z) (c : char) : bool :=
  match digitValue R c with Some _ => true | None => false end.

Fixpoint takeDigits (R : Z) (s : jsstring) : jsstring * jsstring :=
  match s with
  | c :: s' =>
      if isRadixDigit R c
      then let (ds, r) := takeDigits R s' in (c :: ds, r)
      else ([], s)
  | [] => ([], [])
  end.

(** The integer a digit string denotes in radix [R]. *)
Definition digitsValue (R : Z) (ds : jsstring) : Z :=
  fold_left (fun acc c => acc * R + match digitValue R c with Some v => v | None => 0 end) ds 0.

(** [parseInt(s, R)] for a radix [R] between 2 and 36: leading white space
    and a sign are skipped, a [0x] prefix too when [R] is 16, and the
    longest run of radix digits is read; no digit gives NaN. *)
Definition parseInt (s : jsstring) (R : Z) : jsnum :=
  let s1 := trimStart s in
  let neg := match s1 with c :: _ => N.eqb c (ch "-") | [] => false end in
  let s2 := match s1 with
            | c :: s' => if (N.eqb c (ch "+") || N.eqb c (ch "-"))%bool then s' else s1
            | [] => s1
            end in
  let s3 := match s2 with
            | z :: x :: s' =>
                if ((R =? 16) && N.eqb z (ch "0")
                    && (N.eqb x (ch "x") || N.eqb x (ch "X")))%bool
                then s' else s2
            | _ => s2
            end in
  match fst (takeDigits R s3) with
  | [] => JNaN
  | ds => numberOfInt neg (digitsValue R ds)
  end.

(** [Number(s)]: white space is trimmed; the empty string is [+0]; then
    a [0x], [0o] or [0b] integer, a signed [Infinity], or a signed decimal
    literal with optional fraction and exponent; anything else is NaN. *)
Definition prefixedInt (R : Z) (body : jsstring) : jsnum :=
  match takeDigits R body with
  | ((_ :: _) as ds, []) => numberOfInt false (digitsValue R ds)
  | _ => JNaN
  end.

Definition decimalLiteral (neg : bool) (s : jsstring) : jsnum :=
  let (ip, r1) := takeDigits 10 s in
  let '(fp, r2, dot) := match r1 with
                        | c :: r => if N.eqb c (ch ".")
                                    then let (f, r') := takeDigits 10 r in (f, r', true)
                                    else ([], r1, false)
                        | [] => ([], r1, false)
                        end in
  match ip ++ fp with
  | [] => JNaN
  | ds =>
      let M := digitsValue 10 ds in
      let E0 := - Z.of_nat (List.length fp) in
      match r2 with
      | [] => numberOfDecimal neg M E0
      | c :: r =>
          if (N.eqb c (ch "e") || N.eqb c (ch "E"))%bool then
            let '(eneg, r') := match r with
                               | d :: r'' =>
                                   if N.eqb d (ch "-") then (true, r'')
                                   else if N.eqb d (ch "+") then (false, r'')
                                   else (false, r)
                               | [] => (false, r)
                               end in
            match takeDigits 10 r' with
            | ((_ :: _) as es, []) =>
                let ev := digitsValue 10 es in
                numberOfDecimal neg M (E0 + (if eneg then - ev else ev))
            | _ => JNaN
            end
          else JNaN
      end
  end.

Definition Number_ofString (s : jsstring) : jsnum :=
  match trim s with
  | [] => JFin false 0 0
  | c :: r =>
      match r with
      | x :: body =>
          if (N.eqb c (ch "0") && (N.eqb x (ch "x") || N.eqb x (ch "X")))%bool
          then prefixedInt 16 body
          else if (N.eqb c (ch "0") && (N.eqb x (ch "o") || N.eqb x (ch "O")))%bool
          then prefixedInt 8 body
          else if (N.eqb c (ch "0") && (N.eqb x (ch "b") || N.eqb x (ch "B")))%bool
          then prefixedInt 2 body
          else
            let neg := N.eqb c (ch "-") in
            let u := if (N.eqb c (ch "+") || N.eqb c (ch "-"))%bool then r else c :: r in
            if jsstring_eqb u (str "Infinity") then JInf neg else decimalLiteral neg u
      | [] => decimalLiteral false [c]
      end
  end.

Definition isNaN (x : jsnum) : bool :=
  match x with JNaN => true | _ => false end.

(** The integer part of a finite Number, truncated toward zero. *)
Definition truncate (neg : bool) (m e : Z) : Z :=
  let a := if 0 <=? e then m * 2 ^ e else m / 2 ^ (- e) in
  if neg then - a else a.

(** [String.fromCharCode(x)]: the single code unit [ToUint16(x)]. *)
Definition fromCharCode (x : jsnum) : char :=
  match x with
  | JFin neg m e => Z.to_N (truncate neg m e mod 65536)
  | _ => 0%N
  end.

(** ** Tokens and errors *)

Inductive TokenType : Type :=
| STRING | NUMBER | TRUE | FALSE | NONE
| LBRACE | RBRACE | LBRACKET | RBRACKET | LPAREN | RPAREN
| COLON | COMMA | EOF.

Definition TokenType_eqb (a b : TokenType) : bool :=
  match a, b with
  | STRING, STRING | NUMBER, NUMBER | TRUE, TRUE | FALSE, FALSE | NONE, NONE
  | LBRACE, LBRACE | RBRACE, RBRACE | LBRACKET, LBRACKET | RBRACKET, RBRACKET
  | LPAREN, LPAREN | RPAREN, RPAREN | COLON, COLON | COMMA, COMMA | EOF, EOF => true
  | _, _ => false
  end.

Record Token : Type := mkToken { type : TokenType; value : jsstring; pos : nat }.

(** Every [throw new Error(...)] of the source, by its message. *)
Inductive Error : Type :=
| InputIsEmpty
    (* 'Input is empty' *)
| UnterminatedString (startPos : nat)
    (* `Unterminated string starting at position ${startPos}` *)
| UnterminatedTripleQuotedString (startPos : nat)
    (* `Unterminated triple-quoted string starting at position ${startPos}` *)
| EndOfInputInEscape
    (* 'Unexpected end of input in escape sequence' *)
| EndOfInputInUnicodeEscape
    (* 'Unexpected end of input in unicode escape' *)
| EndOfInputInHexEscape
    (* 'Unexpected end of input in hex escape' *)
| InvalidNumberAt (start : nat)
    (* `Invalid number at position ${start}` *)
| UnexpectedCharacter (c : char) (at_ : nat)
    (* `Unexpected character '${ch}' at position ${startPos}` *)
| Expected (want got : TokenType) (text : jsstring) (at_ : nat)
    (* `Expected ${want} but got ${got} ('${text}') at position ${pos}` *)
| UnexpectedToken (got : TokenType) (text : jsstring) (at_ : nat)
    (* `Unexpected token ${got} ('${text}') at position ${pos}` *)
| InvalidNumber (text : jsstring) (at_ : nat)
    (* `Invalid number '${text}' at position ${pos}` *)
| InvalidDictKey (got : TokenType) (text : jsstring) (at_ : nat)
    (* `Invalid dict key: ${got} ('${text}') at position ${pos}` *)
| ReadPastEnd
    (* a TypeError: a field of [tokens[pos]] read past the last token *)
| OutOfFuel.
    (* not an error of the program: a loop bound of this model ran out *)

(** The errors a string literal can end in. *)
Definition isStringError (e : Error) : bool :=
  match e with
  | UnterminatedString _ | UnterminatedTripleQuotedString _
  | EndOfInputInEscape | EndOfInputInUnicodeEscape | EndOfInputInHexEscape
  | OutOfFuel => true
  | _ => false
  end.

Inductive result (A : Type) : Type :=
| OK (a : A)
| Err (e : Error).
Arguments OK {A} a.
Arguments Err {A} e.

Definition bind {A B : Type} (r : result A) (k : A -> result B) : result B :=
  match r with
  | OK a => k a
  | Err e => Err e
  end.

Notation "'let*' x ':=' r 'in' k" := (bind r (fun x => k))
  (at level 10, x pattern, r at level 100, k at level 200).

(** ** The lexer ([class PythonDictLexer]) *)

Module Lexer.

(** The scanning state.  [rest] is the part of [this.input] from [this.pos]
    on, so [this.pos < this.length] reads [rest <> []], [this.input[this.pos
    + i]] reads [nth_error rest i] and [this.pos + 2 < this.length] reads
    [2 < length rest]. *)
Record t : Type := mk { rest : jsstring; pos : nat }.

Definition init (input : jsstring) : t := mk input 0.

(** [peek()]: the code unit at the cursor; [None] is the empty string. *)
Definition peek (lx : t) : option char := hd_error (rest lx).

(** [advance()]: steps over one code unit. *)
Definition advance (lx : t) : t := mk (tl (rest lx)) (S (pos lx)).

Definition at_ (lx : t) (i : nat) : option char := nth_error (rest lx) i.

Definition isChar (o : option char) (a : ascii) : bool :=
  match o with
  | Some c => N.eqb c (ch a)
  | None => false
  end.

Definition test (cls : char -> bool) (o : option char) : bool :=
  match o with
  | Some c => cls c
  | None => false
  end.

(** The character classes of the regular expressions in the source. *)
Definition isDigit (c : char) : bool := inRange 48 57 c.                 (* [0-9] *)
Definition isUnderscore (c : char) : bool := N.eqb c (ch "_").
Definition isDigit_ (c : char) : bool := (isDigit c || isUnderscore c)%bool. (* [0-9_] *)
Definition isHex_ (c : char) : bool :=                                   (* [0-9a-fA-F_] *)
  (isDigit c || inRange 97 102 c || inRange 65 70 c || isUnderscore c)%bool.
Definition isOct_ (c : char) : bool := (inRange 48 55 c || isUnderscore c)%bool. (* [0-7_] *)
Definition isBin_ (c : char) : bool := (inRange 48 49 c || isUnderscore c)%bool. (* [01_] *)
Definition isDigitOrDot (c : char) : bool := (isDigit c || N.eqb c (ch "."))%bool. (* [0-9.] *)
Definition isAlpha_ (c : char) : bool :=                                 (* [a-zA-Z_] *)
  (inRange 97 122 c || inRange 65 90 c || isUnderscore c)%bool.
Definition isIdent (c : char) : bool := (isAlpha_ c || isDigit c)%bool.  (* [a-zA-Z0-9_] *)

(** The inner loop of a comment: up to, not including, the next line feed. *)
Fixpoint skipLine (r : jsstring) (p : nat) : t :=
  match r with
  | c :: r' => if N.eqb c 10 then mk r p else skipLine r' (S p)
  | [] => mk [] p
  end.

Fixpoint skipWhitespaceAndComments (fuel : nat) (lx : t) : result t :=
  match fuel with
  | O => Err OutOfFuel
  | S f =>
      match peek lx with
      | None => OK lx
      | Some c =>
          if (N.eqb c 32 || N.eqb c 9 || N.eqb c 10 || N.eqb c 13)%bool
          then skipWhitespaceAndComments f (advance lx)
          else if N.eqb c (ch "#")
          then skipWhitespaceAndComments f (skipLine (rest lx) (pos lx))
          else OK lx
      end
  end.

(** [readEscapeSequence(quote)], entered with the cursor on the backslash. *)
Definition readEscapeSequence (lx : t) : result (jsstring * t) :=
  let lx := advance lx in
  match peek lx with
  | None => Err EndOfInputInEscape
  | Some c =>
      let lx := advance lx in
      if N.eqb c (ch "\") then OK ([ch "\"], lx)
      else if N.eqb c (ch "/") then OK ([ch "/"], lx)
      else if N.eqb c (ch "n") then OK ([10%N], lx)
      else if N.eqb c (ch "r") then OK ([13%N], lx)
      else if N.eqb c (ch "t") then OK ([9%N], lx)
      else if N.eqb c (ch "b") then OK ([8%N], lx)
      else if N.eqb c (ch "f") then OK ([12%N], lx)
      else if N.eqb c (ch "'") then OK ([ch "'"], lx)
      else if N.eqb c 34 then OK ([34%N], lx)
      else if N.eqb c (ch "0") then OK ([0%N], lx)
      else if N.eqb c (ch "u") then
        match rest lx with
        | h1 :: h2 :: h3 :: h4 :: r =>
            OK ([fromCharCode (parseInt [h1; h2; h3; h4] 16)], mk r (4 + pos lx))
        | _ => Err EndOfInputInUnicodeEscape
        end
      else if N.eqb c (ch "x") then
        match rest lx with
        | h1 :: h2 :: r =>
            OK ([fromCharCode (parseInt [h1; h2] 16)], mk r (2 + pos lx))
        | _ => Err EndOfInputInHexEscape
        end
      else OK ([c], lx)
  end.

(** The loop of a triple-quoted string. *)
Fixpoint readTriple (fuel : nat) (quote : char) (startPos : nat)
    (lx : t) (result_ : jsstring) : result (jsstring * t) :=
  match fuel with
  | O => Err OutOfFuel
  | S f =>
      match rest lx with
      | [] => Err (UnterminatedTripleQuotedString startPos)
      | c :: _ =>
          if (N.eqb c quote && (2 <? List.length (rest lx))%nat
              && test (N.eqb quote) (at_ lx 1) && test (N.eqb quote) (at_ lx 2))%bool
          then OK (result_, mk (skipn 3 (rest lx)) (pos lx + 3))
          else if N.eqb c (ch "\") then
            let* (s, lx') := readEscapeSequence lx in
            readTriple f quote startPos lx' (result_ ++ s)
          else readTriple f quote startPos (advance lx) (result_ ++ [c])
      end
  end.

(** The loop of a single- or double-quoted string. *)
Fixpoint readSingle (fuel : nat) (quote : char) (startPos : nat)
    (lx : t) (result_ : jsstring) : result (jsstring * t) :=
  match fuel with
  | O => Err OutOfFuel
  | S f =>
      match rest lx with
      | [] => Err (UnterminatedString startPos)
      | c :: _ =>
          if N.eqb c quote then OK (result_, advance lx)
          else if N.eqb c (ch "\") then
            let* (s, lx') := readEscapeSequence lx in
            readSingle f quote startPos lx' (result_ ++ s)
          else readSingle f quote startPos (advance lx) (result_ ++ [c])
      end
  end.

(** [readString(quote)], entered just after the opening quote. *)
Definition readString (quote : char) (lx : t) : result (jsstring * t) :=
  let startPos := pos lx in
  if ((2 <? List.length (rest lx))%nat
      && test (N.eqb quote) (at_ lx 0) && test (N.eqb quote) (at_ lx 1))%bool
  then
    let lx := advance (advance lx) in
    readTriple (S (List.length (rest lx))) quote startPos lx []
  else readSingle (S (List.length (rest lx))) quote startPos lx [].

(** The digit loops of [readNumber]: while the class matches, step and
    keep the code unit unless it is an underscore. *)
Fixpoint digitLoop (cls : char -> bool) (r : jsstring) (p : nat)
    (acc : jsstring) : jsstring * t :=
  match r with
  | c :: r' =>
      if cls c
      then digitLoop cls r' (S p) (if isUnderscore c then acc else acc ++ [c])
      else (acc, mk r p)
  | [] => (acc, mk [] p)
  end.

Definition digits (cls : char -> bool) (lx : t) (acc : jsstring) : jsstring * t :=
  digitLoop cls (rest lx) (pos lx) acc.

Definition readNumber (lx : t) : result (jsstring * t) :=
  let start := pos lx in
  let '(result_, lx) :=
    if isChar (peek lx) "-" then ([ch "-"], advance lx) else ([], lx) in
  let zero := isChar (peek lx) "0" in
  let '(result_, lx) :=
    if zero then (result_ ++ [ch "0"], advance lx) else (result_, lx) in
  if (zero && (isChar (peek lx) "x" || isChar (peek lx) "X"))%bool then
    let '(hex, lx) := digits isHex_ (advance lx) [] in
    OK (Number_toString (parseInt hex 16), lx)
  else if (zero && (isChar (peek lx) "o" || isChar (peek lx) "O"))%bool then
    let '(oct, lx) := digits isOct_ (advance lx) [] in
    OK (Number_toString (parseInt oct 8), lx)
  else if (zero && (isChar (peek lx) "b" || isChar (peek lx) "B"))%bool then
    let '(bin, lx) := digits isBin_ (advance lx) [] in
    OK (Number_toString (parseInt bin 2), lx)
  else
    let '(result_, lx) := digits isDigit_ lx result_ in
    let '(result_, lx) :=
      if (isChar (peek lx) "." && (1 <? List.length (rest lx))%nat
          && test isDigit (at_ lx 1))%bool
      then digits isDigit_ (advance lx) (result_ ++ [ch "."])
      else (result_, lx) in
    let '(result_, lx) :=
      if (isChar (peek lx) "e" || isChar (peek lx) "E")%bool then
        let c := match peek lx with Some c => [c] | None => [] end in
        let result_ := result_ ++ c in
        let lx := advance lx in
        let '(result_, lx) :=
          if (isChar (peek lx) "+" || isChar (peek lx) "-")%bool
          then (result_ ++ match peek lx with Some c => [c] | None => [] end,
                advance lx)
          else (result_, lx) in
        digits isDigit_ lx result_
      else (result_, lx) in
    if (jsstring_eqb result_ [] || jsstring_eqb result_ [ch "-"])%bool
    then Err (InvalidNumberAt start)
    else OK (result_, lx).

Fixpoint identLoop (r : jsstring) (p : nat) (acc : jsstring) : jsstring * t :=
  match r with
  | c :: r' => if isIdent c then identLoop r' (S p) (acc ++ [c]) else (acc, mk r p)
  | [] => (acc, mk [] p)
  end.

Definition readIdentifier (lx : t) : jsstring * t :=
  identLoop (rest lx) (pos lx) [].

(** The token an identifier becomes. *)
Definition identToken (ident : jsstring) (startPos : nat) : Token :=
  if jsstring_eqb ident (str "True") then mkToken TRUE (str "true") startPos
  else if jsstring_eqb ident (str "False") then mkToken FALSE (str "false") startPos
  else if jsstring_eqb ident (str "None") then mkToken NONE (str "null") startPos
  else if jsstring_eqb ident (str "true") then mkToken TRUE (str "true") startPos
  else if jsstring_eqb ident (str "false") then mkToken FALSE (str "false") startPos
  else if jsstring_eqb ident (str "null") then mkToken NONE (str "null") startPos
  else mkToken STRING ident startPos.

Definition punctuation (c : char) : option TokenType :=
  if N.eqb c (ch "{") then Some LBRACE
  else if N.eqb c (ch "}") then Some RBRACE
  else if N.eqb c (ch "[") then Some LBRACKET
  else if N.eqb c (ch "]") then Some RBRACKET
  else if N.eqb c (ch "(") then Some LPAREN
  else if N.eqb c (ch ")") then Some RPAREN
  else if N.eqb c (ch ":") then Some COLON
  else if N.eqb c (ch ",") then Some COMMA
  else None.

(** The [switch (ch)] of [tokenize]: one token read at a cursor that is
    not at the end of the input. *)
Definition scanToken (c : char) (lx : t) : result (Token * t) :=
  let startPos := pos lx in
  match punctuation c with
  | Some ty => OK (mkToken ty [c] startPos, advance lx)
  | None =>
      if (N.eqb c (ch "'") || N.eqb c 34)%bool then
        let* (s, lx') := readString c (advance lx) in
        OK (mkToken STRING s startPos, lx')
      else if (N.eqb c (ch "-") || isDigit c)%bool then
        if N.eqb c (ch "-") then
          if ((1 <? List.length (rest lx))%nat && test isDigitOrDot (at_ lx 1))%bool
          then
            let* (num, lx') := readNumber lx in
            OK (mkToken NUMBER num startPos, lx')
          else Err (UnexpectedCharacter c startPos)
        else
          let* (num, lx') := readNumber lx in
          OK (mkToken NUMBER num startPos, lx')
      else if isAlpha_ c then
        let (ident, lx') := readIdentifier lx in
        OK (identToken ident startPos, lx')
      else Err (UnexpectedCharacter c startPos)
  end.

(** The [while (true)] loop of [tokenize]. *)
Fixpoint tokenizeLoop (fuel : nat) (lx : t) (tokens : list Token)
  : result (list Token) :=
  match fuel with
  | O => Err OutOfFuel
  | S f =>
      let* lx := skipWhitespaceAndComments (S (List.length (rest lx))) lx in
      match peek lx with
      | None => OK (tokens ++ [mkToken EOF [] (pos lx)])
      | Some c =>
          let* (tok, lx') := scanToken c lx in
          tokenizeLoop f lx' (tokens ++ [tok])
      end
  end.

Definition tokenize (input : jsstring) : result (list Token) :=
  tokenizeLoop (S (List.length input)) (init input) [].

(** How much input is left. *)
Definition left (lx : t) : nat := List.length (rest lx).

(** A text [readNumber] does not reject: neither empty nor a lone minus. *)
Definition good (s : jsstring) : Prop :=
  (jsstring_eqb s [] || jsstring_eqb s [ch "-"])%bool = false.

End Lexer.

(** *** The three base prefixes of [readNumber] *)

Inductive Base : Type := Hexadecimal | Octal | Binary.

Definition radix (b : Base) : Z :=
  match b with Hexadecimal => 16 | Octal => 8 | Binary => 2 end.



(** The digits of a run, its underscores dropped. *)
Definition dropUnderscores (run : jsstring) : jsstring :=
  filter (fun c => negb (Lexer.isUnderscore c)) run.

(** *** Content of a triple-quoted string that is never closed

    [closesHere q s]: [s] starts with three quotes [q].  [OpenTriple q s]:
    [s] splits into plain code units and complete escape sequences, and no
    closing triple quote starts at any of them. *)

Definition closesHere (q : char) (s : jsstring) : bool :=
  match s with
  | a :: b :: c :: _ => (N.eqb a q && N.eqb q b && N.eqb q c)%bool
  | _ => false
  end.

Inductive OpenTriple (q : char) : jsstring -> Prop :=
| OT_end : OpenTriple q []
| OT_char (c : char) (s : jsstring) :
    N.eqb c (ch "\") = false ->
    closesHere q (c :: s) = false ->
    OpenTriple q s ->
    OpenTriple q (c :: s)
| OT_escape (c : char) (s : jsstring) :
    N.eqb c (ch "u") = false ->
    N.eqb c (ch "x") = false ->
    OpenTriple q s ->
    OpenTriple q (ch "\" :: c :: s)
| OT_unicode (h1 h2 h3 h4 : char) (s : jsstring) :
    OpenTriple q s ->
    OpenTriple q (ch "\" :: ch "u" :: h1 :: h2 :: h3 :: h4 :: s)
| OT_hex (h1 h2 : char) (s : jsstring) :
    OpenTriple q s ->
    OpenTriple q (ch "\" :: ch "x" :: h1 :: h2 :: s).

(** ** Parsed values

    What [parse()] returns: [null], a boolean, a Number, a string, an
    array, or a plain object.  An object keeps its own properties in the
    order they were created and its prototype link, which starts as
    [Object.prototype]. *)

#[local] Set Warnings "-register-all".

Inductive protoLink (V : Type) : Type :=
| ObjectPrototype
| NullPrototype
| ProtoIs (v : V).
Arguments ObjectPrototype {V}.
Arguments NullPrototype {V}.
Arguments ProtoIs {V} v.

Inductive jsvalue : Type :=
| VNull
| VBool (b : bool)
| VNumber (n : jsnum)
| VString (s : jsstring)
| VArray (elems : list jsvalue)
| VObject (proto : protoLink jsvalue) (props : list (jsstring * jsvalue)).

Definition emptyObject : jsvalue := VObject ObjectPrototype [].

Definition __proto__ : jsstring := str "__proto__".

Fixpoint hasOwn {A : Type} (props : list (jsstring * A)) (key : jsstring) : bool :=
  match props with
  | (k, _) :: ps => (jsstring_eqb k key || hasOwn ps key)%bool
  | [] => false
  end.

Fixpoint overwrite {A : Type} (props : list (jsstring * A)) (key : jsstring) (v : A)
  : list (jsstring * A) :=
  match props with
  | (k, w) :: ps =>
      if jsstring_eqb k key then (k, v) :: ps else (k, w) :: overwrite ps key v
  | [] => []
  end.

(** Whether looking [__proto__] up from [v] along the prototype chain ends
    at the accessor of [Object.prototype]: an own data property of that
    name on the way hides it, and a chain cut by a null prototype never
    reaches it.  An array has no such own property and inherits from
    [Array.prototype], then [Object.prototype]. *)
Fixpoint reachesProtoAccessor (v : jsvalue) : bool :=
  match v with
  | VObject proto props =>
      if hasOwn props __proto__ then false
      else match proto with
           | ObjectPrototype => true
           | NullPrototype => false
           | ProtoIs v' => reachesProtoAccessor v'
           end
  | VArray _ => true
  | _ => false
  end.

(** The assignment [result[key] = value] on a plain object.  An own
    property is overwritten in place.  Otherwise the only inherited
    property that is not a writable data property is the [__proto__]
    accessor, whose setter replaces the prototype by an object or [null]
    and ignores every other value; any other key becomes a new own
    property, created last. *)
Definition setProperty (obj : jsvalue) (key : jsstring) (v : jsvalue) : jsvalue :=
  match obj with
  | VObject proto props =>
      if hasOwn props key then VObject proto (overwrite props key v)
      else if (jsstring_eqb key __proto__ && reachesProtoAccessor obj)%bool then
        match v with
        | VObject _ _ | VArray _ => VObject (ProtoIs v) props
        | VNull => VObject NullPrototype props
        | _ => obj
        end
      else VObject proto (props ++ [(key, v)])
  | _ => obj
  end.

(** *** The order of own property keys

    Array indices (canonical numerals below [2^32 - 1]) come first in
    ascending numeric order, then every other key in creation order. *)

Definition arrayIndex (key : jsstring) : option Z :=
  match key with
  | [] => None
  | c :: r =>
      if (forallb (inRange 48 57) key
          && (negb (N.eqb c 48) || match r with [] => true | _ => false end))%bool
      then let n := digitsValue 10 key in
           if n <? 4294967295 then Some n else None
      else None
  end.

Definition isArrayIndex (key : jsstring) : bool :=
  match arrayIndex key with Some _ => true | None => false end.

Fixpoint insertByIndex {A : Type} (n : Z) (kv : jsstring * A)
    (sorted : list (Z * (jsstring * A))) : list (Z * (jsstring * A)) :=
  match sorted with
  | (m, kv') :: rest =>
      if n <? m then (n, kv) :: sorted else (m, kv') :: insertByIndex n kv rest
  | [] => [(n, kv)]
  end.

Fixpoint indexProps {A : Type} (props : list (jsstring * A))
  : list (Z * (jsstring * A)) :=
  match props with
  | (k, v) :: ps =>
      match arrayIndex k with
      | Some n => insertByIndex n (k, v) (indexProps ps)
      | None => indexProps ps
      end
  | [] => []
  end.

(** The own properties in the order [JSON.stringify] visits them. *)
Definition ownProperties {A : Type} (props : list (jsstring * A))
  : list (jsstring * A) :=
  map snd (indexProps props)
  ++ filter (fun kv => negb (isArrayIndex (fst kv))) props.

(** ** The parser ([class PythonDictParser]) *)

Module Parser.

(** The parsing state is the token list from [this.pos] on:
    [this.tokens[this.pos]] is its head and [this.pos++] drops it. *)
Definition t : Type := list Token.

Definition current (p : t) : result Token :=
  match p with
  | tok :: _ => OK tok
  | [] => Err ReadPastEnd
  end.

Definition next (p : t) : t := tl p.

Definition expect (ty : TokenType) (p : t) : result (Token * t) :=
  let* token := current p in
  if negb (TokenType_eqb (type token) ty)
  then Err (Expected ty (type token) (value token) (pos token))
  else OK (token, next p).

Definition peek (p : t) : result TokenType :=
  let* token := current p in OK (type token).

Definition parseString (p : t) : result (jsvalue * t) :=
  let* (token, p) := expect STRING p in
  OK (VString (value token), p).

Definition parseNumber (p : t) : result (jsvalue * t) :=
  let* (token, p) := expect NUMBER p in
  let num := Number_ofString (value token) in
  if isNaN num then Err (InvalidNumber (value token) (pos token))
  else OK (VNumber num, p).

Definition parseDictKey (p : t) : result (jsstring * t) :=
  let* token := current p in
  match type token with
  | STRING => OK (value token, next p)
  | NUMBER => OK (value token, next p)
  | TRUE => OK (str "true", next p)
  | FALSE => OK (str "false", next p)
  | NONE => OK (str "null", next p)
  | ty => Err (InvalidDictKey ty (value token) (pos token))
  end.

Section Containers.

(** [this.parseValue()], as the container rules call it. *)
Variable parseValue : t -> result (jsvalue * t).

Fixpoint parseDictLoop (fuel : nat) (result_ : jsvalue) (p : t)
  : result (jsvalue * t) :=
  match fuel with
  | O => Err OutOfFuel
  | S f =>
      let* ty := peek p in
      if TokenType_eqb ty RBRACE then OK (result_, p)
      else
        let* (key, p) := parseDictKey p in
        let* (_, p) := expect COLON p in
        let* (v, p) := parseValue p in
        let result_ := setProperty result_ key v in
        let* ty := peek p in
        if TokenType_eqb ty COMMA then parseDictLoop f result_ (next p)
        else OK (result_, p)
  end.

Definition parseDict (fuel : nat) (p : t) : result (jsvalue * t) :=
  let* (_, p) := expect LBRACE p in
  let* ty := peek p in
  if TokenType_eqb ty RBRACE then OK (emptyObject, next p)
  else
    let* (result_, p) := parseDictLoop fuel emptyObject p in
    let* (_, p) := expect RBRACE p in
    OK (result_, p).

Fixpoint parseListLoop (fuel : nat) (result_ : list jsvalue) (p : t)
  : result (list jsvalue * t) :=
  match fuel with
  | O => Err OutOfFuel
  | S f =>
      let* ty := peek p in
      if TokenType_eqb ty RBRACKET then OK (result_, p)
      else
        let* (v, p) := parseValue p in
        let result_ := result_ ++ [v] in
        let* ty := peek p in
        if TokenType_eqb ty COMMA then parseListLoop f result_ (next p)
        else OK (result_, p)
  end.

Definition parseList (fuel : nat) (p : t) : result (jsvalue * t) :=
  let* (_, p) := expect LBRACKET p in
  let* ty := peek p in
  if TokenType_eqb ty RBRACKET then OK (VArray [], next p)
  else
    let* (result_, p) := parseListLoop fuel [] p in
    let* (_, p) := expect RBRACKET p in
    OK (VArray result_, p).

Fixpoint parseTupleLoop (fuel : nat) (result_ : list jsvalue) (p : t)
  : result (list jsvalue * t) :=
  match fuel with
  | O => Err OutOfFuel
  | S f =>
      let* ty := peek p in
      if TokenType_eqb ty RPAREN then OK (result_, p)
      else
        let* (v, p) := parseValue p in
        let result_ := result_ ++ [v] in
        let* ty := peek p in
        if TokenType_eqb ty COMMA then parseTupleLoop f result_ (next p)
        else OK (result_, p)
  end.

Definition parseTuple (fuel : nat) (p : t) : result (jsvalue * t) :=
  let* (_, p) := expect LPAREN p in
  let* ty := peek p in
  if TokenType_eqb ty RPAREN then OK (VArray [], next p)
  else
    let* (result_, p) := parseTupleLoop fuel [] p in
    let* (_, p) := expect RPAREN p in
    OK (VArray result_, p).

End Containers.

Fixpoint parseValue (fuel : nat) (p : t) : result (jsvalue * t) :=
  match fuel with
  | O => Err OutOfFuel
  | S f =>
      let* token := current p in
      match type token with
      | LBRACE => parseDict (parseValue f) f p
      | LBRACKET => parseList (parseValue f) f p
      | LPAREN => parseTuple (parseValue f) f p
      | STRING => parseString p
      | NUMBER => parseNumber p
      | TRUE => OK (VBool true, next p)
      | FALSE => OK (VBool false, next p)
      | NONE => OK (VNull, next p)
      | ty => Err (UnexpectedToken ty (value token) (pos token))
      end
  end.

(** [parse()]: one value, then the end of the input. *)
Definition parse (tokens : list Token) : result jsvalue :=
  let* (result_, p) := parseValue (S (List.length tokens)) tokens in
  let* token := current p in
  if negb (TokenType_eqb (type token) EOF)
  then Err (UnexpectedToken (type token) (value token) (pos token))
  else OK result_.

End Parser.

(** The loops of [parseList] and [parseTuple] are one loop up to the
    closing token. *)
Fixpoint seqLoop (parseValue : Parser.t -> result (jsvalue * Parser.t))
    (close : TokenType) (fuel : nat) (result_ : list jsvalue) (p : Parser.t)
  : result (list jsvalue * Parser.t) :=
  match fuel with
  | O => Err OutOfFuel
  | S f =>
      let* ty := Parser.peek p in
      if TokenType_eqb ty close then OK (result_, p)
      else
        let* (v, p) := parseValue p in
        let result_ := result_ ++ [v] in
        let* ty := Parser.peek p in
        if TokenType_eqb ty COMMA then seqLoop parseValue close f result_ (Parser.next p)
        else OK (result_, p)
  end.

(** The three container rules share one frame: the opening token, the
    empty case, the loop, the closing token. *)
Definition container {A : Type} (open close : TokenType)
    (loop : Parser.t -> result (A * Parser.t)) (finish : A -> jsvalue)
    (empty : jsvalue) (p : Parser.t) : result (jsvalue * Parser.t) :=
  let* (_, p) := Parser.expect open p in
  let* ty := Parser.peek p in
  if TokenType_eqb ty close then OK (empty, Parser.next p)
  else
    let* (result_, p) := loop p in
    let* (_, p) := Parser.expect close p in
    OK (finish result_, p).

(** The kinds of container literal, with their delimiters. *)
Inductive Kind : Type := DictKind | ListKind | TupleKind.

Definition openOf (k : Kind) : TokenType :=
  match k with DictKind => LBRACE | ListKind => LBRACKET | TupleKind => LPAREN end.

Definition closeOf (k : Kind) : TokenType :=
  match k with DictKind => RBRACE | ListKind => RBRACKET | TupleKind => RPAREN end.

(** *** Dict literals, as token lists

    [keyText tok] is the key a token in key position stands for; a token
    list [vts] is a value literal for [v] when the parser reads [v] from it
    whatever follows; [DictBody body entries] says that [body] is
    [key : value] pairs separated by commas, and lists their keys and values
    in source order. *)

Definition keyText (tok : Token) : option jsstring :=
  match type tok with
  | STRING | NUMBER => Some (value tok)
  | TRUE => Some (str "true")
  | FALSE => Some (str "false")
  | NONE => Some (str "null")
  | _ => None
  end.

Definition IsValue (vts : list Token) (v : jsvalue) : Prop :=
  exists f, forall X, Parser.parseValue f (vts ++ X) = OK (v, X).

Inductive DictBody : list Token -> list (jsstring * jsvalue) -> Prop :=
| DB_last (kt colon : Token) (vts : list Token) (k : jsstring) (v : jsvalue) :
    keyText kt = Some k -> type colon = COLON -> IsValue vts v ->
    DictBody (kt :: colon :: vts) [(k, v)]
| DB_more (kt colon comma : Token) (vts more : list Token) (k : jsstring)
    (v : jsvalue) (entries : list (jsstring * jsvalue)) :
    keyText kt = Some k -> type colon = COLON -> IsValue vts v ->
    type comma = COMMA -> DictBody more entries ->
    DictBody (kt :: colon :: vts ++ comma :: more) ((k, v) :: entries).

(** The keys of a list in the order of their first occurrence. *)
Fixpoint firstOccurrences (keys : list jsstring) : list jsstring :=
  match keys with
  | [] => []
  | k :: ks => k :: filter (fun x => negb (jsstring_eqb x k)) (firstOccurrences ks)
  end.

(** The value of the last entry with a given key. *)
Fixpoint lookupLast {A : Type} (entries : list (jsstring * A)) (key : jsstring)
  : option A :=
  match entries with
  | [] => None
  | (k, v) :: es =>
      match lookupLast es key with
      | Some w => Some w
      | None => if jsstring_eqb k key then Some v else None
      end
  end.

(** The number an array index key stands for. *)
Definition indexValue (key : jsstring) : Z :=
  match arrayIndex key with Some n => n | None => 0 end.

(** Own properties after [props[key] = v] when no setter is involved. *)
Definition assign {A : Type} (props : list (jsstring * A)) (kv : jsstring * A)
  : list (jsstring * A) :=
  if hasOwn props (fst kv) then overwrite props (fst kv) (snd kv)
  else props ++ [kv].

(** Whether a key is not yet a property. *)
Definition isFresh {A : Type} (props : list (jsstring * A)) (k : jsstring) : bool :=
  negb (hasOwn props k).

(** Ascending order of the indexed entries. *)
Definition leIndex {X : Type} (a b : Z * X) : Prop := fst a <= fst b.

(** [obj[key] = v] for an entry. *)
Definition store (obj : jsvalue) (kv : jsstring * jsvalue) : jsvalue :=
  setProperty obj (fst kv) (snd kv).

(** *** Notions used to reason about the parser *)

(** A parsing function is local when a successful call consumed a
    non-empty prefix of its input and depends on nothing else. *)
Definition local (pv : Parser.t -> result (jsvalue * Parser.t)) : Prop :=
  forall p v p', pv p = OK (v, p') ->
    exists cons, cons <> [] /\ p = cons ++ p'
                 /\ forall X, pv (cons ++ X) = OK (v, X).

(** [pv'] agrees with [pv] wherever [pv] did not run out of fuel. *)
Definition extends (pv pv' : Parser.t -> result (jsvalue * Parser.t)) : Prop :=
  forall p r, pv p = r -> r <> Err OutOfFuel -> pv' p = r.

(** The loop of each container rule, from its start. *)
Definition loopOf (k : Kind) (f : nat) : Parser.t -> result (jsvalue * Parser.t) :=
  match k with
  | DictKind => Parser.parseDictLoop (Parser.parseValue f) f emptyObject
  | ListKind =>
      fun p => let* (vs, p) := seqLoop (Parser.parseValue f) RBRACKET f [] p in OK (VArray vs, p)
  | TupleKind =>
      fun p => let* (vs, p) := seqLoop (Parser.parseValue f) RPAREN f [] p in OK (VArray vs, p)
  end.

Definition emptyOf (k : Kind) : jsvalue :=
  match k with DictKind => emptyObject | _ => VArray [] end.

Definition isSeq (k : Kind) : bool :=
  match k with DictKind => false | _ => true end.

(** The type of the token a parser state starts with. *)
Definition headType (p : Parser.t) : option TokenType :=
  option_map type (hd_error p).

(** ** JSON.stringify(value, null, indent) *)

Definition hexDigit (n : Z) : char :=
  Z.to_N (if n <? 10 then 48 + n else 87 + n).

(** [\uXXXX] with lower-case hexadecimal digits. *)
Definition unicodeEscape (c : char) : jsstring :=
  let n := Z.of_N c in
  [ch "\"; ch "u"; hexDigit (n / 4096 mod 16); hexDigit (n / 256 mod 16);
   hexDigit (n / 16 mod 16); hexDigit (n mod 16)].

Definition isLeadSurrogate (c : char) : bool := inRange 55296 56319 c.
Definition isTrailSurrogate (c : char) : bool := inRange 56320 57343 c.

Fixpoint quoteChars (s : jsstring) : jsstring :=
  match s with
  | [] => []
  | c :: r =>
      if N.eqb c 8 then str "\b" ++ quoteChars r
      else if N.eqb c 9 then str "\t" ++ quoteChars r
      else if N.eqb c 10 then str "\n" ++ quoteChars r
      else if N.eqb c 12 then str "\f" ++ quoteChars r
      else if N.eqb c 13 then str "\r" ++ quoteChars r
      else if N.eqb c 34 then [ch "\"; 34%N] ++ quoteChars r
      else if N.eqb c (ch "\") then str "\\" ++ quoteChars r
      else if N.ltb c 32 then unicodeEscape c ++ quoteChars r
      else if isLeadSurrogate c then
        match r with
        | d :: r' =>
            if isTrailSurrogate d then c :: d :: quoteChars r'
            else unicodeEscape c ++ quoteChars r
        | [] => unicodeEscape c
        end
      else if isTrailSurrogate c then unicodeEscape c ++ quoteChars r
      else c :: quoteChars r
  end.

Definition QuoteJSONString (s : jsstring) : jsstring :=
  [34%N] ++ quoteChars s ++ [34%N].

Fixpoint join (sep : jsstring) (parts : list jsstring) : jsstring :=
  match parts with
  | [] => []
  | [x] => x
  | x :: rest => x ++ sep ++ join sep rest
  end.

(** The gap for a numeric [space] argument: that many spaces, at most 10. *)
Definition gapOf (indent : Z) : jsstring :=
  repeat 32%N (Z.to_nat (Z.min 10 indent)).

Definition wrap (open close gap stepback indent : jsstring)
    (partial : list jsstring) : jsstring :=
  match partial with
  | [] => open ++ close
  | _ =>
      match gap with
      | [] => open ++ join (str ",") partial ++ close
      | _ =>
          open ++ [10%N] ++ indent
            ++ join (str "," ++ [10%N] ++ indent) partial
            ++ [10%N] ++ stepback ++ close
      end
  end.

(** [SerializeJSONProperty]: a Number that is not finite is written
    [null]; an object writes its own properties in key order; no parsed
    value has a callable [toJSON]. *)
Fixpoint serialize (gap indent : jsstring) (v : jsvalue) : jsstring :=
  match v with
  | VNull => str "null"
  | VBool true => str "true"
  | VBool false => str "false"
  | VNumber (JFin neg m e) => Number_toString (JFin neg m e)
  | VNumber _ => str "null"
  | VString s => QuoteJSONString s
  | VArray elems =>
      let stepback := indent in
      let indent := indent ++ gap in
      wrap (str "[") (str "]") gap stepback indent
        (map (serialize gap indent) elems)
  | VObject _ props =>
      let stepback := indent in
      let indent := indent ++ gap in
      let member (kv : jsstring * jsstring) :=
        QuoteJSONString (fst kv) ++ str ":"
          ++ (match gap with [] => [] | _ => str " " end) ++ snd kv in
      wrap (str "{") (str "}") gap stepback indent
        (map member
           (ownProperties
              (map (fun kv => (fst kv, serialize gap indent (snd kv))) props)))
  end.

Definition JSON_stringify (v : jsvalue) (indent : Z) : jsstring :=
  serialize (gapOf indent) [] v.

(** ** The entry point *)

Definition pythonDictToJson (input : jsstring) (indent : Z) : result jsstring :=
  let trimmed := trim input in
  match trimmed with
  | [] => Err InputIsEmpty
  | _ =>
      let* tokens := Lexer.tokenize trimmed in
      let* result_ := Parser.parse tokens in
      OK (JSON_stringify result_ indent)
  end.

(** The value tree [pythonDictToJson] hands to [JSON.stringify]. *)
Definition parsedValue (input : jsstring) : result jsvalue :=
  let* tokens := Lexer.tokenize (trim input) in
  Parser.parse tokens.

(** ** Notions used by the further properties *)

(** *** The cursor of the lexer, against the input

    [movedBy k lx lx']: [lx'] is [lx] after [k] more code units were
    consumed.  [within input lx]: [lx] is a cursor into [input], its
    [pos] being the offset of its [rest]. *)

Definition movedBy (k : nat) (lx lx' : Lexer.t) : Prop :=
  Lexer.rest lx' = skipn k (Lexer.rest lx)
  /\ Lexer.pos lx' = (Lexer.pos lx + k)%nat
  /\ (k <= List.length (Lexer.rest lx))%nat.

(** [lx'] is some way ahead of [lx]. *)
Definition ahead (lx lx' : Lexer.t) : Prop := exists k, movedBy k lx lx'.

Definition within (input : jsstring) (lx : Lexer.t) : Prop :=
  Lexer.rest lx = skipn (Lexer.pos lx) input
  /\ (Lexer.pos lx <= List.length input)%nat.

(** The cursor at offset [p] of [input]. *)
Definition cursorAt (input : jsstring) (p : nat) : Lexer.t :=
  Lexer.mk (skipn p input) p.

(** [tok] is the token [scanToken] reads at offset [pos tok] of [input]. *)
Definition scannedAt (input : jsstring) (tok : Token) : Prop :=
  exists c lx',
    nth_error input (pos tok) = Some c
    /\ Lexer.scanToken c (cursorAt input (pos tok)) = OK (tok, lx')
    /\ (pos tok < Lexer.pos lx')%nat.

(** *** Token lists and the errors of the parser

    [endsEOF p]: the last token of [p] is an end-of-input token, as in
    every list [tokenize] returns.  [blames e tok]: the message of the
    parser error [e] is about the token [tok]. *)

Definition endsEOF (p : Parser.t) : Prop :=
  exists l eof, p = l ++ [eof] /\ type eof = EOF.

Definition blames (e : Error) (tok : Token) : Prop :=
  match e with
  | Expected want got text at_ =>
      got = type tok /\ text = value tok /\ at_ = pos tok /\ want <> got
  | UnexpectedToken got text at_ | InvalidDictKey got text at_ =>
      got = type tok /\ text = value tok /\ at_ = pos tok
  | InvalidNumber text at_ =>
      type tok = NUMBER /\ text = value tok /\ at_ = pos tok
      /\ Number_ofString text = JNaN
  | _ => False
  end.

(** What a parsing function does on a token list that ends with the
    end-of-input token: it stops inside the list, and a failure, unless it
    is the bound of the model, is about one of its tokens. *)
Definition safe {A : Type} (pv : Parser.t -> result (A * Parser.t)) : Prop :=
  forall p, endsEOF p ->
    match pv p with
    | OK (_, p') => endsEOF p' /\ (forall tok, In tok p' -> In tok p)
    | Err e => e = OutOfFuel \/ exists tok, In tok p /\ blames e tok
    end.

(** *** The errors of the lexer *)

(** The errors a string literal opened just before offset [sp] can end
    in. *)
Definition stringErrorAt (sp : nat) (e : Error) : bool :=
  match e with
  | UnterminatedString p | UnterminatedTripleQuotedString p => Nat.eqb p sp
  | EndOfInputInEscape | EndOfInputInUnicodeEscape | EndOfInputInHexEscape
  | OutOfFuel => true
  | _ => false
  end.

Definition isQuote (c : char) : bool := (N.eqb c (ch "'") || N.eqb c 34)%bool.

(** What an error of the lexer says about the input: the code unit and
    the offsets its message names. *)
Definition lexerErrorAt (input : jsstring) (e : Error) : Prop :=
  match e with
  | UnexpectedCharacter c p => nth_error input p = Some c
  | UnterminatedString sp | UnterminatedTripleQuotedString sp =>
      exists q p, sp = S p /\ nth_error input p = Some q /\ isQuote q = true
  | InvalidNumberAt p => nth_error input p = Some (ch "-")
  | EndOfInputInEscape | EndOfInputInUnicodeEscape | EndOfInputInHexEscape => True
  | _ => False
  end.

(** *** The scanning loop, step by step *)

(** The code units [skipWhitespaceAndComments] steps over one at a time. *)
Definition isBlank (c : char) : bool :=
  (N.eqb c 32 || N.eqb c 9 || N.eqb c 10 || N.eqb c 13)%bool.

(** [Lexes lx toks]: from the cursor [lx] the scanning loop reads the
    tokens [toks], the end-of-input token last. *)
Inductive Lexes : Lexer.t -> list Token -> Prop :=
| Lexes_end (lx lx1 : Lexer.t) :
    Lexer.skipWhitespaceAndComments (S (Lexer.left lx)) lx = OK lx1 ->
    Lexer.rest lx1 = [] ->
    Lexes lx [mkToken EOF [] (Lexer.pos lx1)]
| Lexes_token (lx lx1 lx2 : Lexer.t) (c : char) (tok : Token) (toks : list Token) :
    Lexer.skipWhitespaceAndComments (S (Lexer.left lx)) lx = OK lx1 ->
    Lexer.peek lx1 = Some c ->
    Lexer.scanToken c lx1 = OK (tok, lx2) ->
    Lexes lx2 toks ->
    Lexes lx (tok :: toks).

(** *** String literals

    [Decodes q enc s]: between quotes [q], the text [enc] is plain code
    units and escape sequences that [readEscapeSequence] reads, and stands
    for the string [s]. *)

Inductive Decodes (q : char) : jsstring -> jsstring -> Prop :=
| Dec_nil : Decodes q [] []
| Dec_char (c : char) (enc s : jsstring) :
    N.eqb c q = false -> N.eqb c (ch "\") = false ->
    Decodes q enc s -> Decodes q (c :: enc) (c :: s)
| Dec_escape (esc out enc s : jsstring) :
    (forall r p, Lexer.readEscapeSequence (Lexer.mk (ch "\" :: esc ++ r) p)
                 = OK (out, Lexer.mk r (S (List.length esc) + p))) ->
    Decodes q enc s -> Decodes q (ch "\" :: esc ++ enc) (out ++ s).

(** A code unit of a literal that is neither its quote nor a backslash. *)
Definition isPlain (q c : char) : bool :=
  (negb (N.eqb c q) && negb (N.eqb c (ch "\")))%bool.

(** *** Number literals *)

(** No digit loop, fraction or exponent of [readNumber] goes on into a
    text that starts like this. *)
Definition endsNumber (tail : jsstring) : bool :=
  match tail with
  | [] => true
  | c :: _ =>
      negb (Lexer.isDigit_ c || N.eqb c (ch ".") || N.eqb c (ch "e") || N.eqb c (ch "E")
            || N.eqb c (ch "x") || N.eqb c (ch "X") || N.eqb c (ch "o")
            || N.eqb c (ch "O") || N.eqb c (ch "b") || N.eqb c (ch "B"))
  end.

(** *** Values that [JSON.stringify] writes back readably

    [isSafeInteger x]: the Number [x] is an integer of magnitude below
    [2^53].  [reparsable v]: every finite Number in [v] is one, and no
    object in [v] has an own property called [__proto__].  [wellKeyed v]:
    the own property keys of every object in [v] are distinct.  [reread v]
    is the value read back from the JSON text of [v]: a Number that is not
    finite has become [null], minus zero has become zero, and an object is
    a fresh one that got its properties in the order of the text. *)

Definition isSafeInteger (x : jsnum) : bool :=
  match x with
  | JFin neg m e =>
      ((0 <=? m) && (0 <=? e) && (m * 2 ^ e <? 2 ^ 53)
       && jsnum_eqb x (numberOfInt neg (m * 2 ^ e)))%bool
  | _ => false
  end.

Fixpoint distinctKeys {A : Type} (props : list (jsstring * A)) : bool :=
  match props with
  | [] => true
  | (k, _) :: ps => (negb (hasOwn ps k) && distinctKeys ps)%bool
  end.

Fixpoint reparsable (v : jsvalue) : bool :=
  match v with
  | VNumber (JFin neg m e) => isSafeInteger (JFin neg m e)
  | VArray elems => forallb reparsable elems
  | VObject _ props =>
      (negb (hasOwn props __proto__)
       && forallb (fun kv => reparsable (snd kv)) props)%bool
  | _ => true
  end.

Fixpoint wellKeyed (v : jsvalue) : bool :=
  match v with
  | VArray elems => forallb wellKeyed elems
  | VObject _ props =>
      (distinctKeys props && forallb (fun kv => wellKeyed (snd kv)) props)%bool
  | _ => true
  end.

Fixpoint reread (v : jsvalue) : jsvalue :=
  match v with
  | VNumber (JFin neg m e) => VNumber (JFin (neg && negb (m =? 0)) m e)
  | VNumber _ => VNull
  | VArray elems => VArray (map reread elems)
  | VObject _ props =>
      VObject ObjectPrototype
        (ownProperties (map (fun kv => (fst kv, reread (snd kv))) props))
  | _ => v
  end.

(** The code units that follow a value in the text [JSON.stringify]
    writes: a comma, a closing bracket or brace, or a line feed. *)
Definition delimited (tail : jsstring) : bool :=
  match tail with
  | [] => true
  | c :: _ =>
      (N.eqb c (ch ",") || N.eqb c (ch "]") || N.eqb c (ch "}") || N.eqb c 10)%bool
  end.

(** [LexesTo ok text P]: at any offset and before any text [ok] accepts,
    the scanning loop reads from [text] tokens that satisfy [P] and goes on
    behind it. *)
Definition LexesTo (ok : jsstring -> bool) (text : jsstring)
    (P : list Token -> Prop) : Prop :=
  forall tail p, ok tail = true ->
    exists toks p',
      P toks
      /\ forall more, Lexes (Lexer.mk tail p') more ->
                      Lexes (Lexer.mk (text ++ tail) p) (toks ++ more).

(** The elements of a list or tuple literal, as token lists: values
    separated by commas. *)
Inductive SeqBody : list Token -> list jsvalue -> Prop :=
| SB_last (vts : list Token) (v : jsvalue) :
    IsValue vts v -> SeqBody vts [v]
| SB_more (vts more : list Token) (comma : Token) (v : jsvalue) (vs : list jsvalue) :
    IsValue vts v -> type comma = COMMA -> SeqBody more vs ->
    SeqBody (vts ++ comma :: more) (v :: vs).

(** The indexed entries, ascending without a tie. *)
Definition ascending {A : Type} (l : list (Z * (jsstring * A))) : Prop :=
  StronglySorted (fun a b => fst a < fst b) l.

(** *** Texts that may follow a token *)

(** Any text. *)
Definition anything (tail : jsstring) : bool := true.

(** A text that does not start with a double quote. *)
Definition noQuote (tail : jsstring) : bool :=
  negb (Lexer.test (N.eqb 34%N) (hd_error tail)).

(** A text that does not start with a character of an identifier. *)
Definition noIdent (tail : jsstring) : bool :=
  negb (Lexer.test Lexer.isIdent (hd_error tail)).

(** One token of a given type and text. *)
Definition single (ty : TokenType) (text : jsstring) (toks : list Token) : Prop :=
  exists tok, toks = [tok] /\ type tok = ty /\ value tok = text.

(** Every value a parsing function returns satisfies [Q]. *)
Definition yields {A : Type} (Q : A -> Prop) 
    (pv : Parser.t -> result (A * Parser.t)) : Prop :=
  forall p v p', pv p = OK (v, p') -> Q v.

(** * Properties *)

(** ** Basic facts *)

Lemma jsstring_eqb_eq (a b : jsstring) : jsstring_eqb a b = true <-> a = b.
Proof.
  revert b; induction a as [|x a IH]; intros [|y b]; simpl; split; intro H;
    try reflexivity; try discriminate.
  - apply andb_true_iff in H as [H1 H2].
    apply N.eqb_eq in H1; apply IH in H2; congruence.
  - injection H as -> ->. rewrite N.eqb_refl. simpl. now apply IH.
Qed.

Lemma jsstring_eqb_refl (a : jsstring) : jsstring_eqb a a = true.
Proof. now apply jsstring_eqb_eq. Qed.

Lemma jsstring_eqb_neq (a b : jsstring) : jsstring_eqb a b = false <-> a <> b.
Proof.
  split; intro H.
  - intro E. apply jsstring_eqb_eq in E. congruence.
  - destruct (jsstring_eqb a b) eqn:E; [|reflexivity].
    apply jsstring_eqb_eq in E. contradiction.
Qed.

Lemma TokenType_eqb_eq (a b : TokenType) : TokenType_eqb a b = true <-> a = b.
Proof. destruct a, b; simpl; split; intro H; congruence. Qed.

Lemma TokenType_eqb_refl (a : TokenType) : TokenType_eqb a a = true.
Proof. now destruct a. Qed.

(** ** Progress of the lexer *)

Module LexerFacts.
Import Lexer.

Lemma left_advance (lx : t) : left (advance lx) = pred (left lx).
Proof. unfold left, advance. simpl. now destruct (rest lx). Qed.

Lemma advance_cons (c : char) (r : jsstring) (p : nat) :
  advance (mk (c :: r) p) = mk r (S p).
Proof. reflexivity. Qed.

Lemma skipLine_le (r : jsstring) (p : nat) : (left (skipLine r p) <= List.length r)%nat.
Proof.
  revert p; induction r as [|c r IH]; intro p; simpl; [apply Nat.le_refl|].
  destruct (N.eqb c 10); simpl; [apply Nat.le_refl|].
  specialize (IH (S p)). lia.
Qed.

Lemma skipWhitespaceAndComments_ok (fuel : nat) (lx : t) :
  (left lx < fuel)%nat ->
  exists lx', skipWhitespaceAndComments fuel lx = OK lx'
              /\ (left lx' <= left lx)%nat.
Proof.
  revert lx; induction fuel as [|f IH]; intros lx Hf; [lia|].
  cbn [skipWhitespaceAndComments]. unfold peek.
  destruct (rest lx) as [|c r] eqn:Er; cbn [hd_error].
  - eexists; split; [reflexivity|lia].
  - assert (Hl : left lx = S (List.length r)) by (unfold left; now rewrite Er).
    destruct (_ || _ || _ || _)%bool eqn:Ews.
    + destruct (IH (advance lx)) as (lx' & E & L).
      { rewrite left_advance. lia. }
      exists lx'; split; [exact E|].
      rewrite left_advance in L. lia.
    + destruct (N.eqb c (ch "#")) eqn:Eh.
      * assert (Hc : N.eqb c 10 = false).
        { apply N.eqb_eq in Eh. subst c. reflexivity. }
        cbn [skipLine]. rewrite Hc.
        pose proof (skipLine_le r (S (pos lx))) as Hs.
        destruct (IH (skipLine r (S (pos lx)))) as (lx' & E & L); [lia|].
        exists lx'; split; [exact E|]. lia.
      * eexists; split; [reflexivity|lia].
Qed.

Lemma readEscapeSequence_progress (lx : t) :
  rest lx <> [] ->
  match readEscapeSequence lx with
  | OK (_, lx') => (left lx' < left lx)%nat
  | Err e => e <> OutOfFuel
  end.
Proof.
  destruct lx as [r p]. unfold readEscapeSequence, left, peek, advance; simpl.
  intros Hne. destruct r as [|b r]; [contradiction|]. simpl.
  destruct r as [|c r]; simpl; [discriminate|].
  repeat match goal with
         | |- context [if ?b then _ else _] => destruct b; simpl; try lia
         end.
  - destruct r as [|h1 [|h2 [|h3 [|h4 r]]]]; simpl; try discriminate; lia.
  - destruct r as [|h1 [|h2 r]]; simpl; try discriminate; lia.
Qed.

Lemma readSingle_progress (fuel : nat) (quote : char) (sp : nat) (lx : t) (acc : jsstring) :
  (left lx < fuel)%nat ->
  match readSingle fuel quote sp lx acc with
  | OK (_, lx') => (left lx' < left lx)%nat
  | Err e => e <> OutOfFuel
  end.
Proof.
  revert lx acc; induction fuel as [|f IH]; intros lx acc Hf; [lia|].
  cbn [readSingle]. destruct (rest lx) as [|c r] eqn:Er; [discriminate|].
  assert (Hl : left lx = S (List.length r)) by (unfold left; now rewrite Er).
  destruct (N.eqb c quote).
  - rewrite left_advance. lia.
  - destruct (N.eqb c (ch "\")).
    + pose proof (readEscapeSequence_progress lx) as He.
      destruct (readEscapeSequence lx) as [[s lx']|e]; cbn [bind].
      * assert (Hlt : (left lx' < left lx)%nat) by (apply He; rewrite Er; discriminate).
        specialize (IH lx' (acc ++ s)).
        destruct (readSingle f quote sp lx' (acc ++ s)) as [[s' lx'']|e'];
          [assert (left lx'' < left lx')%nat by (apply IH; lia); lia
          | apply IH; lia].
      * apply He. rewrite Er; discriminate.
    + specialize (IH (advance lx) (acc ++ [c])). rewrite left_advance in IH.
      destruct (readSingle f quote sp (advance lx) (acc ++ [c])) as [[s' lx'']|e'];
        [assert (left lx'' < pred (left lx))%nat by (apply IH; lia); lia
        | apply IH; lia].
Qed.

Lemma readTriple_progress (fuel : nat) (quote : char) (sp : nat) (lx : t) (acc : jsstring) :
  (left lx < fuel)%nat ->
  match readTriple fuel quote sp lx acc with
  | OK (_, lx') => (left lx' < left lx)%nat
  | Err e => e <> OutOfFuel
  end.
Proof.
  revert lx acc; induction fuel as [|f IH]; intros lx acc Hf; [lia|].
  cbn [readTriple]. destruct (rest lx) as [|c r] eqn:Er; [discriminate|].
  assert (Hl : left lx = S (List.length r)) by (unfold left; now rewrite Er).
  destruct (_ && _ && _ && _)%bool.
  - unfold left at 1. simpl. destruct r as [|? [|? r]]; simpl in *; lia.
  - destruct (N.eqb c (ch "\")).
    + pose proof (readEscapeSequence_progress lx) as He.
      destruct (readEscapeSequence lx) as [[s lx']|e]; cbn [bind].
      * assert (Hlt : (left lx' < left lx)%nat) by (apply He; rewrite Er; discriminate).
        specialize (IH lx' (acc ++ s)).
        destruct (readTriple f quote sp lx' (acc ++ s)) as [[s' lx'']|e'];
          [assert (left lx'' < left lx')%nat by (apply IH; lia); lia
          | apply IH; lia].
      * apply He. rewrite Er; discriminate.
    + specialize (IH (advance lx) (acc ++ [c])). rewrite left_advance in IH.
      destruct (readTriple f quote sp (advance lx) (acc ++ [c])) as [[s' lx'']|e'];
        [assert (left lx'' < pred (left lx))%nat by (apply IH; lia); lia
        | apply IH; lia].
Qed.

Lemma readString_progress (quote : char) (lx : t) :
  match readString quote lx with
  | OK (_, lx') => (left lx' <= left lx)%nat
  | Err e => e <> OutOfFuel
  end.
Proof.
  unfold readString. destruct (_ && _ && _)%bool.
  - pose proof (readTriple_progress (S (List.length (rest (advance (advance lx)))))
                  quote (pos lx) (advance (advance lx)) []) as H.
    destruct (readTriple _ _ _ _ _) as [[s lx']|e].
    + assert (left lx' < left (advance (advance lx)))%nat by (apply H; unfold left; lia).
      rewrite !left_advance in *. lia.
    + apply H. unfold left; lia.
  - pose proof (readSingle_progress (S (List.length (rest lx))) quote (pos lx) lx []) as H.
    destruct (readSingle _ _ _ _ _) as [[s lx']|e].
    + assert (left lx' < left lx)%nat by (apply H; unfold left; lia). lia.
    + apply H. unfold left; lia.
Qed.

Lemma digitLoop_le (cls : char -> bool) (r : jsstring) (p : nat) (acc : jsstring) :
  (left (snd (digitLoop cls r p acc)) <= List.length r)%nat.
Proof.
  revert p acc; induction r as [|c r IH]; intros p acc; simpl; [apply Nat.le_refl|].
  destruct (cls c); simpl; [|apply Nat.le_refl].
  specialize (IH (S p) (if isUnderscore c then acc else acc ++ [c])). lia.
Qed.

Lemma digits_le (cls : char -> bool) (lx : t) (acc : jsstring) :
  (left (snd (digits cls lx acc)) <= left lx)%nat.
Proof. unfold digits. apply digitLoop_le. Qed.

Lemma digits_lt (cls : char -> bool) (c : char) (r : jsstring) (p : nat) (acc : jsstring) :
  cls c = true ->
  (left (snd (digits cls (mk (c :: r) p) acc)) < S (List.length r))%nat.
Proof.
  intro H. unfold digits. simpl. rewrite H.
  pose proof (digitLoop_le cls r (S p) (if isUnderscore c then acc else acc ++ [c])).
  lia.
Qed.

Ltac digits_step :=
  match goal with
  | |- context [digits ?cls ?lx ?acc] =>
      let H := fresh "Hd" in
      pose proof (digits_le cls lx acc) as H;
      destruct (digits cls lx acc) as [? ?]; cbn [snd] in H
  end.

Ltac branch_step :=
  match goal with
  | |- context [if ?b then _ else _] => destruct b eqn:?
  end.

Lemma readNumber_progress (c : char) (r : jsstring) (p : nat) :
  (N.eqb c (ch "-") || isDigit c)%bool = true ->
  match readNumber (mk (c :: r) p) with
  | OK (_, lx') => (left lx' < S (List.length r))%nat
  | Err e => e <> OutOfFuel
  end.
Proof.
  intro Hc. unfold readNumber.
  cbn [peek rest hd_error isChar pos].
  destruct (N.eqb c (ch "-")) eqn:Em.
  - (* the sign is consumed *)
    assert (H0 : left (advance (mk (c :: r) p)) = List.length r) by reflexivity.
    set (lx0 := advance (mk (c :: r) p)) in *. clearbody lx0.
    repeat first [ digits_step | branch_step ];
      rewrite ?left_advance in *; try discriminate; lia.
  - cbn [orb] in Hc. cbn [peek rest hd_error isChar].
    destruct (N.eqb c (ch "0")) eqn:Ez.
    + assert (H0 : left (advance (mk (c :: r) p)) = List.length r) by reflexivity.
      set (lx0 := advance (mk (c :: r) p)) in *. clearbody lx0.
      repeat first [ digits_step | branch_step ];
        rewrite ?left_advance in *; try discriminate; lia.
    + cbn [andb].
      pose proof (digits_lt isDigit_ c r p [] ) as Hlt.
      assert (Hcls : isDigit_ c = true) by (unfold isDigit_; now rewrite Hc).
      specialize (Hlt Hcls).
      destruct (digits isDigit_ (mk (c :: r) p) []) as [acc lx1]; cbn [snd] in Hlt.
      repeat first [ digits_step | branch_step ];
        rewrite ?left_advance in *; try discriminate; lia.
Qed.

Lemma identLoop_le (r : jsstring) (p : nat) (acc : jsstring) :
  (left (snd (identLoop r p acc)) <= List.length r)%nat.
Proof.
  revert p acc; induction r as [|c r IH]; intros p acc; simpl; [apply Nat.le_refl|].
  destruct (isIdent c); simpl; [|apply Nat.le_refl].
  specialize (IH (S p) (acc ++ [c])). lia.
Qed.

(** One iteration of the scanning loop that reads a token consumes at
    least one code unit. *)
Lemma scanToken_progress (c : char) (r : jsstring) (p : nat) :
  match scanToken c (mk (c :: r) p) with
  | OK (_, lx') => (left lx' < S (List.length r))%nat
  | Err e => e <> OutOfFuel
  end.
Proof.
  unfold scanToken. destruct (punctuation c).
  - rewrite left_advance. unfold left; simpl. lia.
  - destruct (N.eqb c (ch "'") || N.eqb c 34)%bool.
    + pose proof (readString_progress c (advance (mk (c :: r) p))) as H.
      destruct (readString c (advance (mk (c :: r) p))) as [[s lx']|e]; cbn [bind].
      * rewrite left_advance in H. unfold left in H at 2. simpl in H. lia.
      * exact H.
    + destruct (N.eqb c (ch "-") || isDigit c)%bool eqn:Hnum.
      * pose proof (readNumber_progress c r p Hnum) as H.
        destruct (N.eqb c (ch "-")).
        -- destruct (_ && _)%bool; [|discriminate].
           destruct (readNumber (mk (c :: r) p)) as [[s lx']|e]; cbn [bind]; exact H.
        -- destruct (readNumber (mk (c :: r) p)) as [[s lx']|e]; cbn [bind]; exact H.
      * destruct (isAlpha_ c) eqn:Ha; [|discriminate].
        unfold readIdentifier. cbn [rest pos identLoop].
        assert (Hi : isIdent c = true) by (unfold isIdent; now rewrite Ha).
        rewrite Hi.
        pose proof (identLoop_le r (S p) ([] ++ [c])) as H.
        destruct (identLoop r (S p) ([] ++ [c])) as [ident lx']. cbn [snd] in H. lia.
Qed.

Lemma tokenizeLoop_terminates (fuel : nat) (lx : t) (tokens : list Token) :
  (left lx < fuel)%nat ->
  tokenizeLoop fuel lx tokens <> Err OutOfFuel.
Proof.
  revert lx tokens; induction fuel as [|f IH]; intros lx tokens Hf; [lia|].
  cbn [tokenizeLoop].
  destruct (skipWhitespaceAndComments_ok (S (List.length (rest lx))) lx)
    as (lx1 & E & L); [unfold left; lia|].
  rewrite E. cbn [bind]. unfold peek.
  destruct lx1 as [[|c r] p]; cbn [rest hd_error]; [discriminate|].
  pose proof (scanToken_progress c r p) as H.
  destruct (scanToken c (mk (c :: r) p)) as [[tok lx2]|e]; cbn [bind].
  - apply IH. unfold left in L at 1. simpl in L. lia.
  - congruence.
Qed.

(** What one iteration of the scanning loop does. *)
Lemma tokenizeLoop_step (f : nat) (lx : t) (tokens : list Token) :
  exists lx1,
    skipWhitespaceAndComments (S (left lx)) lx = OK lx1
    /\ (left lx1 <= left lx)%nat
    /\ match peek lx1 with
       | None =>
           tokenizeLoop (S f) lx tokens = OK (tokens ++ [mkToken EOF [] (pos lx1)])
       | Some c =>
           match scanToken c lx1 with
           | OK (tok, lx2) =>
               (left lx2 < left lx1)%nat
               /\ tokenizeLoop (S f) lx tokens = tokenizeLoop f lx2 (tokens ++ [tok])
           | Err e => e <> OutOfFuel /\ tokenizeLoop (S f) lx tokens = Err e
           end
       end.
Proof.
  destruct (skipWhitespaceAndComments_ok (S (left lx)) lx) as (lx1 & E & L); [lia|].
  exists lx1. split; [exact E|]. split; [exact L|].
  cbn [tokenizeLoop]. fold (left lx). rewrite E. cbn [bind].
  unfold peek. destruct lx1 as [[|c r] p]; cbn [rest hd_error pos]; [reflexivity|].
  pose proof (scanToken_progress c r p) as H.
  destruct (scanToken c (mk (c :: r) p)) as [[tok lx2]|e]; cbn [bind].
  - split; [exact H | reflexivity].
  - split; [exact H | reflexivity].
Qed.

Lemma identToken_not_EOF (ident : jsstring) (p : nat) : type (identToken ident p) <> EOF.
Proof.
  unfold identToken.
  repeat match goal with |- context [if ?b then _ else _] => destruct b end;
    discriminate.
Qed.

Lemma scanToken_not_EOF (c : char) (lx lx' : t) (tok : Token) :
  scanToken c lx = OK (tok, lx') -> type tok <> EOF.
Proof.
  unfold scanToken. destruct (punctuation c) as [ty|] eqn:Ep.
  - intros [= <- _]. cbn [type]. unfold punctuation in Ep.
    repeat match type of Ep with
           | (if ?b then _ else _) = _ => destruct b; [injection Ep as <-; discriminate|]
           end.
    discriminate.
  - repeat match goal with
           | |- context [if ?b then _ else _] => destruct b
           | |- context [bind ?r _] => destruct r as [[? ?]|?]; cbn [bind]
           | |- context [readIdentifier ?l] => destruct (readIdentifier l)
           end;
      intros [= <- _]; try discriminate; apply identToken_not_EOF.
Qed.

(** A successful scan yields one token per consumed piece of input and
    ends with the end-of-input token. *)
Lemma tokenizeLoop_shape (fuel : nat) (lx : t) (tokens toks : list Token) :
  tokenizeLoop fuel lx tokens = OK toks ->
  exists body p,
    toks = tokens ++ body ++ [mkToken EOF [] p]
    /\ (List.length body <= left lx)%nat
    /\ Forall (fun tok => type tok <> EOF) body.
Proof.
  revert lx tokens; induction fuel as [|f IH]; intros lx tokens; [discriminate|].
  destruct (tokenizeLoop_step f lx tokens) as (lx1 & _ & L & H).
  destruct (peek lx1) as [c|].
  - destruct (scanToken c lx1) as [[tok lx2]|e] eqn:Es.
    + destruct H as [Hlt ->]. intro E.
      destruct (IH _ _ E) as (body & p & -> & Hlen & Hall).
      exists (tok :: body), p. rewrite <- app_assoc. split; [reflexivity|].
      split; [simpl; lia|]. constructor; [|exact Hall].
      eapply scanToken_not_EOF; eassumption.
    + destruct H as [_ ->]. discriminate.
  - rewrite H. intros [= <-]. exists [], (pos lx1).
    split; [reflexivity|]. split; [simpl; lia|constructor].
Qed.

End LexerFacts.

(** ** Termination of the lexer *)

(** C10. [tokenize] terminates on every input.  The scanning loop is
    bounded by the input length plus one and never reaches that bound;
    every iteration skips white space and comments and then stops with the
    end-of-input token, fails with an error of the program, or reads a token
    and leaves strictly less input; and a successful scan returns at most
    one token per code unit, closed by a single end-of-input token. *)
Theorem tokenize_terminates (input : jsstring) :
  Lexer.tokenize input <> Err OutOfFuel
  /\ (forall (f : nat) (lx : Lexer.t) (tokens : list Token),
        exists lx1,
          Lexer.skipWhitespaceAndComments (S (Lexer.left lx)) lx = OK lx1
          /\ (Lexer.left lx1 <= Lexer.left lx)%nat
          /\ match Lexer.peek lx1 with
             | None =>
                 Lexer.tokenizeLoop (S f) lx tokens
                 = OK (tokens ++ [mkToken EOF [] (Lexer.pos lx1)])
             | Some c =>
                 match Lexer.scanToken c lx1 with
                 | OK (tok, lx2) =>
                     (Lexer.left lx2 < Lexer.left lx1)%nat
                     /\ Lexer.tokenizeLoop (S f) lx tokens
                        = Lexer.tokenizeLoop f lx2 (tokens ++ [tok])
                 | Err e =>
                     e <> OutOfFuel /\ Lexer.tokenizeLoop (S f) lx tokens = Err e
                 end
             end)
  /\ (forall toks, Lexer.tokenize input = OK toks ->
        exists body p,
          toks = body ++ [mkToken EOF [] p]
          /\ (List.length body <= List.length input)%nat
          /\ Forall (fun tok => type tok <> EOF) body).
Proof.
  split; [|split].
  - apply LexerFacts.tokenizeLoop_terminates. unfold Lexer.left. simpl. lia.
  - apply LexerFacts.tokenizeLoop_step.
  - intros toks E. apply LexerFacts.tokenizeLoop_shape in E.
    destruct E as (body & p & -> & Hlen & Hall). now exists body, p.
Qed.

(** ** Identifiers and keywords *)

Module IdentFacts.
Import Lexer.

(** Turns the character classes into comparisons of code units. *)
Ltac classes :=
  unfold punctuation, isIdent, isAlpha_, isDigit_, isHex_, isOct_, isBin_,
    isDigitOrDot, isDigit, isUnderscore, inRange, ch in *;
  cbn [N_of_ascii N_of_digits N.add N.mul] in *.

Ltac by_code_units :=
  classes;
  repeat match goal with
         | |- context [N.eqb ?a ?b] => destruct (N.eqb_spec a b)
         | |- context [N.leb ?a ?b] => destruct (N.leb_spec a b)
         | H : context [N.eqb ?a ?b] |- _ => destruct (N.eqb_spec a b)
         | H : context [N.leb ?a ?b] |- _ => destruct (N.leb_spec a b)
         end;
  cbn [andb orb negb] in *; try reflexivity; try discriminate; try lia.

Lemma alpha_not_punctuation (c : char) : isAlpha_ c = true -> punctuation c = None.
Proof. intro H. by_code_units. Qed.

Lemma alpha_not_quote (c : char) :
  isAlpha_ c = true -> (N.eqb c (ch "'") || N.eqb c 34)%bool = false.
Proof. intro H. by_code_units. Qed.

Lemma alpha_not_number (c : char) :
  isAlpha_ c = true -> (N.eqb c (ch "-") || isDigit c)%bool = false.
Proof. intro H. by_code_units. Qed.

Lemma alpha_not_space (c : char) :
  isAlpha_ c = true ->
  (N.eqb c 32 || N.eqb c 9 || N.eqb c 10 || N.eqb c 13)%bool = false
  /\ N.eqb c (ch "#") = false.
Proof. intro H. split; by_code_units. Qed.

Lemma identLoop_run (id tail : jsstring) (p : nat) (acc : jsstring) :
  forallb isIdent id = true ->
  test isIdent (hd_error tail) = false ->
  identLoop (id ++ tail) p acc = (acc ++ id, mk tail (p + List.length id)).
Proof.
  revert p acc; induction id as [|c id IH]; intros p acc Hid Htail.
  - simpl. rewrite app_nil_r, Nat.add_0_r.
    destruct tail as [|d tail]; [reflexivity|].
    simpl in *. now rewrite Htail.
  - simpl in Hid. apply andb_true_iff in Hid as [Hc Hid].
    simpl. rewrite Hc. rewrite IH by assumption.
    rewrite <- app_assoc. simpl. do 2 f_equal. lia.
Qed.

End IdentFacts.

(** C4. An identifier run [id] that starts with a letter or underscore,
    found at offset [p] and followed by the end of the input or by a code
    unit outside [[A-Za-z0-9_]], is read whole as one token at [p]: TRUE for
    [True] and [true], FALSE for [False] and [false], NONE for [None] and
    [null], and for every other identifier a STRING token whose text is the
    identifier.  When the identifier is the whole input it is the only token
    before the end.  So [{status: ok}] at indent 4 becomes the object with
    key [status] and string value [ok]. *)
Theorem identifier_classification
    (c : char) (id' tail : jsstring) (p : nat) :
  Lexer.isAlpha_ c = true ->
  forallb Lexer.isIdent id' = true ->
  Lexer.test Lexer.isIdent (hd_error tail) = false ->
  let id := c :: id' in
  exists tok,
    Lexer.scanToken c (Lexer.mk (id ++ tail) p)
    = OK (tok, Lexer.mk tail (p + List.length id))
    /\ (id = str "True" \/ id = str "true" -> tok = mkToken TRUE (str "true") p)
    /\ (id = str "False" \/ id = str "false" -> tok = mkToken FALSE (str "false") p)
    /\ (id = str "None" \/ id = str "null" -> tok = mkToken NONE (str "null") p)
    /\ (~ In id (map str ["True"; "true"; "False"; "false"; "None"; "null"]%string)
        -> tok = mkToken STRING id p)
    /\ Lexer.tokenizeLoop (S (List.length id)) (Lexer.mk id p) []
       = OK [tok; mkToken EOF [] (p + List.length id)]
    /\ pythonDictToJson (str "{status: ok}") 4
       = OK (str "{" ++ [10%N] ++ str "    " ++ [34%N] ++ str "status" ++ [34%N]
               ++ str ": " ++ [34%N] ++ str "ok" ++ [34%N] ++ [10%N] ++ str "}").
Proof.
  intros Hc Hid Htail id.
  assert (Hscan : forall tl, Lexer.test Lexer.isIdent (hd_error tl) = false ->
            Lexer.scanToken c (Lexer.mk (id ++ tl) p)
            = OK (Lexer.identToken id p, Lexer.mk tl (p + List.length id))).
  { intros tl Htl. unfold Lexer.scanToken. subst id. cbn [app].
    rewrite (IdentFacts.alpha_not_punctuation c Hc).
    rewrite (IdentFacts.alpha_not_quote c Hc).
    rewrite (IdentFacts.alpha_not_number c Hc).
    rewrite Hc. unfold Lexer.readIdentifier. cbn [Lexer.rest Lexer.pos].
    change (c :: id' ++ tl) with ((c :: id') ++ tl).
    rewrite IdentFacts.identLoop_run; [reflexivity | | exact Htl].
    cbn [forallb]. unfold Lexer.isIdent at 1. now rewrite Hc, Hid. }
  exists (Lexer.identToken id p).
  split; [apply Hscan, Htail|].
  split; [intros [H|H]; rewrite H; reflexivity|].
  split; [intros [H|H]; rewrite H; reflexivity|].
  split; [intros [H|H]; rewrite H; reflexivity|].
  split.
  { intro Hnot. unfold Lexer.identToken.
    repeat match goal with
           | |- context [jsstring_eqb id ?k] =>
               let E := fresh "E" in
               destruct (jsstring_eqb id k) eqn:E;
               [apply jsstring_eqb_eq in E; exfalso; apply Hnot; rewrite E;
                cbn [map In]; tauto|]
           end.
    reflexivity. }
  split; [|vm_compute; reflexivity].
  destruct (IdentFacts.alpha_not_space c Hc) as [Hws Hhash].
  cbn [Lexer.tokenizeLoop Lexer.skipWhitespaceAndComments Lexer.peek Lexer.rest
         List.length hd_error].
  subst id. cbn [Lexer.peek Lexer.rest hd_error].
  rewrite Hws, Hhash. cbn [bind Lexer.peek Lexer.rest hd_error].
  specialize (Hscan [] eq_refl). rewrite app_nil_r in Hscan. rewrite Hscan.
  cbn [bind List.length Lexer.tokenizeLoop Lexer.skipWhitespaceAndComments
         Lexer.peek Lexer.rest hd_error app Lexer.pos].
  reflexivity.
Qed.

Lemma identifier_classification_witness :
  exists tok,
    Lexer.scanToken (ch "o") (Lexer.mk (str "ok" ++ str "}") 9)
    = OK (tok, Lexer.mk (str "}") (9 + 2))
    /\ tok = mkToken STRING (str "ok") 9.
Proof.
  destruct (identifier_classification (ch "o") (str "k") (str "}") 9
              eq_refl eq_refl eq_refl) as (tok & Hs & _ & _ & _ & Hk & _).
  exists tok. split; [exact Hs|]. apply Hk.
  cbn [map In]. intros [H|[H|[H|[H|[H|[H|[]]]]]]]; discriminate H.
Defined.

(** ** Unicode and hex escapes *)

Lemma fromCharCode_range (x : jsnum) : (fromCharCode x < 65536)%N.
Proof.
  destruct x as [| |neg m e]; cbn [fromCharCode]; try reflexivity.
  pose proof (Z.mod_pos_bound (truncate neg m e) 65536 eq_refl). lia.
Qed.

(** C9. In a string literal, [\u] followed by four more code units never
    fails, whatever those code units are: it decodes to the single code
    unit [String.fromCharCode(parseInt(hex, 16))] and scanning of the
    string goes on after them; it fails, with the end-of-input error of the
    escape, exactly when fewer than four code units are left.  The same
    holds for [\x] with two code units. *)
Theorem escape_hex_never_rejected
    (quote h1 h2 h3 h4 : char) (r hs acc : jsstring) (p sp f : nat) :
  N.eqb quote (ch "\") = false ->
  let u := fromCharCode (parseInt [h1; h2; h3; h4] 16) in
  let x := fromCharCode (parseInt [h1; h2] 16) in
  let bu := ch "\" :: ch "u" :: h1 :: h2 :: h3 :: h4 :: r in
  let bx := ch "\" :: ch "x" :: h1 :: h2 :: r in
  Lexer.readEscapeSequence (Lexer.mk bu p) = OK ([u], Lexer.mk r (6 + p))
  /\ (u < 65536)%N
  /\ Lexer.readSingle (S f) quote sp (Lexer.mk bu p) acc
     = Lexer.readSingle f quote sp (Lexer.mk r (6 + p)) (acc ++ [u])
  /\ Lexer.readTriple (S f) quote sp (Lexer.mk bu p) acc
     = Lexer.readTriple f quote sp (Lexer.mk r (6 + p)) (acc ++ [u])
  /\ ((List.length hs < 4)%nat ->
      Lexer.readEscapeSequence (Lexer.mk (ch "\" :: ch "u" :: hs) p)
      = Err EndOfInputInUnicodeEscape)
  /\ Lexer.readEscapeSequence (Lexer.mk bx p) = OK ([x], Lexer.mk r (4 + p))
  /\ (x < 65536)%N
  /\ Lexer.readSingle (S f) quote sp (Lexer.mk bx p) acc
     = Lexer.readSingle f quote sp (Lexer.mk r (4 + p)) (acc ++ [x])
  /\ Lexer.readTriple (S f) quote sp (Lexer.mk bx p) acc
     = Lexer.readTriple f quote sp (Lexer.mk r (4 + p)) (acc ++ [x])
  /\ ((List.length hs < 2)%nat ->
      Lexer.readEscapeSequence (Lexer.mk (ch "\" :: ch "x" :: hs) p)
      = Err EndOfInputInHexEscape).
Proof.
  intros Hq u x bu bx.
  assert (Hq' : N.eqb (ch "\") quote = false) by (now rewrite N.eqb_sym).
  assert (Eu : Lexer.readEscapeSequence (Lexer.mk bu p) = OK ([u], Lexer.mk r (6 + p)))
    by reflexivity.
  assert (Ex : Lexer.readEscapeSequence (Lexer.mk bx p) = OK ([x], Lexer.mk r (4 + p)))
    by reflexivity.
  split; [exact Eu|].
  split; [apply fromCharCode_range|].
  split.
  { cbn [Lexer.readSingle]. cbv zeta. cbn [Lexer.rest bu].
    rewrite Hq', N.eqb_refl. fold bu. rewrite Eu. reflexivity. }
  split.
  { cbn [Lexer.readTriple]. cbv zeta. cbn [Lexer.rest bu].
    rewrite Hq'. cbn [andb]. rewrite N.eqb_refl. fold bu. rewrite Eu. reflexivity. }
  split.
  { intro Hlen. destruct hs as [|a [|b [|c0 [|d hs]]]]; try reflexivity.
    simpl in Hlen. lia. }
  split; [exact Ex|].
  split; [apply fromCharCode_range|].
  split.
  { cbn [Lexer.readSingle]. cbv zeta. cbn [Lexer.rest bx].
    rewrite Hq', N.eqb_refl. fold bx. rewrite Ex. reflexivity. }
  split.
  { cbn [Lexer.readTriple]. cbv zeta. cbn [Lexer.rest bx].
    rewrite Hq'. cbn [andb]. rewrite N.eqb_refl. fold bx. rewrite Ex. reflexivity. }
  intro Hlen. destruct hs as [|a [|b hs]]; try reflexivity.
  simpl in Hlen. lia.
Qed.

(** [\uZZZZ] in a single-quoted string: no digit at all, NaN, code unit 0. *)
Lemma escape_hex_never_rejected_witness :
  Lexer.readEscapeSequence (Lexer.mk (str "\uZZZZ'") 1) = OK ([0%N], Lexer.mk (str "'") 7)
  /\ Lexer.tokenize (str "'\uZZZZ'") = OK [mkToken STRING [0%N] 0; mkToken EOF [] 8].
Proof.
  split.
  - exact (proj1 (escape_hex_never_rejected (ch "'") (ch "Z") (ch "Z") (ch "Z") (ch "Z")
                    (str "'") [] [] 1 0 0 eq_refl)).
  - reflexivity.
Defined.

(** ** Number literals the lexer rejects *)

Module NumberFacts.
Import Lexer.
Import LexerFacts IdentFacts.

Lemma good_app (s u : jsstring) : good s -> good (s ++ u).
Proof.
  unfold good. destruct s as [|a [|b s]]; simpl; try discriminate.
  - rewrite andb_true_r. intro H. destruct u; simpl; [now rewrite andb_true_r|].
    now rewrite andb_false_r.
  - intros _. now rewrite andb_false_r.
Qed.

Lemma good_two (a b : char) (s : jsstring) : good (a :: b :: s).
Proof. unfold good. simpl. now rewrite andb_false_r. Qed.

Lemma good_first (a : char) (s : jsstring) : N.eqb a (ch "-") = false -> good (a :: s).
Proof. unfold good. simpl. intros ->. reflexivity. Qed.

Lemma digitLoop_prefix (cls : char -> bool) (r : jsstring) (p : nat) (acc : jsstring) :
  exists ds, fst (digitLoop cls r p acc) = acc ++ ds.
Proof.
  revert p acc; induction r as [|c r IH]; intros p acc; simpl.
  - exists []. now rewrite app_nil_r.
  - destruct (cls c); [|exists []; simpl; now rewrite app_nil_r].
    destruct (IH (S p) (if isUnderscore c then acc else acc ++ [c])) as [ds E].
    rewrite E. destruct (isUnderscore c); [now exists ds|].
    exists (c :: ds). now rewrite <- app_assoc.
Qed.

Lemma digits_good (cls : char -> bool) (lx : t) (acc : jsstring) :
  good acc -> good (fst (digits cls lx acc)).
Proof.
  intro H. unfold digits.
  destruct (digitLoop_prefix cls (rest lx) (pos lx) acc) as [ds ->].
  now apply good_app.
Qed.

Ltac solve_good :=
  solve [ repeat first [ assumption | apply good_two | apply good_app ] ].

Ltac good_step :=
  match goal with
  | |- context [digits ?cls ?lx ?acc] =>
      let H := fresh "Hg" in
      assert (H : good acc) by solve_good;
      apply (digits_good cls lx) in H;
      destruct (digits cls lx acc) as [? ?]; cbn [fst] in H
  | |- context [if (jsstring_eqb ?s [] || jsstring_eqb ?s [ch "-"])%bool then _ else _] =>
      let H := fresh "Hg" in
      assert (H : good s) by solve_good;
      unfold good in H; rewrite H
  | |- context [if ?b then _ else _] => destruct b eqn:?
  | |- context [digits ?cls ?lx ?acc] => destruct (digits cls lx acc) as [? ?]
  end.

(** Once the text read so far is good, [readNumber] returns. *)
Ltac finish_good := repeat good_step; eauto.

(** Every literal that starts with a digit is accepted. *)
Lemma readNumber_digit (c : char) (r : jsstring) (p : nat) :
  isDigit c = true ->
  exists s lx', readNumber (mk (c :: r) p) = OK (s, lx').
Proof.
  intro Hc. unfold readNumber.
  cbn [peek rest hd_error isChar pos].
  assert (Em : N.eqb c (ch "-") = false) by by_code_units.
  rewrite Em. cbn [peek rest hd_error isChar app].
  destruct (N.eqb c (ch "0")) eqn:Ez.
  - assert (Hg : good [ch "0"]) by reflexivity. finish_good.
  - cbn [andb].
    assert (Hu : isUnderscore c = false) by by_code_units.
    assert (Hd : isDigit_ c = true) by (unfold isDigit_; now rewrite Hc).
    unfold digits at 1. cbn [rest pos digitLoop]. rewrite Hd, Hu.
    cbn [app].
    assert (Hg : good [c]) by (now apply good_first).
    change (digitLoop isDigit_ r (S p) [c]) with (digits isDigit_ (mk r (S p)) [c]).
    finish_good.
Qed.

(** A minus followed by a digit, or by a point and a digit, is accepted. *)
Lemma readNumber_minus (d : char) (r : jsstring) (p : nat) :
  isDigit d = true ->
  (exists s lx', readNumber (mk (ch "-" :: d :: r) p) = OK (s, lx'))
  /\ (exists s lx', readNumber (mk (ch "-" :: ch "." :: d :: r) p) = OK (s, lx')).
Proof.
  intro Hd. split.
  - unfold readNumber.
    cbn [peek rest hd_error isChar pos].
    change (N.eqb (ch "-") (ch "-")) with true. cbv iota.
    rewrite !advance_cons. cbn [peek rest hd_error isChar pos].
    destruct (N.eqb d (ch "0")) eqn:Ez.
    + assert (Hg : good ([ch "-"] ++ [ch "0"])) by reflexivity. finish_good.
    + cbn [andb].
      assert (Hu : isUnderscore d = false) by by_code_units.
      assert (Hd' : isDigit_ d = true) by (unfold isDigit_; now rewrite Hd).
      unfold digits at 1. cbn [rest pos digitLoop]. rewrite Hd', Hu.
      assert (Hg : good ([ch "-"] ++ [d])) by apply good_two.
      change (digitLoop isDigit_ r (S (S p)) ([ch "-"] ++ [d]))
        with (digits isDigit_ (mk r (S (S p))) ([ch "-"] ++ [d])).
      finish_good.
  - unfold readNumber.
    cbn [peek rest hd_error isChar pos].
    change (N.eqb (ch "-") (ch "-")) with true. cbv iota.
    rewrite !advance_cons. cbn [peek rest hd_error isChar pos].
    change (N.eqb (ch ".") (ch "0")) with false. cbv iota. cbn [andb].
    unfold digits at 1. cbn [rest pos digitLoop].
    change (isDigit_ (ch ".")) with false. cbv iota.
    rewrite ?advance_cons.
    cbn [peek rest hd_error isChar pos at_ nth_error List.length test].
    change (N.eqb (ch ".") (ch ".")) with true. rewrite Hd.
    cbn [andb Nat.ltb Nat.leb].
    assert (Hg : good ([ch "-"] ++ [ch "."])) by apply good_two.
    finish_good.
Qed.

(** A minus, a point and no digit: the one literal [readNumber] rejects. *)
Lemma readNumber_minus_point (r : jsstring) (p : nat) :
  test isDigit (hd_error r) = false ->
  readNumber (mk (ch "-" :: ch "." :: r) p) = Err (InvalidNumberAt p).
Proof.
  intro Hr. unfold readNumber.
  cbn [peek rest hd_error isChar pos].
  change (N.eqb (ch "-") (ch "-")) with true. cbv iota.
  rewrite !advance_cons. cbn [peek rest hd_error isChar pos].
  change (N.eqb (ch ".") (ch "0")) with false. cbv iota. cbn [andb].
  unfold digits at 1. cbn [rest pos digitLoop].
  change (isDigit_ (ch ".")) with false. cbv iota.
  cbn [peek rest hd_error isChar pos].
  change (at_ (mk (ch "." :: r) (S p)) 1) with (hd_error r).
  rewrite Hr, andb_false_r.
  cbn [peek rest hd_error isChar].
  reflexivity.
Qed.

Lemma readEscapeSequence_error (lx : t) (e : Error) :
  readEscapeSequence lx = Err e -> isStringError e = true.
Proof.
  unfold readEscapeSequence. destruct (peek (advance lx)); [|now intros [= <-]].
  repeat match goal with
         | |- context [if ?b then _ else _] => destruct b; try discriminate
         end.
  - destruct (rest (advance (advance lx))) as [|? [|? [|? [|? ?]]]];
      try discriminate; now intros [= <-].
  - destruct (rest (advance (advance lx))) as [|? [|? ?]];
      try discriminate; now intros [= <-].
Qed.

Lemma readSingle_error (fuel : nat) (quote : char) (sp : nat) (lx : t)
    (acc : jsstring) (e : Error) :
  readSingle fuel quote sp lx acc = Err e -> isStringError e = true.
Proof.
  revert lx acc; induction fuel as [|f IH]; intros lx acc; [now intros [= <-]|].
  cbn [readSingle]. destruct (rest lx) as [|c r]; [now intros [= <-]|].
  destruct (N.eqb c quote); [discriminate|].
  destruct (N.eqb c (ch "\")); [|apply IH].
  destruct (readEscapeSequence lx) as [[s lx']|e'] eqn:Ee; cbn [bind]; [apply IH|].
  intros [= <-]. eapply readEscapeSequence_error; eassumption.
Qed.

Lemma readTriple_error (fuel : nat) (quote : char) (sp : nat) (lx : t)
    (acc : jsstring) (e : Error) :
  readTriple fuel quote sp lx acc = Err e -> isStringError e = true.
Proof.
  revert lx acc; induction fuel as [|f IH]; intros lx acc; [now intros [= <-]|].
  cbn [readTriple]. destruct (rest lx) as [|c r]; [now intros [= <-]|].
  destruct (_ && _ && _ && _)%bool; [discriminate|].
  destruct (N.eqb c (ch "\")); [|apply IH].
  destruct (readEscapeSequence lx) as [[s lx']|e'] eqn:Ee; cbn [bind]; [apply IH|].
  intros [= <-]. eapply readEscapeSequence_error; eassumption.
Qed.

Lemma readString_error (quote : char) (lx : t) (e : Error) :
  readString quote lx = Err e -> isStringError e = true.
Proof.
  unfold readString. destruct (_ && _ && _)%bool.
  - apply readTriple_error.
  - apply readSingle_error.
Qed.

End NumberFacts.

(** C7, as the code has it.  Take a minus at offset [p] that is not
    followed by a digit.  Reading the token fails with the lexer's
    invalid-number error exactly when the minus is followed by a point that
    is not followed by a digit, and the error names [p].  When the minus is
    followed by neither a digit nor a point, the failure is an unexpected
    character at [p].  A minus, a point and a digit start a NUMBER token.
    So [-.] is an invalid number, [-] alone is an unexpected character, and
    [-.5] is the number -0.5. *)
Theorem invalid_number_cases (r : jsstring) (p : nat) :
  (Lexer.test Lexer.isDigit (hd_error r) = false ->
   forall q,
     Lexer.scanToken (ch "-") (Lexer.mk (ch "-" :: r) p) = Err (InvalidNumberAt q)
     <-> q = p /\ exists r', r = ch "." :: r'
                            /\ Lexer.test Lexer.isDigit (hd_error r') = false)
  /\ (Lexer.test Lexer.isDigitOrDot (hd_error r) = false ->
      Lexer.scanToken (ch "-") (Lexer.mk (ch "-" :: r) p)
      = Err (UnexpectedCharacter (ch "-") p))
  /\ (forall d, Lexer.isDigit d = true ->
      exists text lx',
        Lexer.scanToken (ch "-") (Lexer.mk (ch "-" :: ch "." :: d :: r) p)
        = OK (mkToken NUMBER text p, lx'))
  /\ Lexer.tokenize (str "-.") = Err (InvalidNumberAt 0)
  /\ Lexer.tokenize (str "-") = Err (UnexpectedCharacter (ch "-") 0)
  /\ Lexer.tokenize (str "-.5") = OK [mkToken NUMBER (str "-.5") 0; mkToken EOF [] 3]
  /\ pythonDictToJson (str "-.5") 4 = OK (str "-0.5").
Proof.
  assert (Hscan : forall r0,
             Lexer.scanToken (ch "-") (Lexer.mk (ch "-" :: r0) p)
             = if Lexer.test Lexer.isDigitOrDot (hd_error r0)
               then let* (num, lx') := Lexer.readNumber (Lexer.mk (ch "-" :: r0) p) in
                    OK (mkToken NUMBER num p, lx')
               else Err (UnexpectedCharacter (ch "-") p)).
  { intro r0. unfold Lexer.scanToken. cbn [Lexer.pos Lexer.rest].
    change (Lexer.punctuation (ch "-")) with (@None TokenType).
    change (N.eqb (ch "-") (ch "'") || N.eqb (ch "-") 34)%bool with false.
    change (N.eqb (ch "-") (ch "-") || Lexer.isDigit (ch "-"))%bool with true.
    change (N.eqb (ch "-") (ch "-")) with true. cbv iota.
    change (Lexer.at_ (Lexer.mk (ch "-" :: r0) p) 1) with (hd_error r0).
    destruct r0 as [|d r0]; [reflexivity|].
    cbn [List.length Nat.ltb Nat.leb andb]. reflexivity. }
  split; [|split; [|split; [|repeat split; vm_compute; reflexivity]]].
  - intros Hnd q. rewrite Hscan.
    destruct r as [|d r]; cbn [hd_error Lexer.test] in *.
    { split; [discriminate|]. intros (_ & r' & Hr & _). discriminate. }
    unfold Lexer.isDigitOrDot. rewrite Hnd. cbn [orb].
    destruct (N.eqb_spec d (ch ".")) as [->|Hne].
    + destruct (Lexer.test Lexer.isDigit (hd_error r)) eqn:Hr.
      * destruct r as [|d r]; [discriminate|]. cbn [hd_error Lexer.test] in Hr.
        destruct (proj2 (NumberFacts.readNumber_minus d r p Hr)) as (text & lx' & ->).
        cbn [bind]. split; [discriminate|].
        intros (_ & r' & [= <-] & Hr'). cbn [hd_error Lexer.test] in Hr'. congruence.
      * rewrite (NumberFacts.readNumber_minus_point r p Hr). cbn [bind]. split.
        -- intros [= <-]. split; [reflexivity|]. exists r. now split.
        -- intros (-> & _). reflexivity.
    + split; [discriminate|]. intros (_ & r' & [= -> _] & _). contradiction.
  - intro Hr. rewrite Hscan, Hr. reflexivity.
  - intros d Hd. rewrite Hscan. cbn [hd_error Lexer.test].
    change (Lexer.isDigitOrDot (ch ".")) with true. cbv iota.
    destruct (proj2 (NumberFacts.readNumber_minus d r p Hd)) as (text & lx' & ->).
    cbn [bind]. now exists text, lx'.
Qed.

(** Two inputs: [-.5] is accepted as a number, and [-] is rejected as an
    unexpected character, not as an invalid number. *)
Lemma invalid_number_counterexample :
  pythonDictToJson (str "-.5") 4 = OK (str "-0.5")
  /\ Lexer.tokenize (str "-.5") = OK [mkToken NUMBER (str "-.5") 0; mkToken EOF [] 3]
  /\ Lexer.tokenize (str "-") = Err (UnexpectedCharacter (ch "-") 0).
Proof. repeat split; vm_compute; reflexivity. Qed.

(** A base prefix without digits is not rejected by the lexer: the prefix
    branches of [readNumber] return the text of [parseInt] on no digits
    before the check for an empty literal is reached.  As a value the
    token is rejected by the parser; as a dict key it is taken as it is. *)
Example base_prefix_without_digits :
  Lexer.tokenize (str "0x") = OK [mkToken NUMBER (str "NaN") 0; mkToken EOF [] 2]
  /\ pythonDictToJson (str "0x") 0 = Err (InvalidNumber (str "NaN") 0)
  /\ pythonDictToJson (str "{0x: 1}") 0
     = OK (str "{" ++ QuoteJSONString (str "NaN") ++ str ":1}").
Proof. repeat split; vm_compute; reflexivity. Qed.

(** ** Unterminated triple-quoted strings *)

Module TripleFacts.
Import Lexer.

Lemma closing_test (q : char) (s : jsstring) (p : nat) :
  match s with
  | c :: _ =>
      (N.eqb c q && (2 <? List.length s)%nat
       && test (N.eqb q) (at_ (mk s p) 1) && test (N.eqb q) (at_ (mk s p) 2))%bool
  | [] => false
  end = closesHere q s.
Proof.
  destruct s as [|a [|b [|c s]]]; cbn; try reflexivity;
    rewrite ?andb_false_r, ?andb_true_r; reflexivity.
Qed.

(** A simple escape yields one code unit and steps over two. *)
Lemma readEscapeSequence_simple (c : char) (s : jsstring) (p : nat) :
  N.eqb c (ch "u") = false ->
  N.eqb c (ch "x") = false ->
  exists u, readEscapeSequence (mk (ch "\" :: c :: s) p) = OK ([u], mk s (2 + p)).
Proof.
  intros Hu Hx. unfold readEscapeSequence.
  rewrite !LexerFacts.advance_cons. cbn [peek rest hd_error].
  rewrite Hu, Hx.
  repeat match goal with
         | |- context [if ?b then _ else _] => destruct b; [eexists; reflexivity|]
         end.
  eexists; reflexivity.
Qed.

Lemma readTriple_open (q : char) (sp : nat) (s : jsstring) :
  N.eqb q (ch "\") = false ->
  OpenTriple q s ->
  forall (fuel p : nat) (acc : jsstring),
    (List.length s < fuel)%nat ->
    readTriple fuel q sp (mk s p) acc = Err (UnterminatedTripleQuotedString sp).
Proof.
  intros Hq Hs. assert (Hq' : N.eqb (ch "\") q = false) by now rewrite N.eqb_sym.
  induction Hs as [|c s Hc Hcl Hs IH|c s Hu Hx Hs IH|h1 h2 h3 h4 s Hs IH|h1 h2 s Hs IH];
    intros fuel p acc Hf; (destruct fuel as [|f]; [simpl in Hf; lia|]).
  - reflexivity.
  - cbn [readTriple rest].
    pose proof (closing_test q (c :: s) p) as Ht. cbv beta iota in Ht.
    rewrite Ht, Hcl, Hc. rewrite LexerFacts.advance_cons.
    apply IH. simpl in Hf. lia.
  - cbn [readTriple rest].
    pose proof (closing_test q (ch "\" :: c :: s) p) as Ht. cbv beta iota in Ht.
    rewrite Ht. unfold closesHere. destruct s as [|? ?]; rewrite ?Hq'; cbn [andb];
      change (N.eqb (ch "\") (ch "\")) with true; cbv iota;
      match goal with
      | |- context [readEscapeSequence (mk (_ :: c :: ?t) p)] =>
          destruct (readEscapeSequence_simple c t p Hu Hx) as [u ->]
      end; cbn [bind]; apply IH; simpl in *; lia.
  - cbn [readTriple rest].
    pose proof (closing_test q (ch "\" :: ch "u" :: h1 :: h2 :: h3 :: h4 :: s) p) as Ht.
    cbv beta iota in Ht. rewrite Ht. unfold closesHere. rewrite Hq'. cbn [andb].
    change (N.eqb (ch "\") (ch "\")) with true. cbv iota.
    change (readEscapeSequence (mk (ch "\" :: ch "u" :: h1 :: h2 :: h3 :: h4 :: s) p))
      with (OK ([fromCharCode (parseInt [h1; h2; h3; h4] 16)], mk s (6 + p))).
    cbn [bind]. apply IH. simpl in Hf. lia.
  - cbn [readTriple rest].
    pose proof (closing_test q (ch "\" :: ch "x" :: h1 :: h2 :: s) p) as Ht.
    cbv beta iota in Ht. rewrite Ht. unfold closesHere. rewrite Hq'. cbn [andb].
    change (N.eqb (ch "\") (ch "\")) with true. cbv iota.
    change (readEscapeSequence (mk (ch "\" :: ch "x" :: h1 :: h2 :: s) p))
      with (OK ([fromCharCode (parseInt [h1; h2] 16)], mk s (4 + p))).
    cbn [bind]. apply IH. simpl in Hf. lia.
Qed.

(** The error names the offset after the opening quote, where
    [readString] starts. *)
Lemma scanToken_open_triple (q : char) (body : jsstring) (p : nat) :
  q = ch "'" \/ q = 34%N ->
  body <> [] ->
  OpenTriple q body ->
  scanToken q (mk (q :: q :: q :: body) p)
  = Err (UnterminatedTripleQuotedString (S p)).
Proof.
  intros Hq Hne Hopen.
  assert (Hb : N.eqb q (ch "\") = false) by (destruct Hq; subst q; reflexivity).
  unfold scanToken.
  assert (Hp : punctuation q = None) by (destruct Hq; subst q; reflexivity).
  assert (Hquote : (N.eqb q (ch "'") || N.eqb q 34)%bool = true)
    by (destruct Hq; subst q; reflexivity).
  rewrite Hp, Hquote, LexerFacts.advance_cons.
  unfold readString. cbn [rest pos at_ nth_error test List.length].
  rewrite N.eqb_refl. cbn [andb].
  destruct body as [|b body]; [contradiction|].
  cbn [List.length Nat.ltb Nat.leb]. rewrite !LexerFacts.advance_cons.
  rewrite (readTriple_open q (S p) (b :: body) Hb Hopen); [reflexivity|].
  cbn [rest]. lia.
Qed.

End TripleFacts.

(** C8, as the code has it.  When a string opening quote is followed by
    two more quotes of its kind and by at least one more code unit, and what
    follows splits into plain code units and complete escape sequences none
    of which starts a closing triple quote, reading the token fails as an
    unterminated triple-quoted string, and so does the scanning loop from
    there, whatever came before. *)
Theorem unterminated_triple_quoted
    (q : char) (body : jsstring) (p f : nat) (tokens : list Token) :
  q = ch "'" \/ q = 34%N ->
  body <> [] ->
  OpenTriple q body ->
  exists sp,
    Lexer.scanToken q (Lexer.mk (q :: q :: q :: body) p)
    = Err (UnterminatedTripleQuotedString sp)
    /\ Lexer.tokenizeLoop (S f) (Lexer.mk (q :: q :: q :: body) p) tokens
       = Err (UnterminatedTripleQuotedString sp).
Proof.
  intros Hq Hne Hopen. exists (S p).
  pose proof (TripleFacts.scanToken_open_triple q body p Hq Hne Hopen) as Hs.
  split; [exact Hs|].
  cbn [Lexer.tokenizeLoop Lexer.skipWhitespaceAndComments Lexer.rest List.length
         Lexer.peek hd_error].
  assert (Hws : (N.eqb q 32 || N.eqb q 9 || N.eqb q 10 || N.eqb q 13)%bool = false)
    by (destruct Hq; subst q; reflexivity).
  assert (Hh : N.eqb q (ch "#") = false) by (destruct Hq; subst q; reflexivity).
  rewrite Hws, Hh. cbn [bind Lexer.peek Lexer.rest hd_error].
  rewrite Hs. reflexivity.
Qed.

Lemma unterminated_triple_quoted_witness :
  exists sp,
    Lexer.tokenize (str "'''a\nb") = Err (UnterminatedTripleQuotedString sp).
Proof.
  assert (Hopen : OpenTriple (ch "'") (str "a\nb")).
  { apply OT_char; [reflexivity|reflexivity|].
    apply OT_escape; [reflexivity|reflexivity|].
    apply OT_char; [reflexivity|reflexivity|]. apply OT_end. }
  destruct (unterminated_triple_quoted (ch "'") (str "a\nb") 0
              (List.length (str "'''a\nb")) []
              (or_introl eq_refl) ltac:(discriminate) Hopen) as (sp & _ & H).
  exists sp. exact H.
Defined.

(** The input ends inside an escape sequence of a triple-quoted string:
    the error is the one of the escape. *)
Lemma unterminated_triple_quoted_counterexample :
  Lexer.tokenize (str "'''a\") = Err EndOfInputInEscape.
Proof. reflexivity. Qed.

(** Where the code stands on the two points the statement above leaves
    open: the offset in the error is the one after the opening quote, and
    three quotes at the very end of the input are read as an empty string
    followed by an unterminated single-quoted one. *)
Example triple_quoted_reported_offset :
  Lexer.tokenize (str "'''abc") = Err (UnterminatedTripleQuotedString 1)
  /\ Lexer.tokenize (str "x '''abc") = Err (UnterminatedTripleQuotedString 3)
  /\ Lexer.tokenize (str "'''") = Err (UnterminatedString 3).
Proof. repeat split. Qed.

(** ** Integers below [2^53] print as their decimal numeral *)

Module NumeralFacts.

Lemma digitsAux_acc (f : nat) (n : Z) (acc : jsstring) :
  digitsAux f n acc = digitsAux f n [] ++ acc.
Proof.
  revert n acc; induction f as [|f IH]; intros n acc; [reflexivity|].
  cbn [digitsAux]. destruct (n <? 10); [reflexivity|].
  rewrite IH. rewrite (IH _ [_]). now rewrite <- app_assoc.
Qed.

Lemma digitsAux_more (f f' : nat) (n : Z) (acc : jsstring) :
  0 <= n < 10 ^ Z.of_nat (S f) -> (f <= f')%nat ->
  digitsAux (S f) n acc = digitsAux (S f') n acc.
Proof.
  revert f' n acc; induction f as [|f IH]; intros f' n acc Hn Hf.
  - cbn [digitsAux]. change (10 ^ Z.of_nat 1) with 10 in Hn.
    destruct (Z.ltb_spec n 10); [reflexivity|lia].
  - destruct f' as [|f']; [lia|].
    change (digitsAux (S (S f)) n acc)
      with (let acc' := Z.to_N (48 + n mod 10) :: acc in
            if n <? 10 then acc' else digitsAux (S f) (n / 10) acc').
    change (digitsAux (S (S f')) n acc)
      with (let acc' := Z.to_N (48 + n mod 10) :: acc in
            if n <? 10 then acc' else digitsAux (S f') (n / 10) acc').
    cbv zeta. destruct (Z.ltb_spec n 10); [reflexivity|].
    apply IH; [|lia].
    rewrite (Nat2Z.inj_succ (S f)), Z.pow_succ_r in Hn by lia.
    split; [apply Z.div_pos; lia|].
    apply Z.div_lt_upper_bound; lia.
Qed.

Lemma log2_fuel (n : Z) : 0 <= n -> n < 10 ^ Z.of_nat (S (Z.to_nat (Z.log2 n))).
Proof.
  intro Hn. rewrite Nat2Z.inj_succ, Z2Nat.id by apply Z.log2_nonneg.
  destruct (Z.eq_dec n 0) as [->|Hz]; [reflexivity|].
  assert (Hlog : n < 2 ^ Z.succ (Z.log2 n)) by (apply Z.log2_spec; lia).
  eapply Z.lt_le_trans; [exact Hlog|].
  apply Z.pow_le_mono_l. pose proof (Z.log2_nonneg n). lia.
Qed.

Lemma decimalDigits_fuel (f : nat) (n : Z) :
  0 <= n < 10 ^ Z.of_nat (S f) -> decimalDigits n = digitsAux (S f) n [].
Proof.
  intros Hn. unfold decimalDigits.
  destruct (Nat.le_ge_cases f (Z.to_nat (Z.log2 n))) as [H|H].
  - symmetry. now apply digitsAux_more.
  - apply digitsAux_more; [|exact H]. split; [lia|]. apply log2_fuel; lia.
Qed.

(** The numeral of [10 * a + d]. *)
Lemma decimalDigits_step (a d : Z) :
  0 < a -> 0 <= d < 10 ->
  decimalDigits (10 * a + d) = decimalDigits a ++ [Z.to_N (48 + d)].
Proof.
  intros Ha Hd.
  set (f := Z.to_nat (Z.log2 a)).
  assert (Hf : a < 10 ^ Z.of_nat (S f)) by (apply log2_fuel; lia).
  rewrite (decimalDigits_fuel (S f) (10 * a + d)).
  2:{ rewrite (Nat2Z.inj_succ (S f)), Z.pow_succ_r by lia. lia. }
  change (digitsAux (S (S f)) (10 * a + d) [])
    with (let acc' := [Z.to_N (48 + (10 * a + d) mod 10)] in
          if 10 * a + d <? 10 then acc' else digitsAux (S f) ((10 * a + d) / 10) acc').
  cbv zeta.
  destruct (Z.ltb_spec (10 * a + d) 10); [lia|].
  replace ((10 * a + d) / 10) with a
    by (apply Z.div_unique with d; lia).
  replace ((10 * a + d) mod 10) with d
    by (apply Z.mod_unique with a; lia).
  rewrite digitsAux_acc. reflexivity.
Qed.

Lemma decimalDigits_small (d : Z) : 0 <= d < 10 -> decimalDigits d = [Z.to_N (48 + d)].
Proof.
  intro Hd. rewrite (decimalDigits_fuel 0 d) by (simpl; lia).
  cbn [digitsAux]. destruct (Z.ltb_spec d 10); [|lia].
  now rewrite Z.mod_small by lia.
Qed.

Lemma decimalDigits_zeros (s j : Z) :
  0 < s -> 0 <= j -> decimalDigits (s * 10 ^ j) = decimalDigits s ++ zeros j.
Proof.
  intros Hs Hj. revert j Hj. apply natlike_ind.
  - rewrite Z.mul_1_r. unfold zeros. simpl. now rewrite app_nil_r.
  - intros j Hj IH. rewrite Z.pow_succ_r by lia.
    replace (s * (10 * 10 ^ j)) with (10 * (s * 10 ^ j) + 0) by lia.
    rewrite decimalDigits_step by (try lia; apply Z.mul_pos_pos; lia).
    rewrite IH, <- app_assoc. f_equal.
    unfold zeros. rewrite Z2Nat.inj_succ by lia.
    change (Z.to_N (48 + 0)) with (ch "0").
    rewrite <- repeat_cons. reflexivity.
Qed.

(** The bounds the number of digits stands for. *)
Lemma numDigits_bounds (n : Z) :
  0 < n -> 1 <= numDigits n /\ 10 ^ (numDigits n - 1) <= n < 10 ^ numDigits n.
Proof.
  intro Hn. assert (H0 : 0 <= n) by lia. revert Hn.
  pattern n. apply Z_lt_induction; [clear n H0|exact H0].
  intros n IH Hn. unfold numDigits.
  destruct (Z_lt_le_dec n 10) as [Hs|Hl].
  - rewrite decimalDigits_small by lia. cbn [List.length Z.of_nat].
    change (Z.pos (Pos.of_succ_nat 0)) with 1. simpl. lia.
  - pose proof (Z.div_mod n 10 ltac:(lia)) as Hdm.
    pose proof (Z.mod_pos_bound n 10 ltac:(lia)) as Hm.
    assert (Ha : 0 < n / 10) by (apply Z.div_str_pos; lia).
    assert (E : decimalDigits n
                = decimalDigits (n / 10) ++ [Z.to_N (48 + n mod 10)]).
    { rewrite Hdm at 1. apply decimalDigits_step; lia. }
    rewrite E. clear E.
    rewrite length_app. cbn [List.length]. rewrite Nat2Z.inj_add.
    destruct (IH (n / 10) ltac:(lia) Ha) as (H1 & H2 & H3).
    unfold numDigits in *. change (Z.of_nat 1) with 1.
    set (D := Z.of_nat (List.length (decimalDigits (n / 10)))) in *.
    replace (D + 1 - 1) with (Z.succ (D - 1)) by lia.
    replace (10 ^ (D + 1)) with (10 ^ Z.succ D) by (f_equal; lia).
    rewrite !Z.pow_succ_r by lia. lia.
Qed.

(** *** Rounding an integer below [2^53] is exact *)

Lemma stripZeros_value (p : positive) (e : Z) :
  0 <= e ->
  e <= snd (stripZeros p e)
  /\ Zpos (fst (stripZeros p e)) * 2 ^ snd (stripZeros p e) = Zpos p * 2 ^ e.
Proof.
  revert e; induction p as [p IH|p IH|]; intros e He; cbn [stripZeros fst snd];
    try (split; [lia|reflexivity]).
  destruct (IH (e + 1) ltac:(lia)) as [H1 H2].
  split; [lia|]. rewrite H2. rewrite Z.pow_add_r by lia. lia.
Qed.

Lemma canon_value (neg : bool) (m e : Z) :
  0 < m -> 0 <= e ->
  exists m' e', canon neg m e = JFin neg m' e'
                /\ 0 < m' /\ e <= e' /\ m' * 2 ^ e' = m * 2 ^ e.
Proof.
  intros Hm He. destruct m as [|p|p]; try lia. cbn [canon].
  pose proof (stripZeros_value p e He) as [H1 H2].
  destruct (stripZeros p e) as [q e']. cbn [fst snd] in *.
  exists (Zpos q), e'. repeat split; try lia.
Qed.

Lemma canon_double (neg : bool) (m e : Z) :
  0 < m -> canon neg (2 * m) (e - 1) = canon neg m e.
Proof.
  intros Hm. destruct m as [|p|p]; try lia.
  change (2 * Z.pos p) with (Z.pos (xO p)). cbn [canon stripZeros].
  replace (e - 1 + 1) with e by lia. reflexivity.
Qed.

Lemma canon_shift (neg : bool) (m e : Z) (k : nat) :
  0 < m -> canon neg (m * 2 ^ Z.of_nat k) (e - Z.of_nat k) = canon neg m e.
Proof.
  intros Hm. revert e; induction k as [|k IH]; intro e.
  - simpl. rewrite Z.mul_1_r, Z.sub_0_r. reflexivity.
  - rewrite Nat2Z.inj_succ, Z.pow_succ_r by lia.
    replace (m * (2 * 2 ^ Z.of_nat k)) with (2 * (m * 2 ^ Z.of_nat k)) by lia.
    replace (e - Z.succ (Z.of_nat k)) with (e - Z.of_nat k - 1) by lia.
    rewrite canon_double by (apply Z.mul_pos_pos; lia).
    apply IH.
Qed.

Lemma log2_below (n : Z) (k : Z) : 0 < n < 2 ^ k -> 0 <= k -> Z.log2 n < k.
Proof.
  intros [Hn Hb] Hk. pose proof (Z.log2_spec n Hn) as [Hl _].
  pose proof (Z.log2_nonneg n).
  apply (Z.pow_lt_mono_r_iff 2); lia.
Qed.

Lemma log2_above (n : Z) (k : Z) : 2 ^ k <= n -> 0 <= k -> k <= Z.log2 n.
Proof.
  intros Hb Hk. assert (Hn : 0 < n) by (pose proof (Z.pow_pos_nonneg 2 k); lia).
  pose proof (Z.log2_spec n Hn) as [_ Hl].
  pose proof (Z.log2_nonneg n).
  apply Z.lt_succ_r. apply (Z.pow_lt_mono_r_iff 2); lia.
Qed.

Lemma numberOfInt_exact (neg : bool) (n : Z) :
  0 < n < 2 ^ 53 -> numberOfInt neg n = canon neg n 0.
Proof.
  intros [Hn Hb]. unfold numberOfInt, roundRatio.
  destruct (Z.leb_spec n 0); [lia|].
  change (Z.log2 1) with 0. rewrite Z.sub_0_r.
  pose proof (Z.log2_spec n Hn) as [Hl1 Hl2].
  pose proof (Z.log2_nonneg n) as HL0.
  assert (HL : Z.log2 n < 53) by (apply log2_below; lia).
  set (L := Z.log2 n) in *.
  rewrite (Z.max_r 0 L), (Z.max_l 0 (- L)) by lia.
  rewrite Z.pow_0_r, Z.mul_1_r, Z.mul_1_l.
  destruct (Z.leb_spec (2 ^ L) n); [|lia].
  rewrite (Z.max_l (L - 52) (-1074)) by lia.
  rewrite (Z.max_r 0 (- (L - 52))), (Z.max_l 0 (L - 52)) by lia.
  rewrite Z.pow_0_r. rewrite Z.div_1_r, Z.mod_1_r.
  change (2 * 0 <? 1 * 1) with true. cbv iota.
  set (M := n * 2 ^ (- (L - 52))).
  assert (HM : 0 < M) by (apply Z.mul_pos_pos; [lia|apply Z.pow_pos_nonneg; lia]).
  assert (Hlog : Z.log2 M = 52).
  { unfold M. rewrite Z.log2_mul_pow2 by lia. fold L. lia. }
  destruct (Z.eqb_spec M 0); [lia|].
  rewrite Hlog. destruct (Z.leb_spec 1024 (52 + (L - 52))); [lia|].
  unfold M. replace (- (L - 52)) with (Z.of_nat (Z.to_nat (52 - L))) by lia.
  replace (L - 52) with (0 - Z.of_nat (Z.to_nat (52 - L))) by lia.
  apply canon_shift. lia.
Qed.

Lemma numberOfInt_large (y : Z) :
  2 ^ 53 <= y ->
  numberOfInt false y = JInf false
  \/ exists m e, numberOfInt false y = JFin false m e
                 /\ 0 <= e /\ 2 ^ 53 <= m * 2 ^ e.
Proof.
  intros Hb. assert (Hy : 0 < y) by lia. unfold numberOfInt, roundRatio.
  destruct (Z.leb_spec y 0); [lia|].
  change (Z.log2 1) with 0. rewrite Z.sub_0_r.
  pose proof (Z.log2_spec y Hy) as [Hl1 Hl2].
  assert (HL : 53 <= Z.log2 y) by (apply log2_above; lia).
  set (L := Z.log2 y) in *.
  rewrite (Z.max_r 0 L), (Z.max_l 0 (- L)) by lia.
  rewrite Z.pow_0_r, Z.mul_1_r, Z.mul_1_l.
  destruct (Z.leb_spec (2 ^ L) y); [|lia].
  rewrite (Z.max_l (L - 52) (-1074)) by lia.
  rewrite (Z.max_l 0 (- (L - 52))), (Z.max_r 0 (L - 52)) by lia.
  rewrite Z.pow_0_r, Z.mul_1_r, Z.mul_1_l.
  set (E := L - 52) in *.
  assert (HE : 0 < 2 ^ E) by (apply Z.pow_pos_nonneg; lia).
  assert (Hq : 2 ^ 52 <= y / 2 ^ E).
  { apply Z.div_le_lower_bound; [lia|].
    replace (2 ^ E * 2 ^ 52) with (2 ^ L); [lia|].
    rewrite <- Z.pow_add_r by lia. f_equal. lia. }
  set (q := y / 2 ^ E) in *.
  set (M := if 2 * (y mod 2 ^ E) <? 2 ^ E then q
            else if 2 * (y mod 2 ^ E) =? 2 ^ E
                 then if Z.even q then q else q + 1 else q + 1).
  assert (HM : q <= M).
  { unfold M. repeat match goal with
                     | |- context [if ?b then _ else _] => destruct b
                     end; lia. }
  clearbody M.
  destruct (Z.eqb_spec M 0); [lia|].
  destruct (1024 <=? Z.log2 M + E); [now left|right].
  destruct (canon_value false M E ltac:(lia) ltac:(lia)) as (m' & e' & Hc & Hm' & He' & Hv).
  exists m', e'. split; [exact Hc|]. split; [lia|].
  rewrite Hv. change (2 ^ 53) with (2 ^ 52 * 2 ^ 1).
  apply Z.mul_le_mono_nonneg; try lia.
  apply Z.pow_le_mono_r; lia.
Qed.

Lemma jsnum_eqb_eq (a b : jsnum) : jsnum_eqb a b = true <-> a = b.
Proof.
  destruct a as [|s|s m e], b as [|u|u n f]; cbn [jsnum_eqb]; split; intro H;
    try discriminate; try reflexivity.
  - apply Bool.eqb_prop in H. now subst.
  - injection H as ->. apply Bool.eqb_reflx.
  - apply andb_true_iff in H as [H He]. apply andb_true_iff in H as [Hs Hm].
    apply Bool.eqb_prop in Hs. apply Z.eqb_eq in Hm, He. now subst.
  - injection H as -> -> ->. now rewrite Bool.eqb_reflx, !Z.eqb_refl.
Qed.

Section SafeInteger.

Variables n m e : Z.
Hypothesis Hn : 0 < n < 2 ^ 53.
Hypothesis Hx : canon false n 0 = JFin false m e.

Lemma safe_mantissa : 0 < m /\ 0 <= e /\ m * 2 ^ e = n.
Proof using Hn Hx.
  destruct (canon_value false n 0 ltac:(lia) ltac:(lia))
    as (m' & e' & Hc & Hm & He & Hv).
  rewrite Hx in Hc. injection Hc as <- <-. lia.
Qed.

Lemma roundTrips_exact (s t : Z) :
  0 <= t -> s * 10 ^ t = n -> roundTrips m e s t = true.
Proof using Hn Hx.
  intros Ht Hs. unfold roundTrips, numberOfDecimal.
  destruct (Z.leb_spec 0 t); [|lia].
  fold (numberOfInt false (s * 10 ^ t)). rewrite Hs.
  rewrite numberOfInt_exact by exact Hn. rewrite Hx.
  now apply jsnum_eqb_eq.
Qed.

Lemma roundTrips_other (s t : Z) :
  0 <= t -> 0 <= s -> s * 10 ^ t <> n -> roundTrips m e s t = false.
Proof using Hn Hx.
  intros Ht Hs Hne. destruct safe_mantissa as (Hm & He & Hv).
  unfold roundTrips, numberOfDecimal.
  destruct (Z.leb_spec 0 t); [|lia].
  fold (numberOfInt false (s * 10 ^ t)).
  set (y := s * 10 ^ t) in *.
  assert (Hy : 0 <= y) by (apply Z.mul_nonneg_nonneg; [lia|apply Z.pow_nonneg; lia]).
  destruct (jsnum_eqb (numberOfInt false y) (JFin false m e)) eqn:E; [|reflexivity].
  exfalso. apply jsnum_eqb_eq in E.
  destruct (Z.eq_dec y 0) as [Hz|Hz].
  { rewrite Hz in E. cbv in E. injection E as <- _. lia. }
  destruct (Z_lt_le_dec y (2 ^ 53)) as [Hlt|Hge].
  - rewrite numberOfInt_exact in E by lia.
    destruct (canon_value false y 0 ltac:(lia) ltac:(lia))
      as (m' & e' & Hc & _ & _ & Hv').
    rewrite E in Hc. injection Hc as <- <-. lia.
  - destruct (numberOfInt_large y Hge) as [Hi|(m' & e' & Hc & _ & Hv')].
    + rewrite Hi in E. discriminate.
    + rewrite E in Hc. injection Hc as <- <-. lia.
Qed.

Lemma shortest_safe (j : nat) :
  forall (fuel : nat) (k : Z),
    1 <= k <= numDigits n ->
    numDigits n - k = Z.of_nat j ->
    (j < fuel)%nat ->
    exists s k',
      shortest fuel m e n 1 (numDigits n) k = (s, k', numDigits n)
      /\ k <= k' <= numDigits n /\ 0 < s /\ s * 10 ^ (numDigits n - k') = n.
Proof using Hn Hx.
  destruct (numDigits_bounds n ltac:(lia)) as (HD1 & HDl & HDu).
  set (D := numDigits n) in *.
  induction j as [|j IH]; intros fuel k Hk Hj Hf;
    (destruct fuel as [|f]; [lia|]); cbn [shortest]; cbv zeta;
    (destruct (Z.leb_spec 0 (D - k)); [|lia]); rewrite Z.mul_1_l;
    set (t := D - k) in *;
    assert (Ht : 0 < 10 ^ t) by (apply Z.pow_pos_nonneg; lia);
    pose proof (Z.div_mod n (10 ^ t) ltac:(lia)) as Hdm;
    pose proof (Z.mod_pos_bound n (10 ^ t) Ht) as Hr;
    set (lo := n / 10 ^ t) in *; set (r := n mod 10 ^ t) in *.
  - (* all [D] digits: the quotient is [n] itself *)
    assert (Et : t = 0) by lia. rewrite Et in *. change (10 ^ 0) with 1 in *.
    assert (Er : r = 0) by lia. assert (El : lo = n) by lia.
    rewrite Er. change (0 =? 0) with true. cbv iota.
    rewrite (roundTrips_exact lo 0) by lia. cbn [andb].
    change (2 * 0 <? 1) with true. cbv iota.
    destruct (Z.eqb_spec lo (10 ^ k)).
    { replace k with D in * by lia. lia. }
    exists lo, k. repeat split; try lia.
    replace (D - k) with 0 by lia. lia.
  - assert (Hlo : 0 < lo).
    { apply Z.div_str_pos. split; [lia|].
      eapply Z.le_trans; [|exact HDl].
      apply Z.pow_le_mono_r; lia. }
    assert (Hlok : lo < 10 ^ k).
    { apply Z.div_lt_upper_bound; [lia|].
      rewrite <- Z.pow_add_r by lia. replace (t + k) with D by lia. lia. }
    destruct (Z.eqb_spec r 0) as [Er|Er].
    + rewrite (roundTrips_exact lo t) by lia. cbn [andb].
      rewrite Er. destruct (Z.ltb_spec (2 * 0) (10 ^ t)); [|lia].
      destruct (Z.eqb_spec lo (10 ^ k)); [lia|].
      exists lo, k. repeat split; try lia. fold t. lia.
    + rewrite (roundTrips_other lo t) by lia.
      rewrite (roundTrips_other (lo + 1) t) by lia.
      cbn [andb].
      destruct (IH f (k + 1)) as (s & k' & E & Hk' & Hs & Hv); try lia.
      exists s, k'. split; [exact E|]. repeat split; try lia.
Qed.

End SafeInteger.

(** [String(n)] and [JSON.stringify(n)] for an integer [0 <= n < 2^53]. *)
Lemma Number_toString_int (n : Z) :
  0 <= n < 2 ^ 53 -> Number_toString (numberOfInt false n) = decimalDigits n.
Proof.
  intros [H0 Hb]. destruct (Z.eq_dec n 0) as [->|Hz]; [reflexivity|].
  assert (Hn : 0 < n < 2 ^ 53) by lia.
  rewrite numberOfInt_exact by exact Hn.
  destruct (canon_value false n 0 ltac:(lia) ltac:(lia))
    as (m & e & Hc & Hm & He & Hv).
  rewrite Hc. cbn [Number_toString].
  destruct (Z.eqb_spec m 0); [lia|].
  unfold ratioOf. destruct (Z.leb_spec 0 e); [|lia].
  rewrite Hv, Z.mul_1_r in *. unfold pointPos.
  destruct (Z.leb_spec 1 n); [|lia]. rewrite Z.div_1_r.
  destruct (numDigits_bounds n ltac:(lia)) as (HD1 & HDl & HDu).
  assert (HD : numDigits n <= 16).
  { apply Z.lt_succ_r, Z.lt_sub_lt_add_r.
    apply (Z.pow_lt_mono_r_iff 10); [lia|lia|].
    eapply Z.le_lt_trans; [exact HDl|].
    eapply Z.lt_trans; [exact Hb|reflexivity]. }
  destruct (shortest_safe n m e Hn Hc (Z.to_nat (numDigits n - 1)) 16 1)
    as (s & k' & E & Hk' & Hs & Hsv); try lia.
  rewrite E. cbn [app]. unfold formatNumber.
  destruct (Z.leb_spec k' (numDigits n)); [|lia].
  destruct (Z.leb_spec (numDigits n) 21); [|lia]. cbn [andb].
  rewrite <- decimalDigits_zeros by lia. now rewrite Hsv.
Qed.

End NumeralFacts.

(** Two candidates equally near: the even one is written. *)
Example Number_toString_ties :
  pythonDictToJson (str "562949953421312.75") 0 = OK (str "562949953421312.8")
  /\ pythonDictToJson (str "140737488355328.125") 0 = OK (str "140737488355328.12")
  /\ pythonDictToJson (str "70368744177664.0625") 0 = OK (str "70368744177664.06")
  /\ pythonDictToJson (str "5e-324") 0 = OK (str "5e-324").
Proof. repeat split; vm_compute; reflexivity. Qed.

(** ** Number literals with a base prefix *)

Module PrefixFacts.
Import Lexer.
Import IdentFacts.

Lemma digitLoop_run (cls : char -> bool) (run tail : jsstring) (p : nat) (acc : jsstring) :
  forallb cls run = true ->
  test cls (hd_error tail) = false ->
  digitLoop cls (run ++ tail) p acc
  = (acc ++ dropUnderscores run, mk tail (p + List.length run)).
Proof.
  revert p acc; induction run as [|c run IH]; intros p acc Hrun Htail.
  - cbn [app dropUnderscores filter List.length]. rewrite app_nil_r, Nat.add_0_r.
    destruct tail as [|d tail]; [reflexivity|].
    cbn in Htail. cbn [digitLoop]. now rewrite Htail.
  - cbn [forallb] in Hrun. apply andb_true_iff in Hrun as [Hc Hrun].
    cbn [app digitLoop]. rewrite Hc. rewrite IH by assumption.
    unfold dropUnderscores. cbn [filter List.length].
    destruct (isUnderscore c); cbn [negb].
    + f_equal. f_equal. lia.
    + rewrite <- app_assoc. cbn [app]. f_equal. f_equal. lia.
Qed.




Lemma takeDigits_all (R : Z) (ds : jsstring) :
  forallb (isRadixDigit R) ds = true -> takeDigits R ds = (ds, []).
Proof.
  induction ds as [|c ds IH]; intro H; [reflexivity|].
  cbn [forallb] in H. apply andb_true_iff in H as [Hc H].
  cbn [takeDigits]. rewrite Hc, IH by assumption. reflexivity.
Qed.

Lemma isRadixDigit_range (R : Z) (c : char) :
  isRadixDigit R c = true -> R <= 16 ->
  (48 <= c <= 57 \/ 65 <= c <= 70 \/ 97 <= c <= 102)%N.
Proof.
  unfold isRadixDigit, digitValue, inRange. intros H HR.
  destruct (N.leb_spec 48 c), (N.leb_spec c 57); cbn [andb] in H; try lia;
    destruct (N.leb_spec 97 c), (N.leb_spec c 122); cbn [andb] in H; try lia;
    destruct (N.leb_spec 65 c), (N.leb_spec c 90); cbn [andb] in H; try lia;
    match type of H with
    | context [Z.ltb ?a ?b] => destruct (Z.ltb_spec a b); try discriminate; try lia
    end.
Qed.

Ltac atom_false :=
  match goal with
  | |- N.eqb _ _ = false => apply N.eqb_neq; lia
  | |- inRange ?a ?b ?c = false =>
      unfold inRange; destruct (N.leb_spec a c), (N.leb_spec c b);
      cbn [andb]; try reflexivity; lia
  end.

Lemma digit_plain (b : Base) (c : char) :
  isRadixDigit (radix b) c = true ->
  isStrWhiteSpace c = false
  /\ N.eqb c (ch "-") = false /\ N.eqb c (ch "+") = false
  /\ N.eqb c (ch "x") = false /\ N.eqb c (ch "X") = false.
Proof.
  intro H. apply isRadixDigit_range in H; [|destruct b; cbn; lia].
  unfold isStrWhiteSpace, ch. cbn [N_of_ascii N_of_digits N.add N.mul].
  repeat split; repeat (apply orb_false_intro); atom_false.
Qed.

(** [parseInt] on a string of digits of the radix. *)
Lemma parseInt_digits (b : Base) (ds : jsstring) :
  forallb (isRadixDigit (radix b)) ds = true ->
  parseInt ds (radix b)
  = match ds with
    | [] => JNaN
    | _ => numberOfInt false (digitsValue (radix b) ds)
    end.
Proof.
  intro H. destruct ds as [|d ds]; [reflexivity|].
  pose proof H as H'. cbn [forallb] in H'. apply andb_true_iff in H' as [Hd Hds].
  destruct (digit_plain b d Hd) as (Hws & Hm & Hp & _ & _).
  unfold parseInt. cbn [trimStart]. rewrite Hws, Hm, Hp. cbn [orb].
  destruct ds as [|x ds].
  - rewrite takeDigits_all by exact H. reflexivity.
  - cbn [forallb] in Hds. apply andb_true_iff in Hds as [Hx _].
    destruct (digit_plain b x Hx) as (_ & _ & _ & Hx1 & Hx2).
    rewrite Hx1, Hx2. cbn [orb]. rewrite andb_false_r.
    rewrite takeDigits_all by exact H. reflexivity.
Qed.

Lemma digitsValue_nonneg (R : Z) (ds : jsstring) : 0 <= R -> 0 <= digitsValue R ds.
Proof.
  intro HR. unfold digitsValue.
  assert (G : forall a, 0 <= a ->
            0 <= fold_left (fun acc c => acc * R
                      + match digitValue R c with Some v => v | None => 0 end) ds a).
  { induction ds as [|c ds IH]; intros a Ha; cbn [fold_left]; [exact Ha|].
    apply IH. assert (0 <= match digitValue R c with Some v => v | None => 0 end).
    { unfold digitValue.
      repeat match goal with
             | |- context [if ?b then _ else _] => destruct b eqn:?
             end; try lia;
        unfold inRange in *;
        repeat match goal with
               | H : (_ && _)%bool = true |- _ => apply andb_true_iff in H as [? ?]
               | H : N.leb _ _ = true |- _ => apply N.leb_le in H
               end; lia. }
    nia. }
  apply G. lia.
Qed.


End PrefixFacts.




(** Where the code stands on the sign, which the statement above leaves
    open: the minus before a base prefix is read and dropped. *)
Example prefixed_literal_sign :
  Lexer.tokenize (str "-0x1F") = OK [mkToken NUMBER (str "31") 0; mkToken EOF [] 5]
  /\ pythonDictToJson (str "-0x1F") 4 = OK (str "31")
  /\ pythonDictToJson (str "-31") 4 = OK (str "-31").
Proof. repeat split; vm_compute; reflexivity. Qed.

(** ** The parser reads a value from a prefix of its input *)

Module ParserFacts.
Import Parser.

Lemma parseListLoop_seq pv (f : nat) (acc : list jsvalue) (p : t) :
  parseListLoop pv f acc p = seqLoop pv RBRACKET f acc p.
Proof.
  revert acc p; induction f as [|f IH]; intros acc p; [reflexivity|].
  cbn [parseListLoop seqLoop].
  destruct (peek p) as [ty|e]; cbn [bind]; [|reflexivity].
  destruct (TokenType_eqb ty RBRACKET); [reflexivity|].
  destruct (pv p) as [[v p1]|e]; cbn [bind]; [|reflexivity].
  destruct (peek p1) as [ty1|e]; cbn [bind]; [|reflexivity].
  destruct (TokenType_eqb ty1 COMMA); [apply IH|reflexivity].
Qed.

Lemma parseTupleLoop_seq pv (f : nat) (acc : list jsvalue) (p : t) :
  parseTupleLoop pv f acc p = seqLoop pv RPAREN f acc p.
Proof.
  revert acc p; induction f as [|f IH]; intros acc p; [reflexivity|].
  cbn [parseTupleLoop seqLoop].
  destruct (peek p) as [ty|e]; cbn [bind]; [|reflexivity].
  destruct (TokenType_eqb ty RPAREN); [reflexivity|].
  destruct (pv p) as [[v p1]|e]; cbn [bind]; [|reflexivity].
  destruct (peek p1) as [ty1|e]; cbn [bind]; [|reflexivity].
  destruct (TokenType_eqb ty1 COMMA); [apply IH|reflexivity].
Qed.

Lemma peek_OK (p : t) (ty : TokenType) :
  peek p = OK ty -> exists tok p', p = tok :: p' /\ type tok = ty.
Proof.
  unfold peek, current. destruct p as [|tok p']; cbn; [discriminate|].
  intros [= <-]. eauto.
Qed.

Lemma peek_cons (tok : Token) (p : t) : peek (tok :: p) = OK (type tok).
Proof. reflexivity. Qed.

Lemma expect_OK (ty : TokenType) (p p' : t) (tok : Token) :
  expect ty p = OK (tok, p') -> p = tok :: p' /\ type tok = ty.
Proof.
  unfold expect, current. destruct p as [|a p0]; cbn; [discriminate|].
  destruct (TokenType_eqb (type a) ty) eqn:E; cbn; [|discriminate].
  intros [= <- <-]. apply TokenType_eqb_eq in E. now split.
Qed.

Lemma expect_cons (tok : Token) (p : t) :
  expect (type tok) (tok :: p) = OK (tok, p).
Proof. unfold expect. cbn. now rewrite TokenType_eqb_refl. Qed.

Section Loops.

Variable pv : t -> result (jsvalue * t).
Hypothesis pv_local : local pv.

(** The sequence loop stops in front of a token it has looked at; up to
    the type of that token it depends on the consumed prefix only. *)
Lemma seqLoop_local (close : TokenType) (f : nat) :
  forall acc p vs p',
    seqLoop pv close f acc p = OK (vs, p') ->
    exists cons,
      p = cons ++ p'
      /\ p' <> []
      /\ forall X, headType X = headType p' ->
                   seqLoop pv close f acc (cons ++ X) = OK (vs, X).
Proof using pv_local.
  induction f as [|f IH]; intros acc p vs p' H; [discriminate|].
  cbn [seqLoop] in H.
  destruct (peek p) as [ty|e] eqn:Ep; cbn [bind] in H; [|discriminate].
  destruct (peek_OK p ty Ep) as (tok & p0 & -> & Hty).
  destruct (TokenType_eqb ty close) eqn:Ec.
  - injection H as <- <-. exists []. split; [reflexivity|]. split; [discriminate|].
    intros X HX. cbn [app seqLoop].
    destruct X as [|x X]; [discriminate|].
    cbn in HX. injection HX as HX.
    rewrite peek_cons, HX, Hty. cbn [bind]. now rewrite Ec.
  - destruct (pv (tok :: p0)) as [[v p1]|e] eqn:Ev; cbn [bind] in H; [|discriminate].
    destruct (pv_local _ _ _ Ev) as (cons & Hne & Hp & Hloc).
    destruct (peek p1) as [ty1|e] eqn:Ep1; cbn [bind] in H; [|discriminate].
    destruct (peek_OK p1 ty1 Ep1) as (tok1 & p2 & -> & Hty1).
    destruct cons as [|c0 cons]; [contradiction|].
    cbn [app] in Hp. injection Hp as <- Hp0.
    destruct (TokenType_eqb ty1 COMMA) eqn:Ecomma.
    + cbn [next tl] in H.
      destruct (IH _ _ _ _ H) as (cons2 & Hp2 & Hne2 & Hloc2).
      exists ((tok :: cons) ++ tok1 :: cons2).
      split; [rewrite Hp0, Hp2, <- app_assoc; reflexivity|].
      split; [exact Hne2|].
      intros X HX. rewrite <- app_assoc. cbn [app seqLoop].
      rewrite peek_cons, Hty. cbn [bind]. rewrite Ec.
      change (tok :: cons ++ tok1 :: cons2 ++ X)
        with ((tok :: cons) ++ tok1 :: cons2 ++ X).
      rewrite Hloc. cbn [bind]. rewrite peek_cons, Hty1. cbn [bind]. rewrite Ecomma. cbn [next tl].
      now apply Hloc2.
    + injection H as <- <-. exists (tok :: cons).
      split; [now rewrite Hp0|]. split; [discriminate|].
      intros X HX. cbn [app seqLoop].
      rewrite peek_cons, Hty. cbn [bind]. rewrite Ec.
      change (tok :: cons ++ X) with ((tok :: cons) ++ X).
      rewrite Hloc. cbn [bind].
      destruct X as [|x X]; [discriminate|].
      cbn in HX. injection HX as HX.
      rewrite peek_cons, HX, Hty1. cbn [bind]. rewrite Ecomma. reflexivity.
Qed.

Lemma parseDictKey_OK (p p' : t) (key : jsstring) :
  parseDictKey p = OK (key, p') ->
  exists tok, p = tok :: p' /\ forall X, parseDictKey (tok :: X) = OK (key, X).
Proof.
  unfold parseDictKey, current. destruct p as [|tok p0]; cbn [bind]; [discriminate|].
  intro H. exists tok.
  destruct (type tok); try discriminate; cbn [next tl] in H; injection H as <- <-;
    (split; [reflexivity|intros X; reflexivity]).
Qed.

Lemma parseDictLoop_local (f : nat) :
  forall obj p obj' p',
    parseDictLoop pv f obj p = OK (obj', p') ->
    exists cons,
      p = cons ++ p'
      /\ p' <> []
      /\ forall X, headType X = headType p' ->
                   parseDictLoop pv f obj (cons ++ X) = OK (obj', X).
Proof using pv_local.
  induction f as [|f IH]; intros obj p obj' p' H; [discriminate|].
  cbn [parseDictLoop] in H.
  destruct (peek p) as [ty|e] eqn:Ep; cbn [bind] in H; [|discriminate].
  destruct (peek_OK p ty Ep) as (tok & p0 & -> & Hty).
  destruct (TokenType_eqb ty RBRACE) eqn:Ec.
  - injection H as <- <-. exists []. split; [reflexivity|]. split; [discriminate|].
    intros X HX. cbn [app parseDictLoop].
    destruct X as [|x X]; [discriminate|].
    cbn in HX. injection HX as HX.
    rewrite peek_cons, HX, Hty. cbn [bind]. now rewrite Ec.
  - destruct (parseDictKey (tok :: p0)) as [[key p1]|e] eqn:Ek; cbn [bind] in H;
      [|discriminate].
    destruct (parseDictKey_OK _ _ _ Ek) as (tok' & Hk & Hkloc).
    injection Hk as <- <-.
    destruct (expect COLON p0) as [[colon p2]|e] eqn:Ecol; cbn [bind] in H;
      [|discriminate].
    destruct (expect_OK _ _ _ _ Ecol) as [-> Hcol].
    destruct (pv p2) as [[v p3]|e] eqn:Ev; cbn [bind] in H; [|discriminate].
    destruct (pv_local _ _ _ Ev) as (cons & Hne & -> & Hloc).
    destruct (peek p3) as [ty1|e] eqn:Ep1; cbn [bind] in H; [|discriminate].
    destruct (peek_OK p3 ty1 Ep1) as (tok1 & p4 & -> & Hty1).
    assert (Hstep : forall X,
               parseDictLoop pv (S f) obj (tok :: colon :: cons ++ X)
               = let* ty := peek X in
                 if TokenType_eqb ty COMMA
                 then parseDictLoop pv f (setProperty obj key v) (next X)
                 else OK (setProperty obj key v, X)).
    { intro X. cbn [parseDictLoop]. rewrite peek_cons, Hty. cbn [bind]. rewrite Ec.
      rewrite Hkloc. cbn [bind]. rewrite <- Hcol, expect_cons. cbn [bind].
      rewrite Hloc. reflexivity. }
    destruct (TokenType_eqb ty1 COMMA) eqn:Ecomma.
    + cbn [next tl] in H.
      destruct (IH _ _ _ _ H) as (cons2 & -> & Hne2 & Hloc2).
      exists (tok :: colon :: cons ++ tok1 :: cons2).
      split; [cbn [app]; rewrite <- app_assoc; reflexivity|].
      split; [exact Hne2|].
      intros X HX.
      replace ((tok :: colon :: cons ++ tok1 :: cons2) ++ X)
        with (tok :: colon :: cons ++ tok1 :: cons2 ++ X)
        by (cbn [app]; rewrite <- app_assoc; reflexivity).
      rewrite Hstep, peek_cons, Hty1. cbn [bind]. rewrite Ecomma. cbn [next tl].
      now apply Hloc2.
    + injection H as <- <-. exists (tok :: colon :: cons).
      split; [reflexivity|]. split; [discriminate|].
      intros X HX. cbn [app]. rewrite Hstep.
      destruct X as [|x X]; [discriminate|].
      cbn in HX. injection HX as HX.
      rewrite peek_cons, HX, Hty1. cbn [bind]. rewrite Ecomma. reflexivity.
Qed.

Lemma parseList_local (f : nat) : local (parseList pv f).
Proof using pv_local.
  intros p v p' H. unfold parseList in H.
  destruct (expect LBRACKET p) as [[o p0]|e] eqn:Eo; cbn [bind] in H; [|discriminate].
  destruct (expect_OK _ _ _ _ Eo) as [-> Ho].
  destruct (peek p0) as [ty|e] eqn:Ep; cbn [bind] in H; [|discriminate].
  destruct (peek_OK p0 ty Ep) as (tok & p1 & -> & Hty).
  destruct (TokenType_eqb ty RBRACKET) eqn:Ec.
  - injection H as <- <-. exists [o; tok]. split; [discriminate|].
    split; [reflexivity|]. intro X. unfold parseList. cbn [app].
    rewrite <- Ho, expect_cons. cbn [bind]. rewrite peek_cons, Hty. cbn [bind].
    now rewrite Ec.
  - rewrite parseListLoop_seq in H.
    destruct (seqLoop pv RBRACKET f [] (tok :: p1)) as [[vs p2]|e] eqn:El;
      cbn [bind] in H; [|discriminate].
    destruct (seqLoop_local _ _ _ _ _ _ El) as (cons & Hp & _ & Hloc).
    destruct (expect RBRACKET p2) as [[c p3]|e] eqn:Ecl; cbn [bind] in H;
      [|discriminate].
    destruct (expect_OK _ _ _ _ Ecl) as [-> Hc].
    injection H as <- <-.
    exists (o :: cons ++ [c]). split; [discriminate|].
    split; [cbn [app]; rewrite Hp, <- app_assoc; reflexivity|].
    intro X. unfold parseList. cbn [app]. rewrite <- app_assoc. cbn [app].
    rewrite <- Ho, expect_cons. cbn [bind].
    assert (Hpk : peek (cons ++ c :: X) = OK ty).
    { destruct cons as [|c0 cons]; cbn [app] in *.
      - injection Hp as <- _. now rewrite peek_cons, Hty.
      - injection Hp as <- _. now rewrite peek_cons, Hty. }
    rewrite Hpk. cbn [bind]. rewrite Ec, parseListLoop_seq.
    rewrite (Hloc (c :: X)) by reflexivity. cbn [bind].
    rewrite <- Hc, expect_cons. reflexivity.
Qed.

Lemma parseTuple_local (f : nat) : local (parseTuple pv f).
Proof using pv_local.
  intros p v p' H. unfold parseTuple in H.
  destruct (expect LPAREN p) as [[o p0]|e] eqn:Eo; cbn [bind] in H; [|discriminate].
  destruct (expect_OK _ _ _ _ Eo) as [-> Ho].
  destruct (peek p0) as [ty|e] eqn:Ep; cbn [bind] in H; [|discriminate].
  destruct (peek_OK p0 ty Ep) as (tok & p1 & -> & Hty).
  destruct (TokenType_eqb ty RPAREN) eqn:Ec.
  - injection H as <- <-. exists [o; tok]. split; [discriminate|].
    split; [reflexivity|]. intro X. unfold parseTuple. cbn [app].
    rewrite <- Ho, expect_cons. cbn [bind]. rewrite peek_cons, Hty. cbn [bind].
    now rewrite Ec.
  - rewrite parseTupleLoop_seq in H.
    destruct (seqLoop pv RPAREN f [] (tok :: p1)) as [[vs p2]|e] eqn:El;
      cbn [bind] in H; [|discriminate].
    destruct (seqLoop_local _ _ _ _ _ _ El) as (cons & Hp & _ & Hloc).
    destruct (expect RPAREN p2) as [[c p3]|e] eqn:Ecl; cbn [bind] in H;
      [|discriminate].
    destruct (expect_OK _ _ _ _ Ecl) as [-> Hc].
    injection H as <- <-.
    exists (o :: cons ++ [c]). split; [discriminate|].
    split; [cbn [app]; rewrite Hp, <- app_assoc; reflexivity|].
    intro X. unfold parseTuple. cbn [app]. rewrite <- app_assoc. cbn [app].
    rewrite <- Ho, expect_cons. cbn [bind].
    assert (Hpk : peek (cons ++ c :: X) = OK ty).
    { destruct cons as [|c0 cons]; cbn [app] in *.
      - injection Hp as <- _. now rewrite peek_cons, Hty.
      - injection Hp as <- _. now rewrite peek_cons, Hty. }
    rewrite Hpk. cbn [bind]. rewrite Ec, parseTupleLoop_seq.
    rewrite (Hloc (c :: X)) by reflexivity. cbn [bind].
    rewrite <- Hc, expect_cons. reflexivity.
Qed.

Lemma parseDict_local (f : nat) : local (parseDict pv f).
Proof using pv_local.
  intros p v p' H. unfold parseDict in H.
  destruct (expect LBRACE p) as [[o p0]|e] eqn:Eo; cbn [bind] in H; [|discriminate].
  destruct (expect_OK _ _ _ _ Eo) as [-> Ho].
  destruct (peek p0) as [ty|e] eqn:Ep; cbn [bind] in H; [|discriminate].
  destruct (peek_OK p0 ty Ep) as (tok & p1 & -> & Hty).
  destruct (TokenType_eqb ty RBRACE) eqn:Ec.
  - injection H as <- <-. exists [o; tok]. split; [discriminate|].
    split; [reflexivity|]. intro X. unfold parseDict. cbn [app].
    rewrite <- Ho, expect_cons. cbn [bind]. rewrite peek_cons, Hty. cbn [bind].
    now rewrite Ec.
  - destruct (parseDictLoop pv f emptyObject (tok :: p1)) as [[obj p2]|e] eqn:El;
      cbn [bind] in H; [|discriminate].
    destruct (parseDictLoop_local _ _ _ _ _ El) as (cons & Hp & _ & Hloc).
    destruct (expect RBRACE p2) as [[c p3]|e] eqn:Ecl; cbn [bind] in H;
      [|discriminate].
    destruct (expect_OK _ _ _ _ Ecl) as [-> Hc].
    injection H as <- <-.
    exists (o :: cons ++ [c]). split; [discriminate|].
    split; [cbn [app]; rewrite Hp, <- app_assoc; reflexivity|].
    intro X. unfold parseDict. cbn [app]. rewrite <- app_assoc. cbn [app].
    rewrite <- Ho, expect_cons. cbn [bind].
    assert (Hpk : peek (cons ++ c :: X) = OK ty).
    { destruct cons as [|c0 cons]; cbn [app] in *.
      - injection Hp as <- _. now rewrite peek_cons, Hty.
      - injection Hp as <- _. now rewrite peek_cons, Hty. }
    rewrite Hpk. cbn [bind]. rewrite Ec.
    rewrite (Hloc (c :: X)) by reflexivity. cbn [bind].
    rewrite <- Hc, expect_cons. reflexivity.
Qed.

End Loops.

(** [parseValue] reads a value from a non-empty prefix of the tokens and
    does not look past it. *)
Lemma parseValue_local (fuel : nat) : local (parseValue fuel).
Proof.
  induction fuel as [|f IH]; intros p v p' H; [discriminate|].
  cbn [parseValue] in H. unfold current in H.
  destruct p as [|tok p0]; cbn [bind] in H; [discriminate|].
  destruct (type tok) eqn:Ety; try discriminate.
  - (* STRING *)
    unfold parseString in H. rewrite <- Ety, expect_cons in H. cbn [bind] in H.
    injection H as <- <-. exists [tok]. split; [discriminate|]. split; [reflexivity|].
    intro X. cbn [app parseValue current bind]. rewrite Ety.
    unfold parseString. rewrite <- Ety, expect_cons. reflexivity.
  - (* NUMBER *)
    unfold parseNumber in H. rewrite <- Ety, expect_cons in H. cbn [bind] in H.
    destruct (isNaN (Number_ofString (value tok))) eqn:En; [discriminate|].
    injection H as <- <-. exists [tok]. split; [discriminate|]. split; [reflexivity|].
    intro X. cbn [app parseValue current bind]. rewrite Ety.
    unfold parseNumber. rewrite <- Ety, expect_cons. cbn [bind]. now rewrite En.
  - injection H as <- <-. exists [tok]. split; [discriminate|]. split; [reflexivity|].
    intro X. cbn [app parseValue current bind]. now rewrite Ety.
  - injection H as <- <-. exists [tok]. split; [discriminate|]. split; [reflexivity|].
    intro X. cbn [app parseValue current bind]. now rewrite Ety.
  - injection H as <- <-. exists [tok]. split; [discriminate|]. split; [reflexivity|].
    intro X. cbn [app parseValue current bind]. now rewrite Ety.
  - destruct (parseDict_local _ IH f _ _ _ H) as (cons & Hne & Hp & Hloc).
    exists cons. split; [exact Hne|]. split; [exact Hp|].
    intro X. destruct cons as [|c0 cons]; [contradiction|].
    cbn [app] in Hp. injection Hp as <- _.
    cbn [app parseValue current bind]. rewrite Ety. apply Hloc.
  - destruct (parseList_local _ IH f _ _ _ H) as (cons & Hne & Hp & Hloc).
    exists cons. split; [exact Hne|]. split; [exact Hp|].
    intro X. destruct cons as [|c0 cons]; [contradiction|].
    cbn [app] in Hp. injection Hp as <- _.
    cbn [app parseValue current bind]. rewrite Ety. apply Hloc.
  - destruct (parseTuple_local _ IH f _ _ _ H) as (cons & Hne & Hp & Hloc).
    exists cons. split; [exact Hne|]. split; [exact Hp|].
    intro X. destruct cons as [|c0 cons]; [contradiction|].
    cbn [app] in Hp. injection Hp as <- _.
    cbn [app parseValue current bind]. rewrite Ety. apply Hloc.
Qed.

(** *** The loop bounds of the parser are never reached *)

Section Fuel.

Variables pv pv' : t -> result (jsvalue * t).
Hypothesis pv_extends : extends pv pv'.

Lemma extends_OK (p : t) (r : jsvalue * t) : pv p = OK r -> pv' p = OK r.
Proof using pv_extends. intro H. apply pv_extends; [exact H|discriminate]. Qed.

Lemma seqLoop_mono (close : TokenType) (f : nat) :
  forall f' acc p r,
    (f <= f')%nat ->
    seqLoop pv close f acc p = r -> r <> Err OutOfFuel ->
    seqLoop pv' close f' acc p = r.
Proof using pv_extends.
  induction f as [|f IH]; intros f' acc p r Hf H Hr; [cbn in H; congruence|].
  destruct f' as [|f']; [lia|]. cbn [seqLoop] in *.
  destruct (peek p) as [ty|e]; cbn [bind] in *; [|exact H].
  destruct (TokenType_eqb ty close); [exact H|].
  destruct (pv p) as [[v p1]|e] eqn:Ev; cbn [bind] in *.
  - rewrite (extends_OK _ _ Ev). cbn [bind].
    destruct (peek p1) as [ty1|e]; cbn [bind] in *; [|exact H].
    destruct (TokenType_eqb ty1 COMMA); [|exact H].
    apply IH; [lia|exact H|exact Hr].
  - rewrite (pv_extends _ _ Ev); [exact H|congruence].
Qed.

Lemma parseDictLoop_mono (f : nat) :
  forall f' obj p r,
    (f <= f')%nat ->
    parseDictLoop pv f obj p = r -> r <> Err OutOfFuel ->
    parseDictLoop pv' f' obj p = r.
Proof using pv_extends.
  induction f as [|f IH]; intros f' obj p r Hf H Hr; [cbn in H; congruence|].
  destruct f' as [|f']; [lia|]. cbn [parseDictLoop] in *.
  destruct (peek p) as [ty|e]; cbn [bind] in *; [|exact H].
  destruct (TokenType_eqb ty RBRACE); [exact H|].
  destruct (parseDictKey p) as [[key p1]|e]; cbn [bind] in *; [|exact H].
  destruct (expect COLON p1) as [[colon p2]|e]; cbn [bind] in *; [|exact H].
  destruct (pv p2) as [[v p3]|e] eqn:Ev; cbn [bind] in *.
  - rewrite (extends_OK _ _ Ev). cbn [bind].
    destruct (peek p3) as [ty1|e]; cbn [bind] in *; [|exact H].
    destruct (TokenType_eqb ty1 COMMA); [|exact H].
    apply IH; [lia|exact H|exact Hr].
  - rewrite (pv_extends _ _ Ev); [exact H|congruence].
Qed.

End Fuel.

Lemma parseValue_mono (f : nat) :
  forall f', (f <= f')%nat -> extends (parseValue f) (parseValue f').
Proof.
  induction f as [|f IH]; intros f' Hf p r H Hr; [cbn in H; congruence|].
  destruct f' as [|f']; [lia|]. cbn [parseValue] in *.
  destruct (current p) as [tok|e]; cbn [bind] in *; [|exact H].
  assert (Hext : extends (parseValue f) (parseValue f')) by (apply IH; lia).
  destruct (type tok); try exact H.
  - unfold parseDict in *.
    destruct (expect LBRACE p) as [[o p0]|e]; cbn [bind] in *; [|exact H].
    destruct (peek p0) as [ty|e]; cbn [bind] in *; [|exact H].
    destruct (TokenType_eqb ty RBRACE); [exact H|].
    destruct (parseDictLoop (parseValue f) f emptyObject p0) as [[obj p1]|e] eqn:El;
      cbn [bind] in *.
    + rewrite (parseDictLoop_mono _ _ Hext f f' _ _ _ ltac:(lia) El ltac:(discriminate)).
      exact H.
    + rewrite (parseDictLoop_mono _ _ Hext f f' _ _ _ ltac:(lia) El ltac:(congruence)).
      exact H.
  - unfold parseList in *.
    destruct (expect LBRACKET p) as [[o p0]|e]; cbn [bind] in *; [|exact H].
    destruct (peek p0) as [ty|e]; cbn [bind] in *; [|exact H].
    destruct (TokenType_eqb ty RBRACKET); [exact H|].
    rewrite parseListLoop_seq in *.
    destruct (seqLoop (parseValue f) RBRACKET f [] p0) as [[vs p1]|e] eqn:El;
      cbn [bind] in *.
    + rewrite (seqLoop_mono _ _ Hext RBRACKET f f' _ _ _ ltac:(lia) El ltac:(discriminate)).
      exact H.
    + rewrite (seqLoop_mono _ _ Hext RBRACKET f f' _ _ _ ltac:(lia) El ltac:(congruence)).
      exact H.
  - unfold parseTuple in *.
    destruct (expect LPAREN p) as [[o p0]|e]; cbn [bind] in *; [|exact H].
    destruct (peek p0) as [ty|e]; cbn [bind] in *; [|exact H].
    destruct (TokenType_eqb ty RPAREN); [exact H|].
    rewrite parseTupleLoop_seq in *.
    destruct (seqLoop (parseValue f) RPAREN f [] p0) as [[vs p1]|e] eqn:El;
      cbn [bind] in *.
    + rewrite (seqLoop_mono _ _ Hext RPAREN f f' _ _ _ ltac:(lia) El ltac:(discriminate)).
      exact H.
    + rewrite (seqLoop_mono _ _ Hext RPAREN f f' _ _ _ ltac:(lia) El ltac:(congruence)).
      exact H.
Qed.

Section Adequate.

Variable pv : t -> result (jsvalue * t).
Variable bound : nat.
Hypothesis pv_local : local pv.
Hypothesis pv_total : forall p, (List.length p < bound)%nat -> pv p <> Err OutOfFuel.

Lemma seqLoop_total (close : TokenType) (g : nat) :
  forall acc p,
    (g <= bound)%nat -> (List.length p < g)%nat ->
    seqLoop pv close g acc p <> Err OutOfFuel.
Proof using pv_local pv_total.
  induction g as [|g IH]; intros acc p Hg Hp; [lia|].
  cbn [seqLoop]. unfold peek, current.
  destruct p as [|tok p0]; cbn [bind]; [discriminate|].
  destruct (TokenType_eqb (type tok) close); [discriminate|].
  destruct (pv (tok :: p0)) as [[v p1]|e] eqn:Ev; cbn [bind].
  - destruct (pv_local _ _ _ Ev) as (cons & Hne & Hc & _).
    assert (Hlen : (List.length p1 < List.length (tok :: p0))%nat).
    { rewrite Hc, length_app. destruct cons; [contradiction|]. cbn. lia. }
    destruct p1 as [|tok1 p2]; cbn [bind]; [discriminate|].
    destruct (TokenType_eqb (type tok1) COMMA); [|discriminate].
    apply IH; [lia|]. cbn [next tl]. cbn [List.length] in *. lia.
  - intros [= ->]. apply (pv_total (tok :: p0)); [lia|exact Ev].
Qed.

Lemma parseDictLoop_total (g : nat) :
  forall obj p,
    (g <= bound)%nat -> (List.length p < g)%nat ->
    parseDictLoop pv g obj p <> Err OutOfFuel.
Proof using pv_local pv_total.
  induction g as [|g IH]; intros obj p Hg Hp; [lia|].
  cbn [parseDictLoop]. unfold peek at 1. unfold current.
  destruct p as [|tok p0]; cbn [bind]; [discriminate|].
  destruct (TokenType_eqb (type tok) RBRACE); [discriminate|].
  destruct (parseDictKey (tok :: p0)) as [[key p1]|e] eqn:Ek; cbn [bind].
  2:{ unfold parseDictKey in Ek. cbn [current bind] in Ek.
      destruct (type tok); try discriminate; injection Ek as <-; discriminate. }
  destruct (parseDictKey_OK _ _ _ Ek) as (tok' & Hk & _). injection Hk as <- <-.
  destruct (expect COLON p0) as [[colon p2]|e] eqn:Ecol; cbn [bind].
  2:{ unfold expect, current in Ecol. destruct p0 as [|a p0]; cbn [bind] in Ecol;
        [injection Ecol as <-; discriminate|].
      destruct (negb _); [injection Ecol as <-; discriminate|discriminate]. }
  destruct (expect_OK _ _ _ _ Ecol) as [-> _].
  destruct (pv p2) as [[v p3]|e] eqn:Ev; cbn [bind].
  - destruct (pv_local _ _ _ Ev) as (cons & Hne & Hc & _).
    assert (Hlen : (List.length p3 < List.length p2)%nat).
    { rewrite Hc, length_app. destruct cons; [contradiction|]. cbn. lia. }
    unfold peek, current.
    destruct p3 as [|tok1 p4]; cbn [bind]; [discriminate|].
    destruct (TokenType_eqb (type tok1) COMMA); [|discriminate].
    apply IH; [lia|]. cbn [next tl]. cbn [List.length] in *. lia.
  - intros [= ->]. apply (pv_total p2); [cbn [List.length] in *; lia|exact Ev].
Qed.

End Adequate.

Lemma parseValue_total (fuel : nat) :
  forall p, (List.length p < fuel)%nat -> parseValue fuel p <> Err OutOfFuel.
Proof.
  induction fuel as [|f IH]; intros p Hp; [lia|].
  cbn [parseValue]. unfold current.
  destruct p as [|tok p0]; cbn [bind]; [discriminate|].
  cbn [List.length] in Hp.
  destruct (type tok) eqn:Ety; try discriminate.
  - unfold parseString. rewrite <- Ety, expect_cons. discriminate.
  - unfold parseNumber. rewrite <- Ety, expect_cons. cbn [bind].
    destruct (isNaN _); discriminate.
  - unfold parseDict. rewrite <- Ety, expect_cons. cbn [bind].
    unfold peek, current. destruct p0 as [|tok1 p1]; cbn [bind]; [discriminate|].
    destruct (TokenType_eqb (type tok1) RBRACE); [discriminate|].
    pose proof (parseDictLoop_total (parseValue f) f (parseValue_local f) IH f
                  emptyObject (tok1 :: p1) ltac:(lia) ltac:(lia)) as Hl.
    destruct (parseDictLoop (parseValue f) f emptyObject (tok1 :: p1)) as [[obj p2]|e];
      cbn [bind]; [|congruence].
    unfold expect, current. destruct p2 as [|c p3]; cbn [bind]; [discriminate|].
    destruct (negb _); discriminate.
  - unfold parseList. rewrite <- Ety, expect_cons. cbn [bind].
    unfold peek, current. destruct p0 as [|tok1 p1]; cbn [bind]; [discriminate|].
    destruct (TokenType_eqb (type tok1) RBRACKET); [discriminate|].
    rewrite parseListLoop_seq.
    pose proof (seqLoop_total (parseValue f) f (parseValue_local f) IH RBRACKET f
                  [] (tok1 :: p1) ltac:(lia) ltac:(lia)) as Hl.
    destruct (seqLoop (parseValue f) RBRACKET f [] (tok1 :: p1)) as [[vs p2]|e];
      cbn [bind]; [|congruence].
    unfold expect, current. destruct p2 as [|c p3]; cbn [bind]; [discriminate|].
    destruct (negb _); discriminate.
  - unfold parseTuple. rewrite <- Ety, expect_cons. cbn [bind].
    unfold peek, current. destruct p0 as [|tok1 p1]; cbn [bind]; [discriminate|].
    destruct (TokenType_eqb (type tok1) RPAREN); [discriminate|].
    rewrite parseTupleLoop_seq.
    pose proof (seqLoop_total (parseValue f) f (parseValue_local f) IH RPAREN f
                  [] (tok1 :: p1) ltac:(lia) ltac:(lia)) as Hl.
    destruct (seqLoop (parseValue f) RPAREN f [] (tok1 :: p1)) as [[vs p2]|e];
      cbn [bind]; [|congruence].
    unfold expect, current. destruct p2 as [|c p3]; cbn [bind]; [discriminate|].
    destruct (negb _); discriminate.
Qed.

(** Whatever fuel made [parseValue] return, the fuel of [parse] does. *)
Lemma parseValue_enough (fuel : nat) (p : t) (r : jsvalue * t) :
  parseValue fuel p = OK r -> parseValue (S (List.length p)) p = OK r.
Proof.
  intro H. destruct (Nat.le_ge_cases fuel (S (List.length p))) as [Hle|Hge].
  - apply (parseValue_mono fuel _ Hle p _ H). discriminate.
  - pose proof (parseValue_total (S (List.length p)) p ltac:(lia)) as Ht.
    rewrite <- H. symmetry.
    apply (parseValue_mono _ _ Hge p _ eq_refl Ht).
Qed.

Lemma parse_total (tokens : list Token) : parse tokens <> Err OutOfFuel.
Proof.
  unfold parse.
  pose proof (parseValue_total (S (List.length tokens)) tokens ltac:(lia)) as Ht.
  destruct (parseValue _ tokens) as [[v p]|e]; cbn [bind]; [|congruence].
  unfold current. destruct p as [|tok p]; cbn [bind]; [discriminate|].
  destruct (negb _); discriminate.
Qed.

(** *** The container rules, uniformly *)

Lemma app_tail_length {A : Type} (a b r r' : list A) :
  a ++ r = b ++ r' -> List.length r = List.length r' -> a = b /\ r = r'.
Proof.
  revert b; induction a as [|x a IH]; intros [|y b] H Hl; cbn [app] in *.
  - now split.
  - subst r. rewrite length_cons, length_app in Hl. lia.
  - subst r'. rewrite length_cons, length_app in Hl. lia.
  - injection H as -> H. destruct (IH b H Hl) as [-> ->]. now split.
Qed.

(** In a token list that ends with its only end-of-input token, a suffix
    that starts with such a token is that last token. *)
Lemma suffix_at_EOF (l cons p' : list Token) (eof e : Token) :
  l ++ [eof] = cons ++ e :: p' ->
  Forall (fun tok => type tok <> EOF) l ->
  type e = EOF ->
  p' = [] /\ e = eof /\ cons = l.
Proof.
  revert cons; induction l as [|x l IH]; intros cons H Hall He.
  - destruct cons as [|y cons]; cbn [app] in H.
    + injection H as <- <-. now repeat split.
    + injection H as _ H. destruct cons; discriminate.
  - inversion Hall as [|? ? Hx Hl]; subst.
    destruct cons as [|y cons]; cbn [app] in H.
    + injection H as <- _. contradiction.
    + injection H as <- H. destruct (IH cons H Hl He) as (-> & -> & ->).
      now repeat split.
Qed.

(** [parseValue] on an opening token is the frame around the loop. *)
Lemma parseValue_container (k : Kind) (f : nat) (o : Token) (p : t) :
  type o = openOf k ->
  parseValue (S f) (o :: p)
  = container (openOf k) (closeOf k) (loopOf k f) (fun v => v) (emptyOf k) (o :: p).
Proof.
  intro Ho. cbn [parseValue current bind]. rewrite Ho.
  destruct k; cbn [openOf closeOf loopOf emptyOf].
  - reflexivity.
  - unfold parseList, container.
    destruct (expect LBRACKET (o :: p)) as [[o' p0]|e]; cbn [bind]; [|reflexivity].
    destruct (peek p0) as [ty|e]; cbn [bind]; [|reflexivity].
    destruct (TokenType_eqb ty RBRACKET); [reflexivity|].
    rewrite parseListLoop_seq.
    destruct (seqLoop _ _ _ _ _) as [[vs p1]|e]; reflexivity.
  - unfold parseTuple, container.
    destruct (expect LPAREN (o :: p)) as [[o' p0]|e]; cbn [bind]; [|reflexivity].
    destruct (peek p0) as [ty|e]; cbn [bind]; [|reflexivity].
    destruct (TokenType_eqb ty RPAREN); [reflexivity|].
    rewrite parseTupleLoop_seq.
    destruct (seqLoop _ _ _ _ _) as [[vs p1]|e]; reflexivity.
Qed.

Lemma last_app_nonempty {A : Type} (a b : list A) (d : A) :
  b <> [] -> last (a ++ b) d = last b d.
Proof.
  intro Hb. induction a as [|x a IH]; [reflexivity|].
  cbn [app]. destruct (a ++ b) eqn:E.
  - destruct a; [cbn in E; contradiction|discriminate].
  - cbn [last]. exact IH.
Qed.

Section Rewrites.

Variable pv : t -> result (jsvalue * t).
Hypothesis pv_local : local pv.

(** A trailing comma before the closing token of a sequence. *)
Lemma seqLoop_trailing (close : TokenType) (f : nat) :
  forall acc body c comma R vs rest,
    type c = close -> type comma = COMMA ->
    seqLoop pv close f acc (body ++ c :: R) = OK (vs, rest) ->
    List.length rest = S (List.length R) ->
    body <> [] -> type (last body c) <> COMMA ->
    seqLoop pv close (S f) acc (body ++ comma :: c :: R) = OK (vs, c :: R).
Proof using pv_local.
  induction f as [|f IH]; intros acc body c comma R vs rest Hc Hcomma H Hlen Hne Hlast;
    [discriminate|].
  destruct body as [|tok b]; [contradiction|].
  cbn [seqLoop app] in H. rewrite peek_cons in H. cbn [bind] in H.
  destruct (TokenType_eqb (type tok) close) eqn:Ec.
  { injection H as _ <-. cbn [List.length] in Hlen. rewrite length_app in Hlen.
    cbn [List.length] in Hlen. lia. }
  destruct (pv (tok :: b ++ c :: R)) as [[v1 p1]|e] eqn:Ev; cbn [bind] in H;
    [|discriminate].
  destruct (pv_local _ _ _ Ev) as (cons & Hcne & Hp & Hloc).
  destruct (peek p1) as [ty1|e] eqn:Ep1; cbn [bind] in H; [|discriminate].
  destruct (peek_OK p1 ty1 Ep1) as (tok1 & p2 & -> & Hty1).
  assert (Hhead : forall X, seqLoop pv close (S (S f)) acc (cons ++ X)
            = let* ty := peek X in
              if TokenType_eqb ty COMMA
              then seqLoop pv close (S f) (acc ++ [v1]) (next X)
              else OK (acc ++ [v1], X)).
  { intro X. destruct cons as [|c0 cons]; [contradiction|].
    cbn [app] in Hp. injection Hp as <- _.
    change (seqLoop pv close (S (S f)) acc ((tok :: cons) ++ X))
      with (let* ty := peek ((tok :: cons) ++ X) in
            if TokenType_eqb ty close then OK (acc, (tok :: cons) ++ X)
            else
              let* (v, p) := pv ((tok :: cons) ++ X) in
              let* ty := peek p in
              if TokenType_eqb ty COMMA
              then seqLoop pv close (S f) (acc ++ [v]) (next p)
              else OK (acc ++ [v], p)).
    cbn [app]. rewrite peek_cons. cbn [bind]. rewrite Ec.
    change (tok :: cons ++ X) with ((tok :: cons) ++ X). rewrite Hloc. reflexivity. }
  destruct (TokenType_eqb ty1 COMMA) eqn:Ecomma.
  - cbn [next tl] in H.
    destruct (seqLoop_local pv pv_local _ _ _ _ _ _ H) as (cons2 & Hp2 & _ & _).
    subst p2.
    change (tok :: b ++ c :: R) with ((tok :: b) ++ c :: R) in Hp.
    replace (cons ++ tok1 :: cons2 ++ rest) with ((cons ++ tok1 :: cons2) ++ rest) in Hp
      by (rewrite <- app_assoc; reflexivity).
    destruct (app_tail_length _ _ _ _ Hp) as [Hb Hr]; [cbn [List.length]; lia|].
    subst rest. rewrite Hb in *.
    destruct cons2 as [|c2 cons2].
    + exfalso. apply Hlast.
      rewrite last_app_nonempty by discriminate. cbn [last]. subst ty1.
      now apply TokenType_eqb_eq.
    + rewrite <- app_assoc. cbn [app].
      rewrite Hhead, peek_cons, Hty1. cbn [bind]. rewrite Ecomma. cbn [next tl].
      change (c2 :: cons2 ++ comma :: c :: R) with ((c2 :: cons2) ++ comma :: c :: R).
      eapply IH; try eassumption; try discriminate.
      rewrite last_app_nonempty in Hlast by discriminate.
      cbn [last] in Hlast. destruct cons2; exact Hlast.
  - injection H as <- <-.
    change (tok :: b ++ c :: R) with ((tok :: b) ++ c :: R) in Hp.
    destruct (app_tail_length _ _ _ _ Hp) as [Hb Hr]; [cbn [List.length] in *; lia|].
    injection Hr as <- <-. rewrite Hb.
    rewrite Hhead, peek_cons, Hcomma. cbn [bind TokenType_eqb next tl].
    cbn [seqLoop]. rewrite peek_cons. cbn [bind].
    now rewrite Hc, TokenType_eqb_refl.
Qed.

(** The same for the entries of a dict. *)
Lemma parseDictLoop_trailing (f : nat) :
  forall obj body c comma R obj' rest,
    type c = RBRACE -> type comma = COMMA ->
    parseDictLoop pv f obj (body ++ c :: R) = OK (obj', rest) ->
    List.length rest = S (List.length R) ->
    body <> [] -> type (last body c) <> COMMA ->
    parseDictLoop pv (S f) obj (body ++ comma :: c :: R) = OK (obj', c :: R).
Proof using pv_local.
  induction f as [|f IH]; intros obj body c comma R obj' rest Hc Hcomma H Hlen Hne Hlast;
    [discriminate|].
  destruct body as [|tok b]; [contradiction|].
  cbn [parseDictLoop app] in H. rewrite peek_cons in H. cbn [bind] in H.
  destruct (TokenType_eqb (type tok) RBRACE) eqn:Ec.
  { injection H as _ <-. cbn [List.length] in Hlen. rewrite length_app in Hlen.
    cbn [List.length] in Hlen. lia. }
  destruct (parseDictKey (tok :: b ++ c :: R)) as [[key p1]|e] eqn:Ek; cbn [bind] in H;
    [|discriminate].
  destruct (parseDictKey_OK _ _ _ Ek) as (tok' & Hk & Hkloc). injection Hk as <- <-.
  destruct (expect COLON (b ++ c :: R)) as [[colon p2]|e] eqn:Ecol; cbn [bind] in H;
    [|discriminate].
  destruct (expect_OK _ _ _ _ Ecol) as [Hb Hcol].
  destruct (pv p2) as [[v1 p3]|e] eqn:Ev; cbn [bind] in H; [|discriminate].
  destruct (pv_local _ _ _ Ev) as (cons & Hcne & Hp & Hloc).
  destruct (peek p3) as [ty1|e] eqn:Ep1; cbn [bind] in H; [|discriminate].
  destruct (peek_OK p3 ty1 Ep1) as (tok1 & p4 & -> & Hty1).
  assert (Hhead : forall X,
             parseDictLoop pv (S (S f)) obj (tok :: colon :: cons ++ X)
             = let* ty := peek X in
               if TokenType_eqb ty COMMA
               then parseDictLoop pv (S f) (setProperty obj key v1) (next X)
               else OK (setProperty obj key v1, X)).
  { intro X.
    change (parseDictLoop pv (S (S f)) obj (tok :: colon :: cons ++ X))
      with (let* ty := peek (tok :: colon :: cons ++ X) in
            if TokenType_eqb ty RBRACE then OK (obj, tok :: colon :: cons ++ X)
            else
              let* (key, p) := parseDictKey (tok :: colon :: cons ++ X) in
              let* (_, p) := expect COLON p in
              let* (v, p) := pv p in
              let* ty := peek p in
              if TokenType_eqb ty COMMA
              then parseDictLoop pv (S f) (setProperty obj key v) (next p)
              else OK (setProperty obj key v, p)).
    rewrite peek_cons. cbn [bind]. rewrite Ec, Hkloc. cbn [bind].
    rewrite <- Hcol, expect_cons. cbn [bind]. rewrite Hloc. reflexivity. }
  subst p2.
  assert (Hbody : tok :: b ++ c :: R = (tok :: colon :: cons) ++ tok1 :: p4)
    by (cbn [app]; now rewrite Hb).
  change (tok :: b ++ c :: R) with ((tok :: b) ++ c :: R) in Hbody.
  destruct (TokenType_eqb ty1 COMMA) eqn:Ecomma.
  - cbn [next tl] in H.
    destruct (parseDictLoop_local pv pv_local _ _ _ _ _ H) as (cons2 & Hp2 & _ & _).
    subst p4.
    replace ((tok :: colon :: cons) ++ tok1 :: cons2 ++ rest)
      with (((tok :: colon :: cons) ++ tok1 :: cons2) ++ rest) in Hbody
      by (rewrite <- app_assoc; reflexivity).
    destruct (app_tail_length _ _ _ _ Hbody) as [Hb' Hr]; [cbn [List.length]; lia|].
    subst rest. rewrite Hb' in *.
    destruct cons2 as [|c2 cons2].
    + exfalso. apply Hlast.
      rewrite last_app_nonempty by discriminate. cbn [last]. subst ty1.
      now apply TokenType_eqb_eq.
    + rewrite <- app_assoc. cbn [app].
      rewrite Hhead, peek_cons, Hty1. cbn [bind]. rewrite Ecomma. cbn [next tl].
      change (c2 :: cons2 ++ comma :: c :: R) with ((c2 :: cons2) ++ comma :: c :: R).
      eapply IH; try eassumption; try discriminate.
      rewrite last_app_nonempty in Hlast by discriminate.
      cbn [last] in Hlast. destruct cons2; exact Hlast.
  - injection H as <- <-.
    destruct (app_tail_length _ _ _ _ Hbody) as [Hb' Hr]; [cbn [List.length] in *; lia|].
    injection Hr as <- <-. rewrite Hb'. cbn [app].
    rewrite Hhead, peek_cons, Hcomma. cbn [bind TokenType_eqb next tl].
    cbn [parseDictLoop]. rewrite peek_cons. cbn [bind].
    now rewrite Hc.
Qed.

(** A sequence loop that stopped at its closing token stops at any other
    token that cannot start a value and is not a comma. *)
Lemma seqLoop_swap (close close' : TokenType) (f : nat) :
  (forall tok p r, type tok = close' -> pv (tok :: p) <> OK r) ->
  close' <> COMMA ->
  forall acc body c c' R R' vs rest,
    type c = close -> type c' = close' ->
    seqLoop pv close f acc (body ++ c :: R) = OK (vs, rest) ->
    List.length rest = S (List.length R) ->
    seqLoop pv close' f acc (body ++ c' :: R') = OK (vs, c' :: R').
Proof using pv_local.
  intros Hrej Hnc.
  induction f as [|f IH]; intros acc body c c' R R' vs rest Hc Hc' H Hlen;
    [discriminate|].
  destruct body as [|tok b].
  { cbn [app seqLoop] in *. rewrite peek_cons in *. cbn [bind] in *.
    rewrite Hc, TokenType_eqb_refl in H. injection H as <- _.
    now rewrite Hc', TokenType_eqb_refl. }
  cbn [seqLoop app] in H. rewrite peek_cons in H. cbn [bind] in H.
  destruct (TokenType_eqb (type tok) close) eqn:Ec.
  { injection H as _ <-. cbn [List.length] in Hlen. rewrite length_app in Hlen.
    cbn [List.length] in Hlen. lia. }
  destruct (pv (tok :: b ++ c :: R)) as [[v1 p1]|e] eqn:Ev; cbn [bind] in H;
    [|discriminate].
  assert (Ec' : TokenType_eqb (type tok) close' = false).
  { destruct (TokenType_eqb (type tok) close') eqn:E; [|reflexivity].
    apply TokenType_eqb_eq in E. exfalso. eapply Hrej; eassumption. }
  destruct (pv_local _ _ _ Ev) as (cons & Hcne & Hp & Hloc).
  destruct (peek p1) as [ty1|e] eqn:Ep1; cbn [bind] in H; [|discriminate].
  destruct (peek_OK p1 ty1 Ep1) as (tok1 & p2 & -> & Hty1).
  assert (Hhead : forall X, seqLoop pv close' (S f) acc (cons ++ X)
            = let* ty := peek X in
              if TokenType_eqb ty COMMA
              then seqLoop pv close' f (acc ++ [v1]) (next X)
              else OK (acc ++ [v1], X)).
  { intro X. destruct cons as [|c0 cons]; [contradiction|].
    cbn [app] in Hp. injection Hp as <- _.
    cbn [app seqLoop]. rewrite peek_cons. cbn [bind]. rewrite Ec'.
    change (tok :: cons ++ X) with ((tok :: cons) ++ X). rewrite Hloc. reflexivity. }
  change (tok :: b ++ c :: R) with ((tok :: b) ++ c :: R) in Hp.
  destruct (TokenType_eqb ty1 COMMA) eqn:Ecomma.
  - cbn [next tl] in H.
    destruct (seqLoop_local pv pv_local _ _ _ _ _ _ H) as (cons2 & Hp2 & _ & _).
    subst p2.
    replace (cons ++ tok1 :: cons2 ++ rest) with ((cons ++ tok1 :: cons2) ++ rest) in Hp
      by (rewrite <- app_assoc; reflexivity).
    destruct (app_tail_length _ _ _ _ Hp) as [Hb Hr]; [cbn [List.length]; lia|].
    subst rest. rewrite Hb. rewrite <- app_assoc. cbn [app].
    rewrite Hhead, peek_cons, Hty1. cbn [bind]. rewrite Ecomma. cbn [next tl].
    eapply IH; eassumption.
  - injection H as <- <-.
    destruct (app_tail_length _ _ _ _ Hp) as [Hb Hr]; [cbn [List.length] in *; lia|].
    rewrite Hb, Hhead, peek_cons, Hc'. cbn [bind].
    destruct (TokenType_eqb close' COMMA) eqn:E; [|reflexivity].
    apply TokenType_eqb_eq in E. contradiction.
Qed.

End Rewrites.

Lemma loopOf_consumes (k : Kind) (f : nat) (p p' : t) (r : jsvalue) :
  loopOf k f p = OK (r, p') -> exists cons, p = cons ++ p'.
Proof.
  destruct k; cbn [loopOf]; intro H.
  - destruct (parseDictLoop_local _ (parseValue_local f) _ _ _ _ _ H) as (cons & Hc & _).
    now exists cons.
  - destruct (seqLoop _ _ _ _ _) as [[vs p1]|e] eqn:E; cbn [bind] in H; [|discriminate].
    injection H as _ <-.
    destruct (seqLoop_local _ (parseValue_local f) _ _ _ _ _ _ E) as (cons & Hc & _).
    now exists cons.
  - destruct (seqLoop _ _ _ _ _) as [[vs p1]|e] eqn:E; cbn [bind] in H; [|discriminate].
    injection H as _ <-.
    destruct (seqLoop_local _ (parseValue_local f) _ _ _ _ _ _ E) as (cons & Hc & _).
    now exists cons.
Qed.

Lemma loopOf_trailing (k : Kind) (f : nat) (body R : list Token) (c comma : Token)
    (v : jsvalue) :
  type c = closeOf k -> type comma = COMMA ->
  body <> [] -> type (last body c) <> COMMA ->
  loopOf k f (body ++ c :: R) = OK (v, c :: R) ->
  loopOf k (S f) (body ++ comma :: c :: R) = OK (v, c :: R).
Proof.
  intros Hc Hcomma Hne Hlast H.
  assert (Hext : extends (parseValue f) (parseValue (S f)))
    by (apply parseValue_mono; lia).
  destruct k; cbn [loopOf closeOf] in *.
  - eapply (parseDictLoop_trailing _ (parseValue_local (S f))); try eassumption.
    + eapply (parseDictLoop_mono _ _ Hext); [apply Nat.le_refl|exact H|discriminate].
    + reflexivity.
  - destruct (seqLoop _ _ _ _ _) as [[vs p1]|e] eqn:E; cbn [bind] in H; [|discriminate].
    injection H as <- ->.
    erewrite (seqLoop_trailing _ (parseValue_local (S f))); try eassumption.
    + reflexivity.
    + eapply (seqLoop_mono _ _ Hext); [apply Nat.le_refl|exact E|discriminate].
    + reflexivity.
  - destruct (seqLoop _ _ _ _ _) as [[vs p1]|e] eqn:E; cbn [bind] in H; [|discriminate].
    injection H as <- ->.
    erewrite (seqLoop_trailing _ (parseValue_local (S f))); try eassumption.
    + reflexivity.
    + eapply (seqLoop_mono _ _ Hext); [apply Nat.le_refl|exact E|discriminate].
    + reflexivity.
Qed.

(** No value starts with a closing bracket or parenthesis. *)
Lemma parseValue_rejects_close (f : nat) (tok : Token) (p : t) (r : jsvalue * t) :
  type tok = RBRACKET \/ type tok = RPAREN -> parseValue f (tok :: p) <> OK r.
Proof.
  intros Hty. destruct f as [|f]; [discriminate|].
  cbn [parseValue current bind]. destruct Hty as [-> | ->]; discriminate.
Qed.

Lemma loopOf_swap (k k' : Kind) (f : nat) (body R R' : list Token) (c c' : Token)
    (v : jsvalue) :
  isSeq k = true -> isSeq k' = true ->
  type c = closeOf k -> type c' = closeOf k' ->
  loopOf k f (body ++ c :: R) = OK (v, c :: R) ->
  loopOf k' f (body ++ c' :: R') = OK (v, c' :: R').
Proof.
  intros Hk Hk' Hc Hc' H.
  assert (G : forall close close',
             (close' = RBRACKET \/ close' = RPAREN) ->
             type c = close -> type c' = close' ->
             (let* (vs, p) := seqLoop (parseValue f) close f [] (body ++ c :: R)
              in OK (VArray vs, p)) = OK (v, c :: R) ->
             (let* (vs, p) := seqLoop (parseValue f) close' f [] (body ++ c' :: R')
              in OK (VArray vs, p)) = OK (v, c' :: R')).
  { intros close close' Hcl Tc Tc' E.
    destruct (seqLoop (parseValue f) close f [] (body ++ c :: R)) as [[vs p1]|e] eqn:El;
      cbn [bind] in E; [|discriminate].
    injection E as <- ->.
    erewrite (seqLoop_swap _ (parseValue_local f) close close'); try eassumption.
    - reflexivity.
    - intros tok p r Ht. apply parseValue_rejects_close. rewrite Ht. exact Hcl.
    - destruct Hcl as [-> | ->]; discriminate.
    - reflexivity. }
  destruct k, k'; try discriminate; cbn [loopOf closeOf] in *;
    (eapply G; [| eassumption | eassumption | eassumption]); auto.
Qed.

(** What a container literal that spans [o :: body ++ [c]] comes to: its
    loop runs over the body and stops at the closing token. *)
Lemma container_span (k : Kind) (f : nat) (o c : Token) (body R R' : list Token)
    (v : jsvalue) :
  type o = openOf k -> type c = closeOf k ->
  parseValue (S f) (o :: body ++ c :: R) = OK (v, R') ->
  List.length R' = List.length R ->
  R' = R
  /\ ((body = [] /\ v = emptyOf k)
      \/ (exists tok b, body = tok :: b
                        /\ TokenType_eqb (type tok) (closeOf k) = false
                        /\ loopOf k f (body ++ c :: R) = OK (v, c :: R))).
Proof.
  intros Ho Hc H Hlen.
  rewrite (parseValue_container k) in H by exact Ho. unfold container in H.
  rewrite <- Ho, expect_cons in H. cbn [bind] in H.
  destruct body as [|tok b].
  - cbn [app] in H. rewrite peek_cons, Hc in H. cbn [bind] in H.
    rewrite TokenType_eqb_refl in H. injection H as <- <-. split; [reflexivity|].
    left. now split.
  - cbn [app] in H. rewrite peek_cons in H. cbn [bind] in H.
    destruct (TokenType_eqb (type tok) (closeOf k)) eqn:Ec.
    { injection H as _ <-. cbn [next tl] in Hlen. rewrite length_app in Hlen.
      cbn [List.length] in Hlen. lia. }
    destruct (loopOf k f (tok :: b ++ c :: R)) as [[r p1]|e] eqn:El; cbn [bind] in H;
      [|discriminate].
    destruct (expect (closeOf k) p1) as [[tc p2]|e] eqn:Ecl; cbn [bind] in H;
      [|discriminate].
    destruct (expect_OK _ _ _ _ Ecl) as [-> Htc]. injection H as <- <-.
    destruct (loopOf_consumes _ _ _ _ _ El) as (cons & Hcons).
    change (tok :: b ++ c :: R) with ((tok :: b) ++ c :: R) in Hcons.
    destruct (app_tail_length _ _ _ _ Hcons) as [Hb Hr]; [cbn [List.length]; lia|].
    injection Hr as <- <-. split; [reflexivity|]. right.
    exists tok, b. repeat split; assumption.
Qed.

(** The converse: the frame around a loop that stops at the closing token. *)
Lemma container_build (k : Kind) (f : nat) (o c tok : Token) (b R : list Token)
    (v : jsvalue) :
  type o = openOf k -> type c = closeOf k ->
  TokenType_eqb (type tok) (closeOf k) = false ->
  loopOf k f ((tok :: b) ++ c :: R) = OK (v, c :: R) ->
  parseValue (S f) (o :: (tok :: b) ++ c :: R) = OK (v, R).
Proof.
  intros Ho Hc Ec H.
  rewrite (parseValue_container k) by exact Ho. unfold container.
  rewrite <- Ho, expect_cons. cbn [bind app]. rewrite peek_cons. cbn [bind].
  rewrite Ec. cbn [app] in H. rewrite H. cbn [bind].
  rewrite <- Hc, expect_cons. reflexivity.
Qed.

Lemma container_empty (k : Kind) (f : nat) (o c : Token) (R : list Token) :
  type o = openOf k -> type c = closeOf k ->
  parseValue (S f) (o :: c :: R) = OK (emptyOf k, R).
Proof.
  intros Ho Hc.
  rewrite (parseValue_container k) by exact Ho. unfold container.
  rewrite <- Ho, expect_cons. cbn [bind]. rewrite peek_cons, Hc. cbn [bind].
  now rewrite TokenType_eqb_refl.
Qed.

(** [parse] succeeds exactly when [parseValue] reads everything up to the
    end-of-input token. *)
Lemma parse_spans (l : list Token) (eof : Token) (v : jsvalue) :
  type eof = EOF ->
  Forall (fun tok => type tok <> EOF) l ->
  parse (l ++ [eof]) = OK v
  <-> parseValue (S (List.length (l ++ [eof]))) (l ++ [eof]) = OK (v, [eof]).
Proof.
  intros He Hall. unfold parse. split.
  - destruct (parseValue _ _) as [[r p]|e] eqn:E; cbn [bind]; [|discriminate].
    unfold current. destruct p as [|tok p]; cbn [bind]; [discriminate|].
    destruct (TokenType_eqb (type tok) EOF) eqn:Et; cbn [negb]; [|discriminate].
    intros [= <-]. apply TokenType_eqb_eq in Et.
    destruct (parseValue_local _ _ _ _ E) as (cons & _ & Hc & _).
    destruct (suffix_at_EOF _ _ _ _ _ Hc Hall Et) as (-> & -> & _). reflexivity.
  - intros ->. cbn [bind current]. rewrite He. reflexivity.
Qed.

(** A tuple literal and a list literal with the same body read alike. *)
Lemma seq_swap_value (k k' : Kind) (f : nat) (o c o' c' : Token)
    (body R R' R2 : list Token) (v : jsvalue) :
  isSeq k = true -> isSeq k' = true ->
  type o = openOf k -> type c = closeOf k ->
  type o' = openOf k' -> type c' = closeOf k' ->
  parseValue f (o :: body ++ c :: R) = OK (v, R') ->
  List.length R' = List.length R ->
  parseValue f (o' :: body ++ c' :: R2) = OK (v, R2)
  /\ exists elems, v = VArray elems.
Proof.
  intros Hk Hk' Ho Hc Ho' Hc' H Hlen.
  destruct f as [|f]; [discriminate|].
  destruct (container_span k f o c body R R' v Ho Hc H Hlen)
    as [-> [[-> ->] | (tok & b & -> & Ec & Hl)]].
  - split.
    + cbn [app]. rewrite (container_empty k') by assumption.
      destruct k, k'; try discriminate; reflexivity.
    + destruct k; try discriminate; now exists [].
  - pose proof (loopOf_swap k k' f (tok :: b) R R2 c c' v Hk Hk' Hc Hc' Hl) as Hl'.
    split.
    + apply (container_build k'); try assumption.
      destruct (TokenType_eqb (type tok) (closeOf k')) eqn:Ec'; [|reflexivity].
      exfalso. destruct f as [|f]; [destruct k'; discriminate|].
      assert (E : seqLoop (parseValue (S f)) (closeOf k') (S f) []
                    ((tok :: b) ++ c' :: R2)
                  = OK ([], (tok :: b) ++ c' :: R2)).
      { cbn [app seqLoop]. rewrite peek_cons. cbn [bind]. now rewrite Ec'. }
      destruct k'; try discriminate; cbn [loopOf closeOf] in *;
        rewrite E in Hl'; cbn [bind] in Hl';
        assert (Hq : List.length ((tok :: b) ++ c' :: R2) = List.length (c' :: R2))
          by (f_equal; congruence);
        rewrite length_app in Hq; cbn [List.length] in Hq; lia.
    + destruct k; try discriminate; cbn [loopOf] in Hl;
        destruct (seqLoop _ _ _ _ _) as [[vs p1]|e]; cbn [bind] in Hl;
        try discriminate; injection Hl as <- _; now exists vs.
Qed.

(** The loop of a container depends on what follows its body only through
    the type of the next token. *)
Lemma loopOf_retarget (k : Kind) (f : nat) (body R R2 : list Token) (c c2 : Token)
    (v : jsvalue) :
  type c2 = type c ->
  loopOf k f (body ++ c :: R) = OK (v, c :: R) ->
  loopOf k f (body ++ c2 :: R2) = OK (v, c2 :: R2).
Proof.
  intros Hty H.
  assert (Hh : headType (c2 :: R2) = headType (c :: R)) by (cbn; now rewrite Hty).
  destruct k; cbn [loopOf] in *.
  - destruct (parseDictLoop_local _ (parseValue_local f) _ _ _ _ _ H)
      as (cons & Hc & _ & Hloc).
    apply app_inv_tail in Hc. subst cons. now apply Hloc.
  - destruct (seqLoop _ _ _ _ (body ++ c :: R)) as [[vs p1]|e] eqn:E; cbn [bind] in H;
      [|discriminate].
    injection H as <- ->.
    destruct (seqLoop_local _ (parseValue_local f) _ _ _ _ _ _ E)
      as (cons & Hc & _ & Hloc).
    apply app_inv_tail in Hc. subst cons. now rewrite (Hloc _ Hh).
  - destruct (seqLoop _ _ _ _ (body ++ c :: R)) as [[vs p1]|e] eqn:E; cbn [bind] in H;
      [|discriminate].
    injection H as <- ->.
    destruct (seqLoop_local _ (parseValue_local f) _ _ _ _ _ _ E)
      as (cons & Hc & _ & Hloc).
    apply app_inv_tail in Hc. subst cons. now rewrite (Hloc _ Hh).
Qed.

Lemma trailing_value (k : Kind) (f : nat) (o c c2 comma : Token)
    (body R R' R2 : list Token) (v : jsvalue) :
  type o = openOf k -> type c = closeOf k -> type c2 = closeOf k ->
  type comma = COMMA ->
  body <> [] -> type (last body c) <> COMMA ->
  parseValue f (o :: body ++ c :: R) = OK (v, R') ->
  List.length R' = List.length R ->
  parseValue (S f) (o :: body ++ comma :: c2 :: R2) = OK (v, R2).
Proof.
  intros Ho Hc Hc2 Hcomma Hne Hlast H Hlen.
  destruct f as [|f]; [discriminate|].
  destruct (container_span k f o c body R R' v Ho Hc H Hlen)
    as [-> [[-> _] | (tok & b & -> & Ec & Hl)]]; [contradiction|].
  apply (loopOf_retarget k f (tok :: b) R R2 c c2) in Hl; [|congruence].
  assert (Hlast2 : type (last (tok :: b) c2) <> COMMA).
  { clear - Hlast. revert tok Hlast. induction b as [|x b IH]; intros tok H.
    - exact H.
    - apply (IH x). exact H. }
  pose proof (loopOf_trailing k f (tok :: b) R2 c2 comma v Hc2 Hcomma Hne Hlast2 Hl)
    as Hl'.
  replace (o :: (tok :: b) ++ comma :: c2 :: R2)
    with (o :: (tok :: b ++ [comma]) ++ c2 :: R2)
    by (cbn [app]; rewrite <- app_assoc; reflexivity).
  apply (container_build k); try assumption.
  cbn [app]. rewrite <- app_assoc. exact Hl'.
Qed.

End ParserFacts.

(** ** Tuples and lists *)

(** C5. A parenthesized tuple literal parses to the same Array as the
    bracketed list literal with the same element tokens: wherever the
    parser reads a value that spans the one, it reads the same value from the
    other; the two inputs as a whole succeed together with the same value,
    which is an Array; so two input texts that tokenize to these two token
    lists convert to the same JSON text.  [(1, 2)] and [[1, 2]] both give
    the two-element array at indent 4. *)
Theorem tuple_list_equivalence
    (o c o' c' eof : Token) (body : list Token) :
  type o = LPAREN -> type c = RPAREN ->
  type o' = LBRACKET -> type c' = RBRACKET ->
  type eof = EOF ->
  Forall (fun tok => type tok <> EOF) body ->
  (forall f R R' R2 v,
      Parser.parseValue f (o :: body ++ c :: R) = OK (v, R') ->
      List.length R' = List.length R ->
      Parser.parseValue f (o' :: body ++ c' :: R2) = OK (v, R2))
  /\ (forall v, Parser.parse (o :: body ++ [c; eof]) = OK v
               <-> Parser.parse (o' :: body ++ [c'; eof]) = OK v)
  /\ (forall v, Parser.parse (o :: body ++ [c; eof]) = OK v ->
               exists elems, v = VArray elems)
  /\ (forall s1 s2 indent out,
        Lexer.tokenize (trim s1) = OK (o :: body ++ [c; eof]) ->
        Lexer.tokenize (trim s2) = OK (o' :: body ++ [c'; eof]) ->
        (pythonDictToJson s1 indent = OK out <-> pythonDictToJson s2 indent = OK out))
  /\ pythonDictToJson (str "(1, 2)") 4
     = OK (str "[" ++ [10%N] ++ str "    1," ++ [10%N] ++ str "    2" ++ [10%N] ++ str "]")
  /\ pythonDictToJson (str "[1, 2]") 4 = pythonDictToJson (str "(1, 2)") 4.
Proof.
  intros Ho Hc Ho' Hc' He Hall.
  assert (Hall1 : Forall (fun tok => type tok <> EOF) (o :: body ++ [c])).
  { constructor; [rewrite Ho; discriminate|].
    apply Forall_app. split; [exact Hall|].
    constructor; [rewrite Hc; discriminate|constructor]. }
  assert (Hall2 : Forall (fun tok => type tok <> EOF) (o' :: body ++ [c'])).
  { constructor; [rewrite Ho'; discriminate|].
    apply Forall_app. split; [exact Hall|].
    constructor; [rewrite Hc'; discriminate|constructor]. }
  assert (E1 : o :: body ++ [c; eof] = (o :: body ++ [c]) ++ [eof])
    by (cbn [app]; now rewrite <- app_assoc).
  assert (E2 : o' :: body ++ [c'; eof] = (o' :: body ++ [c']) ++ [eof])
    by (cbn [app]; now rewrite <- app_assoc).
  assert (Hlen : List.length ((o :: body ++ [c]) ++ [eof])
                 = List.length ((o' :: body ++ [c']) ++ [eof])).
  { cbn [app List.length]. rewrite !length_app. reflexivity. }
  assert (Hiff : forall v, Parser.parse (o :: body ++ [c; eof]) = OK v
                           <-> Parser.parse (o' :: body ++ [c'; eof]) = OK v).
  { intro v. rewrite E1, E2.
    rewrite (ParserFacts.parse_spans _ eof v He Hall1).
    rewrite (ParserFacts.parse_spans _ eof v He Hall2).
    rewrite <- Hlen. rewrite <- E1, <- E2. split; intro H.
    - eapply (ParserFacts.seq_swap_value TupleKind ListKind); try eassumption;
        reflexivity.
    - eapply (ParserFacts.seq_swap_value ListKind TupleKind); try eassumption;
        reflexivity. }
  split.
  { intros f R R' R2 v H Hl.
    eapply (ParserFacts.seq_swap_value TupleKind ListKind); try eassumption;
      reflexivity. }
  split; [exact Hiff|].
  split.
  { intros v H. rewrite E1 in H.
    apply (ParserFacts.parse_spans _ eof v He Hall1) in H. rewrite <- E1 in H.
    eapply (ParserFacts.seq_swap_value TupleKind ListKind _ o c o' c' body [eof] [eof] []);
      try eassumption; reflexivity. }
  split; [|split; vm_compute; reflexivity].
  intros s1 s2 indent out T1 T2. unfold pythonDictToJson.
  assert (Hnil : forall x l, Lexer.tokenize [] <> OK (x :: body ++ l :: [eof])).
  { intros x l H. cbv in H. injection H as _ H. destruct body; discriminate. }
  destruct (trim s1) as [|a1 t1] eqn:Et1; [now apply Hnil in T1|].
  destruct (trim s2) as [|a2 t2] eqn:Et2; [now apply Hnil in T2|].
  rewrite T1, T2. cbn [bind].
  pose proof Hiff as Hi.
  set (r1 := Parser.parse (o :: body ++ [c; eof])) in *.
  set (r2 := Parser.parse (o' :: body ++ [c'; eof])) in *.
  clearbody r1 r2.
  destruct r1 as [v1|e1], r2 as [v2|e2]; cbn [bind].
  - destruct (Hi v1) as [H _]. specialize (H eq_refl). injection H as ->. reflexivity.
  - destruct (Hi v1) as [H _]. specialize (H eq_refl). discriminate.
  - destruct (Hi v2) as [_ H]. specialize (H eq_refl). discriminate.
  - split; discriminate.
Qed.

Lemma tuple_list_equivalence_witness :
  Parser.parse [mkToken LBRACKET (str "[") 0; mkToken NUMBER (str "1") 1;
                mkToken COMMA (str ",") 2; mkToken NUMBER (str "2") 4;
                mkToken RBRACKET (str "]") 5; mkToken EOF [] 6]
  = OK (VArray [VNumber (JFin false 1 0); VNumber (JFin false 1 1)]).
Proof.
  apply (proj1 (proj1 (proj2
           (tuple_list_equivalence
              (mkToken LPAREN (str "(") 0) (mkToken RPAREN (str ")") 5)
              (mkToken LBRACKET (str "[") 0) (mkToken RBRACKET (str "]") 5)
              (mkToken EOF [] 6)
              [mkToken NUMBER (str "1") 1; mkToken COMMA (str ",") 2;
               mkToken NUMBER (str "2") 4]
              eq_refl eq_refl eq_refl eq_refl eq_refl
              ltac:(repeat constructor; discriminate))) _)).
  vm_compute. reflexivity.
Defined.

(** ** Trailing commas *)

(** C6, as the code has it.  In a dict, list or tuple literal that is not
    empty and does not already end with a comma, a comma put just before the
    closing delimiter does not change what is parsed: wherever the parser
    reads a value that spans the literal, it reads the same value from the
    literal with the comma; an input that is such a literal is accepted with
    the same value; so two input texts that tokenize to the two token lists
    convert to the same JSON text.  This is the case for [{'a': 1,}],
    [[1, 2,]] and [(1, 2,)]. *)
Theorem trailing_comma
    (k : Kind) (o c c2 comma eof eof2 : Token) (body : list Token) :
  type o = openOf k -> type c = closeOf k -> type c2 = closeOf k ->
  type comma = COMMA -> type eof = EOF -> type eof2 = EOF ->
  Forall (fun tok => type tok <> EOF) body ->
  body <> [] -> type (last body c) <> COMMA ->
  (forall f R R' R2 v,
      Parser.parseValue f (o :: body ++ c :: R) = OK (v, R') ->
      List.length R' = List.length R ->
      Parser.parseValue (S f) (o :: body ++ comma :: c2 :: R2) = OK (v, R2))
  /\ (forall v, Parser.parse (o :: body ++ [c; eof]) = OK v ->
               Parser.parse (o :: body ++ [comma; c2; eof2]) = OK v)
  /\ (forall s1 s2 indent out,
        Lexer.tokenize (trim s1) = OK (o :: body ++ [c; eof]) ->
        Lexer.tokenize (trim s2) = OK (o :: body ++ [comma; c2; eof2]) ->
        pythonDictToJson s1 indent = OK out ->
        pythonDictToJson s2 indent = OK out)
  /\ pythonDictToJson (str "{'a': 1,}") 4 = pythonDictToJson (str "{'a': 1}") 4
  /\ pythonDictToJson (str "{'a': 1}") 4
     = OK (str "{" ++ [10%N] ++ str "    " ++ [34%N] ++ str "a" ++ [34%N]
             ++ str ": 1" ++ [10%N] ++ str "}")
  /\ pythonDictToJson (str "[1, 2,]") 4 = pythonDictToJson (str "[1, 2]") 4
  /\ pythonDictToJson (str "(1, 2,)") 4 = pythonDictToJson (str "(1, 2)") 4.
Proof.
  intros Ho Hc Hc2 Hcomma He He2 Hall Hne Hlast.
  assert (Hval : forall f R R' R2 v,
             Parser.parseValue f (o :: body ++ c :: R) = OK (v, R') ->
             List.length R' = List.length R ->
             Parser.parseValue (S f) (o :: body ++ comma :: c2 :: R2) = OK (v, R2)).
  { intros f R R' R2 v H Hl.
    apply (ParserFacts.trailing_value k f o c c2 comma body R R' R2 v); assumption. }
  assert (Ho' : type o <> EOF) by (rewrite Ho; destruct k; discriminate).
  assert (Hc' : type c <> EOF) by (rewrite Hc; destruct k; discriminate).
  assert (Hc2' : type c2 <> EOF) by (rewrite Hc2; destruct k; discriminate).
  assert (Hparse : forall v, Parser.parse (o :: body ++ [c; eof]) = OK v ->
                             Parser.parse (o :: body ++ [comma; c2; eof2]) = OK v).
  { intros v H.
    assert (E1 : o :: body ++ [c; eof] = (o :: body ++ [c]) ++ [eof])
      by (cbn [app]; now rewrite <- app_assoc).
    assert (E2 : o :: body ++ [comma; c2; eof2] = (o :: body ++ [comma; c2]) ++ [eof2])
      by (cbn [app]; now rewrite <- app_assoc).
    rewrite E1 in H. apply ParserFacts.parse_spans in H; [|exact He|].
    2:{ constructor; [exact Ho'|]. apply Forall_app. split; [exact Hall|].
        constructor; [exact Hc'|constructor]. }
    rewrite E2. apply ParserFacts.parse_spans; [exact He2| |].
    { constructor; [exact Ho'|]. apply Forall_app. split; [exact Hall|].
      constructor; [rewrite Hcomma; discriminate|].
      constructor; [exact Hc2'|constructor]. }
    rewrite <- E1 in H. rewrite <- E2.
    replace (List.length (o :: body ++ [comma; c2; eof2]))
      with (S (List.length (o :: body ++ [c; eof])))
      by (cbn [List.length]; rewrite !length_app; cbn [List.length]; lia).
    eapply Hval; [exact H|reflexivity]. }
  split; [exact Hval|]. split; [exact Hparse|].
  split; [|repeat split; vm_compute; reflexivity].
  intros s1 s2 indent out T1 T2. unfold pythonDictToJson.
  assert (Hnil : forall l, Lexer.tokenize [] <> OK (o :: l)).
  { intros l H. cbv in H. injection H as H _. rewrite <- H in Ho'. now apply Ho'. }
  destruct (trim s1) as [|a1 t1] eqn:Et1; [now apply Hnil in T1|].
  destruct (trim s2) as [|a2 t2] eqn:Et2; [now apply Hnil in T2|].
  rewrite T1, T2. cbn [bind].
  destruct (Parser.parse (o :: body ++ [c; eof])) as [v1|e1] eqn:P1; cbn [bind];
    [|discriminate].
  rewrite (Hparse v1 eq_refl). cbn [bind]. trivial.
Qed.

Lemma trailing_comma_witness :
  Parser.parse [mkToken LBRACE (str "{") 0; mkToken STRING (str "a") 1;
                mkToken COLON (str ":") 4; mkToken NUMBER (str "1") 6;
                mkToken COMMA (str ",") 7; mkToken RBRACE (str "}") 8;
                mkToken EOF [] 9]
  = OK (VObject ObjectPrototype [(str "a", VNumber (JFin false 1 0))]).
Proof.
  apply (proj1 (proj2
           (trailing_comma DictKind
              (mkToken LBRACE (str "{") 0) (mkToken RBRACE (str "}") 7)
              (mkToken RBRACE (str "}") 8) (mkToken COMMA (str ",") 7)
              (mkToken EOF [] 8) (mkToken EOF [] 9)
              [mkToken STRING (str "a") 1; mkToken COLON (str ":") 4;
               mkToken NUMBER (str "1") 6]
              eq_refl eq_refl eq_refl eq_refl eq_refl eq_refl
              ltac:(repeat constructor; discriminate)
              ltac:(discriminate) ltac:(discriminate)))).
  vm_compute. reflexivity.
Defined.

(** An empty literal does not take a comma. *)
Lemma trailing_comma_counterexample :
  pythonDictToJson (str "[]") 4 = OK (str "[]")
  /\ pythonDictToJson (str "[,]") 4 = Err (UnexpectedToken COMMA (str ",") 1)
  /\ pythonDictToJson (str "{}") 4 = OK (str "{}")
  /\ pythonDictToJson (str "{,}") 4 = Err (InvalidDictKey COMMA (str ",") 1)
  /\ pythonDictToJson (str "()") 4 = OK (str "[]")
  /\ pythonDictToJson (str "(,)") 4 = Err (UnexpectedToken COMMA (str ",") 1).
Proof. repeat split; vm_compute; reflexivity. Qed.

(** ** The order of object keys *)

Module ObjectFacts.

Lemma hasOwn_In {A : Type} (props : list (jsstring * A)) (k : jsstring) :
  hasOwn props k = true <-> In k (map fst props).
Proof.
  induction props as [|[k' v] ps IH]; cbn [hasOwn map fst In]; [split; [discriminate|tauto]|].
  rewrite orb_true_iff, IH, jsstring_eqb_eq. tauto.
Qed.

Lemma overwrite_keys {A : Type} (props : list (jsstring * A)) (k : jsstring) (v : A) :
  map fst (overwrite props k v) = map fst props.
Proof.
  induction props as [|[k' w] ps IH]; [reflexivity|].
  cbn [overwrite]. destruct (jsstring_eqb k' k); cbn [map fst]; [reflexivity|].
  now rewrite IH.
Qed.

Lemma overwrite_In {A : Type} (props : list (jsstring * A)) (k k' : jsstring) (v w : A) :
  NoDup (map fst props) ->
  In (k', w) (overwrite props k v) ->
  (k' = k /\ w = v) \/ (k' <> k /\ In (k', w) props).
Proof.
  induction props as [|[k0 v0] ps IH]; intros Hnd H; [contradiction|].
  cbn [overwrite] in H. cbn [map fst] in Hnd. inversion Hnd as [|? ? Hnot Hnd']; subst.
  destruct (jsstring_eqb k0 k) eqn:E.
  - apply jsstring_eqb_eq in E. subst k0. destruct H as [H|H].
    + injection H as <- <-. now left.
    + right. split; [|now right].
      intros ->. apply Hnot. apply in_map_iff. now exists (k, w).
  - apply jsstring_eqb_neq in E. destruct H as [H|H].
    + injection H as <- <-. right. split; [exact E|now left].
    + destruct (IH Hnd' H) as [?|[? ?]]; [now left|].
      right. split; [assumption|now right].
Qed.

Lemma assign_keys {A : Type} (props : list (jsstring * A)) (kv : jsstring * A) :
  map fst (assign props kv)
  = if hasOwn props (fst kv) then map fst props else map fst props ++ [fst kv].
Proof.
  unfold assign. destruct (hasOwn props (fst kv)).
  - apply overwrite_keys.
  - now rewrite map_app.
Qed.

Lemma assign_NoDup {A : Type} (props : list (jsstring * A)) (kv : jsstring * A) :
  NoDup (map fst props) -> NoDup (map fst (assign props kv)).
Proof.
  intro H. rewrite assign_keys. destruct (hasOwn props (fst kv)) eqn:E; [exact H|].
  apply NoDup_app; [exact H|repeat constructor; intros []|].
  intros x Hx [<-|[]]. apply hasOwn_In in Hx. congruence.
Qed.

Lemma build_NoDup {A : Type} (entries props : list (jsstring * A)) :
  NoDup (map fst props) -> NoDup (map fst (fold_left assign entries props)).
Proof.
  revert props; induction entries as [|kv es IH]; intros ps H; [exact H|].
  cbn [fold_left]. apply IH. now apply assign_NoDup.
Qed.

(** Each key keeps the value of its last occurrence. *)
Lemma build_values {A : Type} (entries props : list (jsstring * A)) (k : jsstring) (v : A) :
  NoDup (map fst props) ->
  In (k, v) (fold_left assign entries props) ->
  lookupLast entries k = Some v
  \/ (lookupLast entries k = None /\ In (k, v) props).
Proof.
  revert props; induction entries as [|[k0 v0] es IH]; intros ps Hnd H.
  - right. now split.
  - cbn [fold_left] in H.
    destruct (IH _ (assign_NoDup ps (k0, v0) Hnd) H) as [Hl|[Hl Hin]];
      cbn [lookupLast]; rewrite Hl; [now left|].
    unfold assign in Hin. cbn [fst snd] in Hin.
    destruct (hasOwn ps k0) eqn:Eh.
    + destruct (overwrite_In _ _ _ _ _ Hnd Hin) as [[-> ->]|[Hne Hin']].
      * left. now rewrite jsstring_eqb_refl.
      * right. split; [|exact Hin'].
        destruct (jsstring_eqb k0 k) eqn:E; [|reflexivity].
        apply jsstring_eqb_eq in E. congruence.
    + apply in_app_or in Hin. destruct Hin as [Hin|[Hin|[]]].
      * right. split; [|exact Hin].
        destruct (jsstring_eqb k0 k) eqn:E; [|reflexivity].
        apply jsstring_eqb_eq in E. subst k0.
        assert (hasOwn ps k = true)
          by (apply hasOwn_In, in_map_iff; now exists (k, v)).
        congruence.
      * injection Hin as -> ->. left. now rewrite jsstring_eqb_refl.
Qed.

Lemma filter_filter {A : Type} (f g : A -> bool) (l : list A) :
  filter f (filter g l) = filter (fun x => (g x && f x)%bool) l.
Proof.
  induction l as [|x l IH]; [reflexivity|]. cbn [filter].
  destruct (g x); cbn [filter andb]; [destruct (f x)|]; now rewrite IH.
Qed.

Lemma hasOwn_app {A : Type} (ps qs : list (jsstring * A)) (k : jsstring) :
  hasOwn (ps ++ qs) k = (hasOwn ps k || hasOwn qs k)%bool.
Proof.
  induction ps as [|[k' v] ps IH]; [reflexivity|].
  cbn [app hasOwn]. now rewrite IH, orb_assoc.
Qed.

Lemma hasOwn_overwrite {A : Type} (ps : list (jsstring * A)) (k x : jsstring) (v : A) :
  hasOwn (overwrite ps k v) x = hasOwn ps x.
Proof.
  induction ps as [|[k' w] ps IH]; [reflexivity|].
  cbn [overwrite]. destruct (jsstring_eqb k' k); cbn [hasOwn]; [reflexivity|].
  now rewrite IH.
Qed.

(** The keys are created in the order of their first occurrence. *)
Lemma build_keys {A : Type} (entries props : list (jsstring * A)) :
  map fst (fold_left assign entries props)
  = map fst props ++ filter (isFresh props) (firstOccurrences (map fst entries)).
Proof.
  revert props; induction entries as [|[k v] es IH]; intro ps.
  - cbn. now rewrite app_nil_r.
  - cbn [fold_left map fst firstOccurrences filter]. rewrite IH, assign_keys.
    cbn [fst]. unfold isFresh at 2. rewrite filter_filter.
    destruct (hasOwn ps k) eqn:Eh; cbn [negb].
    + f_equal. apply filter_ext_in. intros x _. unfold isFresh, assign.
      cbn [fst snd]. rewrite Eh, hasOwn_overwrite.
      destruct (jsstring_eqb x k) eqn:E; cbn [negb andb]; [|reflexivity].
      apply jsstring_eqb_eq in E. subst x. now rewrite Eh.
    + rewrite <- app_assoc. cbn [app]. do 2 f_equal.
      apply filter_ext_in. intros x _. unfold isFresh, assign.
      cbn [fst snd]. rewrite Eh, hasOwn_app. cbn [hasOwn].
      rewrite orb_false_r, negb_orb, andb_comm.
      f_equal. f_equal. destruct (jsstring_eqb k x) eqn:E.
      * apply jsstring_eqb_eq in E. subst. now rewrite jsstring_eqb_refl.
      * apply jsstring_eqb_neq in E. symmetry. apply jsstring_eqb_neq. congruence.
Qed.

(** *** The enumeration order *)

Lemma insertByIndex_perm {A : Type} (n : Z) (kv : jsstring * A)
    (l : list (Z * (jsstring * A))) :
  Permutation (insertByIndex n kv l) ((n, kv) :: l).
Proof.
  induction l as [|[m kv'] l IH]; cbn [insertByIndex]; [apply Permutation_refl|].
  destruct (n <? m); [apply Permutation_refl|].
  eapply Permutation_trans; [apply perm_skip, IH|apply perm_swap].
Qed.

Lemma insertByIndex_sorted {A : Type} (n : Z) (kv : jsstring * A)
    (l : list (Z * (jsstring * A))) :
  StronglySorted leIndex l -> StronglySorted leIndex (insertByIndex n kv l).
Proof.
  induction 1 as [|[m kv'] l Hs IH Hall]; cbn [insertByIndex].
  - repeat constructor.
  - destruct (Z.ltb_spec n m).
    + constructor; [now constructor|].
      constructor; [unfold leIndex; cbn; lia|].
      eapply Forall_impl; [|exact Hall]. unfold leIndex. cbn. intros a Ha. lia.
    + constructor; [exact IH|].
      eapply Permutation_Forall; [apply Permutation_sym, insertByIndex_perm|].
      constructor; [unfold leIndex; cbn; lia|exact Hall].
Qed.

Lemma indexProps_sorted {A : Type} (props : list (jsstring * A)) :
  StronglySorted leIndex (indexProps props).
Proof.
  induction props as [|[k v] ps IH]; cbn [indexProps]; [constructor|].
  destruct (arrayIndex k); [now apply insertByIndex_sorted|exact IH].
Qed.

Lemma indexProps_index {A : Type} (props : list (jsstring * A)) :
  Forall (fun e => arrayIndex (fst (snd e)) = Some (fst e)) (indexProps props).
Proof.
  induction props as [|[k v] ps IH]; cbn [indexProps]; [constructor|].
  destruct (arrayIndex k) as [n|] eqn:E; [|exact IH].
  eapply Permutation_Forall; [apply Permutation_sym, insertByIndex_perm|].
  constructor; [exact E|exact IH].
Qed.

Lemma indexProps_perm {A : Type} (props : list (jsstring * A)) :
  Permutation (map snd (indexProps props))
              (filter (fun kv => isArrayIndex (fst kv)) props).
Proof.
  induction props as [|[k v] ps IH]; cbn [indexProps filter fst]; [constructor|].
  unfold isArrayIndex at 1. destruct (arrayIndex k) as [n|]; [|exact IH].
  eapply Permutation_trans;
    [apply Permutation_map, insertByIndex_perm|]. cbn [map snd].
  now apply perm_skip.
Qed.

Lemma sorted_by_value {A : Type} (l : list (Z * (jsstring * A))) :
  StronglySorted leIndex l ->
  Forall (fun e => arrayIndex (fst (snd e)) = Some (fst e)) l ->
  StronglySorted (fun a b => indexValue a <= indexValue b)
    (map (fun e => fst (snd e)) l).
Proof.
  induction 1 as [|e l Hs IH Hall]; intro Hidx; cbn [map]; [constructor|].
  inversion Hidx as [|? ? He Hl]; subst.
  constructor; [now apply IH|].
  apply Forall_map. rewrite Forall_forall in *. intros b Hb.
  unfold indexValue. rewrite He, (Hl b Hb). apply (Hall b Hb).
Qed.

Lemma filter_map_fst {A : Type} (f : jsstring -> bool) (props : list (jsstring * A)) :
  map fst (filter (fun kv => f (fst kv)) props) = filter f (map fst props).
Proof.
  induction props as [|[k v] ps IH]; [reflexivity|].
  cbn [filter map fst]. destruct (f k); cbn [map fst]; now rewrite IH.
Qed.

(** The keys [JSON.stringify] visits: the array indices in ascending
    order, then the others as they were created. *)
Lemma ownProperties_keys {A : Type} (props : list (jsstring * A)) :
  exists idx,
    map fst (ownProperties props)
    = idx ++ filter (fun k => negb (isArrayIndex k)) (map fst props)
    /\ Permutation idx (filter isArrayIndex (map fst props))
    /\ StronglySorted (fun a b => indexValue a <= indexValue b) idx.
Proof.
  exists (map (fun e => fst (snd e)) (indexProps props)).
  split; [|split].
  - unfold ownProperties. rewrite map_app, map_map.
    f_equal. apply (filter_map_fst (fun k => negb (isArrayIndex k))).
  - rewrite <- (filter_map_fst isArrayIndex), <- map_map.
    apply Permutation_map, indexProps_perm.
  - apply sorted_by_value; [apply indexProps_sorted|apply indexProps_index].
Qed.

Lemma ownProperties_In {A : Type} (props : list (jsstring * A)) (kv : jsstring * A) :
  In kv (ownProperties props) -> In kv props.
Proof.
  unfold ownProperties. intro H. apply in_app_or in H. destruct H as [H|H].
  - apply (Permutation_in _ (indexProps_perm props)) in H.
    now apply filter_In in H.
  - now apply filter_In in H.
Qed.

(** Serializing the values first or ordering first is the same. *)
Lemma insertByIndex_map {A B : Type} (g : A -> B) (n : Z) (kv : jsstring * A)
    (l : list (Z * (jsstring * A))) :
  insertByIndex n (fst kv, g (snd kv))
    (map (fun e => (fst e, (fst (snd e), g (snd (snd e))))) l)
  = map (fun e => (fst e, (fst (snd e), g (snd (snd e))))) (insertByIndex n kv l).
Proof.
  induction l as [|[m kv'] l IH]; [reflexivity|].
  cbn [map insertByIndex fst snd]. destruct (n <? m); [reflexivity|].
  cbn [map fst snd]. now rewrite IH.
Qed.

Lemma ownProperties_map {A B : Type} (g : A -> B) (props : list (jsstring * A)) :
  ownProperties (map (fun kv => (fst kv, g (snd kv))) props)
  = map (fun kv => (fst kv, g (snd kv))) (ownProperties props).
Proof.
  unfold ownProperties. rewrite map_app. f_equal.
  - assert (E : indexProps (map (fun kv => (fst kv, g (snd kv))) props)
                = map (fun e => (fst e, (fst (snd e), g (snd (snd e)))))
                    (indexProps props)).
    { induction props as [|[k v] ps IH]; [reflexivity|].
      cbn [map indexProps fst snd]. destruct (arrayIndex k); [|exact IH].
      rewrite IH. apply (insertByIndex_map g z (k, v)). }
    rewrite E, !map_map. reflexivity.
  - induction props as [|[k v] ps IH]; [reflexivity|].
    cbn [map filter fst snd]. destruct (negb (isArrayIndex k)); cbn [map fst snd];
      now rewrite IH.
Qed.

(** *** Parsing the entries of a dict *)

Lemma store_plain (entries ps : list (jsstring * jsvalue)) :
  Forall (fun kv => fst kv <> __proto__) entries ->
  fold_left store entries (VObject ObjectPrototype ps)
  = VObject ObjectPrototype (fold_left assign entries ps).
Proof.
  revert ps; induction entries as [|[k v] es IH]; intros ps H; [reflexivity|].
  inversion H as [|? ? Hk Hes]; subst. cbn [fold_left].
  rewrite <- IH by exact Hes. f_equal.
  unfold store, assign, setProperty. cbn [fst snd] in *.
  destruct (hasOwn ps k); [reflexivity|].
  apply jsstring_eqb_neq in Hk. now rewrite Hk.
Qed.

Lemma keyText_parse (kt : Token) (k : jsstring) (X : list Token) :
  keyText kt = Some k ->
  Parser.parseDictKey (kt :: X) = OK (k, X)
  /\ TokenType_eqb (type kt) RBRACE = false.
Proof.
  unfold keyText, Parser.parseDictKey. cbn [Parser.current bind].
  destruct (type kt); try discriminate; intros [= <-]; now split.
Qed.

Lemma dictLoop_entries (body : list Token) (entries : list (jsstring * jsvalue)) :
  DictBody body entries ->
  exists F, forall f g obj c R,
      (F <= f)%nat -> (F <= g)%nat -> type c = RBRACE ->
      Parser.parseDictLoop (Parser.parseValue f) g obj (body ++ c :: R)
      = OK (fold_left store entries obj, c :: R).
Proof.
  induction 1 as [kt colon vts k v Hk Hcol [f0 Hv]
                 |kt colon comma vts more k v entries Hk Hcol [f0 Hv] Hcomma Hmore [F' IH]].
  - exists (S f0). intros f g obj c R Hf Hg Hc.
    destruct g as [|g]; [lia|].
    destruct (keyText_parse kt k (colon :: vts ++ c :: R) Hk) as [Ek Eb].
    cbn [app Parser.parseDictLoop]. rewrite ParserFacts.peek_cons. cbn [bind].
    rewrite Eb, Ek. cbn [bind]. rewrite <- Hcol, ParserFacts.expect_cons. cbn [bind].
    rewrite (ParserFacts.parseValue_mono f0 f ltac:(lia) _ _ (Hv (c :: R)))
      by discriminate.
    cbn [bind]. rewrite ParserFacts.peek_cons, Hc. reflexivity.
  - exists (S (Nat.max f0 F')). intros f g obj c R Hf Hg Hc.
    destruct g as [|g]; [lia|].
    destruct (keyText_parse kt k (colon :: (vts ++ comma :: more) ++ c :: R) Hk)
      as [Ek Eb].
    cbn [app Parser.parseDictLoop]. rewrite ParserFacts.peek_cons. cbn [bind].
    rewrite Eb, Ek. cbn [bind]. rewrite <- Hcol, ParserFacts.expect_cons. cbn [bind].
    rewrite <- app_assoc. cbn [app].
    rewrite (ParserFacts.parseValue_mono f0 f ltac:(lia) _ _
               (Hv (comma :: more ++ c :: R))) by discriminate.
    cbn [bind]. rewrite ParserFacts.peek_cons, Hcomma. cbn [bind TokenType_eqb].
    cbn [Parser.next tl fold_left]. apply IH; [lia|lia|exact Hc].
Qed.

Lemma DictBody_head (body : list Token) (entries : list (jsstring * jsvalue)) :
  DictBody body entries ->
  exists kt b, body = kt :: b /\ TokenType_eqb (type kt) RBRACE = false.
Proof.
  destruct 1 as [kt colon vts k v Hk _ _|kt colon comma vts more k v entries Hk _ _ _ _];
    exists kt; eexists; (split; [reflexivity|]);
    apply (keyText_parse kt k [] Hk).
Qed.

(** A dict literal with the given entries parses to the object they
    build. *)
Lemma parse_dict (o c : Token) (body : list Token)
    (entries : list (jsstring * jsvalue)) :
  type o = LBRACE -> type c = RBRACE ->
  DictBody body entries ->
  exists f, forall R,
      Parser.parseValue f (o :: body ++ c :: R)
      = OK (fold_left store entries emptyObject, R).
Proof.
  intros Ho Hc Hb. destruct (dictLoop_entries body entries Hb) as [F HF].
  destruct (DictBody_head body entries Hb) as (kt & b & -> & Ekt).
  exists (S F). intro R.
  apply (ParserFacts.container_build DictKind); try assumption.
  cbn [loopOf]. apply HF; [lia|lia|exact Hc].
Qed.

End ObjectFacts.

(** C2, as the code has it.  For a dict literal whose [key : value]
    pairs are [entries] in source order, none of them with the key
    [__proto__], the parser builds a plain object, and the JSON text of that
    object lists its members in this order: first the keys that are array
    indices (canonical decimal numerals below [2^32 - 1]) in ascending
    numeric order, then every other key in the order of its first occurrence
    in the source.  A key that occurs again keeps its place and takes the
    value of its last occurrence. *)
Theorem dict_key_order
    (o c : Token) (body : list Token) (entries : list (jsstring * jsvalue)) :
  type o = LBRACE -> type c = RBRACE ->
  DictBody body entries ->
  Forall (fun kv => fst kv <> __proto__) entries ->
  exists props,
    (exists f, forall R,
        Parser.parseValue f (o :: body ++ c :: R)
        = OK (VObject ObjectPrototype props, R))
    /\ (forall eof, type eof = EOF ->
         Parser.parse (o :: body ++ [c; eof]) = OK (VObject ObjectPrototype props))
    /\ (forall gap ind,
         serialize gap ind (VObject ObjectPrototype props)
         = wrap (str "{") (str "}") gap ind (ind ++ gap)
             (map (fun kv =>
                     QuoteJSONString (fst kv) ++ str ":"
                       ++ (match gap with [] => [] | _ => str " " end)
                       ++ serialize gap (ind ++ gap) (snd kv))
                  (ownProperties props)))
    /\ (exists idx,
          map fst (ownProperties props)
          = idx ++ filter (fun k => negb (isArrayIndex k))
                     (firstOccurrences (map fst entries))
          /\ Permutation idx
               (filter isArrayIndex (firstOccurrences (map fst entries)))
          /\ StronglySorted (fun a b => indexValue a <= indexValue b) idx)
    /\ (forall k v, In (k, v) (ownProperties props) -> lookupLast entries k = Some v).
Proof.
  intros Ho Hc Hb Hplain.
  exists (fold_left assign entries []).
  destruct (ObjectFacts.parse_dict o c body entries Ho Hc Hb) as [f Hf].
  unfold emptyObject in Hf. rewrite (ObjectFacts.store_plain _ _ Hplain) in Hf.
  assert (Hkeys : map fst (fold_left assign entries [])
                  = firstOccurrences (map fst entries)).
  { rewrite (ObjectFacts.build_keys entries []). cbn [map app].
    unfold isFresh. cbn [hasOwn negb].
    induction (firstOccurrences (map fst entries)) as [|x l IH]; [reflexivity|].
    cbn [filter]. now rewrite IH. }
  split; [now exists f|]. split; [|split; [|split]].
  - intros eof He. unfold Parser.parse.
    rewrite (ParserFacts.parseValue_enough f _ _ (Hf [eof])).
    cbn [bind Parser.current]. now rewrite He.
  - intros gap ind. cbn [serialize].
    rewrite (ObjectFacts.ownProperties_map (serialize gap (ind ++ gap))).
    rewrite map_map. reflexivity.
  - rewrite <- Hkeys. apply ObjectFacts.ownProperties_keys.
  - intros k v Hin. apply ObjectFacts.ownProperties_In in Hin.
    destruct (ObjectFacts.build_values entries [] k v ltac:(constructor) Hin)
      as [H|[_ []]]. exact H.
Qed.

Lemma dict_key_order_witness :
  exists props,
    Parser.parse
      [mkToken LBRACE (str "{") 0;
       mkToken STRING (str "b") 1; mkToken COLON (str ":") 4; mkToken NUMBER (str "1") 6;
       mkToken COMMA (str ",") 7;
       mkToken NUMBER (str "2") 9; mkToken COLON (str ":") 10; mkToken NUMBER (str "2") 12;
       mkToken COMMA (str ",") 13;
       mkToken STRING (str "b") 15; mkToken COLON (str ":") 18; mkToken NUMBER (str "3") 20;
       mkToken RBRACE (str "}") 21; mkToken EOF [] 22]
    = OK (VObject ObjectPrototype props)
    /\ map fst (ownProperties props) = [str "2"; str "b"].
Proof.
  assert (Hnum : forall text n p,
             Number_ofString text = JFin false n 0 ->
             IsValue [mkToken NUMBER text p] (VNumber (JFin false n 0))).
  { intros text n p E. exists 1%nat. intro X.
    cbn [app Parser.parseValue Parser.current bind type].
    unfold Parser.parseNumber, Parser.expect. cbn [Parser.current bind type TokenType_eqb negb value].
    rewrite E. reflexivity. }
  destruct (dict_key_order
              (mkToken LBRACE (str "{") 0) (mkToken RBRACE (str "}") 21)
              [mkToken STRING (str "b") 1; mkToken COLON (str ":") 4;
               mkToken NUMBER (str "1") 6; mkToken COMMA (str ",") 7;
               mkToken NUMBER (str "2") 9; mkToken COLON (str ":") 10;
               mkToken NUMBER (str "2") 12; mkToken COMMA (str ",") 13;
               mkToken STRING (str "b") 15; mkToken COLON (str ":") 18;
               mkToken NUMBER (str "3") 20]
              [(str "b", VNumber (JFin false 1 0)); (str "2", VNumber (JFin false 1 1));
               (str "b", VNumber (JFin false 3 0))]
              eq_refl eq_refl)
    as (props & _ & Hparse & _ & _ & _).
  - apply (DB_more (mkToken STRING (str "b") 1) (mkToken COLON (str ":") 4)
             (mkToken COMMA (str ",") 7) [mkToken NUMBER (str "1") 6]);
      [reflexivity|reflexivity|now apply Hnum|reflexivity|].
    apply (DB_more (mkToken NUMBER (str "2") 9) (mkToken COLON (str ":") 10)
             (mkToken COMMA (str ",") 13) [mkToken NUMBER (str "2") 12]);
      [reflexivity|reflexivity| |reflexivity|].
    { exists 1%nat. intro X. reflexivity. }
    apply (DB_last (mkToken STRING (str "b") 15) (mkToken COLON (str ":") 18)
             [mkToken NUMBER (str "3") 20]);
      [reflexivity|reflexivity|now apply Hnum].
  - repeat constructor; discriminate.
  - specialize (Hparse (mkToken EOF [] 22) eq_refl).
    exists props. split; [exact Hparse|].
    vm_compute in Hparse. injection Hparse as <-. reflexivity.
Defined.

(** A key that is an array index moves in front of the keys written
    before it. *)
Lemma dict_key_order_counterexample :
  pythonDictToJson (str "{'b': 1, '2': 2}") 4
  = OK (str "{" ++ [10%N] ++ str "    " ++ [34%N] ++ str "2" ++ [34%N] ++ str ": 2,"
          ++ [10%N] ++ str "    " ++ [34%N] ++ str "b" ++ [34%N] ++ str ": 1"
          ++ [10%N] ++ str "}").
Proof. vm_compute. reflexivity. Qed.

(** Where the code stands on the key the statement above leaves out: a
    [__proto__] entry sets the prototype of the object, or is dropped, and
    only becomes a member once the prototype is [null]. *)
Example dict_proto_key :
  pythonDictToJson (str "{'__proto__': {'a': 1}, 'b': 2}") 0
  = OK (str "{" ++ [34%N] ++ str "b" ++ [34%N] ++ str ":2}")
  /\ pythonDictToJson (str "{'__proto__': 1}") 0 = OK (str "{}")
  /\ pythonDictToJson (str "{'__proto__': None, '__proto__': 1}") 0
     = OK (str "{" ++ [34%N] ++ str "__proto__" ++ [34%N] ++ str ":1}").
Proof. repeat split; vm_compute; reflexivity. Qed.

(** ** Numbers that JSON cannot write *)

(** C1 at a failing input.  The literal [1e999] is accepted: it parses
    to the Number positive infinity, which [JSON.stringify] writes as
    [null], the very text written for [None]; so the emitted text does not
    decode to the value that was parsed.  The same holds inside a
    container. *)
Theorem nonfinite_number_output :
  parsedValue (str "1e999") = OK (VNumber (JInf false))
  /\ pythonDictToJson (str "1e999") 4 = OK (str "null")
  /\ parsedValue (str "None") = OK VNull
  /\ pythonDictToJson (str "None") 4 = OK (str "null")
  /\ parsedValue (str "[1e999]") = OK (VArray [VNumber (JInf false)])
  /\ pythonDictToJson (str "[1e999]") 0 = pythonDictToJson (str "[None]") 0.
Proof. repeat split; vm_compute; reflexivity. Qed.

(** * Further properties *)


Module CursorFacts.
Import Lexer.

Lemma movedBy_refl (lx : t) : movedBy 0 lx lx.
Proof. unfold movedBy. simpl. repeat split; lia. Qed.

Lemma movedBy_trans (j k : nat) (a b c : t) :
  movedBy j a b -> movedBy k b c -> movedBy (j + k) a c.
Proof.
  intros (R1 & P1 & L1) (R2 & P2 & L2). unfold movedBy.
  rewrite R2, R1, skipn_skipn, P2, P1.
  rewrite R1, length_skipn in L2.
  repeat split; [f_equal; lia | lia | lia].
Qed.

Lemma movedBy_advance (lx : t) : rest lx <> [] -> movedBy 1 lx (advance lx).
Proof.
  intro H. unfold movedBy, advance. destruct (rest lx); [contradiction|].
  simpl. repeat split; lia.
Qed.

Lemma movedBy_cons (c : char) (r : jsstring) (p : nat) :
  movedBy 1 (mk (c :: r) p) (mk r (S p)).
Proof. unfold movedBy. simpl. repeat split; lia. Qed.

Lemma ahead_refl (lx : t) : ahead lx lx.
Proof. exists 0%nat. apply movedBy_refl. Qed.

Lemma ahead_trans (a b c : t) : ahead a b -> ahead b c -> ahead a c.
Proof. intros [j H1] [k H2]. exists (j + k)%nat. eapply movedBy_trans; eassumption. Qed.

Lemma ahead_advance (lx : t) : rest lx <> [] -> ahead lx (advance lx).
Proof. intro H. exists 1%nat. now apply movedBy_advance. Qed.

Lemma ahead_cons (c : char) (r : jsstring) (p : nat) : ahead (mk (c :: r) p) (mk r (S p)).
Proof. exists 1%nat. apply movedBy_cons. Qed.

Lemma ahead_pos (a b : t) : ahead a b -> (pos a <= pos b)%nat.
Proof. intros (k & _ & P & _). lia. Qed.

Lemma skipLine_ahead (r : jsstring) (p : nat) : ahead (mk r p) (skipLine r p).
Proof.
  revert p; induction r as [|c r IH]; intro p; simpl; [apply ahead_refl|].
  destruct (N.eqb c 10); [apply ahead_refl|].
  eapply ahead_trans; [apply ahead_cons | apply IH].
Qed.

Lemma skipWhitespaceAndComments_ahead (fuel : nat) (lx lx' : t) :
  skipWhitespaceAndComments fuel lx = OK lx' -> ahead lx lx'.
Proof.
  revert lx; induction fuel as [|f IH]; intros lx; [discriminate|].
  cbn [skipWhitespaceAndComments]. unfold peek.
  destruct lx as [[|c r] p]; cbn [rest hd_error pos].
  - intros [= <-]. apply ahead_refl.
  - destruct (_ || _ || _ || _)%bool.
    + intro E. eapply ahead_trans; [apply ahead_cons | apply IH, E].
    + destruct (N.eqb c (ch "#")).
      * intro E. eapply ahead_trans; [apply skipLine_ahead | apply IH, E].
      * intros [= <-]. apply ahead_refl.
Qed.

Lemma ahead_skipn (k : nat) (r : jsstring) (p : nat) :
  (k <= List.length r)%nat -> ahead (mk r p) (mk (skipn k r) (k + p)).
Proof. intro H. exists k. unfold movedBy. simpl. repeat split; lia. Qed.

Lemma readEscapeSequence_ahead (lx lx' : t) (s : jsstring) :
  readEscapeSequence lx = OK (s, lx') -> ahead lx lx'.
Proof.
  destruct lx as [r p]. unfold readEscapeSequence, peek, advance; simpl.
  destruct r as [|b r]; simpl; [discriminate|].
  destruct r as [|c r]; simpl; [discriminate|].
  assert (H2 : ahead (mk (b :: c :: r) p) (mk r (S (S p)))).
  { eapply ahead_trans; apply ahead_cons. }
  repeat match goal with
         | |- context [if ?b then _ else _] => destruct b
         end; try (intros [= _ <-]; exact H2).
  - destruct r as [|h1 [|h2 [|h3 [|h4 r]]]]; try discriminate.
    intros [= _ <-]. eapply ahead_trans; [exact H2|].
    apply (ahead_skipn 4 (h1 :: h2 :: h3 :: h4 :: r)). simpl; lia.
  - destruct r as [|h1 [|h2 r]]; try discriminate.
    intros [= _ <-]. eapply ahead_trans; [exact H2|].
    apply (ahead_skipn 2 (h1 :: h2 :: r)). simpl; lia.
Qed.

Lemma readSingle_ahead (fuel : nat) (quote : char) (sp : nat) (lx lx' : t)
    (acc s : jsstring) :
  readSingle fuel quote sp lx acc = OK (s, lx') -> ahead lx lx'.
Proof.
  revert lx acc; induction fuel as [|f IH]; intros lx acc; [discriminate|].
  cbn [readSingle]. destruct (rest lx) as [|c r] eqn:Er; [discriminate|].
  assert (Hne : rest lx <> []) by (rewrite Er; discriminate).
  destruct (N.eqb c quote).
  - intros [= _ <-]. now apply ahead_advance.
  - destruct (N.eqb c (ch "\")).
    + destruct (readEscapeSequence lx) as [[e lx1]|e] eqn:Ee; cbn [bind]; [|discriminate].
      intro E. eapply ahead_trans; [eapply readEscapeSequence_ahead, Ee | eapply IH, E].
    + intro E. eapply ahead_trans; [now apply ahead_advance | eapply IH, E].
Qed.

Lemma readTriple_ahead (fuel : nat) (quote : char) (sp : nat) (lx lx' : t)
    (acc s : jsstring) :
  readTriple fuel quote sp lx acc = OK (s, lx') -> ahead lx lx'.
Proof.
  revert lx acc; induction fuel as [|f IH]; intros lx acc; [discriminate|].
  cbn [readTriple]. destruct (rest lx) as [|c r] eqn:Er; [discriminate|].
  assert (Hne : rest lx <> []) by (rewrite Er; discriminate).
  destruct (_ && _ && _ && _)%bool eqn:Ec.
  - intros [= _ <-].
    apply andb_true_iff in Ec as [Ec _]. apply andb_true_iff in Ec as [Ec _].
    apply andb_true_iff in Ec as [_ Ec]. apply Nat.ltb_lt in Ec.
    destruct lx as [r0 p0]. simpl in *. subst r0.
    replace (p0 + 3)%nat with (3 + p0)%nat by lia.
    apply (ahead_skipn 3 (c :: r)). simpl. lia.
  - destruct (N.eqb c (ch "\")).
    + destruct (readEscapeSequence lx) as [[e lx1]|e] eqn:Ee; cbn [bind]; [|discriminate].
      intro E. eapply ahead_trans; [eapply readEscapeSequence_ahead, Ee | eapply IH, E].
    + intro E. eapply ahead_trans; [now apply ahead_advance | eapply IH, E].
Qed.

Lemma readString_ahead (quote : char) (lx lx' : t) (s : jsstring) :
  readString quote lx = OK (s, lx') -> ahead lx lx'.
Proof.
  unfold readString. destruct (_ && _ && _)%bool eqn:Ec.
  - intro E. apply readTriple_ahead in E.
    apply andb_true_iff in Ec as [Ec _]. apply andb_true_iff in Ec as [Ec _].
    apply Nat.ltb_lt in Ec.
    eapply ahead_trans; [|exact E].
    destruct lx as [[|a [|b r]] p]; simpl in Ec; try lia.
    eapply ahead_trans; apply ahead_cons.
  - apply readSingle_ahead.
Qed.

Lemma digitLoop_ahead (cls : char -> bool) (r : jsstring) (p : nat) (acc : jsstring) :
  ahead (mk r p) (snd (digitLoop cls r p acc)).
Proof.
  revert p acc; induction r as [|c r IH]; intros p acc; simpl; [apply ahead_refl|].
  destruct (cls c); simpl; [|apply ahead_refl].
  eapply ahead_trans; [apply ahead_cons | apply IH].
Qed.

Lemma identLoop_ahead (r : jsstring) (p : nat) (acc : jsstring) :
  ahead (mk r p) (snd (identLoop r p acc)).
Proof.
  revert p acc; induction r as [|c r IH]; intros p acc; simpl; [apply ahead_refl|].
  destruct (isIdent c); simpl; [|apply ahead_refl].
  eapply ahead_trans; [apply ahead_cons | apply IH].
Qed.

Lemma digits_ahead (cls : char -> bool) (lx : t) (acc : jsstring) :
  ahead lx (snd (digits cls lx acc)).
Proof. destruct lx as [r p]. apply digitLoop_ahead. Qed.

Lemma ahead_advance_some (lx : t) (a : ascii) :
  isChar (peek lx) a = true -> ahead lx (advance lx).
Proof.
  intro H. apply ahead_advance. unfold peek in H.
  destruct (rest lx); [discriminate H | discriminate].
Qed.

(** One step through the body of [readNumber]: the test or the digit loop
    at its head is decided, and what it consumed is recorded. *)
Ltac head_of e :=
  lazymatch e with
  | digits _ _ _ => e
  | match ?e' with _ => _ end => head_of e'
  | _ => e
  end.

Ltac number_step :=
  cbv beta iota zeta; cbn [andb orb fst snd];
  lazymatch goal with
  | |- match ?e with _ => _ end = _ -> _ =>
      let h := head_of e in
      lazymatch h with
      | digits ?cls ?lx ?acc =>
          let H := fresh "Hd" in
          pose proof (digits_ahead cls lx acc) as H;
          destruct (digits cls lx acc) as [? ?]; cbn [snd] in H
      | _ => destruct h eqn:?
      end
  end.

Ltac ahead_chain :=
  repeat match goal with
         | H : (_ || _)%bool = true |- _ => apply orb_true_iff in H as [H|H]
         | H : (_ && _)%bool = true |- _ => apply andb_true_iff in H as [H ?]
         end;
  repeat match goal with
         | H : isChar (peek ?lx) _ = true |- _ => apply ahead_advance_some in H
         end;
  repeat match goal with
         | |- ahead ?a ?a => apply ahead_refl
         | H : ahead ?a ?b |- ahead ?a ?c =>
             first [ exact H | refine (ahead_trans a b c H _); clear H ]
         end.

Lemma readNumber_ahead (lx lx' : t) (s : jsstring) :
  readNumber lx = OK (s, lx') -> ahead lx lx'.
Proof.
  unfold readNumber.
  repeat number_step; try discriminate; intros [= _ <-]; ahead_chain.
Qed.

Lemma ahead_left (a b : t) : ahead a b -> (pos b + left b = pos a + left a)%nat.
Proof.
  intros (k & R & P & L). unfold left. rewrite R, P, length_skipn. lia.
Qed.

End CursorFacts.

(** ** Tokens against the input *)

Module PositionFacts.
Import CursorFacts.

Lemma scanToken_ahead (c : char) (r : jsstring) (p : nat) (lx' : Lexer.t) (tok : Token) :
  Lexer.scanToken c (Lexer.mk (c :: r) p) = OK (tok, lx') ->
  ahead (Lexer.mk (c :: r) p) lx' /\ (p < Lexer.pos lx')%nat /\ pos tok = p.
Proof.
  intro H.
  assert (Hlt : (Lexer.left lx' < S (List.length r))%nat).
  { pose proof (LexerFacts.scanToken_progress c r p) as Hp. now rewrite H in Hp. }
  assert (Ha : ahead (Lexer.mk (c :: r) p) lx' /\ pos tok = p).
  { revert H. unfold Lexer.scanToken. destruct (Lexer.punctuation c) as [ty|].
    - intros [= <- <-]. split; [apply ahead_cons | reflexivity].
    - destruct (_ || _)%bool.
      + destruct (Lexer.readString c _) as [[s lx1]|e] eqn:Es; cbn [bind]; [|discriminate].
        intros [= <- <-]. split; [|reflexivity].
        eapply ahead_trans; [apply ahead_cons | eapply readString_ahead, Es].
      + destruct (_ || _)%bool.
        * destruct (N.eqb c (ch "-")).
          -- destruct (_ && _)%bool; [|discriminate].
             destruct (Lexer.readNumber _) as [[s lx1]|e] eqn:En; cbn [bind]; [|discriminate].
             intros [= <- <-]. split; [eapply readNumber_ahead, En | reflexivity].
          -- destruct (Lexer.readNumber _) as [[s lx1]|e] eqn:En; cbn [bind]; [|discriminate].
             intros [= <- <-]. split; [eapply readNumber_ahead, En | reflexivity].
        * destruct (Lexer.isAlpha_ c); [|discriminate].
          unfold Lexer.readIdentifier. cbn [Lexer.rest Lexer.pos].
          pose proof (identLoop_ahead (c :: r) p []) as Hi.
          destruct (Lexer.identLoop (c :: r) p []) as [ident lx1]. cbn [snd] in Hi.
          intros [= <- <-]. split; [exact Hi|].
          unfold Lexer.identToken.
          repeat match goal with |- context [if ?b then _ else _] => destruct b end;
            reflexivity. }
  destruct Ha as [Ha Hp]. split; [exact Ha|]. split; [|exact Hp].
  apply ahead_left in Ha. unfold Lexer.left in Ha at 2.
  cbn [Lexer.rest Lexer.pos List.length] in Ha. lia.
Qed.

Lemma within_init (input : jsstring) : within input (Lexer.init input).
Proof. unfold within, Lexer.init. simpl. split; [reflexivity|lia]. Qed.

Lemma within_ahead (input : jsstring) (a b : Lexer.t) :
  within input a -> ahead a b -> within input b.
Proof.
  intros [R L] (k & R' & P & K). unfold within.
  rewrite R', R, skipn_skipn, P. rewrite R, length_skipn in K.
  split; [f_equal; lia | lia].
Qed.

Lemma within_cursorAt (input : jsstring) (lx : Lexer.t) :
  within input lx -> lx = cursorAt input (Lexer.pos lx).
Proof. intros [R _]. destruct lx as [r p]. simpl in *. unfold cursorAt. now subst r. Qed.

Lemma within_end (input : jsstring) (lx : Lexer.t) :
  within input lx -> Lexer.rest lx = [] -> Lexer.pos lx = List.length input.
Proof.
  intros [R L] E. rewrite R in E.
  apply (f_equal (@List.length _)) in E. rewrite length_skipn in E. simpl in E. lia.
Qed.

Lemma within_head (input : jsstring) (c : char) (r : jsstring) (p : nat) :
  within input (Lexer.mk (c :: r) p) ->
  nth_error input p = Some c /\ (p < List.length input)%nat.
Proof.
  intros [R L]. simpl in *.
  assert (Hn : nth_error (skipn p input) 0 = Some c) by now rewrite <- R.
  rewrite nth_error_skipn, Nat.add_0_r in Hn. split; [exact Hn|].
  apply nth_error_Some. congruence.
Qed.

(** What [tokenize] returns, against the input: the tokens were read one
    after the other at increasing offsets, and the end-of-input token sits
    at the length of the input. *)
Lemma tokenizeLoop_scanned (input : jsstring) (fuel : nat) (lx : Lexer.t)
    (tokens toks : list Token) :
  within input lx ->
  Lexer.tokenizeLoop fuel lx tokens = OK toks ->
  exists body,
    toks = tokens ++ body ++ [mkToken EOF [] (List.length input)]
    /\ Forall (scannedAt input) body
    /\ Forall (fun tok => (Lexer.pos lx <= pos tok < List.length input)%nat) body
    /\ StronglySorted lt (map pos body).
Proof.
  revert lx tokens; induction fuel as [|f IH]; intros lx tokens Hw; [discriminate|].
  destruct (LexerFacts.tokenizeLoop_step f lx tokens) as (lx1 & Hs & _ & H).
  assert (Hw1 : within input lx1).
  { eapply within_ahead; [exact Hw|]. eapply skipWhitespaceAndComments_ahead, Hs. }
  assert (Hp1 : (Lexer.pos lx <= Lexer.pos lx1)%nat).
  { eapply ahead_pos, skipWhitespaceAndComments_ahead, Hs. }
  unfold Lexer.peek in H. destruct lx1 as [[|c r] p]; cbn [Lexer.rest hd_error] in H.
  - rewrite H. intros [= <-]. exists []. cbn [app].
    pose proof (within_end input _ Hw1 eq_refl) as Hp. cbn [Lexer.pos] in Hp.
    cbn [Lexer.pos]. rewrite Hp. repeat split; constructor.
  - destruct (Lexer.scanToken c (Lexer.mk (c :: r) p)) as [[tok lx2]|e] eqn:Es.
    + destruct H as [_ ->]. intro E.
      destruct (scanToken_ahead _ _ _ _ _ Es) as (Ha & Hlt & Hpos).
      assert (Hw2 : within input lx2) by (eapply within_ahead; eassumption).
      destruct (IH _ _ Hw2 E) as (body & -> & Hsc & Hin & Hso).
      destruct (within_head _ _ _ _ Hw1) as [Hnth Hlen].
      exists (tok :: body). rewrite <- app_assoc. split; [reflexivity|].
      cbn [Lexer.pos] in Hp1.
      split; [|split].
      * constructor; [|exact Hsc].
        exists c, lx2. rewrite Hpos.
        change p with (Lexer.pos (Lexer.mk (c :: r) p)) at 2.
        rewrite <- (within_cursorAt input _ Hw1).
        repeat split; assumption.
      * constructor; [rewrite Hpos; lia|].
        eapply Forall_impl; [|exact Hin]. cbv beta. intros a Ha'. lia.
      * cbn [map]. constructor; [exact Hso|].
        apply Forall_map. eapply Forall_impl; [|exact Hin]. cbv beta. intros a Ha'. lia.
    + destruct H as [_ ->]. discriminate.
Qed.

(** An error of [tokenize] is the error of one [scanToken], at a cursor
    into the input that stands on a code unit. *)
Lemma tokenizeLoop_failed (input : jsstring) (fuel : nat) (lx : Lexer.t)
    (tokens : list Token) (e : Error) :
  within input lx ->
  Lexer.tokenizeLoop fuel lx tokens = Err e ->
  e = OutOfFuel
  \/ exists c p,
       nth_error input p = Some c
       /\ Lexer.scanToken c (cursorAt input p) = Err e.
Proof.
  revert lx tokens; induction fuel as [|f IH]; intros lx tokens Hw.
  { intros [= <-]. now left. }
  destruct (LexerFacts.tokenizeLoop_step f lx tokens) as (lx1 & Hs & _ & H).
  assert (Hw1 : within input lx1).
  { eapply within_ahead; [exact Hw|]. eapply skipWhitespaceAndComments_ahead, Hs. }
  unfold Lexer.peek in H. destruct lx1 as [[|c r] p]; cbn [Lexer.rest hd_error] in H.
  - rewrite H. discriminate.
  - destruct (Lexer.scanToken c (Lexer.mk (c :: r) p)) as [[tok lx2]|e'] eqn:Es.
    + destruct H as [_ ->]. intro E.
      destruct (scanToken_ahead _ _ _ _ _ Es) as (Ha & _ & _).
      eapply IH; [|exact E]. eapply within_ahead; eassumption.
    + destruct H as [_ ->]. intros [= <-]. right.
      destruct (within_head _ _ _ _ Hw1) as [Hnth _].
      exists c, p. split; [exact Hnth|].
      change p with (Lexer.pos (Lexer.mk (c :: r) p)) at 1.
      now rewrite <- (within_cursorAt input _ Hw1).
Qed.

End PositionFacts.

(** ** The errors of the parser *)

Module BlameFacts.
Import Parser.

Lemma endsEOF_next (tok : Token) (p : t) :
  endsEOF (tok :: p) -> type tok <> EOF -> endsEOF p.
Proof.
  intros (l & eof & E & He) Hn. destruct l as [|x l]; cbn [app] in E.
  - injection E as -> _. contradiction.
  - injection E as _ ->. now exists l, eof.
Qed.

Lemma endsEOF_cons (p : t) : endsEOF p -> exists tok p', p = tok :: p'.
Proof.
  intros (l & eof & -> & _). destruct l as [|x l]; cbn [app]; eauto.
Qed.

Lemma TokenType_eqb_neq (a b : TokenType) : TokenType_eqb a b = false -> a <> b.
Proof. intros H E. subst. now rewrite TokenType_eqb_refl in H. Qed.

Lemma expect_safe (ty : TokenType) (p : t) :
  ty <> EOF -> endsEOF p ->
  match expect ty p with
  | OK (tok, p') => p = tok :: p' /\ endsEOF p'
  | Err e => exists tok, In tok p /\ blames e tok
  end.
Proof.
  intros Hty He. destruct (endsEOF_cons p He) as (tok & p' & ->).
  unfold expect. cbn [current bind].
  destruct (TokenType_eqb (type tok) ty) eqn:E; cbn [negb].
  - split; [reflexivity|]. apply TokenType_eqb_eq in E.
    apply (endsEOF_next tok); [exact He | congruence].
  - exists tok. split; [now left|]. cbn [blames].
    apply TokenType_eqb_neq in E. repeat split; congruence.
Qed.

Lemma parseDictKey_safe (p : t) :
  endsEOF p ->
  match parseDictKey p with
  | OK (_, p') => exists tok, p = tok :: p' /\ endsEOF p'
  | Err e => exists tok, In tok p /\ blames e tok
  end.
Proof.
  intros He. destruct (endsEOF_cons p He) as (tok & p' & ->).
  unfold parseDictKey. cbn [current bind].
  destruct (type tok) eqn:E;
    try (exists tok; split; [now left | cbn [blames]; now rewrite E]);
    (exists tok; split; [reflexivity|]; apply (endsEOF_next tok); [exact He | congruence]).
Qed.

Lemma peek_safe (p : t) : endsEOF p -> exists tok p', p = tok :: p' /\ peek p = OK (type tok).
Proof.
  intro He. destruct (endsEOF_cons p He) as (tok & p' & ->). now exists tok, p'.
Qed.

Section Loops.

Variable pv : t -> result (jsvalue * t).
Hypothesis pv_safe : safe pv.

Lemma seqLoop_safe (close : TokenType) (f : nat) :
  forall acc, safe (seqLoop pv close f acc).
Proof using pv_safe.
  induction f as [|f IH]; intros acc p He; [left; reflexivity|].
  cbn [seqLoop].
  destruct (peek_safe p He) as (tok & p0 & -> & ->). cbn [bind].
  destruct (TokenType_eqb (type tok) close); [split; [exact He | auto]|].
  pose proof (pv_safe _ He) as Hv.
  destruct (pv (tok :: p0)) as [[v p1]|e]; cbn [bind]; [|exact Hv].
  destruct Hv as [He1 Hin1].
  destruct (peek_safe p1 He1) as (tok1 & p2 & -> & ->). cbn [bind].
  destruct (TokenType_eqb (type tok1) COMMA) eqn:Ec; [|split; [exact He1 | exact Hin1]].
  cbn [next tl].
  assert (He2 : endsEOF p2).
  { apply (endsEOF_next tok1); [exact He1|]. apply TokenType_eqb_eq in Ec. congruence. }
  pose proof (IH (acc ++ [v]) p2 He2) as Hl.
  destruct (seqLoop pv close f (acc ++ [v]) p2) as [[vs p3]|e].
  - destruct Hl as [He3 Hin3]. split; [exact He3|].
    intros x Hx. apply Hin1. right. now apply Hin3.
  - destruct Hl as [->|(x & Hx & Hb)]; [now left|].
    right. exists x. split; [|exact Hb]. apply Hin1. now right.
Qed.

Lemma parseDictLoop_safe (f : nat) :
  forall obj, safe (parseDictLoop pv f obj).
Proof using pv_safe.
  induction f as [|f IH]; intros obj p He; [left; reflexivity|].
  cbn [parseDictLoop].
  destruct (peek_safe p He) as (tok & p0 & -> & ->). cbn [bind].
  destruct (TokenType_eqb (type tok) RBRACE); [split; [exact He | auto]|].
  pose proof (parseDictKey_safe _ He) as Hk.
  destruct (parseDictKey (tok :: p0)) as [[key pk]|e]; cbn [bind]; [|right; exact Hk].
  destruct Hk as (tok' & Hk & Hek). injection Hk as <- <-.
  pose proof (expect_safe COLON p0 ltac:(discriminate) Hek) as Hc.
  destruct (expect COLON p0) as [[colon pc]|e]; cbn [bind].
  2:{ right. destruct Hc as (x & Hx & Hb). exists x. split; [now right|exact Hb]. }
  destruct Hc as [-> Hec].
  pose proof (pv_safe _ Hec) as Hv.
  destruct (pv pc) as [[v p1]|e]; cbn [bind].
  2:{ destruct Hv as [->|(x & Hx & Hb)]; [now left|].
      right. exists x. split; [now right; right|exact Hb]. }
  destruct Hv as [He1 Hin1].
  destruct (peek_safe p1 He1) as (tok1 & p2 & -> & ->). cbn [bind].
  destruct (TokenType_eqb (type tok1) COMMA) eqn:Ec.
  2:{ split; [exact He1|]. intros x Hx. right; right. now apply Hin1. }
  cbn [next tl].
  assert (He2 : endsEOF p2).
  { apply (endsEOF_next tok1); [exact He1|]. apply TokenType_eqb_eq in Ec. congruence. }
  pose proof (IH (setProperty obj key v) p2 He2) as Hl.
  destruct (parseDictLoop pv f (setProperty obj key v) p2) as [[o p3]|e].
  - destruct Hl as [He3 Hin3]. split; [exact He3|].
    intros x Hx. right; right. apply Hin1. right. now apply Hin3.
  - destruct Hl as [->|(x & Hx & Hb)]; [now left|].
    right. exists x. split; [|exact Hb]. right; right. apply Hin1. now right.
Qed.

(** The frame of the three container rules. *)
Lemma container_safe {A : Type} (open close : TokenType)
    (loop : t -> result (A * t)) (finish : A -> jsvalue) (empty : jsvalue) :
  open <> EOF -> close <> EOF -> safe loop ->
  safe (container open close loop finish empty).
Proof using.
  intros Ho Hc Hl p He. unfold container.
  pose proof (expect_safe open p Ho He) as H1.
  destruct (expect open p) as [[o p0]|e]; cbn [bind]; [|right; exact H1].
  destruct H1 as [-> He0].
  destruct (peek_safe p0 He0) as (tok & p1 & -> & ->). cbn [bind].
  destruct (TokenType_eqb (type tok) close) eqn:Ec.
  - cbn [next tl]. split.
    + apply (endsEOF_next tok); [exact He0|]. apply TokenType_eqb_eq in Ec. congruence.
    + intros x Hx. now right; right.
  - pose proof (Hl _ He0) as H2.
    destruct (loop (tok :: p1)) as [[r p2]|e]; cbn [bind].
    2:{ destruct H2 as [->|(x & Hx & Hb)]; [now left|].
        right. exists x. split; [now right|exact Hb]. }
    destruct H2 as [He2 Hin2].
    pose proof (expect_safe close p2 Hc He2) as H3.
    destruct (expect close p2) as [[c p3]|e]; cbn [bind].
    2:{ right. destruct H3 as (x & Hx & Hb). exists x. split; [|exact Hb].
        right. now apply Hin2. }
    destruct H3 as [-> He3]. split; [exact He3|].
    intros x Hx. right. apply Hin2. now right.
Qed.

End Loops.

Lemma safe_map {A B : Type} (g : A -> B) (pv : t -> result (A * t)) :
  safe pv -> safe (fun p => let* (a, p) := pv p in OK (g a, p)).
Proof.
  intros H p He. specialize (H p He).
  destruct (pv p) as [[a p']|e]; cbn [bind]; exact H.
Qed.

Lemma parseValue_safe (fuel : nat) : safe (parseValue fuel).
Proof.
  induction fuel as [|f IH]; intros p He; [left; reflexivity|].
  destruct (endsEOF_cons p He) as (tok & p0 & ->).
  destruct (type tok) eqn:Ety;
    try (cbn [parseValue current bind]; rewrite Ety; right; exists tok;
         split; [now left | cbn [blames]; now rewrite Ety]).
  1-5: cbn [parseValue current bind]; rewrite Ety.
  - unfold parseString. rewrite <- Ety, ParserFacts.expect_cons. cbn [bind].
    split; [apply (endsEOF_next tok); [exact He|congruence] | intros x Hx; now right].
  - unfold parseNumber. rewrite <- Ety, ParserFacts.expect_cons. cbn [bind].
    destruct (isNaN (Number_ofString (value tok))) eqn:En.
    + right. exists tok. split; [now left|]. cbn [blames].
      repeat split; try assumption.
      destruct (Number_ofString (value tok)); [reflexivity|discriminate|discriminate].
    + split; [apply (endsEOF_next tok); [exact He|congruence] | intros x Hx; now right].
  - split; [apply (endsEOF_next tok); [exact He|congruence] | intros x Hx; now right].
  - split; [apply (endsEOF_next tok); [exact He|congruence] | intros x Hx; now right].
  - split; [apply (endsEOF_next tok); [exact He|congruence] | intros x Hx; now right].
  - rewrite (ParserFacts.parseValue_container DictKind f tok p0 Ety).
    apply (container_safe LBRACE RBRACE); try discriminate; [|exact He].
    cbn [loopOf]. apply parseDictLoop_safe, IH.
  - rewrite (ParserFacts.parseValue_container ListKind f tok p0 Ety).
    apply (container_safe LBRACKET RBRACKET); try discriminate; [|exact He].
    cbn [loopOf]. apply (safe_map VArray), seqLoop_safe, IH.
  - rewrite (ParserFacts.parseValue_container TupleKind f tok p0 Ety).
    apply (container_safe LPAREN RPAREN); try discriminate; [|exact He].
    cbn [loopOf]. apply (safe_map VArray), seqLoop_safe, IH.
Qed.

(** A failure of [parse] on a list that ends with the end-of-input token
    is about one of the tokens of the list. *)
Lemma parse_blames (toks : list Token) (e : Error) :
  endsEOF toks -> parse toks = Err e -> exists tok, In tok toks /\ blames e tok.
Proof.
  intros He H. pose proof (ParserFacts.parse_total toks) as Ht.
  unfold parse in *.
  pose proof (parseValue_safe (S (List.length toks)) toks He) as Hs.
  destruct (parseValue _ toks) as [[v p]|e']; cbn [bind] in *.
  - destruct Hs as [He' Hin].
    destruct (endsEOF_cons p He') as (tok & p' & ->). cbn [current bind] in H.
    destruct (TokenType_eqb (type tok) EOF); cbn [negb] in H; [discriminate|].
    injection H as <-. exists tok. split; [apply Hin; now left|].
    cbn [blames]. now repeat split.
  - injection H as <-. destruct Hs as [->|Hs]; [contradiction|exact Hs].
Qed.

End BlameFacts.

(** ** The errors of the lexer *)

Module LexErrorFacts.
Import Lexer.
Import CursorFacts.

Lemma readEscapeSequence_errorAt (sp : nat) (lx : t) (e : Error) :
  readEscapeSequence lx = Err e -> stringErrorAt sp e = true.
Proof.
  unfold readEscapeSequence. destruct (peek (advance lx)); [|now intros [= <-]].
  repeat match goal with
         | |- context [if ?b then _ else _] => destruct b; try discriminate
         end.
  - destruct (rest (advance (advance lx))) as [|? [|? [|? [|? ?]]]];
      try discriminate; now intros [= <-].
  - destruct (rest (advance (advance lx))) as [|? [|? ?]];
      try discriminate; now intros [= <-].
Qed.

Lemma readSingle_errorAt (fuel : nat) (quote : char) (sp : nat) (lx : t)
    (acc : jsstring) (e : Error) :
  readSingle fuel quote sp lx acc = Err e -> stringErrorAt sp e = true.
Proof.
  revert lx acc; induction fuel as [|f IH]; intros lx acc; [now intros [= <-]|].
  cbn [readSingle]. destruct (rest lx) as [|c r].
  { intros [= <-]. cbn. apply Nat.eqb_refl. }
  destruct (N.eqb c quote); [discriminate|].
  destruct (N.eqb c (ch "\")); [|apply IH].
  destruct (readEscapeSequence lx) as [[s lx']|e'] eqn:Ee; cbn [bind]; [apply IH|].
  intros [= <-]. eapply readEscapeSequence_errorAt; eassumption.
Qed.

Lemma readTriple_errorAt (fuel : nat) (quote : char) (sp : nat) (lx : t)
    (acc : jsstring) (e : Error) :
  readTriple fuel quote sp lx acc = Err e -> stringErrorAt sp e = true.
Proof.
  revert lx acc; induction fuel as [|f IH]; intros lx acc; [now intros [= <-]|].
  cbn [readTriple]. destruct (rest lx) as [|c r].
  { intros [= <-]. cbn. apply Nat.eqb_refl. }
  destruct (_ && _ && _ && _)%bool; [discriminate|].
  destruct (N.eqb c (ch "\")); [|apply IH].
  destruct (readEscapeSequence lx) as [[s lx']|e'] eqn:Ee; cbn [bind]; [apply IH|].
  intros [= <-]. eapply readEscapeSequence_errorAt; eassumption.
Qed.

Lemma readString_errorAt (quote : char) (lx : t) (e : Error) :
  readString quote lx = Err e -> stringErrorAt (pos lx) e = true.
Proof.
  unfold readString. destruct (_ && _ && _)%bool.
  - apply readTriple_errorAt.
  - apply readSingle_errorAt.
Qed.

Lemma readNumber_errorAt (lx : t) (e : Error) :
  readNumber lx = Err e -> e = InvalidNumberAt (pos lx).
Proof.
  unfold readNumber.
  repeat number_step; try discriminate; now intros [= <-].
Qed.

(** The errors of one [scanToken], with what they say about the cursor. *)
Lemma scanToken_errorAt (c : char) (r : jsstring) (p : nat) (e : Error) :
  scanToken c (mk (c :: r) p) = Err e ->
  match e with
  | UnexpectedCharacter c' q => c' = c /\ q = p
  | UnterminatedString sp | UnterminatedTripleQuotedString sp =>
      sp = S p /\ isQuote c = true
  | InvalidNumberAt q => q = p /\ c = ch "-"
  | EndOfInputInEscape | EndOfInputInUnicodeEscape | EndOfInputInHexEscape => True
  | _ => False
  end.
Proof.
  intro H. pose proof (LexerFacts.scanToken_progress c r p) as Hp.
  rewrite H in Hp. revert H.
  unfold scanToken. destruct (punctuation c); [discriminate|].
  fold (isQuote c). destruct (isQuote c) eqn:Eq.
  - destruct (readString c _) as [[s lx']|e'] eqn:Es; cbn [bind]; [discriminate|].
    intros [= ->]. apply readString_errorAt in Es. cbn [advance pos] in Es.
    destruct e; try discriminate Es; try exact I; try contradiction;
      cbn [stringErrorAt] in Es; apply Nat.eqb_eq in Es; now split.
  - destruct (_ || _)%bool eqn:En.
    + destruct (N.eqb c (ch "-")) eqn:Em.
      * apply N.eqb_eq in Em.
        destruct (_ && _)%bool.
        -- destruct (readNumber _) as [[s lx']|e'] eqn:Er; cbn [bind]; [discriminate|].
           intros [= ->]. apply readNumber_errorAt in Er. subst e. now split.
        -- intros [= <-]. now split.
      * cbn [orb] in En.
        destruct (NumberFacts.readNumber_digit c r p En) as (s & lx' & ->). discriminate.
    + destruct (isAlpha_ c).
      * destruct (readIdentifier _). discriminate.
      * intros [= <-]. now split.
Qed.

End LexErrorFacts.

Module FailureFacts.
Import PositionFacts.

(** An error of [tokenize] is one of the errors of the lexer, and its
    message is about the input. *)
Lemma tokenize_lexerErrorAt (input : jsstring) (e : Error) :
  Lexer.tokenize input = Err e -> lexerErrorAt input e.
Proof.
  intro H. pose proof (LexerFacts.tokenizeLoop_terminates (S (List.length input))
                         (Lexer.init input) [] ltac:(unfold Lexer.left; simpl; lia)) as Ht.
  destruct (tokenizeLoop_failed input _ _ _ _ (within_init input) H)
    as [->|(c & p & Hn & Hs)]; [contradiction|].
  unfold cursorAt in Hs.
  assert (Hr : exists r, skipn p input = c :: r).
  { clear -Hn. revert p Hn. induction input as [|a l IH]; intros [|p] Hn; simpl in *;
      try discriminate.
    - injection Hn as ->. now exists l.
    - now apply IH. }
  destruct Hr as [r Hr]. rewrite Hr in Hs.
  apply LexErrorFacts.scanToken_errorAt in Hs.
  destruct e; try contradiction; cbn [lexerErrorAt]; try exact I.
  - destruct Hs as [-> Hq]. now exists c, p.
  - destruct Hs as [-> Hq]. now exists c, p.
  - destruct Hs as [-> ->]. exact Hn.
  - destruct Hs as [-> ->]. exact Hn.
Qed.

(** The tokens [tokenize] returns are a list for the parser. *)
Lemma tokenize_endsEOF (input : jsstring) (toks : list Token) :
  Lexer.tokenize input = OK toks -> endsEOF toks.
Proof.
  intro H. apply LexerFacts.tokenizeLoop_shape in H.
  destruct H as (body & p & -> & _ & _). now exists body, (mkToken EOF [] p).
Qed.

End FailureFacts.

(** ** The scanning loop, step by step *)

Module StepFacts.
Import Lexer.

Lemma skip_blank (f : nat) (c : char) (r : jsstring) (p : nat) :
  isBlank c = true ->
  skipWhitespaceAndComments (S f) (mk (c :: r) p)
  = skipWhitespaceAndComments f (mk r (S p)).
Proof.
  intro H. cbn [skipWhitespaceAndComments peek rest hd_error].
  unfold isBlank in H. now rewrite H.
Qed.

Lemma skip_stop (f : nat) (c : char) (r : jsstring) (p : nat) :
  isBlank c = false -> N.eqb c (ch "#") = false ->
  skipWhitespaceAndComments (S f) (mk (c :: r) p) = OK (mk (c :: r) p).
Proof.
  intros H1 H2. cbn [skipWhitespaceAndComments peek rest hd_error].
  unfold isBlank in H1. now rewrite H1, H2.
Qed.

Lemma skip_end (f : nat) (p : nat) :
  skipWhitespaceAndComments (S f) (mk [] p) = OK (mk [] p).
Proof. reflexivity. Qed.

(** One iteration on a code unit that starts a token. *)
Lemma tokenizeLoop_scan (f : nat) (c : char) (r : jsstring) (p : nat)
    (tokens : list Token) :
  isBlank c = false -> N.eqb c (ch "#") = false ->
  tokenizeLoop (S f) (mk (c :: r) p) tokens
  = let* (tok, lx') := scanToken c (mk (c :: r) p) in
    tokenizeLoop f lx' (tokens ++ [tok]).
Proof.
  intros H1 H2. cbn [tokenizeLoop]. cbn [rest].
  rewrite (skip_stop _ c r p H1 H2). reflexivity.
Qed.

Lemma scanToken_punctuation (c : char) (r : jsstring) (p : nat) (ty : TokenType) :
  punctuation c = Some ty ->
  scanToken c (mk (c :: r) p) = OK (mkToken ty [c] p, mk r (S p)).
Proof. intro H. unfold scanToken. now rewrite H. Qed.

Lemma tokenizeLoop_end (f : nat) (p : nat) (tokens : list Token) :
  tokenizeLoop (S f) (mk [] p) tokens = OK (tokens ++ [mkToken EOF [] p]).
Proof. reflexivity. Qed.

Lemma Lexes_tokenizeLoop (lx : t) (toks : list Token) :
  Lexes lx toks ->
  forall f tokens, (left lx < f)%nat -> tokenizeLoop f lx tokens = OK (tokens ++ toks).
Proof.
  induction 1 as [lx lx1 Hs Hr|lx lx1 lx2 c tok toks Hs Hp Hc _ IH];
    intros f tokens Hf; (destruct f as [|f]; [lia|]).
  - cbn [tokenizeLoop]. fold (left lx). rewrite Hs. cbn [bind].
    unfold peek. now rewrite Hr.
  - cbn [tokenizeLoop]. fold (left lx). rewrite Hs. cbn [bind].
    rewrite Hp, Hc. cbn [bind]. rewrite IH; [now rewrite <- app_assoc|].
    destruct (LexerFacts.skipWhitespaceAndComments_ok (S (left lx)) lx ltac:(lia))
      as (lx1' & Hs' & Hle).
    rewrite Hs in Hs'. injection Hs' as <-.
    unfold peek in Hp. destruct lx1 as [[|c' r] p]; cbn [rest hd_error] in Hp;
      [discriminate|]. injection Hp as ->.
    pose proof (LexerFacts.scanToken_progress c r p) as Hpr. rewrite Hc in Hpr.
    unfold left in Hle at 1. cbn [rest List.length] in Hle. lia.
Qed.

Lemma Lexes_tokenize (input : jsstring) (toks : list Token) :
  Lexes (init input) toks -> tokenize input = OK toks.
Proof.
  intro H. unfold tokenize.
  apply (Lexes_tokenizeLoop _ _ H (S (List.length input)) []).
  unfold left, init. simpl. lia.
Qed.

Lemma Lexes_nil (p : nat) : Lexes (mk [] p) [mkToken EOF [] p].
Proof. apply (Lexes_end (mk [] p) (mk [] p)); reflexivity. Qed.

Lemma Lexes_blank (c : char) (r : jsstring) (p : nat) (toks : list Token) :
  isBlank c = true -> Lexes (mk r (S p)) toks -> Lexes (mk (c :: r) p) toks.
Proof.
  intros Hc H.
  assert (E : forall lx1, skipWhitespaceAndComments (S (left (mk r (S p)))) (mk r (S p)) = OK lx1 ->
                          skipWhitespaceAndComments (S (left (mk (c :: r) p))) (mk (c :: r) p) = OK lx1).
  { intros lx1 H1. unfold left. cbn [rest List.length]. now rewrite skip_blank. }
  inversion H as [lx lx1 Hs Hr|lx lx1 lx2 c' tok toks' Hs Hp Hsc Hl]; subst.
  - apply (Lexes_end _ lx1); [now apply E|exact Hr].
  - eapply Lexes_token; [apply E, Hs|exact Hp|exact Hsc|exact Hl].
Qed.

Lemma Lexes_scan (c : char) (r : jsstring) (p : nat) (tok : Token) (lx2 : t)
    (toks : list Token) :
  isBlank c = false -> N.eqb c (ch "#") = false ->
  scanToken c (mk (c :: r) p) = OK (tok, lx2) ->
  Lexes lx2 toks ->
  Lexes (mk (c :: r) p) (tok :: toks).
Proof.
  intros H1 H2 Hs Hl.
  apply (Lexes_token _ (mk (c :: r) p) lx2 c); try assumption; [|reflexivity].
  unfold left. cbn [rest List.length]. now apply skip_stop.
Qed.

End StepFacts.


Module OrderFacts.

Lemma sorted_snoc (l : list nat) (n : nat) :
  StronglySorted lt l -> Forall (fun x => (x < n)%nat) l -> StronglySorted lt (l ++ [n]).
Proof.
  induction 1 as [|a l Hs IH Ha]; intro Hall; cbn [app].
  - constructor; constructor.
  - inversion Hall as [|? ? Han Hl]; subst.
    constructor; [now apply IH|].
    apply Forall_app. split; [exact Ha|]. constructor; [exact Han|constructor].
Qed.

End OrderFacts.

(** X1. The tokens [tokenize] returns carry true offsets: every token
    but the last is the token [scanToken] reads at the offset in its [pos]
    field, where the input has a code unit; the last is the end-of-input
    token at the length of the input; and the offsets strictly increase
    along the list. *)
Theorem token_offsets (input : jsstring) (toks : list Token) :
  Lexer.tokenize input = OK toks ->
  exists body,
    toks = body ++ [mkToken EOF [] (List.length input)]
    /\ Forall (scannedAt input) body
    /\ StronglySorted lt (map pos toks).
Proof.
  intro H.
  destruct (PositionFacts.tokenizeLoop_scanned input _ _ _ _
              (PositionFacts.within_init input) H) as (body & -> & Hsc & Hin & Hso).
  exists body. cbn [app]. split; [reflexivity|]. split; [exact Hsc|].
  rewrite map_app. cbn [map pos]. apply OrderFacts.sorted_snoc; [exact Hso|].
  apply Forall_map. eapply Forall_impl; [|exact Hin]. cbv beta. intros a Ha. lia.
Qed.

Lemma token_offsets_witness :
  exists body,
    [mkToken LBRACKET (str "[") 1; mkToken NUMBER (str "1") 2;
     mkToken COMMA (str ",") 3; mkToken STRING (str "a") 10;
     mkToken RBRACKET (str "]") 13; mkToken EOF [] 14]
    = body ++ [mkToken EOF [] 14]
    /\ Forall (scannedAt (str " [1, #c" ++ 10%N :: str "  'a']")) body.
Proof.
  destruct (token_offsets (str " [1, #c" ++ 10%N :: str "  'a']") _ eq_refl) as (body & E & H & _).
  exists body. split; [exact E | exact H].
Defined.



(** ** White space around the input *)

Module TrimFacts.

Lemma trimStart_nil_iff (s : jsstring) :
  trimStart s = [] <-> forallb isStrWhiteSpace s = true.
Proof.
  induction s as [|c s IH]; cbn [trimStart forallb]; [tauto|].
  destruct (isStrWhiteSpace c); cbn [andb]; [exact IH|].
  split; discriminate.
Qed.

Lemma trimStart_head (s : jsstring) (c : char) (r : jsstring) :
  trimStart s = c :: r -> isStrWhiteSpace c = false.
Proof.
  induction s as [|a s IH]; cbn [trimStart]; [discriminate|].
  destruct (isStrWhiteSpace a) eqn:E; [exact IH|]. intros [= <- _]. exact E.
Qed.

Lemma trimStart_white (a s : jsstring) :
  forallb isStrWhiteSpace a = true -> trimStart (a ++ s) = trimStart s.
Proof.
  induction a as [|c a IH]; cbn [app forallb trimStart]; [reflexivity|].
  intro H. apply andb_true_iff in H as [-> H]. now apply IH.
Qed.

Lemma trimStart_app (s b : jsstring) :
  trimStart s <> [] -> trimStart (s ++ b) = trimStart s ++ b.
Proof.
  induction s as [|c s IH]; cbn [app trimStart]; [contradiction|].
  destruct (isStrWhiteSpace c); [exact IH|reflexivity].
Qed.

Lemma forallb_rev {A : Type} (f : A -> bool) (l : list A) :
  forallb f (rev l) = forallb f l.
Proof.
  induction l as [|a l IH]; [reflexivity|].
  cbn [rev forallb]. rewrite forallb_app, IH. cbn [forallb].
  rewrite andb_true_r. apply andb_comm.
Qed.

Lemma trim_nil_iff (s : jsstring) :
  trim s = [] <-> forallb isStrWhiteSpace s = true.
Proof.
  unfold trim. rewrite <- trimStart_nil_iff. split; intro H.
  - apply (f_equal (@rev _)) in H. rewrite rev_involutive in H. cbn [rev] in H.
    apply trimStart_nil_iff in H. rewrite forallb_rev in H.
    destruct (trimStart s) as [|c r] eqn:E; [reflexivity|].
    apply trimStart_head in E. cbn [forallb] in H. now rewrite E in H.
  - now rewrite H.
Qed.

Lemma trim_surround (a s b : jsstring) :
  forallb isStrWhiteSpace a = true -> forallb isStrWhiteSpace b = true ->
  trim (a ++ s ++ b) = trim s.
Proof.
  intros Ha Hb. unfold trim. rewrite (trimStart_white a _ Ha).
  destruct (trimStart s) as [|c r] eqn:E.
  - assert (H : trimStart (s ++ b) = []).
    { apply trimStart_nil_iff. rewrite forallb_app, Hb, andb_true_r.
      now apply trimStart_nil_iff. }
    now rewrite H.
  - rewrite trimStart_app, E by (rewrite E; discriminate).
    rewrite rev_app_distr. rewrite trimStart_white; [reflexivity|].
    now rewrite forallb_rev.
Qed.

(** A string that neither starts nor ends with white space is its own
    trim. *)
Lemma trim_fixed (c d : char) (s : jsstring) :
  isStrWhiteSpace c = false -> isStrWhiteSpace d = false ->
  trim (c :: s ++ [d]) = c :: s ++ [d].
Proof.
  intros Hc Hd. unfold trim. cbn [trimStart]. rewrite Hc.
  change (c :: s ++ [d]) with ((c :: s) ++ [d]).
  rewrite rev_app_distr. cbn [rev app trimStart]. rewrite Hd.
  change (d :: rev s ++ [c]) with (rev [d] ++ rev (c :: s)).
  rewrite <- rev_app_distr. apply rev_involutive.
Qed.

Lemma trim_single (c : char) : isStrWhiteSpace c = false -> trim [c] = [c].
Proof. intro Hc. unfold trim. cbn [trimStart rev app]. now rewrite Hc; cbn; rewrite Hc. Qed.

End TrimFacts.

(** X3. A failure of the parser on the tokens of an input is about one of
    them: the type, text and offset in its message are those of a token
    the lexer read at that offset of the input, or of the end-of-input
    token at its end.  An [Expected] message names a type other than the one
    found, and an [Invalid number] message a NUMBER token whose text
    [Number] turns into NaN. *)
Theorem parser_error_names_token (input : jsstring) (toks : list Token) (e : Error) :
  Lexer.tokenize input = OK toks ->
  Parser.parse toks = Err e ->
  exists tok,
    In tok toks /\ blames e tok
    /\ (scannedAt input tok \/ tok = mkToken EOF [] (List.length input)).
Proof.
  intros Ht Hp.
  destruct (BlameFacts.parse_blames toks e (FailureFacts.tokenize_endsEOF _ _ Ht) Hp)
    as (tok & Hin & Hb).
  exists tok. split; [exact Hin|]. split; [exact Hb|].
  destruct (PositionFacts.tokenizeLoop_scanned input _ _ _ _
              (PositionFacts.within_init input) Ht) as (body & -> & Hsc & _ & _).
  cbn [app] in Hin. apply in_app_or in Hin as [Hin|[<-|[]]]; [left|now right].
  rewrite Forall_forall in Hsc. now apply Hsc.
Qed.

Lemma parser_error_names_token_witness :
  exists tok,
    blames (Expected COLON COMMA (str ",") 4) tok
    /\ (scannedAt (str "{'a', 1}") tok \/ tok = mkToken EOF [] 8).
Proof.
  destruct (parser_error_names_token (str "{'a', 1}") _
              (Expected COLON COMMA (str ",") 4) eq_refl eq_refl)
    as (tok & _ & Hb & Hs).
  exists tok. split; [exact Hb | exact Hs].
Defined.

(** X4. [pythonDictToJson] fails only in the ways the source spells out.
    It never reads a token past the end of the token list (a TypeError in
    the source) and never exhausts a loop bound of this model.  [Input is
    empty] means the trimmed input is empty; an error of the lexer is the
    result of [tokenize] on the trimmed input; an error of the parser is the
    result of [parse] on the tokens of the trimmed input. *)
Theorem conversion_failures (input : jsstring) (indent : Z) (e : Error) :
  pythonDictToJson input indent = Err e ->
  match e with
  | InputIsEmpty => trim input = []
  | ReadPastEnd | OutOfFuel => False
  | Expected _ _ _ _ | UnexpectedToken _ _ _ | InvalidNumber _ _
  | InvalidDictKey _ _ _ =>
      exists toks, Lexer.tokenize (trim input) = OK toks /\ Parser.parse toks = Err e
  | _ => Lexer.tokenize (trim input) = Err e
  end.
Proof.
  unfold pythonDictToJson. destruct (trim input) as [|c r] eqn:Et.
  { now intros [= <-]. }
  destruct (Lexer.tokenize (c :: r)) as [toks|e1] eqn:El; cbn [bind].
  - destruct (Parser.parse toks) as [v|e2] eqn:Ep; cbn [bind]; [discriminate|].
    intros [= <-].
    destruct (BlameFacts.parse_blames toks e2 (FailureFacts.tokenize_endsEOF _ _ El) Ep)
      as (tok & _ & Hb).
    destruct e2; try contradiction; now exists toks.
  - intros [= <-]. apply FailureFacts.tokenize_lexerErrorAt in El.
    destruct e1; try contradiction; reflexivity.
Qed.

Lemma conversion_failures_witness :
  exists toks,
    Lexer.tokenize (trim (str " [1 2] ")) = OK toks
    /\ Parser.parse toks = Err (Expected RBRACKET NUMBER (str "2") 3).
Proof. exact (conversion_failures (str " [1 2] ") 4 _ eq_refl). Defined.

Module WhiteFacts.
Import Lexer.

(** The white space that the lexer does not skip. *)
Lemma other_white (c : char) :
  isStrWhiteSpace c = true -> isBlank c = false ->
  (c = 11 \/ c = 12 \/ 160 <= c)%N.
Proof.
  unfold isStrWhiteSpace, isBlank, inRange. intros H Hn.
  repeat rewrite orb_true_iff in H. rewrite !andb_true_iff in H.
  rewrite !N.leb_le, !N.eqb_eq in H.
  rewrite !orb_false_iff, !N.eqb_neq in Hn. lia.
Qed.

Lemma other_white_scan (c : char) (r : jsstring) (p : nat) :
  isStrWhiteSpace c = true -> isBlank c = false ->
  N.eqb c (ch "#") = false
  /\ scanToken c (mk (c :: r) p) = Err (UnexpectedCharacter c p).
Proof.
  intros H Hn. pose proof (other_white c H Hn) as Hc. clear H Hn.
  assert (H1 : punctuation c = None) by IdentFacts.by_code_units.
  assert (H2 : (N.eqb c (ch "'") || N.eqb c 34)%bool = false) by IdentFacts.by_code_units.
  assert (H3 : (N.eqb c (ch "-") || isDigit c)%bool = false) by IdentFacts.by_code_units.
  assert (H4 : isAlpha_ c = false) by IdentFacts.by_code_units.
  assert (H5 : N.eqb c (ch "#") = false) by IdentFacts.by_code_units.
  split; [exact H5|]. unfold scanToken. now rewrite H1, H2, H3, H4.
Qed.

End WhiteFacts.

(** X5. [pythonDictToJson] answers [Input is empty] exactly for the inputs
    made of white space and line terminators only, the empty input among
    them; what surrounds the rest of an input in such code units changes
    nothing, the offsets in error messages included.  Inside the input the
    lexer skips only space, tab, line feed and carriage return: any other
    white space there is an unexpected character. *)
Theorem surrounding_white_space (input a b : jsstring) (indent : Z) :
  (pythonDictToJson input indent = Err InputIsEmpty
   <-> forallb isStrWhiteSpace input = true)
  /\ (forallb isStrWhiteSpace a = true -> forallb isStrWhiteSpace b = true ->
      pythonDictToJson (a ++ input ++ b) indent = pythonDictToJson input indent)
  /\ (forall c, isStrWhiteSpace c = true -> isBlank c = false ->
        Lexer.tokenize (ch "[" :: c :: input ++ [ch "]"])
        = Err (UnexpectedCharacter c 1)
        /\ pythonDictToJson (ch "[" :: c :: input ++ [ch "]"]) indent
           = Err (UnexpectedCharacter c 1)).
Proof.
  split; [|split].
  - rewrite <- TrimFacts.trim_nil_iff. split.
    + unfold pythonDictToJson. destruct (trim input) as [|c r]; [reflexivity|].
      destruct (Lexer.tokenize (c :: r)) as [toks|e1] eqn:El; cbn [bind].
      * destruct (Parser.parse toks) as [v|e2] eqn:Ep; cbn [bind]; [discriminate|].
        intros [= ->].
        destruct (BlameFacts.parse_blames toks _ (FailureFacts.tokenize_endsEOF _ _ El) Ep)
          as (tok & _ & []).
      * intros [= ->]. destruct (FailureFacts.tokenize_lexerErrorAt _ _ El).
    + intro H. unfold pythonDictToJson. now rewrite H.
  - intros Ha Hb. unfold pythonDictToJson. now rewrite TrimFacts.trim_surround.
  - intros c Hc Hn.
    destruct (WhiteFacts.other_white_scan c (input ++ [ch "]"]) 1 Hc Hn) as [Hh Hs].
    assert (Ht : Lexer.tokenize (ch "[" :: c :: input ++ [ch "]"])
                 = Err (UnexpectedCharacter c 1)).
    { unfold Lexer.tokenize, Lexer.init. cbn [List.length].
      rewrite StepFacts.tokenizeLoop_scan by reflexivity.
      rewrite (StepFacts.scanToken_punctuation _ _ _ LBRACKET) by reflexivity.
      cbn [bind].
      rewrite StepFacts.tokenizeLoop_scan by assumption.
      now rewrite Hs. }
    split; [exact Ht|].
    unfold pythonDictToJson.
    change (ch "[" :: c :: input ++ [ch "]"]) with (ch "[" :: (c :: input) ++ [ch "]"]).
    rewrite TrimFacts.trim_fixed by reflexivity.
    cbn [app]. now rewrite Ht.
Qed.

(** X6. One value per input.  When the tokens [l] followed by the
    end-of-input token parse to a value, the same tokens followed by any
    other token are rejected at that token, whatever comes after it: the
    error is [Unexpected token] with its type, text and offset. *)
Theorem trailing_token_rejected
    (l r : list Token) (eof tok : Token) (v : jsvalue) :
  type eof = EOF ->
  Forall (fun t => type t <> EOF) l ->
  Parser.parse (l ++ [eof]) = OK v ->
  type tok <> EOF ->
  Parser.parse (l ++ tok :: r)
  = Err (UnexpectedToken (type tok) (value tok) (pos tok)).
Proof.
  intros He Hall Hp Ht.
  apply (ParserFacts.parse_spans l eof v He Hall) in Hp.
  destruct (ParserFacts.parseValue_local _ _ _ _ Hp) as (cons & _ & Hc & Hloc).
  assert (Hl : cons = l).
  { apply (app_inv_tail [eof]). now symmetry. }
  subst cons. specialize (Hloc (tok :: r)).
  apply ParserFacts.parseValue_enough in Hloc.
  unfold Parser.parse. rewrite Hloc. cbn [bind Parser.current].
  destruct (TokenType_eqb (type tok) EOF) eqn:E; [|reflexivity].
  apply TokenType_eqb_eq in E. contradiction.
Qed.

Lemma trailing_token_rejected_witness :
  Parser.parse ([mkToken NUMBER (str "1") 0] ++ mkToken NUMBER (str "2") 2
                  :: [mkToken EOF [] 3])
  = Err (UnexpectedToken NUMBER (str "2") 2).
Proof.
  apply (trailing_token_rejected [mkToken NUMBER (str "1") 0] _
           (mkToken EOF [] 1) (mkToken NUMBER (str "2") 2) (VNumber (JFin false 1 0))).
  - reflexivity.
  - repeat constructor; discriminate.
  - reflexivity.
  - discriminate.
Defined.

(** ** String literals *)

Module StringFacts.
Import Lexer.

Lemma quote_not_backslash (q : char) : isQuote q = true -> N.eqb (ch "\") q = false.
Proof.
  unfold isQuote. intro H. apply orb_true_iff in H as [H|H];
    apply N.eqb_eq in H; subst q; reflexivity.
Qed.

Lemma Decodes_head (q : char) (c : char) (enc s : jsstring) :
  N.eqb (ch "\") q = false -> Decodes q (c :: enc) s -> N.eqb c q = false.
Proof.
  intros Hq H. inversion H; subst; assumption.
Qed.

Lemma readSingle_decodes (q : char) (enc s : jsstring) :
  N.eqb (ch "\") q = false ->
  Decodes q enc s ->
  forall f sp tail p acc,
    (List.length (enc ++ q :: tail) < f)%nat ->
    readSingle f q sp (mk (enc ++ q :: tail) p) acc
    = OK (acc ++ s, mk tail (List.length enc + 1 + p)).
Proof.
  intros Hq H.
  induction H as [|c enc s Hc Hb _ IH|esc out enc s He _ IH];
    intros f sp tail p acc Hf; (destruct f as [|f]; [lia|]).
  - cbn [app readSingle rest]. rewrite N.eqb_refl, app_nil_r. reflexivity.
  - cbn [app readSingle rest]. rewrite Hc, Hb. rewrite LexerFacts.advance_cons.
    rewrite IH by (cbn [app List.length] in Hf; lia).
    rewrite <- app_assoc. cbn [app List.length]. do 3 f_equal. lia.
  - cbn [app readSingle rest]. rewrite Hq, N.eqb_refl.
    rewrite <- app_assoc.
    change (ch "\" :: esc ++ enc ++ q :: tail)
      with (ch "\" :: esc ++ (enc ++ q :: tail)).
    rewrite He. cbn [bind].
    rewrite IH.
    + rewrite <- app_assoc. cbn [List.length]. rewrite length_app.
      do 3 f_equal. lia.
    + cbn [app List.length] in Hf. rewrite !length_app in Hf.
      rewrite length_app. lia.
Qed.

Lemma closing_false (q c : char) (x y z : bool) :
  N.eqb c q = false -> (N.eqb c q && x && y && z)%bool = false.
Proof. now intros ->. Qed.

Lemma readTriple_decodes (q : char) (enc s : jsstring) :
  N.eqb (ch "\") q = false ->
  Decodes q enc s ->
  forall f sp tail p acc,
    (List.length (enc ++ q :: q :: q :: tail) < f)%nat ->
    readTriple f q sp (mk (enc ++ q :: q :: q :: tail) p) acc
    = OK (acc ++ s, mk tail (List.length enc + 3 + p)).
Proof.
  intros Hq H.
  induction H as [|c enc s Hc Hb _ IH|esc out enc s He _ IH];
    intros f sp tail p acc Hf; (destruct f as [|f]; [lia|]).
  - cbn [app readTriple rest at_ nth_error test List.length].
    rewrite !N.eqb_refl, app_nil_r. cbn [andb Nat.ltb Nat.leb skipn pos].
    do 3 f_equal. lia.
  - cbn [app readTriple rest]. rewrite closing_false by exact Hc.
    rewrite Hb, LexerFacts.advance_cons.
    rewrite IH by (cbn [app List.length] in Hf; lia).
    rewrite <- app_assoc. cbn [app List.length]. do 3 f_equal. lia.
  - cbn [app readTriple rest]. rewrite closing_false by exact Hq.
    rewrite N.eqb_refl. rewrite <- app_assoc.
    change (ch "\" :: esc ++ enc ++ q :: q :: q :: tail)
      with (ch "\" :: esc ++ (enc ++ q :: q :: q :: tail)).
    rewrite He. cbn [bind].
    rewrite IH.
    + rewrite <- app_assoc. cbn [List.length]. rewrite length_app.
      do 3 f_equal. lia.
    + cbn [app List.length] in Hf. rewrite !length_app in Hf.
      rewrite length_app. lia.
Qed.

Lemma quote_scan (q : char) :
  isQuote q = true -> punctuation q = None.
Proof.
  unfold isQuote. intro H. apply orb_true_iff in H as [H|H];
    apply N.eqb_eq in H; subst q; reflexivity.
Qed.

(** A literal in single or double quotes, read as one token. *)
Lemma scanToken_quoted (q : char) (enc s tail : jsstring) (p : nat) :
  isQuote q = true ->
  Decodes q enc s ->
  enc <> [] \/ test (N.eqb q) (hd_error tail) = false ->
  scanToken q (mk (q :: enc ++ q :: tail) p)
  = OK (mkToken STRING s p, mk tail (List.length enc + 2 + p)).
Proof.
  intros Hq Hd Hne. pose proof (quote_not_backslash q Hq) as Hb.
  unfold scanToken. rewrite (quote_scan q Hq).
  fold (isQuote q). rewrite Hq. rewrite LexerFacts.advance_cons.
  unfold readString.
  assert (Hno : ((2 <? List.length (rest (mk (enc ++ q :: tail) (S p))))%nat
                 && test (N.eqb q) (at_ (mk (enc ++ q :: tail) (S p)) 0)
                 && test (N.eqb q) (at_ (mk (enc ++ q :: tail) (S p)) 1))%bool = false).
  { destruct enc as [|c enc].
    - destruct Hne as [Hne|Hne]; [contradiction|].
      cbn [app rest at_ nth_error test]. destruct tail as [|d tail].
      + reflexivity.
      + cbn [hd_error test] in Hne. cbn [nth_error test]. rewrite Hne.
        now rewrite andb_false_r.
    - cbn [app rest at_ nth_error test].
      rewrite (N.eqb_sym q c), (Decodes_head q c enc s Hb Hd).
      now rewrite andb_false_r. }
  rewrite Hno. cbn [rest pos].
  rewrite (readSingle_decodes q enc s Hb Hd) by lia.
  cbn [bind app]. do 3 f_equal. lia.
Qed.

(** A literal in triple quotes, read as one token. *)
Lemma scanToken_triple_quoted (q : char) (enc s tail : jsstring) (p : nat) :
  isQuote q = true ->
  Decodes q enc s ->
  scanToken q (mk (q :: q :: q :: enc ++ q :: q :: q :: tail) p)
  = OK (mkToken STRING s p, mk tail (List.length enc + 6 + p)).
Proof.
  intros Hq Hd. pose proof (quote_not_backslash q Hq) as Hb.
  unfold scanToken. rewrite (quote_scan q Hq).
  fold (isQuote q). rewrite Hq. rewrite LexerFacts.advance_cons.
  unfold readString.
  cbn [rest at_ nth_error test List.length]. rewrite N.eqb_refl.
  assert (Hlen : (2 <? S (S (List.length (enc ++ q :: q :: q :: tail))))%nat = true).
  { apply Nat.ltb_lt. rewrite length_app. cbn [List.length]. lia. }
  rewrite Hlen. cbn [andb]. rewrite !LexerFacts.advance_cons. cbn [rest pos].
  rewrite (readTriple_decodes q enc s Hb Hd) by lia.
  cbn [bind app]. do 3 f_equal. lia.
Qed.

Lemma plain_Decodes (q : char) (body : jsstring) :
  forallb (isPlain q) body = true -> Decodes q body body.
Proof.
  induction body as [|c body IH]; intro H; [constructor|].
  cbn [forallb] in H. apply andb_true_iff in H as [Hc H].
  unfold isPlain in Hc. apply andb_true_iff in Hc as [H1 H2].
  apply negb_true_iff in H1, H2. constructor; [exact H1|exact H2|now apply IH].
Qed.

(** *** The escapes [JSON.stringify] writes *)

Lemma readEscapeSequence_unicode (h1 h2 h3 h4 : char) (r : jsstring) (p : nat) :
  readEscapeSequence (mk (ch "\" :: [ch "u"; h1; h2; h3; h4] ++ r) p)
  = OK ([fromCharCode (parseInt [h1; h2; h3; h4] 16)],
        mk r (S (List.length [ch "u"; h1; h2; h3; h4]) + p)).
Proof. reflexivity. Qed.

Lemma hexDigit_value (d : Z) :
  0 <= d < 16 -> digitValue 16 (hexDigit d) = Some d.
Proof.
  intro H.
  assert (C : d = 0 \/ d = 1 \/ d = 2 \/ d = 3 \/ d = 4 \/ d = 5 \/ d = 6 \/ d = 7
              \/ d = 8 \/ d = 9 \/ d = 10 \/ d = 11 \/ d = 12 \/ d = 13 \/ d = 14
              \/ d = 15) by lia.
  repeat (destruct C as [->|C]; [reflexivity|]). subst d. reflexivity.
Qed.

Lemma hexDigit_radix (d : Z) : 0 <= d < 16 -> isRadixDigit 16 (hexDigit d) = true.
Proof. intro H. unfold isRadixDigit. now rewrite hexDigit_value. Qed.

(** A code unit comes back from the four hexadecimal digits written for
    it. *)
Lemma unicode_value (n : Z) :
  0 <= n < 65536 ->
  fromCharCode
    (parseInt [hexDigit (n / 4096 mod 16); hexDigit (n / 256 mod 16);
               hexDigit (n / 16 mod 16); hexDigit (n mod 16)] 16)
  = Z.to_N n.
Proof.
  intro Hn.
  assert (H1 : 0 <= n / 4096 mod 16 < 16) by (apply Z.mod_pos_bound; lia).
  assert (H2 : 0 <= n / 256 mod 16 < 16) by (apply Z.mod_pos_bound; lia).
  assert (H3 : 0 <= n / 16 mod 16 < 16) by (apply Z.mod_pos_bound; lia).
  assert (H4 : 0 <= n mod 16 < 16) by (apply Z.mod_pos_bound; lia).
  rewrite (PrefixFacts.parseInt_digits Hexadecimal).
  2:{ cbn [forallb radix]. now rewrite !hexDigit_radix. }
  assert (Hv : digitsValue (radix Hexadecimal)
                 [hexDigit (n / 4096 mod 16); hexDigit (n / 256 mod 16);
                  hexDigit (n / 16 mod 16); hexDigit (n mod 16)] = n).
  { unfold digitsValue. cbn [fold_left radix]. rewrite !hexDigit_value by assumption.
    clear H1 H2 H3 H4. Z.div_mod_to_equations. lia. }
  rewrite Hv. destruct (Z.eq_dec n 0) as [->|Hz]; [reflexivity|].
  rewrite NumeralFacts.numberOfInt_exact by (change (2 ^ 53) with 9007199254740992; lia).
  destruct (NumeralFacts.canon_value false n 0) as (m & e & -> & Hm & He & Hme); [lia|lia|].
  cbn [fromCharCode]. unfold truncate.
  destruct (Z.leb_spec 0 e); [|lia].
  rewrite Hme, Z.mul_1_r, Z.mod_small by lia. reflexivity.
Qed.

Lemma unicodeEscape_reads (c : char) (r : jsstring) (p : nat) :
  (c < 65536)%N ->
  readEscapeSequence (mk (ch "\" :: tl (unicodeEscape c) ++ r) p)
  = OK ([c], mk r (S (List.length (tl (unicodeEscape c))) + p)).
Proof.
  intro Hc. unfold unicodeEscape. cbn [tl].
  rewrite readEscapeSequence_unicode.
  rewrite unicode_value by lia. now rewrite N2Z.id.
Qed.

Lemma unicodeEscape_Decodes (c : char) (enc s : jsstring) :
  (c < 65536)%N -> Decodes 34%N enc s ->
  Decodes 34%N (unicodeEscape c ++ enc) (c :: s).
Proof.
  intros Hc H.
  change (unicodeEscape c ++ enc) with (ch "\" :: tl (unicodeEscape c) ++ enc).
  change (c :: s) with ([c] ++ s).
  apply Dec_escape; [|exact H]. intros r p. now apply unicodeEscape_reads.
Qed.

Lemma escape_Decodes (e out : char) (enc s : jsstring) :
  (forall r p, readEscapeSequence (mk (ch "\" :: [e] ++ r) p)
               = OK ([out], mk r (S (List.length [e]) + p))) ->
  Decodes 34%N enc s -> Decodes 34%N (ch "\" :: e :: enc) (out :: s).
Proof.
  intros He H. change (ch "\" :: e :: enc) with (ch "\" :: [e] ++ enc).
  change (out :: s) with ([out] ++ s). now apply Dec_escape.
Qed.

Lemma surrogate_range (c : char) :
  (isLeadSurrogate c || isTrailSurrogate c)%bool = true ->
  (c < 65536)%N /\ N.eqb c 34%N = false /\ N.eqb c (ch "\") = false.
Proof.
  unfold isLeadSurrogate, isTrailSurrogate, inRange. intro H.
  apply orb_true_iff in H. rewrite !andb_true_iff, !N.leb_le in H.
  repeat split; [lia| |]; apply N.eqb_neq; unfold ch; cbn; lia.
Qed.

(** What [QuoteJSONString] writes between the quotes stands for the
    string. *)
Lemma quoteChars_Decodes (s : jsstring) : Decodes 34%N (quoteChars s) s.
Proof.
  assert (G : forall n s, (List.length s <= n)%nat -> Decodes 34%N (quoteChars s) s).
  { clear s. induction n as [|n IH]; intros [|c r] Hn; cbn [List.length] in Hn;
      try lia; try constructor.
    assert (Hr : Decodes 34%N (quoteChars r) r) by (apply IH; lia).
    cbn [quoteChars].
    destruct (N.eqb_spec c 8) as [->|_]; [now apply escape_Decodes|].
    destruct (N.eqb_spec c 9) as [->|_]; [now apply escape_Decodes|].
    destruct (N.eqb_spec c 10) as [->|_]; [now apply escape_Decodes|].
    destruct (N.eqb_spec c 12) as [->|_]; [now apply escape_Decodes|].
    destruct (N.eqb_spec c 13) as [->|_]; [now apply escape_Decodes|].
    destruct (N.eqb c 34%N) eqn:Eq.
    { apply N.eqb_eq in Eq. subst c. now apply escape_Decodes. }
    destruct (N.eqb c (ch "\")) eqn:Eb.
    { apply N.eqb_eq in Eb. subst c. now apply escape_Decodes. }
    destruct (N.ltb_spec c 32) as [Hlt|_].
    { apply unicodeEscape_Decodes; [lia|exact Hr]. }
    destruct (isLeadSurrogate c) eqn:El.
    { destruct (surrogate_range c) as (Hc & _ & _); [now rewrite El|].
      destruct r as [|d r'].
      - rewrite <- (app_nil_r (unicodeEscape c)).
        apply unicodeEscape_Decodes; [exact Hc|constructor].
      - destruct (isTrailSurrogate d) eqn:Et.
        + destruct (surrogate_range d) as (_ & Hd1 & Hd2);
            [now rewrite Et, orb_true_r|].
          constructor; [exact Eq|exact Eb|].
          constructor; [exact Hd1|exact Hd2|].
          apply IH. cbn [List.length] in Hn. lia.
        + apply unicodeEscape_Decodes; [exact Hc|exact Hr]. }
    destruct (isTrailSurrogate c) eqn:Et.
    { destruct (surrogate_range c) as (Hc & _ & _); [now rewrite Et, orb_true_r|].
      apply unicodeEscape_Decodes; [exact Hc|exact Hr]. }
    constructor; [exact Eq|exact Eb|exact Hr]. }
  apply (G (List.length s)). lia.
Qed.

End StringFacts.

(** X7. Quotes are interchangeable.  A string literal whose content has
    no backslash and none of its own quote character is read verbatim, line
    breaks, hash signs and the other quote character included, whether it
    is written in single or double quotes or in triple quotes of either
    kind; the output is the JSON string literal of that content. *)
Theorem quoted_string_verbatim (q : char) (body : jsstring) (indent : Z) :
  isQuote q = true ->
  forallb (isPlain q) body = true ->
  pythonDictToJson (q :: body ++ [q]) indent = OK (QuoteJSONString body)
  /\ pythonDictToJson (q :: q :: q :: body ++ [q; q; q]) indent
     = OK (QuoteJSONString body).
Proof.
  intros Hq Hb. pose proof (StringFacts.plain_Decodes q body Hb) as Hd.
  assert (Hw : isStrWhiteSpace q = false /\ isBlank q = false
               /\ N.eqb q (ch "#") = false).
  { unfold isQuote in Hq. apply orb_true_iff in Hq as [H|H];
      apply N.eqb_eq in H; subst q; now repeat split. }
  destruct Hw as (Hw & Hbl & Hh).
  assert (Hout : forall toks n,
             toks = [mkToken STRING body 0; mkToken EOF [] n] ->
             (let* result_ := Parser.parse toks in OK (JSON_stringify result_ indent))
             = OK (QuoteJSONString body)).
  { intros toks n ->. reflexivity. }
  split.
  - unfold pythonDictToJson. rewrite TrimFacts.trim_fixed by assumption.
    cbn [app].
    erewrite StepFacts.Lexes_tokenize.
    2:{ unfold Lexer.init. eapply StepFacts.Lexes_scan; try assumption.
        - apply StringFacts.scanToken_quoted; [exact Hq|exact Hd|now right].
        - apply StepFacts.Lexes_nil. }
    cbn [bind]. eapply Hout. reflexivity.
  - unfold pythonDictToJson.
    replace (q :: q :: q :: body ++ [q; q; q])
      with (q :: (q :: q :: body ++ [q; q]) ++ [q])
      by (cbn [app]; rewrite <- app_assoc; reflexivity).
    rewrite TrimFacts.trim_fixed by assumption.
    replace (q :: (q :: q :: body ++ [q; q]) ++ [q])
      with (q :: q :: q :: body ++ q :: q :: q :: [])
      by (cbn [app]; rewrite <- app_assoc; reflexivity).
    erewrite StepFacts.Lexes_tokenize.
    2:{ unfold Lexer.init. eapply StepFacts.Lexes_scan; try assumption.
        - apply StringFacts.scanToken_triple_quoted; [exact Hq|exact Hd].
        - apply StepFacts.Lexes_nil. }
    cbn [bind]. eapply Hout. reflexivity.
Qed.

Lemma quoted_string_verbatim_witness :
  pythonDictToJson (str "'a # c'") 2 = OK (QuoteJSONString (str "a # c"))
  /\ pythonDictToJson (str "'''a # c'''") 2 = OK (QuoteJSONString (str "a # c")).
Proof.
  apply (quoted_string_verbatim (ch "'") (str "a # c") 2); reflexivity.
Defined.

(** X8. The lexer reads back what [JSON.stringify] writes for a string.
    For every string [s], the JSON string literal of [s] is one STRING
    token with text [s], at any offset and before anything that does not
    start with a double quote; as a whole input it converts to itself. *)
Theorem json_string_round_trip (s tail : jsstring) (p : nat) (indent : Z) :
  (Lexer.test (N.eqb 34%N) (hd_error tail) = false ->
   Lexer.scanToken 34%N (Lexer.mk (QuoteJSONString s ++ tail) p)
   = OK (mkToken STRING s p,
         Lexer.mk tail (List.length (QuoteJSONString s) + p)))
  /\ pythonDictToJson (QuoteJSONString s) indent = OK (QuoteJSONString s).
Proof.
  pose proof (StringFacts.quoteChars_Decodes s) as Hd.
  assert (Hs : forall tl q, Lexer.test (N.eqb 34%N) (hd_error tl) = false ->
             Lexer.scanToken 34%N (Lexer.mk (QuoteJSONString s ++ tl) q)
             = OK (mkToken STRING s q,
                   Lexer.mk tl (List.length (QuoteJSONString s) + q))).
  { intros tl q Htl. unfold QuoteJSONString.
    cbn [app]. rewrite <- app_assoc. cbn [app].
    rewrite (StringFacts.scanToken_quoted 34%N (quoteChars s) s tl q eq_refl Hd)
      by now right.
    cbn [List.length]. rewrite length_app. cbn [List.length].
    do 3 f_equal. lia. }
  split; [apply Hs|].
  assert (Ht : trim (QuoteJSONString s) = QuoteJSONString s).
  { unfold QuoteJSONString. cbn [app]. now apply TrimFacts.trim_fixed. }
  assert (Hl : Lexer.tokenize (QuoteJSONString s)
               = OK [mkToken STRING s 0;
                     mkToken EOF [] (List.length (QuoteJSONString s) + 0)]).
  { apply StepFacts.Lexes_tokenize. unfold Lexer.init.
    specialize (Hs [] 0%nat eq_refl). rewrite app_nil_r in Hs.
    unfold QuoteJSONString in *. cbn [app] in *.
    eapply StepFacts.Lexes_scan; [reflexivity|reflexivity|exact Hs|].
    apply StepFacts.Lexes_nil. }
  unfold pythonDictToJson. rewrite Ht, Hl. reflexivity.
Qed.

(** ** Decimal integer literals *)

Module IntegerFacts.
Import Lexer.

Lemma digit_facts (c : char) :
  isDigit c = true ->
  isDigit_ c = true /\ isUnderscore c = false
  /\ N.eqb c (ch "-") = false /\ N.eqb c (ch "+") = false
  /\ N.eqb c (ch ".") = false /\ N.eqb c (ch "e") = false /\ N.eqb c (ch "E") = false
  /\ N.eqb c (ch "x") = false /\ N.eqb c (ch "X") = false
  /\ N.eqb c (ch "o") = false /\ N.eqb c (ch "O") = false
  /\ N.eqb c (ch "b") = false /\ N.eqb c (ch "B") = false
  /\ N.eqb c (ch "I") = false
  /\ isStrWhiteSpace c = false /\ isBlank c = false /\ N.eqb c (ch "#") = false
  /\ punctuation c = None /\ isQuote c = false.
Proof.
  intro H. unfold isDigit, inRange in H. apply andb_true_iff in H as [H1 H2].
  apply N.leb_le in H1, H2.
  assert (C : (c = 48 \/ c = 49 \/ c = 50 \/ c = 51 \/ c = 52 \/ c = 53 \/ c = 54
               \/ c = 55 \/ c = 56 \/ c = 57)%N) by lia.
  repeat (destruct C as [->|C]; [now repeat split|]). subst c. now repeat split.
Qed.

Lemma digits_no_underscore (ds : jsstring) :
  forallb isDigit ds = true ->
  forallb isDigit_ ds = true /\ dropUnderscores ds = ds.
Proof.
  induction ds as [|c ds IH]; intro H; [now split|].
  cbn [forallb] in H. apply andb_true_iff in H as [Hc H].
  destruct (IH H) as [I1 I2]. destruct (digit_facts c Hc) as (D1 & D2 & _).
  cbn [forallb]. rewrite D1, I1. split; [reflexivity|].
  unfold dropUnderscores in *. cbn [filter]. rewrite D2. cbn [negb]. now rewrite I2.
Qed.

Lemma endsNumber_facts (tail : jsstring) :
  endsNumber tail = true ->
  test isDigit_ (hd_error tail) = false
  /\ (forall a, In a ["."; "e"; "E"; "x"; "X"; "o"; "O"; "b"; "B"]%char ->
                isChar (hd_error tail) a = false).
Proof.
  destruct tail as [|c tail]; cbn [endsNumber hd_error test isChar].
  - intros _. split; [reflexivity|]. intros; reflexivity.
  - intro H. apply negb_true_iff in H. do 9 (apply orb_false_iff in H as [H ?]).
    split; [exact H|]. cbn [In]. intros a Ha.
    repeat (destruct Ha as [<-|Ha]; [assumption|]). destruct Ha.
Qed.

(** The head of digits followed by such a text. *)
Lemma head_facts (ds tail : jsstring) :
  forallb isDigit ds = true -> endsNumber tail = true ->
  forall a, In a ["."; "e"; "E"; "x"; "X"; "o"; "O"; "b"; "B"]%char ->
            isChar (hd_error (ds ++ tail)) a = false.
Proof.
  intros Hd Ht a Ha. destruct ds as [|c ds]; cbn [app].
  - now apply (endsNumber_facts tail Ht).
  - cbn [forallb] in Hd. apply andb_true_iff in Hd as [Hc _].
    destruct (digit_facts c Hc)
      as (_ & _ & _ & _ & F1 & F2 & F3 & F4 & F5 & F6 & F7 & F8 & F9 & _).
    cbn [hd_error isChar]. cbn [In] in Ha.
    repeat (destruct Ha as [<-|Ha]; [assumption|]). destruct Ha.
Qed.

Lemma digits_run (ds tail : jsstring) (p : nat) (acc : jsstring) :
  forallb isDigit ds = true -> endsNumber tail = true ->
  digits isDigit_ (mk (ds ++ tail) p) acc = (acc ++ ds, mk tail (p + List.length ds)).
Proof.
  intros Hd Ht. destruct (digits_no_underscore ds Hd) as [H1 H2].
  unfold digits. cbn [rest pos].
  rewrite PrefixFacts.digitLoop_run; [now rewrite H2|exact H1|].
  apply (endsNumber_facts tail Ht).
Qed.

Ltac number_norm H :=
  repeat (progress (cbv beta iota zeta; unfold peek, at_;
                    cbn [rest pos hd_error andb orb app nth_error];
                    rewrite ?H by (cbn [In]; tauto))).

(** [readNumber] on an optional minus and a run of digits. *)
Lemma readNumber_integer (neg : bool) (d : char) (ds tail : jsstring) (p : nat) :
  isDigit d = true -> forallb isDigit ds = true -> endsNumber tail = true ->
  let sign := if neg then [ch "-"] else [] in
  readNumber (mk (sign ++ d :: ds ++ tail) p)
  = OK (sign ++ d :: ds, mk tail (List.length (sign ++ d :: ds) + p)).
Proof.
  intros Hd Hds Ht sign.
  destruct (digit_facts d Hd) as (_ & _ & Dm & _).
  pose proof (head_facts ds tail Hds Ht) as Hh.
  pose proof (head_facts [] tail eq_refl Ht) as Hh0. cbn [app] in Hh0.
  assert (Hx : forall lx b, peek lx = hd_error (ds ++ tail) ->
             (b && (isChar (peek lx) "x" || isChar (peek lx) "X"))%bool = false
             /\ (b && (isChar (peek lx) "o" || isChar (peek lx) "O"))%bool = false
             /\ (b && (isChar (peek lx) "b" || isChar (peek lx) "B"))%bool = false).
  { intros lx b ->. rewrite !Hh by (cbn [In]; tauto). now rewrite andb_false_r. }
  unfold readNumber. destruct neg; subst sign; cbn [app].
  - cbn [peek rest hd_error isChar pos]. change (N.eqb (ch "-") (ch "-")) with true.
    cbv iota. rewrite LexerFacts.advance_cons. cbn [peek rest hd_error isChar].
    destruct (N.eqb d (ch "0")) eqn:Ez.
    + cbv iota. rewrite LexerFacts.advance_cons.
      destruct (Hx (mk (ds ++ tail) (S (S p))) true eq_refl) as (X1 & X2 & X3).
      rewrite X1, X2, X3. rewrite digits_run by assumption.
      number_norm Hh0.
      apply N.eqb_eq in Ez. subst d.
      cbn [jsstring_eqb]. rewrite N.eqb_refl. cbn [andb orb].
      do 3 f_equal. cbn [List.length]. lia.
    + cbv iota. cbn [andb].
      change (d :: ds ++ tail) with ((d :: ds) ++ tail).
      rewrite digits_run by (try assumption; cbn [forallb]; now rewrite Hd, Hds).
      number_norm Hh0.
      cbn [jsstring_eqb]. rewrite N.eqb_refl. cbn [andb orb].
      do 3 f_equal. cbn [List.length]. lia.
  - cbn [peek rest hd_error isChar pos]. rewrite Dm. cbv iota.
    cbn [peek rest hd_error isChar].
    destruct (N.eqb d (ch "0")) eqn:Ez.
    + cbv iota. rewrite LexerFacts.advance_cons.
      destruct (Hx (mk (ds ++ tail) (S p)) true eq_refl) as (X1 & X2 & X3).
      rewrite X1, X2, X3. rewrite digits_run by assumption.
      number_norm Hh0.
      apply N.eqb_eq in Ez. subst d.
      cbn [jsstring_eqb]. change (N.eqb (ch "0") (ch "-")) with false. cbn [andb orb].
      do 3 f_equal. cbn [List.length]. lia.
    + cbv iota. cbn [andb].
      change (d :: ds ++ tail) with ((d :: ds) ++ tail).
      rewrite digits_run by (try assumption; cbn [forallb]; now rewrite Hd, Hds).
      number_norm Hh0.
      cbn [jsstring_eqb]. rewrite Dm. cbn [andb orb].
      do 3 f_equal. cbn [List.length]. lia.
Qed.

Lemma scanToken_integer (neg : bool) (d : char) (ds tail : jsstring) (p : nat) :
  isDigit d = true -> forallb isDigit ds = true -> endsNumber tail = true ->
  let sign := if neg then [ch "-"] else [] in
  scanToken (hd d sign) (mk (sign ++ d :: ds ++ tail) p)
  = OK (mkToken NUMBER (sign ++ d :: ds) p,
        mk tail (List.length (sign ++ d :: ds) + p)).
Proof.
  intros Hd Hds Ht sign.
  pose proof (readNumber_integer neg d ds tail p Hd Hds Ht) as Hr. cbv zeta in Hr.
  destruct (digit_facts d Hd)
    as (_ & _ & Dm & _ & _ & _ & _ & _ & _ & _ & _ & _ & _ & _ & _ & _ & _ & Dp & Dq).
  unfold scanToken. destruct neg; subst sign; cbn [hd app] in *.
  - change (punctuation (ch "-")) with (@None TokenType).
    change (N.eqb (ch "-") (ch "'") || N.eqb (ch "-") 34)%bool with false.
    change (N.eqb (ch "-") (ch "-")) with true. cbn [orb].
    cbn [rest List.length at_ nth_error test]. unfold isDigitOrDot. rewrite Hd.
    cbn [orb andb Nat.ltb Nat.leb]. rewrite Hr. reflexivity.
  - rewrite Dp. fold (isQuote d). rewrite Dq, Dm, Hd. cbn [orb]. rewrite Hr. reflexivity.
Qed.

Lemma digit_radix (c : char) : isDigit c = true -> isRadixDigit 10 c = true.
Proof.
  intro H. unfold isDigit in H. unfold isRadixDigit, digitValue. rewrite H.
  unfold inRange in H. apply andb_true_iff in H as [H1 H2]. apply N.leb_le in H1, H2.
  destruct (Z.ltb_spec (Z.of_N c - 48) 10); [reflexivity|lia].
Qed.

Lemma digits_radix (ds : jsstring) :
  forallb isDigit ds = true -> forallb (isRadixDigit 10) ds = true.
Proof.
  induction ds as [|c ds IH]; intro H; [reflexivity|].
  cbn [forallb] in *. apply andb_true_iff in H as [Hc H].
  now rewrite (digit_radix c Hc), IH.
Qed.

Lemma decimalLiteral_integer (neg : bool) (d : char) (ds : jsstring) :
  isDigit d = true -> forallb isDigit ds = true ->
  decimalLiteral neg (d :: ds) = numberOfInt neg (digitsValue 10 (d :: ds)).
Proof.
  intros Hd Hds. unfold decimalLiteral.
  rewrite PrefixFacts.takeDigits_all
    by (apply digits_radix; cbn [forallb]; now rewrite Hd, Hds).
  cbn [app List.length Z.of_nat Z.opp]. rewrite app_nil_r.
  unfold numberOfDecimal. cbn [Z.leb Z.compare Z.pow]. 
  change (10 ^ 0) with 1. now rewrite Z.mul_1_r.
Qed.

Lemma trimStart_clean (c : char) (s : jsstring) :
  isStrWhiteSpace c = false -> trimStart (c :: s) = c :: s.
Proof. intro H. cbn [trimStart]. now rewrite H. Qed.

Lemma trim_clean (s : jsstring) :
  forallb (fun c => negb (isStrWhiteSpace c)) s = true -> trim s = s.
Proof.
  intro H. unfold trim.
  assert (G : forall l, forallb (fun c => negb (isStrWhiteSpace c)) l = true ->
                        trimStart l = l).
  { intros [|c l] Hl; [reflexivity|]. cbn [forallb] in Hl.
    apply andb_true_iff in Hl as [Hc _]. apply negb_true_iff in Hc.
    now apply trimStart_clean. }
  rewrite (G s H), G by now rewrite TrimFacts.forallb_rev.
  apply rev_involutive.
Qed.

Lemma digits_clean (ds : jsstring) :
  forallb isDigit ds = true -> forallb (fun c => negb (isStrWhiteSpace c)) ds = true.
Proof.
  induction ds as [|c ds IH]; intro H; [reflexivity|].
  cbn [forallb] in *. apply andb_true_iff in H as [Hc H].
  destruct (digit_facts c Hc)
    as (_ & _ & _ & _ & _ & _ & _ & _ & _ & _ & _ & _ & _ & _ & Dw & _).
  now rewrite Dw, IH.
Qed.

(** [Number] on an optional minus and a run of digits. *)
Lemma Number_ofString_integer (neg : bool) (d : char) (ds : jsstring) :
  isDigit d = true -> forallb isDigit ds = true ->
  Number_ofString ((if neg then [ch "-"] else []) ++ d :: ds)
  = numberOfInt neg (digitsValue 10 (d :: ds)).
Proof.
  intros Hd Hds.
  assert (Hall : forallb isDigit (d :: ds) = true) by (cbn [forallb]; now rewrite Hd, Hds).
  destruct (digit_facts d Hd)
    as (_ & _ & Dm & Dp & _ & _ & _ & F4 & F5 & F6 & F7 & F8 & F9 & Di & _).
  unfold Number_ofString. destruct neg.
  - rewrite trim_clean by (rewrite forallb_app, (digits_clean _ Hall); reflexivity).
    cbn [app].
    change (N.eqb (ch "-") (ch "0")) with false. cbn [andb orb].
    change (N.eqb (ch "-") (ch "+")) with false.
    change (N.eqb (ch "-") (ch "-")) with true. cbn [orb].
    cbn [str jsstring_eqb]. rewrite Di. cbn [andb].
    now apply decimalLiteral_integer.
  - cbn [app]. rewrite trim_clean by (apply digits_clean, Hall).
    destruct ds as [|x body]; [now apply decimalLiteral_integer|].
    cbn [forallb] in Hds. apply andb_true_iff in Hds as [Hx Hb].
    destruct (digit_facts x Hx)
      as (_ & _ & _ & _ & _ & _ & _ & G4 & G5 & G6 & G7 & G8 & G9 & _).
    rewrite G4, G5, G6, G7, G8, G9, Dm, Dp. cbn [orb]. rewrite !andb_false_r.
    cbn [str jsstring_eqb]. rewrite Di. cbn [andb].
    apply decimalLiteral_integer; [exact Hd|]. cbn [forallb]. now rewrite Hx, Hb.
Qed.

(** *** The decimal numeral of an integer *)

Lemma digitsValue_snoc (ds : jsstring) (c : char) :
  digitsValue 10 (ds ++ [c])
  = digitsValue 10 ds * 10 + match digitValue 10 c with Some v => v | None => 0 end.
Proof. unfold digitsValue. now rewrite fold_left_app. Qed.

Lemma digit_char (d : Z) :
  0 <= d < 10 ->
  isDigit (Z.to_N (48 + d)) = true /\ digitValue 10 (Z.to_N (48 + d)) = Some d.
Proof.
  intro H.
  assert (C : d = 0 \/ d = 1 \/ d = 2 \/ d = 3 \/ d = 4 \/ d = 5 \/ d = 6 \/ d = 7
              \/ d = 8 \/ d = 9) by lia.
  repeat (destruct C as [->|C]; [now split|]). subst d. now split.
Qed.

Lemma decimalDigits_spec (n : Z) :
  0 <= n ->
  forallb isDigit (decimalDigits n) = true
  /\ decimalDigits n <> []
  /\ digitsValue 10 (decimalDigits n) = n.
Proof.
  intro H0. assert (H0' : 0 <= n) by exact H0. revert H0'.
  pattern n. apply Z_lt_induction; [clear n H0|exact H0].
  intros n IH Hn. destruct (Z_lt_le_dec n 10) as [Hs|Hl].
  - rewrite NumeralFacts.decimalDigits_small by lia.
    destruct (digit_char n ltac:(lia)) as [D1 D2].
    cbn [forallb]. rewrite D1. split; [reflexivity|]. split; [discriminate|].
    unfold digitsValue. cbn [fold_left]. rewrite D2. lia.
  - assert (E : n = 10 * (n / 10) + n mod 10) by (apply Z.div_mod; lia).
    assert (Hq : 0 < n / 10) by (apply Z.div_str_pos; lia).
    assert (Hr : 0 <= n mod 10 < 10) by (apply Z.mod_pos_bound; lia).
    destruct (IH (n / 10)) as (I1 & I2 & I3).
    { split; [lia|]. apply Z.div_lt; lia. }
    { lia. }
    destruct (digit_char (n mod 10) Hr) as [D1 D2].
    rewrite E at 1 2 3. rewrite NumeralFacts.decimalDigits_step by assumption.
    rewrite forallb_app, I1. cbn [forallb]. rewrite D1.
    split; [reflexivity|]. split; [now destruct (decimalDigits (n / 10))|].
    rewrite digitsValue_snoc, I3, D2. lia.
Qed.

(** [canon] keeps the sign apart. *)
Lemma canon_sign (neg : bool) (m e : Z) :
  0 < m ->
  exists m' e', 0 < m' /\ canon neg m e = JFin neg m' e'
                /\ canon false m e = JFin false m' e'.
Proof.
  intro Hm. destruct m as [|q|q]; try lia. cbn [canon].
  destruct (stripZeros q e) as [q' e']. exists (Zpos q'), e'. now repeat split.
Qed.

Lemma Number_toString_negative (m e : Z) :
  0 < m ->
  Number_toString (JFin true m e) = ch "-" :: Number_toString (JFin false m e).
Proof.
  intro Hm. unfold Number_toString.
  destruct (Z.eqb_spec m 0); [lia|].
  destruct (ratioOf m e) as [P Q].
  destruct (shortest 16 m e P Q (pointPos P Q) 1) as [[s k] n']. reflexivity.
Qed.

(** [JSON.stringify] of the Number for an integer of magnitude below
    [2^53]. *)
Lemma serialize_integer (gap indent : jsstring) (neg : bool) (n : Z) :
  0 <= n < 2 ^ 53 ->
  serialize gap indent (VNumber (numberOfInt neg n))
  = (if (neg && negb (n =? 0))%bool then [ch "-"] else []) ++ decimalDigits n.
Proof.
  intros [H0 Hb]. destruct (Z.eqb_spec n 0) as [->|Hz].
  { rewrite andb_false_r. reflexivity. }
  pose proof (NumeralFacts.Number_toString_int n ltac:(lia)) as Hs.
  rewrite NumeralFacts.numberOfInt_exact in * by lia.
  destruct (canon_sign neg n 0 ltac:(lia)) as (m & e & Hm & E1 & E2).
  rewrite E1. rewrite E2 in Hs. cbn [serialize negb andb].
  destruct neg; cbn [andb app].
  - now rewrite Number_toString_negative, Hs.
  - exact Hs.
Qed.

End IntegerFacts.

(** X9. Integers survive.  The decimal numeral of an integer [n] with
    [0 <= n < 2^53] converts to itself, and so does the numeral with a minus
    sign in front when [n] is not zero; minus zero is written [0].  The
    bound is sharp: [2^53 + 1] comes out as [2^53]. *)
Theorem integer_literal_preserved (n : Z) (indent : Z) :
  0 <= n < 2 ^ 53 ->
  pythonDictToJson (decimalDigits n) indent = OK (decimalDigits n)
  /\ pythonDictToJson (ch "-" :: decimalDigits n) indent
     = OK (if n =? 0 then str "0" else ch "-" :: decimalDigits n)
  /\ pythonDictToJson (str "9007199254740993") indent = OK (str "9007199254740992").
Proof.
  intro Hn. destruct (IntegerFacts.decimalDigits_spec n ltac:(lia)) as (Hd & Hne & Hv).
  destruct (decimalDigits n) as [|d ds] eqn:E; [contradiction|].
  cbn [forallb] in Hd. apply andb_true_iff in Hd as [Hd Hds].
  assert (G : forall neg : bool,
             pythonDictToJson ((if neg then [ch "-"] else []) ++ d :: ds) indent
             = OK ((if (neg && negb (n =? 0))%bool then [ch "-"] else []) ++ d :: ds)).
  { intro neg. unfold pythonDictToJson.
    rewrite IntegerFacts.trim_clean.
    2:{ rewrite forallb_app.
        rewrite (IntegerFacts.digits_clean (d :: ds))
          by (cbn [forallb]; now rewrite Hd, Hds).
        now destruct neg. }
    pose proof (IntegerFacts.scanToken_integer neg d ds [] 0 Hd Hds eq_refl) as Hs.
    cbv zeta in Hs. rewrite app_nil_r in Hs.
    assert (Ht : Lexer.tokenize ((if neg then [ch "-"] else []) ++ d :: ds)
                 = OK [mkToken NUMBER ((if neg then [ch "-"] else []) ++ d :: ds) 0;
                       mkToken EOF []
                         (List.length ((if neg then [ch "-"] else []) ++ d :: ds) + 0)]).
    { apply StepFacts.Lexes_tokenize. unfold Lexer.init.
      destruct (IntegerFacts.digit_facts d Hd)
        as (_ & _ & _ & _ & _ & _ & _ & _ & _ & _ & _ & _ & _ & _ & _ & Db & Dh & _).
      destruct neg; cbn [app hd] in *.
      - eapply StepFacts.Lexes_scan; [reflexivity|reflexivity|exact Hs|].
        apply StepFacts.Lexes_nil.
      - eapply StepFacts.Lexes_scan; [exact Db|exact Dh|exact Hs|].
        apply StepFacts.Lexes_nil. }
    rewrite Ht. cbn [bind].
    assert (Hp : Parser.parse
                   [mkToken NUMBER ((if neg then [ch "-"] else []) ++ d :: ds) 0;
                    mkToken EOF []
                      (List.length ((if neg then [ch "-"] else []) ++ d :: ds) + 0)]
                 = OK (VNumber (numberOfInt neg n))).
    { unfold Parser.parse. cbn [List.length Parser.parseValue Parser.current bind type].
      unfold Parser.parseNumber. cbn [Parser.expect Parser.current bind type
                                        TokenType_eqb negb value Parser.next tl].
      rewrite IntegerFacts.Number_ofString_integer, Hv by assumption.
      assert (Hnan : isNaN (numberOfInt neg n) = false).
      { destruct (Z.eq_dec n 0) as [->|Hz]; [reflexivity|].
        rewrite NumeralFacts.numberOfInt_exact by lia.
        destruct (NumeralFacts.canon_value neg n 0) as (m & e & -> & _); [lia|lia|].
        reflexivity. }
      rewrite Hnan. reflexivity. }
    rewrite Hp. cbn [bind]. unfold JSON_stringify.
    rewrite IntegerFacts.serialize_integer by exact Hn. rewrite E.
    destruct neg; reflexivity. }
  split; [exact (G false)|]. split; [|vm_compute; reflexivity].
  specialize (G true). cbn [andb app] in G. rewrite G.
  destruct (Z.eqb_spec n 0) as [->|Hz]; [|reflexivity].
  cbn [negb app]. f_equal. rewrite <- E. reflexivity.
Qed.

Lemma integer_literal_preserved_witness :
  pythonDictToJson (decimalDigits 9007199254740991) 4
  = OK (decimalDigits 9007199254740991).
Proof.
  apply (integer_literal_preserved 9007199254740991 4). split; [lia|reflexivity].
Defined.

(** ** Values and their JSON text *)

Module ValueFacts.

(** Induction on a value together with the values inside it. *)
Lemma jsvalue_nested_ind (P : jsvalue -> Prop) :
  P VNull ->
  (forall b, P (VBool b)) ->
  (forall n, P (VNumber n)) ->
  (forall s, P (VString s)) ->
  (forall elems, Forall P elems -> P (VArray elems)) ->
  (forall proto props, Forall (fun kv => P (snd kv)) props -> P (VObject proto props)) ->
  forall v, P v.
Proof.
  intros Hnull Hbool Hnum Hstr Harr Hobj. fix IH 1.
  intros [|b|n|s|elems|proto props].
  - exact Hnull.
  - apply Hbool.
  - apply Hnum.
  - apply Hstr.
  - apply Harr. induction elems as [|x l IHl]; constructor; [apply IH|exact IHl].
  - apply Hobj. induction props as [|[k x] l IHl]; constructor; [apply IH|exact IHl].
Qed.

Lemma distinctKeys_NoDup {A : Type} (props : list (jsstring * A)) :
  distinctKeys props = true <-> NoDup (map fst props).
Proof.
  induction props as [|[k v] ps IH]; cbn [distinctKeys map fst].
  - split; [constructor|reflexivity].
  - rewrite andb_true_iff, negb_true_iff, IH. split.
    + intros [H1 H2]. constructor; [|exact H2].
      intro Hin. apply ObjectFacts.hasOwn_In in Hin. congruence.
    + intro H. inversion H as [|? ? Hn Hd]; subst. split; [|exact Hd].
      destruct (hasOwn ps k) eqn:E; [|reflexivity].
      apply ObjectFacts.hasOwn_In in E. contradiction.
Qed.

(** *** The order of own properties, once more *)

Lemma arrayIndex_canonical (k : jsstring) (n : Z) :
  arrayIndex k = Some n -> k = decimalDigits n.
Proof.
  unfold arrayIndex. destruct k as [|c r]; [discriminate|].
  destruct (forallb (inRange 48 57) (c :: r)
            && (negb (N.eqb c 48) || match r with [] => true | _ => false end))%bool
    eqn:E; [|discriminate].
  destruct (digitsValue 10 (c :: r) <? 4294967295); [|discriminate].
  intros [= <-]. apply andb_true_iff in E as [Hd Hc].
  change (inRange 48 57) with Lexer.isDigit in Hd.
  assert (G : forall l, forallb Lexer.isDigit l = true -> l <> [] ->
                        (l = [48%N] \/ exists a t, l = a :: t /\ N.eqb a 48 = false) ->
                        l = decimalDigits (digitsValue 10 l)).
  { clear. intro l. induction l as [|x l IH] using rev_ind; intros Hd Hne Hc;
      [contradiction|].
    rewrite forallb_app in Hd. apply andb_true_iff in Hd as [Hl Hx].
    cbn [forallb] in Hx. rewrite andb_true_r in Hx.
    rewrite IntegerFacts.digitsValue_snoc.
    assert (Hxv : exists d, 0 <= d < 10 /\ x = Z.to_N (48 + d)
                            /\ digitValue 10 x = Some d).
    { unfold Lexer.isDigit, inRange in Hx. apply andb_true_iff in Hx as [H1 H2].
      apply N.leb_le in H1, H2. exists (Z.of_N x - 48).
      assert (Hb : 0 <= Z.of_N x - 48 < 10) by lia.
      split; [exact Hb|]. split; [rewrite <- (N2Z.id x) at 1; f_equal; lia|].
      destruct (IntegerFacts.digit_char _ Hb) as [_ Hv].
      replace (Z.to_N (48 + (Z.of_N x - 48))) with x in Hv; [exact Hv|].
      rewrite <- (N2Z.id x) at 1. f_equal. lia. }
    destruct Hxv as (d & Hdb & -> & ->).
    destruct l as [|a t].
    - cbn [app]. unfold digitsValue at 1. cbn [fold_left Z.mul Z.add].
      now rewrite NumeralFacts.decimalDigits_small.
    - assert (Ha : N.eqb a 48 = false).
      { destruct Hc as [Hc|(a' & t' & Hc & Ha')].
        - destruct t; discriminate Hc.
        - cbn [app] in Hc. injection Hc as <- _. exact Ha'. }
      assert (IHl : a :: t = decimalDigits (digitsValue 10 (a :: t))).
      { apply IH; [exact Hl|discriminate|]. right. now exists a, t. }
      assert (Hpos : 0 < digitsValue 10 (a :: t)).
      { pose proof (PrefixFacts.digitsValue_nonneg 10 (a :: t) ltac:(lia)) as H0.
        destruct (Z.eq_dec (digitsValue 10 (a :: t)) 0) as [Hz|Hz]; [|lia].
        rewrite Hz in IHl. change (decimalDigits 0) with [48%N] in IHl.
        injection IHl as -> _. discriminate Ha. }
      replace (digitsValue 10 (a :: t) * 10 + d)
        with (10 * digitsValue 10 (a :: t) + d) by lia.
      rewrite NumeralFacts.decimalDigits_step by assumption.
      now rewrite <- IHl. }
  apply G; [exact Hd|discriminate|].
  apply orb_true_iff in Hc as [Hc|Hc].
  - right. exists c, r. split; [reflexivity|now apply negb_true_iff].
  - destruct r; [|discriminate].
    destruct (N.eqb_spec c 48) as [->|Hn]; [now left|].
    right. exists c, []. split; [reflexivity|now apply N.eqb_neq].
Qed.

Lemma arrayIndex_inj (k k' : jsstring) (n : Z) :
  arrayIndex k = Some n -> arrayIndex k' = Some n -> k = k'.
Proof.
  intros H H'. apply arrayIndex_canonical in H, H'. congruence.
Qed.

Lemma filter_split_perm {A : Type} (f : A -> bool) (l : list A) :
  Permutation (filter f l ++ filter (fun x => negb (f x)) l) l.
Proof.
  induction l as [|a l IH]; [constructor|].
  cbn [filter]. destruct (f a); cbn [negb app].
  - now apply perm_skip.
  - eapply Permutation_trans; [apply Permutation_sym, Permutation_middle|].
    now apply perm_skip.
Qed.

Lemma ownProperties_perm {A : Type} (props : list (jsstring * A)) :
  Permutation (ownProperties props) props.
Proof.
  unfold ownProperties.
  eapply Permutation_trans; [|apply (filter_split_perm (fun kv => isArrayIndex (fst kv)))].
  apply Permutation_app_tail, ObjectFacts.indexProps_perm.
Qed.

Lemma ownProperties_NoDup {A : Type} (props : list (jsstring * A)) :
  NoDup (map fst props) -> NoDup (map fst (ownProperties props)).
Proof.
  intro H. eapply Permutation_NoDup; [|exact H].
  apply Permutation_sym, Permutation_map, ownProperties_perm.
Qed.

Lemma indexProps_keys_perm {A : Type} (props : list (jsstring * A)) :
  Permutation (map (fun e => fst (snd e)) (indexProps props))
              (filter isArrayIndex (map fst props)).
Proof.
  rewrite <- (ObjectFacts.filter_map_fst isArrayIndex), <- map_map.
  apply Permutation_map, ObjectFacts.indexProps_perm.
Qed.

Lemma NoDup_filter {A : Type} (f : A -> bool) (l : list A) :
  NoDup l -> NoDup (filter f l).
Proof.
  induction 1 as [|a l Hn Hd IH]; cbn [filter]; [constructor|].
  destruct (f a); [|exact IH]. constructor; [|exact IH].
  intro Hin. apply filter_In in Hin. tauto.
Qed.

Lemma indexProps_ascending {A : Type} (props : list (jsstring * A)) :
  NoDup (map fst props) -> ascending (indexProps props).
Proof.
  intro Hnd.
  assert (Hk : NoDup (map (fun e => fst (snd e)) (indexProps props))).
  { eapply Permutation_NoDup; [apply Permutation_sym, indexProps_keys_perm|].
    now apply NoDup_filter. }
  pose proof (ObjectFacts.indexProps_sorted props) as Hs.
  pose proof (ObjectFacts.indexProps_index props) as Hi.
  unfold ascending. induction Hs as [|e l Hs IH Hall]; [constructor|].
  inversion Hi as [|? ? He Hl]; subst. cbn [map] in Hk.
  inversion Hk as [|? ? Hnot Hk']; subst.
  constructor; [now apply IH|].
  rewrite Forall_forall in *. intros b Hb.
  pose proof (Hall b Hb) as Hle. unfold leIndex in Hle.
  destruct (Z.eq_dec (fst e) (fst b)) as [Heq|Hne]; [|lia].
  exfalso. apply Hnot.
  pose proof (Hl b Hb) as Hbi. cbv beta in Hbi. rewrite <- Heq in Hbi.
  rewrite (arrayIndex_inj _ _ _ He Hbi).
  apply in_map_iff. now exists b.
Qed.

Lemma insertByIndex_first {A : Type} (n : Z) (kv : jsstring * A)
    (l : list (Z * (jsstring * A))) :
  Forall (fun b => n < fst b) l -> insertByIndex n kv l = (n, kv) :: l.
Proof.
  destruct l as [|[m kv'] l]; [reflexivity|].
  intro H. inversion H as [|? ? Hm _]; subst. cbn [fst] in Hm.
  cbn [insertByIndex]. destruct (Z.ltb_spec n m); [reflexivity|lia].
Qed.

Lemma indexProps_again {A : Type} (t : list (Z * (jsstring * A)))
    (rest_ : list (jsstring * A)) :
  ascending t ->
  Forall (fun e => arrayIndex (fst (snd e)) = Some (fst e)) t ->
  Forall (fun kv => isArrayIndex (fst kv) = false) rest_ ->
  indexProps (map snd t ++ rest_) = t.
Proof.
  intros Ha Hi Hr. induction Ha as [|[n [k v]] l Hs IH Hall].
  - cbn [map app]. induction Hr as [|[k v] r Hk _ IHr]; [reflexivity|].
    cbn [indexProps]. unfold isArrayIndex in Hk. cbn [fst] in Hk.
    destruct (arrayIndex k); [discriminate|exact IHr].
  - inversion Hi as [|? ? He Hl]; subst. cbn [fst snd] in He.
    cbn [map app snd indexProps]. rewrite He, IH by exact Hl.
    apply insertByIndex_first. exact Hall.
Qed.

(** Enumerating the own properties of an object built in enumeration
    order changes nothing. *)
Lemma ownProperties_idem {A : Type} (props : list (jsstring * A)) :
  NoDup (map fst props) ->
  ownProperties (ownProperties props) = ownProperties props.
Proof.
  intro Hnd. unfold ownProperties at 1.
  assert (Hi : Forall (fun kv : jsstring * A => isArrayIndex (fst kv) = true)
                 (map snd (indexProps props))).
  { apply Forall_map. eapply Forall_impl; [|apply ObjectFacts.indexProps_index].
    intros e He. cbv beta in *. unfold isArrayIndex. now rewrite He. }
  assert (Hn : Forall (fun kv : jsstring * A => isArrayIndex (fst kv) = false)
                 (filter (fun kv => negb (isArrayIndex (fst kv))) props)).
  { apply Forall_forall. intros kv Hkv. apply filter_In in Hkv as [_ Hkv].
    now apply negb_true_iff. }
  unfold ownProperties at 1 2.
  rewrite indexProps_again;
    [|now apply indexProps_ascending|apply ObjectFacts.indexProps_index|exact Hn].
  unfold ownProperties. f_equal.
  rewrite filter_app.
  assert (E1 : filter (fun kv : jsstring * A => negb (isArrayIndex (fst kv)))
                 (map snd (indexProps props)) = []).
  { clear -Hi. induction Hi as [|kv l Hkv _ IH]; [reflexivity|].
    cbn [filter]. now rewrite Hkv. }
  rewrite E1. cbn [app].
  clear -Hn. induction Hn as [|kv l Hkv _ IH]; [reflexivity|].
  cbn [filter]. rewrite Hkv. cbn [negb]. now rewrite IH.
Qed.

Lemma map_fst_values {A B : Type} (g : A -> B) (props : list (jsstring * A)) :
  map fst (map (fun kv => (fst kv, g (snd kv))) props) = map fst props.
Proof. rewrite map_map. now apply map_ext. Qed.

(** The text of a value and of what is read back from it are the same. *)
Lemma serialize_reread (gap : jsstring) (v : jsvalue) :
  wellKeyed v = true ->
  forall indent, serialize gap indent (reread v) = serialize gap indent v.
Proof.
  induction v as [|b|n|s|elems IH|proto props IH] using jsvalue_nested_ind;
    intros Hw indent; try reflexivity.
  - destruct n as [| |neg m e]; try reflexivity.
    cbn [reread serialize].
    destruct (Z.eqb_spec m 0) as [->|_]; [|now rewrite andb_true_r].
    reflexivity.
  - cbn [reread serialize wellKeyed] in *. f_equal. rewrite map_map.
    apply map_ext_in. intros x Hx. rewrite Forall_forall in IH.
    apply IH; [exact Hx|]. rewrite forallb_forall in Hw. now apply Hw.
  - cbn [reread serialize wellKeyed] in *.
    apply andb_true_iff in Hw as [Hd Hw].
    apply distinctKeys_NoDup in Hd.
    f_equal. f_equal.
    rewrite !ObjectFacts.ownProperties_map.
    rewrite ownProperties_idem by exact Hd.
    rewrite map_map. apply map_ext_in. intros kv Hkv. cbn [fst snd].
    f_equal. apply ObjectFacts.ownProperties_In in Hkv.
    rewrite Forall_forall in IH. apply IH; [exact Hkv|].
    rewrite forallb_forall in Hw. now apply Hw.
Qed.

End ValueFacts.

(** ** Reading JSON text *)

Module ReadFacts.
Import ValueFacts.

Lemma LexesTo_nil (ok : jsstring -> bool) : LexesTo ok [] (fun toks => toks = []).
Proof. intros tail p _. exists [], p. split; [reflexivity|]. intros more H. exact H. Qed.

Lemma LexesTo_app (ok1 ok2 : jsstring -> bool) (t1 t2 : jsstring)
    (P1 P2 : list Token -> Prop) :
  LexesTo ok1 t1 P1 -> LexesTo ok2 t2 P2 ->
  (forall tail, ok2 tail = true -> ok1 (t2 ++ tail) = true) ->
  LexesTo ok2 (t1 ++ t2) (fun toks => exists a b, toks = a ++ b /\ P1 a /\ P2 b).
Proof.
  intros H1 H2 Hok tail p Ht.
  destruct (H1 (t2 ++ tail) p (Hok tail Ht)) as (a & p1 & Pa & La).
  destruct (H2 tail p1 Ht) as (b & p2 & Pb & Lb).
  exists (a ++ b), p2. split; [now exists a, b|].
  intros more Hm. rewrite <- !app_assoc. apply La, Lb, Hm.
Qed.

Lemma LexesTo_weaken (ok ok' : jsstring -> bool) (text : jsstring)
    (P Q : list Token -> Prop) :
  LexesTo ok text P ->
  (forall tail, ok' tail = true -> ok tail = true) ->
  (forall toks, P toks -> Q toks) ->
  LexesTo ok' text Q.
Proof.
  intros H Hok HPQ tail p Ht.
  destruct (H tail p (Hok tail Ht)) as (toks & p' & HP & HL).
  exists toks, p'. split; [now apply HPQ|exact HL].
Qed.

Lemma LexesTo_blanks (ws : jsstring) :
  forallb isBlank ws = true -> LexesTo anything ws (fun toks => toks = []).
Proof.
  induction ws as [|c ws IH]; intro H; [apply LexesTo_nil|].
  cbn [forallb] in H. apply andb_true_iff in H as [Hc H].
  intros tail p _. destruct (IH H tail (S p) eq_refl) as (toks & p' & -> & HL).
  exists [], p'. split; [reflexivity|]. intros more Hm. cbn [app].
  apply StepFacts.Lexes_blank; [exact Hc|]. apply (HL more Hm).
Qed.

Lemma LexesTo_scan (ok : jsstring -> bool) (c : char) (text : jsstring)
    (ty : TokenType) (val : jsstring) :
  isBlank c = false -> N.eqb c (ch "#") = false ->
  (forall tail p, ok tail = true ->
     exists p', Lexer.scanToken c (Lexer.mk ((c :: text) ++ tail) p)
                = OK (mkToken ty val p, Lexer.mk tail p')) ->
  LexesTo ok (c :: text) (single ty val).
Proof.
  intros Hb Hh Hs tail p Ht. destruct (Hs tail p Ht) as (p' & E).
  exists [mkToken ty val p], p'. split; [now exists (mkToken ty val p)|].
  intros more Hm. cbn [app] in *.
  eapply StepFacts.Lexes_scan; eassumption.
Qed.

Lemma LexesTo_punctuation (c : char) (ty : TokenType) :
  Lexer.punctuation c = Some ty -> LexesTo anything [c] (single ty [c]).
Proof.
  intro H. apply LexesTo_scan.
  - unfold Lexer.punctuation in H. unfold isBlank.
    repeat match type of H with
           | (if N.eqb c ?k then _ else _) = _ =>
               destruct (N.eqb_spec c k) as [->|?]; [reflexivity|]
           end.
    discriminate.
  - unfold Lexer.punctuation in H.
    repeat match type of H with
           | (if N.eqb c ?k then _ else _) = _ =>
               destruct (N.eqb_spec c k) as [->|?]; [reflexivity|]
           end.
    discriminate.
  - intros tail p _. exists (S p). cbn [app].
    now apply StepFacts.scanToken_punctuation.
Qed.

Lemma LexesTo_string (s : jsstring) :
  LexesTo noQuote (QuoteJSONString s) (single STRING s).
Proof.
  unfold QuoteJSONString. cbn [app].
  apply LexesTo_scan; [reflexivity|reflexivity|].
  intros tail p Ht. eexists. cbn [app]. rewrite <- app_assoc. cbn [app].
  apply StringFacts.scanToken_quoted; [reflexivity|apply StringFacts.quoteChars_Decodes|].
  right. unfold noQuote in Ht. now apply negb_true_iff in Ht.
Qed.

Lemma LexesTo_integer (neg : bool) (d : char) (ds : jsstring) :
  Lexer.isDigit d = true -> forallb Lexer.isDigit ds = true ->
  LexesTo endsNumber ((if neg then [ch "-"] else []) ++ d :: ds)
    (single NUMBER ((if neg then [ch "-"] else []) ++ d :: ds)).
Proof.
  intros Hd Hds.
  destruct (IntegerFacts.digit_facts d Hd)
    as (_ & _ & _ & _ & _ & _ & _ & _ & _ & _ & _ & _ & _ & _ & _ & Db & Dh & _).
  destruct neg; cbn [app].
  - apply LexesTo_scan; [reflexivity|reflexivity|].
    intros tail p Ht. eexists.
    pose proof (IntegerFacts.scanToken_integer true d ds tail p Hd Hds Ht) as H.
    cbv zeta in H. cbn [hd app] in H. cbn [app]. exact H.
  - apply LexesTo_scan; [exact Db|exact Dh|].
    intros tail p Ht. eexists.
    pose proof (IntegerFacts.scanToken_integer false d ds tail p Hd Hds Ht) as H.
    cbv zeta in H. cbn [hd app] in H. cbn [app]. exact H.
Qed.

Lemma LexesTo_word (c : char) (id' : jsstring) :
  Lexer.isAlpha_ c = true -> forallb Lexer.isIdent id' = true ->
  LexesTo noIdent (c :: id')
    (fun toks => exists p, toks = [Lexer.identToken (c :: id') p]).
Proof.
  intros Hc Hid tail p Ht.
  destruct (IdentFacts.alpha_not_space c Hc) as [Hws Hh].
  exists [Lexer.identToken (c :: id') p], (p + List.length (c :: id'))%nat.
  split; [now exists p|]. intros more Hm. cbn [app].
  eapply StepFacts.Lexes_scan; [exact Hws|exact Hh| |exact Hm].
  unfold Lexer.scanToken.
  rewrite (IdentFacts.alpha_not_punctuation c Hc).
  rewrite (IdentFacts.alpha_not_quote c Hc).
  rewrite (IdentFacts.alpha_not_number c Hc).
  rewrite Hc. unfold Lexer.readIdentifier. cbn [Lexer.rest Lexer.pos].
  change (c :: id' ++ tail) with ((c :: id') ++ tail).
  rewrite IdentFacts.identLoop_run; [reflexivity| |].
  - cbn [forallb]. unfold Lexer.isIdent at 1. now rewrite Hc, Hid.
  - unfold noIdent in Ht. now apply negb_true_iff in Ht.
Qed.

(** *** Token lists that are values *)

Lemma IsValue_string (tok : Token) :
  type tok = STRING -> IsValue [tok] (VString (value tok)).
Proof.
  intro H. exists 1%nat. intro X. cbn [app Parser.parseValue Parser.current bind].
  rewrite H. unfold Parser.parseString. now rewrite <- H, ParserFacts.expect_cons.
Qed.

Lemma IsValue_number (tok : Token) :
  type tok = NUMBER -> isNaN (Number_ofString (value tok)) = false ->
  IsValue [tok] (VNumber (Number_ofString (value tok))).
Proof.
  intros H Hn. exists 1%nat. intro X. cbn [app Parser.parseValue Parser.current bind].
  rewrite H. unfold Parser.parseNumber. rewrite <- H, ParserFacts.expect_cons.
  cbn [bind]. now rewrite Hn.
Qed.

Lemma IsValue_head (vts : list Token) (v : jsvalue) :
  IsValue vts v ->
  exists tok r, vts = tok :: r
                /\ TokenType_eqb (type tok) RBRACKET = false
                /\ TokenType_eqb (type tok) RBRACE = false.
Proof.
  intros [f H]. specialize (H []). rewrite app_nil_r in H.
  destruct f as [|f]; [discriminate|]. cbn [Parser.parseValue] in H.
  destruct vts as [|tok r]; [discriminate|]. exists tok, r. split; [reflexivity|].
  cbn [Parser.current bind] in H. destruct (type tok); try discriminate; now split.
Qed.

(** The loop of a list literal on values separated by commas. *)
Lemma seqLoop_elems (body : list Token) (vs : list jsvalue) :
  SeqBody body vs ->
  exists F, forall f g acc c R,
      (F <= f)%nat -> (F <= g)%nat -> type c = RBRACKET ->
      seqLoop (Parser.parseValue f) RBRACKET g acc (body ++ c :: R)
      = OK (acc ++ vs, c :: R).
Proof.
  induction 1 as [vts v Hv|vts more comma v vs Hv Hcomma Hmore [F' IH]].
  - destruct (IsValue_head vts v Hv) as (tok & r & -> & Eb & _).
    destruct Hv as [f0 Hv]. exists (S f0). intros f g acc c R Hf Hg Hc.
    destruct g as [|g]; [lia|].
    cbn [app seqLoop]. rewrite ParserFacts.peek_cons. cbn [bind]. rewrite Eb.
    change (tok :: r ++ c :: R) with ((tok :: r) ++ c :: R).
    rewrite (ParserFacts.parseValue_mono f0 f ltac:(lia) _ _ (Hv (c :: R)))
      by discriminate.
    cbn [bind]. rewrite ParserFacts.peek_cons, Hc. reflexivity.
  - destruct (IsValue_head vts v Hv) as (tok & r & -> & Eb & _).
    destruct Hv as [f0 Hv]. exists (S (Nat.max f0 F')). intros f g acc c R Hf Hg Hc.
    destruct g as [|g]; [lia|].
    cbn [app seqLoop]. rewrite ParserFacts.peek_cons. cbn [bind]. rewrite Eb.
    rewrite <- app_assoc. cbn [app].
    change (tok :: r ++ comma :: more ++ c :: R)
      with ((tok :: r) ++ comma :: more ++ c :: R).
    rewrite (ParserFacts.parseValue_mono f0 f ltac:(lia) _ _
               (Hv (comma :: more ++ c :: R))) by discriminate.
    cbn [bind]. rewrite ParserFacts.peek_cons, Hcomma. cbn [bind TokenType_eqb].
    cbn [Parser.next tl]. rewrite IH by (try lia; exact Hc).
    now rewrite <- app_assoc.
Qed.

Lemma SeqBody_head (body : list Token) (vs : list jsvalue) :
  SeqBody body vs ->
  exists tok b, body = tok :: b /\ TokenType_eqb (type tok) RBRACKET = false.
Proof.
  destruct 1 as [vts v Hv|vts more comma v vs Hv _ _];
    destruct (IsValue_head vts v Hv) as (tok & r & -> & Eb & _);
    exists tok; eexists; (split; [reflexivity|exact Eb]).
Qed.

(** A list literal with the given elements parses to their array. *)
Lemma parse_seq (o c : Token) (body : list Token) (vs : list jsvalue) :
  type o = LBRACKET -> type c = RBRACKET ->
  SeqBody body vs ->
  IsValue (o :: body ++ [c]) (VArray vs).
Proof.
  intros Ho Hc Hb. destruct (seqLoop_elems body vs Hb) as [F HF].
  destruct (SeqBody_head body vs Hb) as (tok & b & -> & Etok).
  exists (S F). intro X. cbn [app]. rewrite <- app_assoc. cbn [app].
  apply (ParserFacts.container_build ListKind); try assumption.
  cbn [loopOf app]. 
  change (tok :: b ++ c :: X) with ((tok :: b) ++ c :: X).
  rewrite HF by (try lia; exact Hc). reflexivity.
Qed.

Lemma parse_empty (k : Kind) (o c : Token) :
  type o = openOf k -> type c = closeOf k -> IsValue [o; c] (emptyOf k).
Proof.
  intros Ho Hc. exists 1%nat. intro X. cbn [app].
  now apply ParserFacts.container_empty.
Qed.

Lemma parse_object (o c : Token) (body : list Token)
    (entries : list (jsstring * jsvalue)) :
  type o = LBRACE -> type c = RBRACE ->
  DictBody body entries ->
  IsValue (o :: body ++ [c]) (fold_left store entries emptyObject).
Proof.
  intros Ho Hc Hb. destruct (ObjectFacts.parse_dict o c body entries Ho Hc Hb) as [f Hf].
  exists f. intro X. cbn [app]. rewrite <- app_assoc. cbn [app]. apply Hf.
Qed.

(** Entries with distinct keys, none of them [__proto__], stored in a
    fresh object in their order. *)
Lemma assign_fresh (es ps : list (jsstring * jsvalue)) :
  NoDup (map fst (ps ++ es)) -> fold_left assign es ps = ps ++ es.
Proof.
  revert ps; induction es as [|[k v] es IH]; intros ps H; cbn [fold_left].
  - now rewrite app_nil_r.
  - assert (Hf : hasOwn ps k = false).
    { destruct (hasOwn ps k) eqn:E; [|reflexivity].
      apply ObjectFacts.hasOwn_In in E. rewrite map_app in H.
      apply NoDup_remove_2 in H. exfalso. apply H.
      apply in_or_app. now left. }
    unfold assign at 2. cbn [fst snd]. rewrite Hf.
    rewrite IH; rewrite <- app_assoc; [reflexivity|exact H].
Qed.

Lemma store_fresh (es : list (jsstring * jsvalue)) :
  NoDup (map fst es) -> hasOwn es __proto__ = false ->
  fold_left store es emptyObject = VObject ObjectPrototype es.
Proof.
  intros Hd Hp. unfold emptyObject. rewrite ObjectFacts.store_plain.
  - now rewrite assign_fresh.
  - apply Forall_forall. intros kv Hin E.
    assert (hasOwn es __proto__ = true); [|congruence].
    apply ObjectFacts.hasOwn_In. rewrite <- E. now apply in_map.
Qed.

(** *** The layout [JSON.stringify] gives a container *)

Lemma delimited_facts (tail : jsstring) :
  delimited tail = true ->
  noIdent tail = true /\ noQuote tail = true /\ endsNumber tail = true.
Proof.
  destruct tail as [|c tail]; [now repeat split|].
  unfold delimited. intro H.
  repeat (apply orb_true_iff in H as [H|H]); apply N.eqb_eq in H; subst c;
    now repeat split.
Qed.

(** White space before the items, between them after the comma, and
    after the last one. *)
Lemma wrap_form (open close gap stepback indent : jsstring) (partial : list jsstring) :
  partial <> [] ->
  forallb isBlank stepback = true -> forallb isBlank indent = true ->
  exists pre post,
    forallb isBlank pre = true /\ forallb isBlank post = true
    /\ (forall x, delimited x = true -> delimited (post ++ x) = true)
    /\ wrap open close gap stepback indent partial
       = open ++ pre ++ join (str "," ++ pre) partial ++ post ++ close.
Proof.
  intros Hne Hs Hi. unfold wrap. destruct partial as [|x l]; [contradiction|].
  destruct gap as [|g gap].
  - exists [], []. split; [reflexivity|]. split; [reflexivity|].
    split; [intros x0 Hx0; exact Hx0|].
    cbn [app]. now rewrite app_nil_r.
  - exists ([10%N] ++ indent), ([10%N] ++ stepback).
    split; [cbn [app forallb]; now rewrite Hi|].
    split; [cbn [app forallb]; now rewrite Hs|].
    split; [reflexivity|].
    now rewrite <- !app_assoc.
Qed.

Lemma join_cons (sep x : jsstring) (y : jsstring) (l : list jsstring) :
  join sep (x :: y :: l) = x ++ sep ++ join sep (y :: l).
Proof. reflexivity. Qed.

(** The items of an array. *)
Lemma join_seq (pre : jsstring) (T : jsvalue -> jsstring) (V : jsvalue -> jsvalue)
    (elems : list jsvalue) :
  forallb isBlank pre = true ->
  elems <> [] ->
  Forall (fun x => LexesTo delimited (T x) (fun toks => IsValue toks (V x))) elems ->
  LexesTo delimited (join (str "," ++ pre) (map T elems))
    (fun toks => SeqBody toks (map V elems)).
Proof.
  intros Hpre Hne H. induction H as [|x l Hx Hl IH]; [contradiction|].
  destruct l as [|y l].
  - cbn [map join]. eapply LexesTo_weaken; [exact Hx|auto|].
    intros toks Ht. now constructor.
  - cbn [map]. rewrite join_cons.
    eapply LexesTo_weaken.
    + eapply (LexesTo_app delimited delimited _ _ _ _ Hx).
      * eapply (LexesTo_app anything delimited _ _ _ _
                 (LexesTo_punctuation (ch ",") COMMA eq_refl)).
        -- eapply (LexesTo_app anything delimited _ _ _ _ (LexesTo_blanks pre Hpre)).
           ++ apply IH. discriminate.
           ++ reflexivity.
        -- reflexivity.
      * reflexivity.
    + auto.
    + cbv beta. intros toks (a & b & -> & Ha & (c & d & -> & Hc & (e & g & -> & -> & Hg))).
      destruct Hc as (comma & -> & Hty & _). cbn [app].
      now constructor.
Qed.

(** The members of an object. *)
Lemma join_members (pre sp : jsstring) (T : jsvalue -> jsstring)
    (V : jsvalue -> jsvalue) (es : list (jsstring * jsvalue)) :
  forallb isBlank pre = true -> forallb isBlank sp = true ->
  es <> [] ->
  Forall (fun kv => LexesTo delimited (T (snd kv)) (fun toks => IsValue toks (V (snd kv))))
    es ->
  LexesTo delimited
    (join (str "," ++ pre)
       (map (fun kv => QuoteJSONString (fst kv) ++ str ":" ++ sp ++ T (snd kv)) es))
    (fun toks => DictBody toks (map (fun kv => (fst kv, V (snd kv))) es)).
Proof.
  intros Hpre Hsp Hne H.
  assert (Hm : forall kv,
             LexesTo delimited (T (snd kv)) (fun toks => IsValue toks (V (snd kv))) ->
             LexesTo delimited (QuoteJSONString (fst kv) ++ str ":" ++ sp ++ T (snd kv))
               (fun toks => exists kt colon vts,
                    toks = kt :: colon :: vts
                    /\ keyText kt = Some (fst kv) /\ type colon = COLON
                    /\ IsValue vts (V (snd kv)))).
  { intros kv Hkv. eapply LexesTo_weaken.
    - eapply (LexesTo_app noQuote delimited _ _ _ _ (LexesTo_string (fst kv))).
      + eapply (LexesTo_app anything delimited _ _ _ _
                 (LexesTo_punctuation (ch ":") COLON eq_refl)).
        * eapply (LexesTo_app anything delimited _ _ _ _ (LexesTo_blanks sp Hsp)).
          -- exact Hkv.
          -- reflexivity.
        * reflexivity.
      + reflexivity.
    - auto.
    - cbv beta. intros toks (a & b & -> & Ha & (c & d & -> & Hc & (e & g & -> & -> & Hg))).
      destruct Ha as (kt & -> & Hk1 & Hk2). destruct Hc as (colon & -> & Hty & _).
      exists kt, colon, g. cbn [app]. repeat split; try assumption.
      unfold keyText. now rewrite Hk1, Hk2. }
  induction H as [|x l Hx Hl IH]; [contradiction|].
  destruct l as [|y l].
  - cbn [map join]. eapply LexesTo_weaken; [apply (Hm x Hx)|auto|].
    cbv beta. intros toks (kt & colon & vts & -> & Hk & Hc & Hv). now constructor.
  - cbn [map]. rewrite join_cons.
    eapply LexesTo_weaken.
    + eapply (LexesTo_app delimited delimited _ _ _ _ (Hm x Hx)).
      * eapply (LexesTo_app anything delimited _ _ _ _
                 (LexesTo_punctuation (ch ",") COMMA eq_refl)).
        -- eapply (LexesTo_app anything delimited _ _ _ _ (LexesTo_blanks pre Hpre)).
           ++ apply IH. discriminate.
           ++ reflexivity.
        -- reflexivity.
      * reflexivity.
    + auto.
    + cbv beta. intros toks (a & b & -> & Ha & (c & d & -> & Hc & (e & g & -> & -> & Hg))).
      destruct Ha as (kt & colon & vts & -> & Hk & Hcol & Hv).
      destruct Hc as (comma & -> & Hty & _). cbn [app].
      change (kt :: colon :: vts ++ comma :: g)
        with (kt :: colon :: vts ++ comma :: g).
      now constructor.
Qed.

(** A container: the opening token, the items, the closing token. *)
Lemma wrap_reads (o c : char) (to tc : TokenType) (gap stepback indent : jsstring)
    (partial : list jsstring) (Body : list Token -> Prop) :
  Lexer.punctuation o = Some to -> Lexer.punctuation c = Some tc ->
  delimited [c] = true ->
  partial <> [] ->
  forallb isBlank stepback = true -> forallb isBlank indent = true ->
  (forall pre, forallb isBlank pre = true ->
               LexesTo delimited (join (str "," ++ pre) partial) Body) ->
  LexesTo delimited (wrap [o] [c] gap stepback indent partial)
    (fun toks => exists ot ct body,
         toks = ot :: body ++ [ct] /\ type ot = to /\ type ct = tc /\ Body body).
Proof.
  intros Ho Hc Hdc Hne Hs Hi Hj.
  destruct (wrap_form [o] [c] gap stepback indent partial Hne Hs Hi)
    as (pre & post & Hpre & Hpost & Hd & ->).
  eapply LexesTo_weaken.
  - eapply (LexesTo_app anything delimited _ _ _ _ (LexesTo_punctuation o to Ho)).
    + eapply (LexesTo_app anything delimited _ _ _ _ (LexesTo_blanks pre Hpre)).
      * eapply (LexesTo_app delimited delimited _ _ _ _ (Hj pre Hpre)).
        -- eapply (LexesTo_app anything delimited _ _ _ _ (LexesTo_blanks post Hpost)).
           ++ eapply LexesTo_weaken; [apply (LexesTo_punctuation c tc Hc)|auto|].
              intros toks Ht. exact Ht.
           ++ reflexivity.
        -- intros tail Ht. rewrite <- app_assoc. apply Hd. exact Hdc.
      * reflexivity.
    + reflexivity.
  - auto.
  - cbv beta.
    intros toks (a & b & -> & Ha & (c1 & d & -> & -> & (body & g & -> & Hb
                   & (h & i & -> & -> & Hi')))).
    destruct Ha as (ot & -> & Hot & _). destruct Hi' as (ct & -> & Hct & _).
    exists ot, ct, body. cbn [app]. now repeat split.
Qed.

End ReadFacts.

(** ** The converter on its own output *)

Module RereadFacts.
Import ValueFacts ReadFacts.

Lemma safe_integer (neg : bool) (m e : Z) :
  isSafeInteger (JFin neg m e) = true ->
  exists n, 0 <= n < 2 ^ 53 /\ JFin neg m e = numberOfInt neg n
            /\ (n =? 0) = (m =? 0).
Proof.
  unfold isSafeInteger. intro H.
  apply andb_true_iff in H as [H He]. apply andb_true_iff in H as [H Hb].
  apply andb_true_iff in H as [Hm H0].
  apply Z.leb_le in Hm, H0. apply Z.ltb_lt in Hb.
  apply NumeralFacts.jsnum_eqb_eq in He.
  exists (m * 2 ^ e). split; [|split; [exact He|]].
  - split; [|exact Hb]. apply Z.mul_nonneg_nonneg; [exact Hm|]. apply Z.pow_nonneg. lia.
  - assert (Hp : 0 < 2 ^ e) by (apply Z.pow_pos_nonneg; lia).
    destruct (Z.eqb_spec m 0) as [->|Hz]; [reflexivity|].
    apply Z.eqb_neq. nia.
Qed.

Lemma numberOfInt_finite (neg : bool) (n : Z) :
  0 <= n < 2 ^ 53 -> isNaN (numberOfInt neg n) = false.
Proof.
  intros [H0 Hb]. destruct (Z.eq_dec n 0) as [->|Hz]; [reflexivity|].
  rewrite NumeralFacts.numberOfInt_exact by lia.
  destruct (NumeralFacts.canon_value neg n 0) as (m & e & -> & _); [lia|lia|].
  reflexivity.
Qed.

(** The text of a Number that is a safe integer, read back. *)
Lemma number_reads (neg : bool) (m e : Z) :
  isSafeInteger (JFin neg m e) = true ->
  LexesTo delimited (Number_toString (JFin neg m e))
    (fun toks => IsValue toks (VNumber (JFin (neg && negb (m =? 0)) m e))).
Proof.
  intro Hs. destruct (safe_integer neg m e Hs) as (n & Hn & E & Ez).
  change (Number_toString (JFin neg m e))
    with (serialize [] [] (VNumber (JFin neg m e))).
  rewrite E, IntegerFacts.serialize_integer by exact Hn.
  destruct (IntegerFacts.decimalDigits_spec n ltac:(lia)) as (Hd & Hne & Hv).
  destruct (decimalDigits n) as [|d ds] eqn:Ed; [contradiction|].
  cbn [forallb] in Hd. apply andb_true_iff in Hd as [Hd Hds].
  eapply LexesTo_weaken.
  - apply (LexesTo_integer (neg && negb (n =? 0)) d ds Hd Hds).
  - intros tail Ht. now apply delimited_facts.
  - intros toks (tok & -> & Hty & Hval).
    assert (Hnum : Number_ofString (value tok)
                   = JFin (neg && negb (m =? 0)) m e).
    { rewrite Hval, IntegerFacts.Number_ofString_integer, Hv by assumption.
      rewrite <- Ez. destruct (Z.eqb_spec n 0) as [->|Hz].
      - rewrite andb_false_r.
        assert (Hm : m = 0) by (now apply Z.eqb_eq; rewrite <- Ez).
        subst m. cbv in E. injection E as ->. reflexivity.
      - now rewrite andb_true_r, <- E. }
    rewrite <- Hnum. apply IsValue_number; [exact Hty|].
    rewrite Hval, IntegerFacts.Number_ofString_integer, Hv by assumption.
    now apply numberOfInt_finite.
Qed.

Lemma word_reads (c : char) (id' : jsstring) (v : jsvalue) :
  Lexer.isAlpha_ c = true -> forallb Lexer.isIdent id' = true ->
  (forall p, IsValue [Lexer.identToken (c :: id') p] v) ->
  LexesTo delimited (c :: id') (fun toks => IsValue toks v).
Proof.
  intros Hc Hid Hv. eapply LexesTo_weaken.
  - apply (LexesTo_word c id' Hc Hid).
  - intros tail Ht. now apply delimited_facts.
  - intros toks (p & ->). apply Hv.
Qed.

Lemma null_reads : LexesTo delimited (str "null") (fun toks => IsValue toks VNull).
Proof.
  apply (word_reads (ch "n") (str "ull")); [reflexivity|reflexivity|].
  intro p. exists 1%nat. intro X. reflexivity.
Qed.

Lemma bool_reads (b : bool) :
  LexesTo delimited (if b then str "true" else str "false")
    (fun toks => IsValue toks (VBool b)).
Proof.
  destruct b.
  - apply (word_reads (ch "t") (str "rue")); [reflexivity|reflexivity|].
    intro p. exists 1%nat. intro X. reflexivity.
  - apply (word_reads (ch "f") (str "alse")); [reflexivity|reflexivity|].
    intro p. exists 1%nat. intro X. reflexivity.
Qed.

Lemma empty_reads (o c : char) (k : Kind) :
  Lexer.punctuation o = Some (openOf k) -> Lexer.punctuation c = Some (closeOf k) ->
  LexesTo delimited ([o] ++ [c]) (fun toks => IsValue toks (emptyOf k)).
Proof.
  intros Ho Hc. eapply LexesTo_weaken.
  - eapply (LexesTo_app anything anything _ _ _ _ (LexesTo_punctuation o _ Ho)).
    + apply (LexesTo_punctuation c _ Hc).
    + reflexivity.
  - reflexivity.
  - cbv beta. intros toks (a & b & -> & (ot & -> & Hot & _) & (ct & -> & Hct & _)).
    now apply parse_empty.
Qed.

Lemma blank_app (a b : jsstring) :
  forallb isBlank a = true -> forallb isBlank b = true -> forallb isBlank (a ++ b) = true.
Proof. intros Ha Hb. now rewrite forallb_app, Ha, Hb. Qed.

(** The text [JSON.stringify] writes for a value is read back as the
    value, whatever the indent. *)
Lemma serialize_reads (gap : jsstring) :
  forallb isBlank gap = true ->
  forall v, reparsable v = true -> wellKeyed v = true ->
  forall indent, forallb isBlank indent = true ->
  LexesTo delimited (serialize gap indent v) (fun toks => IsValue toks (reread v)).
Proof.
  intros Hgap v.
  induction v as [|b|n|s|elems IH|proto props IH] using jsvalue_nested_ind;
    intros Hr Hw indent Hind.
  - apply null_reads.
  - destruct b; [apply (bool_reads true)|apply (bool_reads false)].
  - destruct n as [| |neg m e]; try apply null_reads.
    cbn [serialize reread]. now apply number_reads.
  - cbn [serialize reread]. eapply LexesTo_weaken.
    + apply LexesTo_string.
    + intros tail Ht. now apply delimited_facts.
    + intros toks (tok & -> & Hty & <-). now apply IsValue_string.
  - cbn [serialize reread reparsable wellKeyed] in *.
    destruct elems as [|x l].
    { apply (empty_reads (ch "[") (ch "]") ListKind); reflexivity. }
    eapply LexesTo_weaken.
    + apply (wrap_reads (ch "[") (ch "]") LBRACKET RBRACKET gap indent (indent ++ gap)
               (map (serialize gap (indent ++ gap)) (x :: l))
               (fun toks => SeqBody toks (map reread (x :: l))));
        try reflexivity; try assumption; [discriminate|now apply blank_app|].
      intros pre Hpre. apply join_seq; [exact Hpre|discriminate|].
      rewrite Forall_forall in *. intros y Hy.
      rewrite forallb_forall in Hr, Hw.
      apply IH; auto. now apply blank_app.
    + auto.
    + cbv beta. intros toks (ot & ct & body & -> & Hot & Hct & Hb).
      now apply parse_seq.
  - cbn [serialize reread reparsable wellKeyed] in *.
    apply andb_true_iff in Hr as [Hp Hr]. apply negb_true_iff in Hp.
    apply andb_true_iff in Hw as [Hd Hw]. apply distinctKeys_NoDup in Hd.
    rewrite !ObjectFacts.ownProperties_map, map_map. cbn [fst snd].
    set (sp := match gap with [] => [] | _ :: _ => str " " end).
    assert (Hsp : forallb isBlank sp = true) by (subst sp; now destruct gap).
    pose proof (ownProperties_perm props) as Hperm.
    destruct (ownProperties props) as [|e0 es] eqn:Ees.
    { cbn [map]. apply (empty_reads (ch "{") (ch "}") DictKind); reflexivity. }
    rewrite <- Ees in *.
    assert (Hin : forall kv, In kv (ownProperties props) -> In kv props)
      by (intros kv; apply ObjectFacts.ownProperties_In).
    eapply LexesTo_weaken.
    + apply (wrap_reads (ch "{") (ch "}") LBRACE RBRACE gap indent (indent ++ gap)
               (map (fun kv => QuoteJSONString (fst kv) ++ str ":" ++ sp
                               ++ serialize gap (indent ++ gap) (snd kv))
                    (ownProperties props))
               (fun toks => DictBody toks
                              (map (fun kv => (fst kv, reread (snd kv)))
                                 (ownProperties props))));
        try reflexivity; try assumption;
        [rewrite Ees; discriminate|now apply blank_app|].
      intros pre Hpre.
      apply (join_members pre sp (serialize gap (indent ++ gap)) reread);
        [exact Hpre|exact Hsp|rewrite Ees; discriminate|].
      rewrite Forall_forall in *. intros kv Hkv. apply Hin in Hkv.
      rewrite forallb_forall in Hr, Hw.
      apply IH; auto. now apply blank_app.
    + auto.
    + cbv beta. intros toks (ot & ct & body & -> & Hot & Hct & Hb).
      rewrite <- (store_fresh (map (fun kv => (fst kv, reread (snd kv)))
                                 (ownProperties props))).
      * now apply parse_object.
      * rewrite map_fst_values. now apply ownProperties_NoDup.
      * match goal with |- ?h = false => destruct h eqn:E; [|reflexivity] end.
        apply ObjectFacts.hasOwn_In in E. rewrite map_fst_values in E.
        assert (Hk : In __proto__ (map fst props)).
        { eapply Permutation_in; [apply Permutation_map, Hperm|exact E]. }
        apply ObjectFacts.hasOwn_In in Hk. congruence.
Qed.

End RereadFacts.

(** ** What the parser returns *)

Module KeyFacts.
Import Parser.
Import ValueFacts.

Lemma overwrite_values {A : Type} (f : A -> bool) (props : list (jsstring * A))
    (k : jsstring) (v : A) :
  forallb (fun kv => f (snd kv)) props = true -> f v = true ->
  forallb (fun kv => f (snd kv)) (overwrite props k v) = true.
Proof.
  intros H Hv. induction props as [|[k' w] ps IH]; [reflexivity|].
  cbn [forallb snd] in H. apply andb_true_iff in H as [Hw H].
  cbn [overwrite]. destruct (jsstring_eqb k' k); cbn [forallb snd].
  - now rewrite Hv, H.
  - now rewrite Hw, IH.
Qed.

Lemma setProperty_wellKeyed (obj : jsvalue) (key : jsstring) (v : jsvalue) :
  wellKeyed obj = true -> wellKeyed v = true ->
  wellKeyed (setProperty obj key v) = true.
Proof.
  intros Ho Hv. destruct obj as [| | | | |proto props]; try exact Ho.
  cbn [wellKeyed] in Ho. apply andb_true_iff in Ho as [Hd Hw].
  unfold setProperty. destruct (hasOwn props key) eqn:Eh.
  - cbn [wellKeyed]. apply andb_true_iff. split.
    + apply distinctKeys_NoDup. rewrite ObjectFacts.overwrite_keys.
      now apply distinctKeys_NoDup.
    + now apply overwrite_values.
  - destruct (jsstring_eqb key __proto__ && _)%bool.
    + destruct v; cbn [wellKeyed]; now rewrite ?Hd, ?Hw.
    + cbn [wellKeyed]. apply andb_true_iff. split.
      * apply distinctKeys_NoDup. rewrite map_app. cbn [map fst].
        apply NoDup_app; [now apply distinctKeys_NoDup|repeat constructor; intros []|].
        intros x Hx [<-|[]]. apply ObjectFacts.hasOwn_In in Hx. congruence.
      * rewrite forallb_app, Hw. cbn [forallb snd]. now rewrite Hv.
Qed.

Section Loops.

Variable pv : t -> result (jsvalue * t).
Hypothesis pv_keyed : yields (fun v => wellKeyed v = true) pv.

Lemma seqLoop_keyed (close : TokenType) (f : nat) :
  forall acc, forallb wellKeyed acc = true ->
  yields (fun vs => forallb wellKeyed vs = true) (seqLoop pv close f acc).
Proof using pv_keyed.
  induction f as [|f IH]; intros acc Ha p vs p' H; [discriminate|].
  cbn [seqLoop] in H.
  destruct (peek p) as [ty|e]; cbn [bind] in H; [|discriminate].
  destruct (TokenType_eqb ty close); [now injection H as <- _|].
  destruct (pv p) as [[v p1]|e] eqn:Ev; cbn [bind] in H; [|discriminate].
  assert (Ha' : forallb wellKeyed (acc ++ [v]) = true).
  { rewrite forallb_app, Ha. cbn [forallb]. now rewrite (pv_keyed _ _ _ Ev). }
  destruct (peek p1) as [ty1|e]; cbn [bind] in H; [|discriminate].
  destruct (TokenType_eqb ty1 COMMA); [|now injection H as <- _].
  eapply IH; eassumption.
Qed.

Lemma parseDictLoop_keyed (f : nat) :
  forall obj, wellKeyed obj = true ->
  yields (fun v => wellKeyed v = true) (parseDictLoop pv f obj).
Proof using pv_keyed.
  induction f as [|f IH]; intros obj Ho p v p' H; [discriminate|].
  cbn [parseDictLoop] in H.
  destruct (peek p) as [ty|e]; cbn [bind] in H; [|discriminate].
  destruct (TokenType_eqb ty RBRACE); [now injection H as <- _|].
  destruct (parseDictKey p) as [[key p0]|e]; cbn [bind] in H; [|discriminate].
  destruct (expect COLON p0) as [[colon p1]|e]; cbn [bind] in H; [|discriminate].
  destruct (pv p1) as [[x p2]|e] eqn:Ev; cbn [bind] in H; [|discriminate].
  assert (Ho' : wellKeyed (setProperty obj key x) = true).
  { apply setProperty_wellKeyed; [exact Ho|]. apply (pv_keyed _ _ _ Ev). }
  destruct (peek p2) as [ty1|e]; cbn [bind] in H; [|discriminate].
  destruct (TokenType_eqb ty1 COMMA); [|now injection H as <- _].
  eapply IH; eassumption.
Qed.

End Loops.

Lemma container_yields {A : Type} (Q : jsvalue -> Prop) (open close : TokenType)
    (loop : t -> result (A * t)) (finish : A -> jsvalue) (empty : jsvalue) :
  Q empty -> yields (fun r => Q (finish r)) loop ->
  yields Q (container open close loop finish empty).
Proof.
  intros He Hl p v p' H. unfold container in H.
  destruct (expect open p) as [[o p0]|e]; cbn [bind] in H; [|discriminate].
  destruct (peek p0) as [ty|e]; cbn [bind] in H; [|discriminate].
  destruct (TokenType_eqb ty close); [now injection H as <- _|].
  destruct (loop p0) as [[r p1]|e] eqn:El; cbn [bind] in H; [|discriminate].
  destruct (expect close p1) as [[c p2]|e]; cbn [bind] in H; [|discriminate].
  injection H as <- _. apply (Hl _ _ _ El).
Qed.

Lemma parseValue_keyed (fuel : nat) :
  yields (fun v => wellKeyed v = true) (parseValue fuel).
Proof.
  induction fuel as [|f IH]; intros p v p' H; [discriminate|].
  destruct p as [|tok p0]; [discriminate|].
  destruct (type tok) eqn:Ety;
    try (cbn [parseValue current bind] in H; rewrite Ety in H; discriminate H).
  - cbn [parseValue current bind] in H. rewrite Ety in H. unfold parseString in H.
    destruct (expect STRING _) as [[a b]|e]; cbn [bind] in H; [|discriminate].
    now injection H as <- _.
  - cbn [parseValue current bind] in H. rewrite Ety in H. unfold parseNumber in H.
    destruct (expect NUMBER _) as [[a b]|e]; cbn [bind] in H; [|discriminate].
    destruct (isNaN _); [discriminate|]. now injection H as <- _.
  - cbn [parseValue current bind] in H. rewrite Ety in H. now injection H as <- _.
  - cbn [parseValue current bind] in H. rewrite Ety in H. now injection H as <- _.
  - cbn [parseValue current bind] in H. rewrite Ety in H. now injection H as <- _.
  - rewrite (ParserFacts.parseValue_container DictKind f tok p0 Ety) in H.
    revert H. apply (container_yields (fun v => wellKeyed v = true)); [reflexivity|].
    cbn [loopOf]. now apply parseDictLoop_keyed.
  - rewrite (ParserFacts.parseValue_container ListKind f tok p0 Ety) in H.
    revert H. apply (container_yields (fun v => wellKeyed v = true)); [reflexivity|].
    cbn [loopOf]. intros q r q' Hq.
    destruct (seqLoop _ _ _ _ _) as [[vs q1]|e] eqn:Es; cbn [bind] in Hq; [|discriminate].
    injection Hq as <- _. cbn [wellKeyed].
    apply (seqLoop_keyed _ IH RBRACKET f [] eq_refl _ _ _ Es).
  - rewrite (ParserFacts.parseValue_container TupleKind f tok p0 Ety) in H.
    revert H. apply (container_yields (fun v => wellKeyed v = true)); [reflexivity|].
    cbn [loopOf]. intros q r q' Hq.
    destruct (seqLoop _ _ _ _ _) as [[vs q1]|e] eqn:Es; cbn [bind] in Hq; [|discriminate].
    injection Hq as <- _. cbn [wellKeyed].
    apply (seqLoop_keyed _ IH RPAREN f [] eq_refl _ _ _ Es).
Qed.

Lemma parse_keyed (toks : list Token) (v : jsvalue) :
  parse toks = OK v -> wellKeyed v = true.
Proof.
  unfold parse.
  destruct (parseValue _ toks) as [[r p]|e] eqn:E; cbn [bind]; [|discriminate].
  destruct (current p) as [tok|e]; cbn [bind]; [|discriminate].
  destruct (negb _); [discriminate|]. intros [= <-].
  apply (parseValue_keyed _ _ _ _ E).
Qed.

End KeyFacts.

Module FixedFacts.
Import ValueFacts ReadFacts RereadFacts.

Lemma wrap_ends (o c : char) (gap stepback indent : jsstring) (partial : list jsstring) :
  exists x, wrap [o] [c] gap stepback indent partial = o :: x ++ [c].
Proof.
  unfold wrap. destruct partial as [|y l]; [now exists []|].
  destruct gap as [|g gap].
  - eexists. cbn [app]. reflexivity.
  - exists ([10%N] ++ indent
            ++ join (str "," ++ [10%N] ++ indent) (y :: l) ++ [10%N] ++ stepback).
    cbn [app]. now rewrite <- !app_assoc.
Qed.

(** The text of a value neither starts nor ends with white space. *)
Lemma trim_serialize (gap indent : jsstring) (v : jsvalue) :
  reparsable v = true -> trim (serialize gap indent v) = serialize gap indent v.
Proof.
  intro Hr. destruct v as [|[|]|[| |neg m e]|s|elems|proto props]; try reflexivity.
  - cbn [reparsable] in Hr. destruct (safe_integer neg m e Hr) as (n & Hn & E & _).
    rewrite E, IntegerFacts.serialize_integer by exact Hn.
    destruct (IntegerFacts.decimalDigits_spec n ltac:(lia)) as (Hd & _ & _).
    apply IntegerFacts.trim_clean. rewrite forallb_app.
    rewrite (IntegerFacts.digits_clean _ Hd), andb_true_r.
    now destruct (neg && negb (n =? 0))%bool.
  - cbn [serialize]. unfold QuoteJSONString. cbn [app]. now apply TrimFacts.trim_fixed.
  - cbn [serialize]. destruct (wrap_ends (ch "[") (ch "]") gap indent (indent ++ gap)
                                 (map (serialize gap (indent ++ gap)) elems)) as [x E].
    change (str "[") with [ch "["]. change (str "]") with [ch "]"].
    rewrite E. now apply TrimFacts.trim_fixed.
  - cbn [serialize].
    match goal with
    | |- context [wrap _ _ gap indent (indent ++ gap) ?l] =>
        destruct (wrap_ends (ch "{") (ch "}") gap indent (indent ++ gap) l) as [x E]
    end.
    change (str "{") with [ch "{"]. change (str "}") with [ch "}"].
    rewrite E. now apply TrimFacts.trim_fixed.
Qed.

Lemma gapOf_blank (indent : Z) : forallb isBlank (gapOf indent) = true.
Proof.
  unfold gapOf. induction (Z.to_nat (Z.min 10 indent)) as [|n IH]; [reflexivity|].
  cbn [repeat forallb]. now rewrite IH.
Qed.

(** [pythonDictToJson] on the JSON text of a value. *)
Lemma convert_serialized (v : jsvalue) (indent : Z) :
  reparsable v = true -> wellKeyed v = true ->
  pythonDictToJson (JSON_stringify v indent) indent = OK (JSON_stringify v indent).
Proof.
  intros Hr Hw. unfold JSON_stringify.
  pose proof (serialize_reads (gapOf indent) (gapOf_blank indent) v Hr Hw [] eq_refl) as H.
  destruct (H [] 0%nat eq_refl) as (toks & p' & Hiv & Hl).
  destruct (IsValue_head _ _ Hiv) as (tok0 & r0 & Htoks & _).
  destruct Hiv as [f Hv].
  specialize (Hl _ (StepFacts.Lexes_nil p')). rewrite app_nil_r in Hl.
  apply StepFacts.Lexes_tokenize in Hl.
  unfold pythonDictToJson. rewrite trim_serialize by exact Hr.
  destruct (serialize (gapOf indent) [] v) as [|c r] eqn:Es.
  { subst toks. cbv in Hl. injection Hl as _ Hl. destruct r0; discriminate Hl. }
  rewrite Hl. cbn [bind].
  assert (Hp : Parser.parse (toks ++ [mkToken EOF [] p']) = OK (reread v)).
  { unfold Parser.parse.
    rewrite (ParserFacts.parseValue_enough _ _ _ (Hv [mkToken EOF [] p'])).
    reflexivity. }
  rewrite Hp. cbn [bind]. unfold JSON_stringify.
  rewrite serialize_reread by exact Hw. now rewrite Es.
Qed.

End FixedFacts.

(** X10. The converter accepts its own output and leaves it unchanged.
    When the value parsed from an input has only Numbers that are integers
    of magnitude below [2^53] or are not finite, and no object in it has an
    own property called [__proto__], the text [pythonDictToJson] returns for
    the input is, at the same indent, converted to itself. *)
Theorem output_is_fixed_point (input : jsstring) (indent : Z) (v : jsvalue) :
  parsedValue input = OK v ->
  reparsable v = true ->
  pythonDictToJson input indent = OK (JSON_stringify v indent)
  /\ pythonDictToJson (JSON_stringify v indent) indent
     = OK (JSON_stringify v indent).
Proof.
  intros Hp Hr.
  assert (Hw : wellKeyed v = true).
  { unfold parsedValue in Hp.
    destruct (Lexer.tokenize (trim input)) as [toks|e]; cbn [bind] in Hp; [|discriminate].
    now apply (KeyFacts.parse_keyed toks). }
  split; [|now apply FixedFacts.convert_serialized].
  unfold parsedValue in Hp. unfold pythonDictToJson.
  destruct (trim input) as [|c r] eqn:Et.
  { cbv in Hp. discriminate Hp. }
  destruct (Lexer.tokenize (c :: r)) as [toks|e]; cbn [bind] in *; [|discriminate].
  now rewrite Hp.
Qed.

Lemma output_is_fixed_point_witness :
  exists v,
    parsedValue (str "{'b': [1, (-2, None)], 10: True, 'a': 'x'}") = OK v
    /\ pythonDictToJson (JSON_stringify v 2) 2 = OK (JSON_stringify v 2).
Proof.
  eexists. split; [vm_compute; reflexivity|].
  apply (output_is_fixed_point (str "{'b': [1, (-2, None)], 10: True, 'a': 'x'}") 2);
    vm_compute; reflexivity.
Defined.

(** An own property called [__proto__], which a dict gets when the key
    comes again after its prototype was set to [null], is written out and
    is lost when the output is converted again. *)
Example output_with_proto_member :
  pythonDictToJson (str "{'__proto__': None, '__proto__': 1}") 0
  = OK (str "{" ++ QuoteJSONString __proto__ ++ str ":1}")
  /\ pythonDictToJson (str "{" ++ QuoteJSONString __proto__ ++ str ":1}") 0
     = OK (str "{}").
Proof. split; vm_compute; reflexivity. Qed.

(** ** A [__proto__] key *)

Module ProtoFacts.

Lemma store_plain_any (entries ps : list (jsstring * jsvalue)) (proto : protoLink jsvalue) :
  Forall (fun kv => fst kv <> __proto__) entries ->
  fold_left store entries (VObject proto ps)
  = VObject proto (fold_left assign entries ps).
Proof.
  revert ps; induction entries as [|[k v] es IH]; intros ps H; [reflexivity|].
  inversion H as [|? ? Hk Hes]; subst. cbn [fold_left].
  rewrite <- IH by exact Hes. f_equal.
  unfold store, assign, setProperty. cbn [fst snd] in *.
  destruct (hasOwn ps k); [reflexivity|].
  apply jsstring_eqb_neq in Hk. now rewrite Hk.
Qed.

Lemma hasOwn_assign (ps : list (jsstring * jsvalue)) (kv : jsstring * jsvalue)
    (k : jsstring) :
  fst kv <> k -> hasOwn (assign ps kv) k = hasOwn ps k.
Proof.
  destruct kv as [k0 v0]. cbn [fst]. intro Hk. unfold assign. cbn [fst snd].
  destruct (hasOwn ps k0).
  - apply ObjectFacts.hasOwn_overwrite.
  - rewrite ObjectFacts.hasOwn_app. cbn [hasOwn].
    apply jsstring_eqb_neq in Hk. rewrite Hk. now rewrite !orb_false_r.
Qed.

Lemma hasOwn_build (es ps : list (jsstring * jsvalue)) (k : jsstring) :
  Forall (fun kv => fst kv <> k) es ->
  hasOwn (fold_left assign es ps) k = hasOwn ps k.
Proof.
  revert ps; induction es as [|kv es IH]; intros ps H; [reflexivity|].
  inversion H as [|? ? Hk Hes]; subst. cbn [fold_left].
  rewrite IH by exact Hes. now apply hasOwn_assign.
Qed.

(** Storing under [__proto__] in an object that still inherits from
    [Object.prototype] adds no property. *)
Lemma store_proto (ps : list (jsstring * jsvalue)) (v : jsvalue) :
  hasOwn ps __proto__ = false ->
  exists proto, store (VObject ObjectPrototype ps) (__proto__, v) = VObject proto ps.
Proof.
  intro H. unfold store, setProperty. cbn [fst snd reachesProtoAccessor].
  rewrite H, jsstring_eqb_refl. cbn [andb].
  destruct v; eexists; reflexivity.
Qed.

Lemma build_without_proto (pre post : list (jsstring * jsvalue)) (v : jsvalue) :
  Forall (fun kv => fst kv <> __proto__) (pre ++ post) ->
  exists proto,
    fold_left store (pre ++ (__proto__, v) :: post) emptyObject
    = VObject proto (fold_left assign (pre ++ post) []).
Proof.
  intro H. apply Forall_app in H as [Hpre Hpost].
  rewrite fold_left_app. cbn [fold_left]. unfold emptyObject.
  rewrite ObjectFacts.store_plain by exact Hpre.
  destruct (store_proto (fold_left assign pre []) v) as [proto ->].
  { now rewrite hasOwn_build. }
  exists proto. rewrite store_plain_any by exact Hpost.
  now rewrite fold_left_app.
Qed.

End ProtoFacts.

(** X11. An entry with the key [__proto__] is dropped.  In a dict literal
    whose other keys are not [__proto__], the entry adds no property to the
    object: its own properties are those the other entries build, and the
    JSON text is the text for the dict without that entry, whatever the
    value of the entry was. *)
Theorem proto_entry_dropped
    (o c eof : Token) (body : list Token)
    (pre post : list (jsstring * jsvalue)) (v : jsvalue) (indent : Z) :
  type o = LBRACE -> type c = RBRACE -> type eof = EOF ->
  DictBody body (pre ++ (__proto__, v) :: post) ->
  Forall (fun kv => fst kv <> __proto__) (pre ++ post) ->
  exists proto,
    Parser.parse (o :: body ++ [c; eof])
    = OK (VObject proto (fold_left assign (pre ++ post) []))
    /\ JSON_stringify (VObject proto (fold_left assign (pre ++ post) [])) indent
       = JSON_stringify (fold_left store (pre ++ post) emptyObject) indent.
Proof.
  intros Ho Hc He Hb Hk.
  destruct (ProtoFacts.build_without_proto pre post v Hk) as [proto E].
  exists proto. split.
  - destruct (ObjectFacts.parse_dict o c body _ Ho Hc Hb) as [f Hf].
    specialize (Hf [eof]). rewrite E in Hf.
    apply ParserFacts.parseValue_enough in Hf.
    unfold Parser.parse. rewrite Hf. cbn [bind Parser.current]. now rewrite He.
  - unfold emptyObject. rewrite ObjectFacts.store_plain by exact Hk. reflexivity.
Qed.

Lemma proto_entry_dropped_witness :
  exists proto,
    Parser.parse
      (mkToken LBRACE (str "{") 0
       :: [mkToken STRING (str "a") 1; mkToken COLON (str ":") 4;
           mkToken NUMBER (str "1") 6; mkToken COMMA (str ",") 7;
           mkToken STRING __proto__ 9; mkToken COLON (str ":") 20;
           mkToken NUMBER (str "2") 22]
       ++ [mkToken RBRACE (str "}") 23; mkToken EOF [] 24])
    = OK (VObject proto [(str "a", VNumber (JFin false 1 0))]).
Proof.
  destruct (proto_entry_dropped
              (mkToken LBRACE (str "{") 0) (mkToken RBRACE (str "}") 23)
              (mkToken EOF [] 24)
              [mkToken STRING (str "a") 1; mkToken COLON (str ":") 4;
               mkToken NUMBER (str "1") 6; mkToken COMMA (str ",") 7;
               mkToken STRING __proto__ 9; mkToken COLON (str ":") 20;
               mkToken NUMBER (str "2") 22]
              [(str "a", VNumber (JFin false 1 0))] [] (VNumber (JFin false 1 1)) 0
              eq_refl eq_refl eq_refl) as (proto & H & _).
  - apply (DB_more (mkToken STRING (str "a") 1) (mkToken COLON (str ":") 4)
             (mkToken COMMA (str ",") 7) [mkToken NUMBER (str "1") 6]
             [mkToken STRING __proto__ 9; mkToken COLON (str ":") 20;
              mkToken NUMBER (str "2") 22]);
      try reflexivity.
    + exists 1%nat. intro X. reflexivity.
    + apply DB_last; try reflexivity. exists 1%nat. intro X. reflexivity.
  - repeat constructor. discriminate.
  - exists proto. exact H.
Defined.

(** ** Comments *)

Module CommentFacts.
Import Lexer.

Lemma skip_fuel (f f' : nat) (lx : t) :
  (left lx < f)%nat -> (left lx < f')%nat ->
  skipWhitespaceAndComments f lx = skipWhitespaceAndComments f' lx.
Proof.
  revert f' lx; induction f as [|f IH]; intros f' lx Hf Hf'; [lia|].
  destruct f' as [|f']; [lia|].
  cbn [skipWhitespaceAndComments]. unfold peek.
  destruct lx as [[|c r] p]; cbn [rest hd_error pos]; [reflexivity|].
  unfold left in Hf, Hf'. cbn [rest List.length] in Hf, Hf'.
  destruct (_ || _ || _ || _)%bool.
  - apply IH; unfold left, advance; cbn [rest tl List.length]; lia.
  - destruct (N.eqb c (ch "#")) eqn:Ec; [|reflexivity].
    apply N.eqb_eq in Ec. subst c.
    change (skipLine (ch "#" :: r) p) with (skipLine r (S p)).
    pose proof (LexerFacts.skipLine_le r (S p)) as Hl.
    apply IH; lia.
Qed.

Lemma skipLine_run (text r : jsstring) (p : nat) :
  forallb (fun c => negb (N.eqb c 10)) text = true ->
  skipLine (text ++ 10%N :: r) p = mk (10%N :: r) (List.length text + p)
  /\ skipLine text p = mk [] (List.length text + p).
Proof.
  revert p; induction text as [|c text IH]; intros p H; [now split|].
  cbn [forallb] in H. apply andb_true_iff in H as [Hc H].
  apply negb_true_iff in Hc. cbn [app skipLine]. rewrite Hc.
  destruct (IH (S p) H) as [-> ->]. cbn [List.length].
  split; f_equal; lia.
Qed.

Lemma skip_hash (f : nat) (r : jsstring) (p : nat) :
  skipWhitespaceAndComments (S f) (mk (ch "#" :: r) p)
  = skipWhitespaceAndComments f (skipLine r (S p)).
Proof. reflexivity. Qed.

(** Skipping from a comment is skipping from the line after it. *)
Lemma skip_comment (text r : jsstring) (p : nat) :
  forallb (fun c => negb (N.eqb c 10)) text = true ->
  skipWhitespaceAndComments (S (left (mk (ch "#" :: text ++ 10%N :: r) p)))
    (mk (ch "#" :: text ++ 10%N :: r) p)
  = skipWhitespaceAndComments (S (left (mk r (S (S (List.length text)) + p))))
      (mk r (S (S (List.length text)) + p)).
Proof.
  intro H. unfold left. cbn [rest List.length].
  rewrite skip_hash.
  destruct (skipLine_run text r (S p) H) as [-> _].
  rewrite length_app. cbn [List.length].
  replace (List.length text + S (List.length r))%nat
    with (S (List.length text + List.length r)) by lia.
  rewrite StepFacts.skip_blank by reflexivity.
  replace (S (List.length text + S p)) with (S (S (List.length text)) + p)%nat by lia.
  apply skip_fuel; unfold left; cbn [rest]; lia.
Qed.

End CommentFacts.

(** X12. A comment runs from a hash sign to the end of its line and is
    skipped like white space: the scanning loop at a hash sign goes on as
    from the line after it, and a comment that ends the input ends the
    tokens.  So an input that is only a comment is not empty: it has the
    end-of-input token alone, which the parser rejects. *)
Theorem comment_skipped (text r : jsstring) (p f : nat) (tokens : list Token) :
  forallb (fun c => negb (N.eqb c 10)) text = true ->
  Lexer.tokenizeLoop (S f) (Lexer.mk (ch "#" :: text ++ 10%N :: r) p) tokens
  = Lexer.tokenizeLoop (S f) (Lexer.mk r (S (S (List.length text)) + p)) tokens
  /\ Lexer.tokenize (ch "#" :: text) = OK [mkToken EOF [] (S (List.length text))]
  /\ Parser.parse [mkToken EOF [] (S (List.length text))]
     = Err (UnexpectedToken EOF [] (S (List.length text))).
Proof.
  intro H. split; [|split].
  - cbn [Lexer.tokenizeLoop].
    pose proof (CommentFacts.skip_comment text r p H) as E.
    unfold Lexer.left in E. now rewrite E.
  - unfold Lexer.tokenize, Lexer.init. cbn [List.length Lexer.tokenizeLoop Lexer.rest].
    rewrite CommentFacts.skip_hash.
    destruct (CommentFacts.skipLine_run text [] 1 H) as [_ ->].
    cbn [Lexer.skipWhitespaceAndComments Lexer.peek Lexer.rest hd_error Lexer.pos bind].
    replace (List.length text + 1)%nat with (S (List.length text)) by lia.
    reflexivity.
  - reflexivity.
Qed.

Lemma comment_skipped_witness :
  Lexer.tokenize (ch "#" :: str " only a comment")
  = OK [mkToken EOF [] (S (List.length (str " only a comment")))].
Proof.
  apply (comment_skipped (str " only a comment") [] 0 0 []). reflexivity.
Defined.

(** ** Digit separators *)

Module SeparatorFacts.
Import Lexer.

Lemma separated_head (ds tail : jsstring) :
  forallb isDigit_ ds = true -> endsNumber tail = true ->
  forall a, In a ["."; "e"; "E"; "x"; "X"; "o"; "O"; "b"; "B"]%char ->
            isChar (hd_error (ds ++ tail)) a = false.
Proof.
  intros Hd Ht a Ha. destruct ds as [|c ds]; cbn [app].
  - now apply (IntegerFacts.endsNumber_facts tail Ht).
  - cbn [forallb] in Hd. apply andb_true_iff in Hd as [Hc _].
    unfold isDigit_ in Hc. apply orb_true_iff in Hc as [Hc|Hc].
    + destruct (IntegerFacts.digit_facts c Hc)
        as (_ & _ & _ & _ & F1 & F2 & F3 & F4 & F5 & F6 & F7 & F8 & F9 & _).
      cbn [hd_error isChar]. cbn [In] in Ha.
      repeat (destruct Ha as [<-|Ha]; [assumption|]). destruct Ha.
    + unfold isUnderscore in Hc. apply N.eqb_eq in Hc. subst c.
      cbn [hd_error isChar]. cbn [In] in Ha.
      repeat (destruct Ha as [<-|Ha]; [reflexivity|]). destruct Ha.
Qed.

Lemma separated_run (ds tail : jsstring) (p : nat) (acc : jsstring) :
  forallb isDigit_ ds = true -> endsNumber tail = true ->
  digits isDigit_ (mk (ds ++ tail) p) acc
  = (acc ++ dropUnderscores ds, mk tail (p + List.length ds)).
Proof.
  intros Hd Ht. unfold digits. cbn [rest pos].
  rewrite PrefixFacts.digitLoop_run; [reflexivity|exact Hd|].
  apply (IntegerFacts.endsNumber_facts tail Ht).
Qed.

Lemma dropUnderscores_digit (d : char) (ds : jsstring) :
  isDigit d = true -> dropUnderscores (d :: ds) = d :: dropUnderscores ds.
Proof.
  intro Hd. destruct (IntegerFacts.digit_facts d Hd) as (_ & Du & _).
  unfold dropUnderscores. cbn [filter]. now rewrite Du.
Qed.

Lemma separated_digits (ds : jsstring) :
  forallb isDigit_ ds = true -> forallb isDigit (dropUnderscores ds) = true.
Proof.
  induction ds as [|c ds IH]; intro H; [reflexivity|].
  cbn [forallb] in H. apply andb_true_iff in H as [Hc H].
  unfold dropUnderscores. cbn [filter].
  unfold isDigit_ in Hc. destruct (isUnderscore c); cbn [negb].
  - now apply IH.
  - rewrite orb_false_r in Hc. cbn [forallb]. rewrite Hc. now apply IH.
Qed.

(** [readNumber] on an optional minus, a digit and a run of digits and
    underscores. *)
Lemma readNumber_separated (neg : bool) (d : char) (ds tail : jsstring) (p : nat) :
  isDigit d = true -> forallb isDigit_ ds = true -> endsNumber tail = true ->
  let sign := if neg then [ch "-"] else [] in
  readNumber (mk (sign ++ d :: ds ++ tail) p)
  = OK (sign ++ d :: dropUnderscores ds, mk tail (List.length (sign ++ d :: ds) + p)).
Proof.
  intros Hd Hds Ht sign.
  destruct (IntegerFacts.digit_facts d Hd) as (Hd_ & _ & Dm & _).
  pose proof (separated_head ds tail Hds Ht) as Hh.
  pose proof (separated_head [] tail eq_refl Ht) as Hh0. cbn [app] in Hh0.
  assert (Hx : forall lx b, peek lx = hd_error (ds ++ tail) ->
             (b && (isChar (peek lx) "x" || isChar (peek lx) "X"))%bool = false
             /\ (b && (isChar (peek lx) "o" || isChar (peek lx) "O"))%bool = false
             /\ (b && (isChar (peek lx) "b" || isChar (peek lx) "B"))%bool = false).
  { intros lx b ->. rewrite !Hh by (cbn [In]; tauto). now rewrite andb_false_r. }
  unfold readNumber. destruct neg; subst sign; cbn [app].
  - cbn [peek rest hd_error isChar pos]. change (N.eqb (ch "-") (ch "-")) with true.
    cbv iota. rewrite LexerFacts.advance_cons. cbn [peek rest hd_error isChar].
    destruct (N.eqb d (ch "0")) eqn:Ez.
    + cbv iota. rewrite LexerFacts.advance_cons.
      destruct (Hx (mk (ds ++ tail) (S (S p))) true eq_refl) as (X1 & X2 & X3).
      rewrite X1, X2, X3. rewrite separated_run by assumption.
      IntegerFacts.number_norm Hh0.
      apply N.eqb_eq in Ez. subst d.
      cbn [jsstring_eqb]. rewrite N.eqb_refl. cbn [andb orb].
      do 3 f_equal. cbn [List.length]. lia.
    + cbv iota. cbn [andb].
      change (d :: ds ++ tail) with ((d :: ds) ++ tail).
      rewrite separated_run by (try assumption; cbn [forallb]; now rewrite Hd_, Hds).
      rewrite dropUnderscores_digit by exact Hd.
      IntegerFacts.number_norm Hh0.
      cbn [jsstring_eqb]. rewrite N.eqb_refl. cbn [andb orb].
      do 3 f_equal. cbn [List.length]. lia.
  - cbn [peek rest hd_error isChar pos]. rewrite Dm. cbv iota.
    cbn [peek rest hd_error isChar].
    destruct (N.eqb d (ch "0")) eqn:Ez.
    + cbv iota. rewrite LexerFacts.advance_cons.
      destruct (Hx (mk (ds ++ tail) (S p)) true eq_refl) as (X1 & X2 & X3).
      rewrite X1, X2, X3. rewrite separated_run by assumption.
      IntegerFacts.number_norm Hh0.
      apply N.eqb_eq in Ez. subst d.
      cbn [jsstring_eqb]. change (N.eqb (ch "0") (ch "-")) with false. cbn [andb orb].
      do 3 f_equal. cbn [List.length]. lia.
    + cbv iota. cbn [andb].
      change (d :: ds ++ tail) with ((d :: ds) ++ tail).
      rewrite separated_run by (try assumption; cbn [forallb]; now rewrite Hd_, Hds).
      rewrite dropUnderscores_digit by exact Hd.
      IntegerFacts.number_norm Hh0.
      cbn [jsstring_eqb]. rewrite Dm. cbn [andb orb].
      do 3 f_equal. cbn [List.length]. lia.
Qed.

Lemma scanToken_separated (neg : bool) (d : char) (ds tail : jsstring) (p : nat) :
  isDigit d = true -> forallb isDigit_ ds = true -> endsNumber tail = true ->
  let sign := if neg then [ch "-"] else [] in
  scanToken (hd d sign) (mk (sign ++ d :: ds ++ tail) p)
  = OK (mkToken NUMBER (sign ++ d :: dropUnderscores ds) p,
        mk tail (List.length (sign ++ d :: ds) + p)).
Proof.
  intros Hd Hds Ht sign.
  pose proof (readNumber_separated neg d ds tail p Hd Hds Ht) as Hr. cbv zeta in Hr.
  destruct (IntegerFacts.digit_facts d Hd)
    as (_ & _ & Dm & _ & _ & _ & _ & _ & _ & _ & _ & _ & _ & _ & _ & _ & _ & Dp & Dq).
  unfold scanToken. destruct neg; subst sign; cbn [hd app] in *.
  - change (punctuation (ch "-")) with (@None TokenType).
    change (N.eqb (ch "-") (ch "'") || N.eqb (ch "-") 34)%bool with false.
    change (N.eqb (ch "-") (ch "-")) with true. cbn [orb].
    cbn [rest List.length at_ nth_error test]. unfold isDigitOrDot. rewrite Hd.
    cbn [orb andb Nat.ltb Nat.leb]. rewrite Hr. reflexivity.
  - rewrite Dp. fold (isQuote d). rewrite Dq, Dm, Hd. cbn [orb]. rewrite Hr. reflexivity.
Qed.

Lemma separated_clean (ds : jsstring) :
  forallb isDigit_ ds = true -> forallb (fun c => negb (isStrWhiteSpace c)) ds = true.
Proof.
  induction ds as [|c ds IH]; intro H; [reflexivity|].
  cbn [forallb] in *. apply andb_true_iff in H as [Hc H]. rewrite IH by exact H.
  unfold isDigit_ in Hc. apply orb_true_iff in Hc as [Hc|Hc].
  - destruct (IntegerFacts.digit_facts c Hc)
      as (_ & _ & _ & _ & _ & _ & _ & _ & _ & _ & _ & _ & _ & _ & Dw & _).
    now rewrite Dw.
  - unfold isUnderscore in Hc. apply N.eqb_eq in Hc. now subst c.
Qed.

End SeparatorFacts.

(** X13. Underscores between the digits of a decimal integer literal are
    dropped, and so are leading zeros: a digit followed by digits and
    underscores, with or without a minus sign, converts to the decimal
    numeral of the value of its digits, as long as that is below [2^53].
    Nothing asks that an underscore stands between two digits. *)
Theorem digit_separators_dropped (neg : bool) (d : char) (ds : jsstring) (indent : Z) :
  Lexer.isDigit d = true -> forallb Lexer.isDigit_ ds = true ->
  digitsValue 10 (d :: dropUnderscores ds) < 2 ^ 53 ->
  let n := digitsValue 10 (d :: dropUnderscores ds) in
  pythonDictToJson ((if neg then [ch "-"] else []) ++ d :: ds) indent
  = OK ((if (neg && negb (n =? 0))%bool then [ch "-"] else []) ++ decimalDigits n).
Proof.
  intros Hd Hds Hb n.
  pose proof (SeparatorFacts.separated_digits ds Hds) as Hds'.
  assert (Hd_ : Lexer.isDigit_ d = true) by (unfold Lexer.isDigit_; now rewrite Hd).
  assert (H0 : 0 <= n).
  { subst n. apply PrefixFacts.digitsValue_nonneg. lia. }
  unfold pythonDictToJson.
  rewrite IntegerFacts.trim_clean.
  2:{ rewrite forallb_app.
      rewrite (SeparatorFacts.separated_clean (d :: ds))
        by (cbn [forallb]; now rewrite Hd_, Hds).
      now destruct neg. }
  pose proof (SeparatorFacts.scanToken_separated neg d ds [] 0 Hd Hds eq_refl) as Hs.
  cbv zeta in Hs. rewrite app_nil_r in Hs.
  assert (Ht : Lexer.tokenize ((if neg then [ch "-"] else []) ++ d :: ds)
               = OK [mkToken NUMBER ((if neg then [ch "-"] else [])
                                     ++ d :: dropUnderscores ds) 0;
                     mkToken EOF []
                       (List.length ((if neg then [ch "-"] else []) ++ d :: ds) + 0)]).
  { apply StepFacts.Lexes_tokenize. unfold Lexer.init.
    destruct (IntegerFacts.digit_facts d Hd)
      as (_ & _ & _ & _ & _ & _ & _ & _ & _ & _ & _ & _ & _ & _ & _ & Db & Dh & _).
    destruct neg; cbn [app hd] in *.
    - eapply StepFacts.Lexes_scan; [reflexivity|reflexivity|exact Hs|].
      apply StepFacts.Lexes_nil.
    - eapply StepFacts.Lexes_scan; [exact Db|exact Dh|exact Hs|].
      apply StepFacts.Lexes_nil. }
  rewrite Ht. cbn [bind].
  assert (Hp : Parser.parse
                 [mkToken NUMBER ((if neg then [ch "-"] else [])
                                  ++ d :: dropUnderscores ds) 0;
                  mkToken EOF []
                    (List.length ((if neg then [ch "-"] else []) ++ d :: ds) + 0)]
               = OK (VNumber (numberOfInt neg n))).
  { unfold Parser.parse. cbn [List.length Parser.parseValue Parser.current bind type].
    unfold Parser.parseNumber. cbn [Parser.expect Parser.current bind type
                                      TokenType_eqb negb value Parser.next tl].
    rewrite IntegerFacts.Number_ofString_integer by assumption. fold n.
    assert (Hnan : isNaN (numberOfInt neg n) = false).
    { destruct (Z.eq_dec n 0) as [->|Hz]; [reflexivity|].
      rewrite NumeralFacts.numberOfInt_exact by lia.
      destruct (NumeralFacts.canon_value neg n 0) as (m & e & -> & _); [lia|lia|].
      reflexivity. }
    rewrite Hnan. reflexivity. }
  rewrite Hp. cbn [bind]. unfold JSON_stringify.
  rewrite IntegerFacts.serialize_integer by (split; [exact H0|exact Hb]).
  destruct neg; reflexivity.
Qed.

Lemma digit_separators_dropped_witness :
  pythonDictToJson (str "-00_1_000__") 2 = OK (str "-1000").
Proof.
  apply (digit_separators_dropped true (ch "0") (str "0_1_000__") 2);
    vm_compute; reflexivity.
Defined.
